(** * shardmap: a sharded Robin Hood hash map

    A shallow embedding of the Go package [shardmap]: the packed entry word,
    the single-threaded shard table ([newShard], [resize], [SetWithHash],
    [set], [GetWithHash], [DeleteWithHash], [remove], [Scan], [Keys],
    [Values]) and the map that routes keys to shards ([Init], [choose],
    [Set], [SetAccept], [Get], [Delete], [DeleteAccept], [Len], [Range],
    [Clear]).

    Conventions.
    - [uint64] values are [Z] in [0, 2^64); every operation that can leave
      that range is wrapped with [u64].
    - [int] values (capacities, lengths, thresholds) are [Z]; they are
      bounded by slice lengths and never come near the 64-bit limits.
    - The [for { ... }] loops carry an iteration budget.  A loop that
      exhausts its budget yields [Spin]; an index outside a slice yields
      [Panic]; a normal return is [Ret].
    - The per-shard locks are not modelled: every operation holds the lock of
      its shard from start to end, so the sequential reading is the one the
      locks enforce.
    - The key hasher ([xxh3.HashString] on the byte view of the key) and
      [runtime.NumCPU()] are parameters. *)

From Stdlib Require Import ZArith Lia.
From Stdlib Require Import Floats.SpecFloat.
From stdpp Require Import base list numbers.

Open Scope Z_scope.

(** ** Results of possibly non-returning code *)

Inductive result (A : Type) : Type :=
| Ret (a : A)
| Panic
| Spin.
Arguments Ret {A} a.
Arguments Panic {A}.
Arguments Spin {A}.

#[global] Instance result_ret : MRet result := fun A a => Ret a.
#[global] Instance result_bind : MBind result := fun A B f c =>
  match c with
  | Ret a => f a
  | Panic => Panic
  | Spin => Spin
  end.

(** [s[i]] for an unsigned index: out of range panics. *)
Definition index {A} (s : list A) (i : Z) : result A :=
  match s !! Z.to_nat i with
  | Some a => Ret a
  | None => Panic
  end.

(** [len(s)] as an [int]. *)
Definition len {A} (s : list A) : Z := Z.of_nat (length s).

(** ** Machine words and float64 *)

Definition u64 (x : Z) : Z := x mod 2 ^ 64.
Definition maxUint64 : Z := 2 ^ 64 - 1.
(** [^x] on a [uint64]. *)
Definition not64 (x : Z) : Z := Z.lxor maxUint64 x.

Definition f64_prec : Z := 53.
Definition f64_emax : Z := 1024.
(** [float64(n)] for an integer [n]. *)
Definition f64_of_int (n : Z) : spec_float :=
  binary_normalize f64_prec f64_emax n 0 false.
Definition f64_mul : spec_float -> spec_float -> spec_float :=
  SFmul f64_prec f64_emax.
(** The float64 nearest to the exact constant [p/q]: how Go converts an
    untyped constant expression, which it evaluates exactly. *)
Definition f64_const (p q : Z) : spec_float :=
  SFdiv f64_prec f64_emax (f64_of_int p) (f64_of_int q).
(** [int(x)]: truncation toward zero. *)
Definition f64_to_int (x : spec_float) : Z :=
  match x with
  | S754_finite s m e =>
      let a := if 0 <=? e then Z.pos m * 2 ^ e else Z.pos m / 2 ^ (- e) in
      if s then - a else a
  | _ => 0
  end.

(** [for x < bound { x *= 2 }], at most [fuel] doublings. *)
Fixpoint double_until (fuel : nat) (x bound : Z) : Z :=
  match fuel with
  | O => x
  | S f => if x <? bound then double_until f (x * 2) bound else x
  end.

(** ** Constants of the shard table *)

(** [loadFactor = 0.85] and the constant expression [1 - loadFactor]. *)
Definition loadFactor : spec_float := f64_const 85 100.
Definition oneMinusLoadFactor : spec_float := f64_const 15 100.
Definition dibBitSize : Z := 16.
Definition hashBitSize : Z := 64 - dibBitSize.
Definition maxHash : Z := Z.shiftr maxUint64 dibBitSize.
Definition maxDIB : Z := Z.shiftr maxUint64 hashBitSize.
Definition hashMask : Z := not64 maxDIB.

Definition makeHDIB (hash dib : Z) : Z :=
  Z.lor (u64 (Z.shiftl hash dibBitSize)) (Z.land dib maxDIB).
Definition makeHash (hash : Z) : Z := Z.shiftr hash dibBitSize.

(** ** The shard table *)

(** The zero value of a Go type. *)
Class Zero (A : Type) : Type := zero : A.
#[global] Instance Z_zero : Zero Z := 0.

Section Shard.
Context {K V : Type} `{EqDecision K} `{Zero K} `{Zero V}.
Definition zeroK : K := zero.
Definition zeroV : V := zero.

Record entry : Type := Entry {
  hdib : Z;   (* bitfield { hash:48 dib:16 } *)
  key : K;
  value : V
}.

Definition zeroEntry : entry := Entry 0 zeroK zeroV.

Definition dib (e : entry) : Z := Z.land (hdib e) maxDIB.
Definition hash (e : entry) : Z := Z.shiftr (hdib e) dibBitSize.
Definition setDIB (e : entry) (d : Z) : entry :=
  Entry (Z.lor (Z.land (hdib e) hashMask) (Z.land d maxDIB)) (key e) (value e).
Definition setHash (e : entry) (h : Z) : entry :=
  Entry (Z.lor (u64 (Z.shiftl h dibBitSize)) (Z.land (hdib e) maxDIB))
        (key e) (value e).
Definition setValue (e : entry) (v : V) : entry := Entry (hdib e) (key e) v.

Record mapShard : Type := MapShard {
  cap : Z;
  count : Z;        (* the field [length] *)
  growAt : Z;
  shrinkAt : Z;
  mask : Z;
  buckets : list entry
}.

Definition withBuckets (m : mapShard) (bs : list entry) : mapShard :=
  MapShard (cap m) (count m) (growAt m) (shrinkAt m) (mask m) bs.
Definition withCount (m : mapShard) (n : Z) : mapShard :=
  MapShard (cap m) n (growAt m) (shrinkAt m) (mask m) (buckets m).
Definition withCap (m : mapShard) (c : Z) : mapShard :=
  MapShard c (count m) (growAt m) (shrinkAt m) (mask m) (buckets m).

(** The zero value of [mapShard]. *)
Definition zeroShard : mapShard := MapShard 0 0 0 0 0 [].

(** The doubling loop of [newShard] runs at most 60 times for every
    capacity the package passes to it (at most 2^59). *)
Definition newShard (cap : Z) : mapShard :=
  let sz := double_until 64 8 cap in
  let bs := replicate (Z.to_nat sz) zeroEntry in
  MapShard cap 0
    (f64_to_int (f64_mul (f64_of_int (len bs)) loadFactor))
    (f64_to_int (f64_mul (f64_of_int (len bs)) oneMinusLoadFactor))
    (u64 (len bs - 1))
    bs.

(** The loop of [set]; [e] is the entry being carried, [i] the bucket. *)
Fixpoint set_loop (fuel : nat) (m : mapShard) (e : entry) (i : Z)
  : result (mapShard * (V * bool)) :=
  match fuel with
  | O => Spin
  | S f =>
      b ← index (buckets m) i;
      if dib b =? 0 then
        Ret (withCount (withBuckets m (<[Z.to_nat i := e]> (buckets m)))
                       (count m + 1),
             (zeroV, false))
      else if bool_decide (hash e = hash b) && bool_decide (key e = key b) then
        Ret (withBuckets m (<[Z.to_nat i := setValue b (value e)]> (buckets m)),
             (value b, true))
      else
        let '(e, m) :=
          if dib b <? dib e
          then (b, withBuckets m (<[Z.to_nat i := e]> (buckets m)))
          else (e, m) in
        set_loop f m (setDIB e (u64 (dib e + 1))) (Z.land (u64 (i + 1)) (mask m))
  end.

Definition set (fuel : nat) (m : mapShard) (hash_ : Z) (key_ : K) (value_ : V)
  : result (mapShard * (V * bool)) :=
  let e := Entry (makeHDIB hash_ 1) key_ value_ in
  set_loop fuel m e (Z.land (hash e) (mask m)).

(** The loop of [resize] over the old buckets. *)
Fixpoint reinsert (fuel : nat) (bs : list entry) (nmap : mapShard)
  : result mapShard :=
  match bs with
  | [] => Ret nmap
  | b :: bs' =>
      if dib b >? 0 then
        r ← set fuel nmap (hash b) (key b) (value b);
        reinsert fuel bs' r.1
      else reinsert fuel bs' nmap
  end.

Definition resize (fuel : nat) (m : mapShard) (newCap : Z) : result mapShard :=
  nmap ← reinsert fuel (buckets m) (newShard newCap);
  Ret (withCap nmap (cap m)).

Definition SetWithHash (fuel : nat) (m : mapShard) (hash_ : Z) (key_ : K)
    (value_ : V) : result (mapShard * (V * bool)) :=
  let m := if len (buckets m) =? 0 then newShard 0 else m in
  m ← (if count m >=? growAt m
       then resize fuel m (len (buckets m) * 2)
       else Ret m);
  set fuel m hash_ key_ value_.

Fixpoint get_loop (fuel : nat) (m : mapShard) (hash_ : Z) (key_ : K) (i : Z)
  : result (V * bool) :=
  match fuel with
  | O => Spin
  | S f =>
      b ← index (buckets m) i;
      if dib b =? 0 then Ret (zeroV, false)
      else if bool_decide (hash b = hash_) && bool_decide (key b = key_)
      then Ret (value b, true)
      else get_loop f m hash_ key_ (Z.land (u64 (i + 1)) (mask m))
  end.

Definition GetWithHash (fuel : nat) (m : mapShard) (hash_ : Z) (key_ : K)
  : result (V * bool) :=
  if len (buckets m) =? 0 then Ret (zeroV, false)
  else get_loop fuel m hash_ key_ (Z.land hash_ (mask m)).

Definition Len (m : mapShard) : Z := count m.

(** The backward-shift loop of [remove]; [i] is the current gap. *)
Fixpoint remove_loop (fuel : nat) (bs : list entry) (mask_ : Z) (i : Z)
  : result (list entry) :=
  match fuel with
  | O => Spin
  | S f =>
      let pi := i in
      let i := Z.land (u64 (i + 1)) mask_ in
      b ← index bs i;
      if dib b <=? 1 then
        _ ← index bs pi;
        Ret (<[Z.to_nat pi := zeroEntry]> bs)
      else
        _ ← index bs pi;
        remove_loop f (<[Z.to_nat pi := setDIB b (u64 (dib b - 1))]> bs) mask_ i
  end.

Definition remove (fuel : nat) (m : mapShard) (i : Z) : result mapShard :=
  b ← index (buckets m) i;
  bs ← remove_loop fuel (<[Z.to_nat i := setDIB b 0]> (buckets m)) (mask m) i;
  let m := withCount (withBuckets m bs) (count m - 1) in
  if (len (buckets m) >? cap m) && (count m <=? shrinkAt m)
  then resize fuel m (count m)
  else Ret m.

Fixpoint delete_loop (fuel : nat) (m : mapShard) (hash_ : Z) (key_ : K) (i : Z)
  : result (mapShard * (V * bool)) :=
  match fuel with
  | O => Spin
  | S f =>
      b ← index (buckets m) i;
      if dib b =? 0 then Ret (m, (zeroV, false))
      else if bool_decide (hash b = hash_) && bool_decide (key b = key_)
      then
        m' ← remove fuel m i;
        Ret (m', (value b, true))
      else delete_loop f m hash_ key_ (Z.land (u64 (i + 1)) (mask m))
  end.

Definition DeleteWithHash (fuel : nat) (m : mapShard) (hash_ : Z) (key_ : K)
  : result (mapShard * (V * bool)) :=
  if len (buckets m) =? 0 then Ret (m, (zeroV, false))
  else delete_loop fuel m hash_ key_ (Z.land hash_ (mask m)).

(** ** The concurrent map, read sequentially *)

(** [xxh3.HashString] applied to the byte view of a key. *)
Variable hashKey : K -> Z.

Record Map : Type := MkMap {
  mcap : Z;          (* the field [cap] *)
  shards : Z;
  shardIDMax : Z;
  maps : list mapShard
}.

Definition withMaps (m : Map) (ms : list mapShard) : Map :=
  MkMap (mcap m) (shards m) (shardIDMax m) ms.

(** [Init] on a map whose [cap] field is [cap_], on a host where
    [runtime.NumCPU()] is [numCPU]. *)
Definition Init (numCPU cap_ : Z) : Map :=
  let shards_ := double_until 64 1 (numCPU * 16) in
  let scap := Z.quot cap_ shards_ in
  MkMap cap_ shards_ (u64 (shards_ - 1))
        (replicate (Z.to_nat shards_) (newShard scap)).

Definition New (numCPU cap_ : Z) : Map := Init numCPU cap_.

Definition Clear (m : Map) : Map :=
  withMaps m (replicate (Z.to_nat (shards m))
                        (newShard (Z.quot (mcap m) (shards m)))).

Definition choose (m : Map) (key_ : K) : Z * Z :=
  let gkey := hashKey key_ in
  (Z.land gkey (shardIDMax m), makeHash gkey).

(** [m.maps[shard]] updated by a shard operation [op]. *)
Definition onShard {R} (m : Map) (shard : Z)
    (op : mapShard -> result (mapShard * R)) : result (Map * R) :=
  sh ← index (maps m) shard;
  r ← op sh;
  Ret (withMaps m (<[Z.to_nat shard := r.1]> (maps m)), r.2).

Definition Set_ (fuel : nat) (m : Map) (key_ : K) (value_ : V)
  : result (Map * (V * bool)) :=
  let '(shard, shardKey) := choose m key_ in
  onShard m shard (fun sh => SetWithHash fuel sh shardKey key_ value_).

Definition SetAccept (fuel : nat) (m : Map) (key_ : K) (value_ : V)
    (accept : option (V -> bool -> bool)) : result (Map * (V * bool)) :=
  let result_ := zeroV in
  let '(shard, shardKey) := choose m key_ in
  onShard m shard (fun sh =>
    r ← SetWithHash fuel sh shardKey key_ value_;
    let '(sh, (prev, replaced)) := r in
    match accept with
    | Some accept_ =>
        if negb (accept_ prev replaced) then
          if negb replaced then
            r' ← DeleteWithHash fuel sh shardKey key_;
            Ret (r'.1, (result_, false))
          else
            r' ← SetWithHash fuel sh shardKey key_ prev;
            Ret (r'.1, (result_, false))
        else Ret (sh, (prev, replaced))
    | None => Ret (sh, (prev, replaced))
    end).

Definition Get (fuel : nat) (m : Map) (key_ : K) : result (V * bool) :=
  let '(shard, shardKey) := choose m key_ in
  sh ← index (maps m) shard;
  GetWithHash fuel sh shardKey key_.

Definition Delete (fuel : nat) (m : Map) (key_ : K)
  : result (Map * (V * bool)) :=
  let '(shard, shardKey) := choose m key_ in
  onShard m shard (fun sh => DeleteWithHash fuel sh shardKey key_).

Definition DeleteAccept (fuel : nat) (m : Map) (key_ : K)
    (accept : option (V -> bool -> bool)) : result (Map * (V * bool)) :=
  let result_ := zeroV in
  let '(shard, shardKey) := choose m key_ in
  onShard m shard (fun sh =>
    r ← DeleteWithHash fuel sh shardKey key_;
    let '(sh, (prev, deleted)) := r in
    match accept with
    | Some accept_ =>
        if negb (accept_ prev deleted) then
          if deleted then
            r' ← SetWithHash fuel sh shardKey key_ prev;
            Ret (r'.1, (result_, false))
          else Ret (sh, (result_, false))
        else Ret (sh, (prev, deleted))
    | None => Ret (sh, (prev, deleted))
    end).

(** [Map.Len]: the sum of the shards' length fields. *)
Definition MapLen (m : Map) : Z :=
  foldl (fun acc sh => acc + Len sh) 0 (maps m).

(** ** Vocabulary of the specification *)

(** The number of buckets whose displacement field is nonzero. *)
Definition occupied (bs : list entry) : Z :=
  len (filter (fun e => dib e <> 0) bs).

(** The bucket array has a power-of-two length and [mask] is that length
    minus one. *)
Definition shaped (m : mapShard) : Prop :=
  exists k, 0 <= k < 64 /\ len (buckets m) = 2 ^ k /\ mask m = 2 ^ k - 1.

(** [grow_at = floor(buckets.length * 0.85)] and
    [shrink_at = floor(buckets.length * 0.15)], in exact arithmetic. *)
Definition thresholds_ok (m : mapShard) : Prop :=
  growAt m = len (buckets m) * 85 / 100 /\
  shrinkAt m = len (buckets m) * 15 / 100.

(** Everything of a table but its entries and its length field. *)
Definition same_frame (m m' : mapShard) : Prop :=
  cap m' = cap m /\ growAt m' = growAt m /\ shrinkAt m' = shrinkAt m /\
  mask m' = mask m /\ len (buckets m') = len (buckets m).

(** What a returning probe leaves behind: the frame of the table, one more
    entry unless a value was replaced, and at most as many more occupied
    buckets. *)
Definition set_post (m m' : mapShard) (replaced : bool) : Prop :=
  same_frame m m' /\
  count m' = (if replaced then count m else count m + 1) /\
  occupied (buckets m') - count m' <= occupied (buckets m) - count m.

(** Sequences of calls on one shard table. *)
Inductive shard_op : Type :=
| OpSet (hash_ : Z) (key_ : K) (value_ : V)
| OpDelete (hash_ : Z) (key_ : K).

Definition apply_op (fuel : nat) (m : mapShard) (op : shard_op)
  : result mapShard :=
  match op with
  | OpSet h k v => r ← SetWithHash fuel m h k v; Ret r.1
  | OpDelete h k => r ← DeleteWithHash fuel m h k; Ret r.1
  end.

Fixpoint run_ops (fuel : nat) (ops : list shard_op) (m : mapShard)
  : result mapShard :=
  match ops with
  | [] => Ret m
  | op :: ops' => m' ← apply_op fuel m op; run_ops fuel ops' m'
  end.

(** A table state that some terminating sequence of [SetWithHash] and
    [DeleteWithHash] calls produces from a freshly constructed table. *)
Definition reachable (m : mapShard) : Prop :=
  exists (c : Z) (fuel : nat) (ops : list shard_op),
    run_ops fuel ops (newShard c) = Ret m.

(** Sequences of calls on the map. *)
Inductive map_op : Type :=
| MSet (key_ : K) (value_ : V)
| MDelete (key_ : K).

Definition apply_map_op (fuel : nat) (m : Map) (op : map_op) : result Map :=
  match op with
  | MSet k v => r ← Set_ fuel m k v; Ret r.1
  | MDelete k => r ← Delete fuel m k; Ret r.1
  end.

Fixpoint run_map_ops (fuel : nat) (ops : list map_op) (m : Map) : result Map :=
  match ops with
  | [] => Ret m
  | op :: ops' => m' ← apply_map_op fuel m op; run_map_ops fuel ops' m'
  end.

(** A map call and the shard call it makes when it is routed to shard [s]. *)
Inductive routed (M : Map) (s : Z) : map_op -> shard_op -> Prop :=
| routed_set k v :
    (choose M k).1 = s ->
    routed M s (MSet k v) (OpSet (choose M k).2 k v)
| routed_delete k :
    (choose M k).1 = s ->
    routed M s (MDelete k) (OpDelete (choose M k).2 k).

(** An absent [accept] function, or one that accepts whatever it is
    shown. *)
Definition accepting (accept : option (V -> bool -> bool)) : Prop :=
  match accept with
  | Some f => forall prev b, f prev b = true
  | None => True
  end.

(** The router as the specification words it: the digest shifted right by
    [log2(shard_count)] bits. *)
Definition choose_spec (m : Map) (key_ : K) : Z * Z :=
  let digest := hashKey key_ in
  (Z.land digest (shardIDMax m), Z.shiftr digest (Z.log2 (shards m))).

End Shard.

(** Type parameters are written out where Go writes them:
    [entry[K, V]], [newShard[K, V](cap)]. *)
Arguments entry : clear implicits.
Arguments mapShard : clear implicits.
Arguments Map : clear implicits.
Arguments zeroEntry K V {_ _}.
Arguments zeroShard : clear implicits.
Arguments newShard K V {_ _} cap.
Arguments Init K V {_ _} numCPU cap_.
Arguments New K V {_ _} numCPU cap_.

Arguments shard_op : clear implicits.
Arguments map_op : clear implicits.

(** ** A concrete instance: integer keys and values

    The hasher puts the key in the bits above the displacement width, so
    that key [k] is routed to shard 0 with hash [k]. *)
Definition demoHash (k : Z) : Z := u64 (k * 65536).

(** Nine keys set into a table built for 33 entries, then one deleted. *)
Definition nine_sets : list (shard_op Z Z) :=
  map (fun k => OpSet k k (k + 100)) (map Z.of_nat (seq 0 9)).
Definition nine_then_delete : list (shard_op Z Z) :=
  nine_sets ++ [OpDelete 8 8].

(** The same through the map, on a one-CPU host (16 shards) with capacity
    528, that is 33 per shard. *)
Definition eight_sets_map : list (map_op Z Z) :=
  map (fun k => MSet k (k + 100)) (map Z.of_nat (seq 0 8)).
Definition nine_sets_map : list (map_op Z Z) :=
  map (fun k => MSet k (k + 100)) (map Z.of_nat (seq 0 9)).
Definition nine_then_delete_map : list (map_op Z Z) :=
  nine_sets_map ++ [MDelete 8].

(** An [accept] function that rejects whatever it is shown. *)
Definition reject (prev : Z) (changed : bool) : bool := false.

(** Every bucket is occupied and none holds the given hash and key. *)
Definition full_without {K V} `{EqDecision K} (m : mapShard K V) (h : Z) (k : K)
  : Prop :=
  Forall (fun b => dib b <> 0 /\ ~ (hash b = h /\ key b = k)) (buckets m).

(** ** Colliding keys

    Keys number 0, 1, 2, ... whose hashes all select bucket 0 of every table
    of at most 2^17 buckets.  Inserted in this order they fill buckets
    0, 1, 2, ..., the entry in bucket [i] at displacement [i + 1]. *)
Section Collide.
Context {K V : Type} `{Zero K} `{Zero V}.
Variable hs : nat -> Z.
Variable ks : nat -> K.
Variable vs : nat -> V.

Definition run_entry (i : nat) : entry K V :=
  Entry (makeHDIB (hs i) (Z.of_nat i + 1)) (ks i) (vs i).

Definition run_buckets (L n : nat) : list (entry K V) :=
  map run_entry (seq 0 n) ++ replicate (L - n) (zeroEntry K V).

(** The table of [2^k] buckets, created for capacity hint 0 and grown, that
    holds the first [n] colliding entries. *)
Definition run_shard (k : Z) (n : nat) : mapShard K V :=
  withCap
    (withCount
       (withBuckets (newShard K V (2 ^ k)) (run_buckets (Z.to_nat (2 ^ k)) n))
       (Z.of_nat n))
    0.

Definition run_sets (n : nat) : list (shard_op K V) :=
  map (fun i => OpSet (hs i) (ks i) (vs i)) (seq 0 n).

Definition run_map_sets (n : nat) : list (map_op K V) :=
  map (fun i => MSet (ks i) (vs i)) (seq 0 n).

End Collide.

(** The map, created with capacity 0, after the first [n] colliding keys:
    shard [s], to which they all go, holds the run. *)
Definition run_map {K V : Type} `{Zero K} `{Zero V}
    (hashKey : K -> Z) (ks : nat -> K) (vs : nat -> V)
    (numCPU s k : Z) (n : nat) : Map K V :=
  let M0 := New K V numCPU 0 in
  withMaps M0
    (<[Z.to_nat s := run_shard (fun i => (choose hashKey M0 (ks i)).2) ks vs k n]>
       (maps M0)).

(** A hasher under which the keys 0, 1, 2, ... collide: every digest is a
    multiple of 2^33, so every key goes to shard 0 (of at most 2^16 shards)
    with a hash whose 17 low bits are zero. *)
Definition collideHash (k : Z) : Z := u64 (k * 2 ^ 33).
Definition collideKey (i : nat) : Z := Z.of_nat i.
Definition collideValue (i : nat) : Z := Z.of_nat i + 1.

(** What the proofs need to know about the sizes 2^3 .. 2^17: the grow
    threshold is below the size, it more than keeps up when the size
    doubles, and only the largest size holds 65535 entries without
    growing. *)
Definition growAt_of (k : Z) : Z :=
  f64_to_int (f64_mul (f64_of_int (2 ^ k)) loadFactor).

Definition run_size_check (k : Z) : bool :=
  (growAt_of k <? 2 ^ k) &&
  (growAt_of k + 1 <=? growAt_of (k + 1)) &&
  ((k =? 17) || (growAt_of k <? 65535)) &&
  (65535 <? growAt_of 17).

(** ** Executable checks used by the proofs *)

(** The float64 thresholds of a table of [2^k] buckets agree with the exact
    floors. *)
Definition thresholds_check (k : Z) : bool :=
  let n := 2 ^ k in
  (f64_to_int (f64_mul (f64_of_int n) loadFactor) =? n * 85 / 100) &&
  (f64_to_int (f64_mul (f64_of_int n) oneMinusLoadFactor) =? n * 15 / 100).

(** ** Iteration: [Scan], [Keys], [Values] and [Range] *)

Section Iterate.
Context {K V : Type} `{EqDecision K} `{Zero K} `{Zero V}.

(** The loop of [Scan] over the buckets, in index order.  The callback is a
    Go closure: the variables it has captured are the state [St] that it
    transforms, and it returns [false] to stop the scan. *)
Fixpoint scan_loop {St : Type} (bs : list (entry K V))
    (iter : K -> V -> St -> St * bool) (s : St) : St :=
  match bs with
  | [] => s
  | b :: bs' =>
      if dib b >? 0 then
        let '(s', continue) := iter (key b) (value b) s in
        if negb continue then s' else scan_loop bs' iter s'
      else scan_loop bs' iter s
  end.

Definition Scan {St : Type} (m : mapShard K V)
    (iter : K -> V -> St -> St * bool) (s : St) : St :=
  scan_loop (buckets m) iter s.

(** The loops of [Keys] and [Values]: [append] of every occupied bucket. *)
Fixpoint keys_loop (bs : list (entry K V)) (keys : list K) : list K :=
  match bs with
  | [] => keys
  | b :: bs' => keys_loop bs' (if dib b >? 0 then keys ++ [key b] else keys)
  end.

Fixpoint values_loop (bs : list (entry K V)) (values : list V) : list V :=
  match bs with
  | [] => values
  | b :: bs' =>
      values_loop bs' (if dib b >? 0 then values ++ [value b] else values)
  end.

(** [make([]K, 0, m.length)] panics on a negative capacity.  It also panics
    on a capacity beyond the allocator's limit, which depends on the
    platform and on the size of [K]: this is left out, and the facts about
    [Keys] and [Values] are stated for a length of at most the number of
    buckets, which are allocated already. *)
Definition Keys (m : mapShard K V) : result (list K) :=
  if count m <? 0 then Panic else Ret (keys_loop (buckets m) []).

Definition Values (m : mapShard K V) : result (list V) :=
  if count m <? 0 then Panic else Ret (values_loop (buckets m) []).

(** The closure that [Range] hands to [Scan]: it runs [iter] and records in
    [done] that [iter] asked to stop. *)
Definition range_iter {St : Type} (iter : K -> V -> St -> St * bool)
    (key_ : K) (value_ : V) (st : St * bool) : (St * bool) * bool :=
  let '(s, done) := st in
  let '(s', continue) := iter key_ value_ s in
  if negb continue then ((s', true), false) else ((s', done), true).

(** The loop of [Range] over the shards [i], [i + 1], ...; [n] shards are
    left. *)
Fixpoint range_loop {St : Type} (n : nat) (m : Map K V) (i : Z)
    (iter : K -> V -> St -> St * bool) (st : St * bool) : result St :=
  match n with
  | O => Ret st.1
  | S n' =>
      sh ← index (maps m) i;
      let st' := Scan sh (range_iter iter) st in
      if st'.2 then Ret st'.1 else range_loop n' m (i + 1) iter st'
  end.

Definition Range {St : Type} (m : Map K V)
    (iter : K -> V -> St -> St * bool) (s : St) : result St :=
  range_loop (Z.to_nat (shards m)) m 0 iter (s, false).

End Iterate.

(** ** Well-formed tables *)

Section Invariant.
Context {K V : Type} `{EqDecision K} `{Zero K} `{Zero V}.

(** The bucket at index [i]. *)
Definition slot (bs : list (entry K V)) (i : Z) : entry K V :=
  default (zeroEntry K V) (bs !! Z.to_nat i).

(** The bucket that the walk of [set] for hash [h] looks at after [s] steps:
    the walk starts at [e.hash() & m.mask] for the entry [e] that [set]
    makes and goes on with [(i + 1) & m.mask], which on a table of
    power-of-two size with its mask is the next bucket on the ring. *)
Definition probe (m : mapShard K V) (h s : Z) : Z :=
  (Z.land (makeHash (makeHDIB h 1)) (mask m) + s) mod len (buckets m).

(** The code's test for the entry of hash [h] and key [k]. *)
Definition matches (b : entry K V) (h : Z) (k : K) : Prop :=
  hash b = h /\ key b = k.

(** An occupied bucket with hash [h], key [k] and value [v]. *)
Definition entry_is (b : entry K V) (h : Z) (k : K) (v : V) : Prop :=
  dib b <> 0 /\ matches b h k /\ value b = v.

(** Some bucket holds value [v] under hash [h] and key [k]. *)
Definition holds (bs : list (entry K V)) (h : Z) (k : K) (v : V) : Prop :=
  exists i, 0 <= i < len bs /\ entry_is (slot bs i) h k v.

Definition stored (m : mapShard K V) (h : Z) (k : K) (v : V) : Prop :=
  holds (buckets m) h k v.

(** The table holds nothing under hash [h] and key [k]. *)
Definition absent (m : mapShard K V) (h : Z) (k : K) : Prop :=
  forall v, ~ stored m h k v.

(** Every packed word is a 64-bit value. *)
Definition words_ok (bs : list (entry K V)) : Prop :=
  forall i, 0 <= i < len bs -> 0 <= hdib (slot bs i) < 2 ^ 64.

(** An occupied bucket lies [dib - 1] steps after the bucket that its hash
    selects. *)
Definition homes_ok (mask_ : Z) (bs : list (entry K V)) : Prop :=
  forall i, 0 <= i < len bs -> dib (slot bs i) <> 0 ->
    Z.land (hash (slot bs i)) mask_ = (i - (dib (slot bs i) - 1)) mod len bs.

(** Going one bucket forward, the displacement grows by at most one: there
    is no empty bucket between an entry and the bucket its hash selects, and
    no entry on that stretch that is closer to its own. *)
Definition steps_ok (bs : list (entry K V)) : Prop :=
  forall i, 0 <= i < len bs ->
    dib (slot bs ((i + 1) mod len bs)) <= dib (slot bs i) + 1.

(** No two occupied buckets have the same hash and key. *)
Definition keys_ok (bs : list (entry K V)) : Prop :=
  forall i j, 0 <= i < len bs -> 0 <= j < len bs ->
    dib (slot bs i) <> 0 -> dib (slot bs j) <> 0 ->
    matches (slot bs i) (hash (slot bs j)) (key (slot bs j)) ->
    i = j.

(** The Robin Hood layout. *)
Definition layout_ok (mask_ : Z) (bs : list (entry K V)) : Prop :=
  words_ok bs /\ homes_ok mask_ bs /\ steps_ok bs /\ keys_ok bs.

(** A table of 8 to 2^15 buckets in the Robin Hood layout, whose length
    field counts the occupied buckets and whose thresholds are the floors of
    85% and 15% of the size. *)
Record table_ok (m : mapShard K V) : Prop := TableOk {
  ok_shaped : shaped m;
  ok_size : 8 <= len (buckets m) <= 2 ^ 15;
  ok_layout : layout_ok (mask m) (buckets m);
  ok_count : count m = occupied (buckets m);
  ok_thresholds : thresholds_ok m
}.

(** No occupied bucket has the hash and key of [e]. *)
Definition unmatched (bs : list (entry K V)) (e : entry K V) : Prop :=
  forall p, 0 <= p < len bs -> dib (slot bs p) <> 0 ->
    ~ matches (slot bs p) (hash e) (key e).

(** The entry that the loop of [set] carries when it looks at bucket [i]:
    [i] is the bucket for its displacement, and the bucket before [i] holds
    an entry that is at most one step closer to its own. *)
Definition carried_ok (mask_ : Z) (bs : list (entry K V)) (e : entry K V)
    (i : Z) : Prop :=
  0 <= hdib e < 2 ^ 64 /\ 1 <= dib e /\
  Z.land (hash e) mask_ = (i - (dib e - 1)) mod len bs /\
  dib e <= dib (slot bs ((i - 1) mod len bs)) + 1.

(** A well-formed table with an empty bucket. *)
Definition table_wf (m : mapShard K V) : Prop :=
  table_ok m /\ count m < len (buckets m).

(** The state in which a shrink cannot fill the table: the table is not
    above its capacity hint, or has the minimum size, or holds more than
    [shrinkAt] entries. *)
Definition shrink_safe (m : mapShard K V) : Prop :=
  len (buckets m) <= cap m \/ len (buckets m) = 8 \/ shrinkAt m < count m.

(** The same entries under every hash and key. *)
Definition same_entries (m m' : mapShard K V) : Prop :=
  forall h k v, stored m' h k v <-> stored m h k v.

(** [m'] holds [v] under [h] and [k], and otherwise what [m] holds. *)
Definition entries_put (m m' : mapShard K V) (h : Z) (k : K) (v : V) : Prop :=
  forall h' k' v',
    stored m' h' k' v' <->
    (h' = h /\ k' = k /\ v' = v) \/ (~ (h' = h /\ k' = k) /\ stored m h' k' v').

(** [m'] holds nothing under [h] and [k], and otherwise what [m] holds. *)
Definition entries_del (m m' : mapShard K V) (h : Z) (k : K) : Prop :=
  forall h' k' v',
    stored m' h' k' v' <-> ~ (h' = h /\ k' = k) /\ stored m h' k' v'.

(** Some entry of the list is an occupied bucket with [h], [k] and [v]. *)
Definition among (bs : list (entry K V)) (h : Z) (k : K) (v : V) : Prop :=
  exists b, b ∈ bs /\ entry_is b h k v.

(** The occupied entries of the list differ pairwise in hash or key, and all
    their packed words are 64-bit values. *)
Fixpoint distinct (bs : list (entry K V)) : Prop :=
  match bs with
  | [] => True
  | b :: bs' =>
      0 <= hdib b < 2 ^ 64 /\
      (dib b <> 0 -> forall v, ~ among bs' (hash b) (key b) v) /\
      distinct bs'
  end.

End Invariant.

(** ** What a Go map would hold after the same calls *)

Section Model.
Context {K V : Type} `{EqDecision K}.

(** The value under hash [h] and key [k] after one more call on a shard, and
    after a sequence of calls on a new one. *)
Definition after_op (h : Z) (k : K) (st : option V) (op : shard_op K V)
  : option V :=
  match op with
  | OpSet h' k' v' => if decide (h' = h /\ k' = k) then Some v' else st
  | OpDelete h' k' => if decide (h' = h /\ k' = k) then None else st
  end.

Definition after_ops (ops : list (shard_op K V)) (h : Z) (k : K) : option V :=
  foldl (after_op h k) None ops.

(** The same for calls on the map, by key. *)
Definition after_map_op (k : K) (st : option V) (op : map_op K V) : option V :=
  match op with
  | MSet k' v' => if decide (k' = k) then Some v' else st
  | MDelete k' => if decide (k' = k) then None else st
  end.

Definition after_map_ops (ops : list (map_op K V)) (k : K) : option V :=
  foldl (after_map_op k) None ops.

(** The hash that a shard call is given. *)
Definition op_hash (op : shard_op K V) : Z :=
  match op with
  | OpSet h _ _ => h
  | OpDelete h _ => h
  end.

End Model.

(** The capacity hints for which a shrink never fills the table: up to the
    minimum size, or a power of two (here up to 2^14). *)
Definition safe_cap (c : Z) : Prop :=
  c <= 8 \/ exists j, 3 <= j <= 14 /\ c = 2 ^ j.

(** ** Well-formed maps *)

Section MapInvariant.
Context {K V : Type} `{EqDecision K} `{Zero K} `{Zero V}.
Variable hashKey : K -> Z.

(** The map holds [v] under [k]: the shard that [choose] selects for [k]
    holds it, under the hash that [choose] computes. *)
Definition has (M : Map K V) (k : K) (v : V) : Prop :=
  exists sh,
    maps M !! Z.to_nat (choose hashKey M k).1 = Some sh /\
    stored sh (choose hashKey M k).2 k v.

(** Every entry of shard number [s] is where [choose] sends its key. *)
Definition shard_routes (M : Map K V) (s : nat) (sh : mapShard K V) : Prop :=
  forall h k v, stored sh h k v -> choose hashKey M k = (Z.of_nat s, h).

(** The shard count is a power of two, with its mask, and every shard is a
    well-formed table with an empty bucket that a shrink cannot fill and
    that holds the keys routed to it. *)
Definition map_ok (M : Map K V) : Prop :=
  (exists j, 0 <= j <= 64 /\ shards M = 2 ^ j /\ shardIDMax M = 2 ^ j - 1 /\
             len (maps M) = 2 ^ j) /\
  forall s sh, maps M !! s = Some sh ->
    table_wf sh /\ shrink_safe sh /\ shard_routes M s sh.

(** The same without the condition on shrinking: the shard count is a power
    of two, with its mask, and every shard is a well-formed table with an
    empty bucket that holds the keys routed to it. *)
Definition map_wf (M : Map K V) : Prop :=
  (exists j, 0 <= j <= 64 /\ shards M = 2 ^ j /\ shardIDMax M = 2 ^ j - 1 /\
             len (maps M) = 2 ^ j) /\
  forall s sh, maps M !! s = Some sh -> table_wf sh /\ shard_routes M s sh.

(** No shard has more than [n] buckets. *)
Definition shards_within (n : Z) (M : Map K V) : Prop :=
  Forall (fun sh => len (buckets sh) <= n) (maps M).

(** No shard has more than [T] entries or more than [max L (4 T)]
    buckets. *)
Definition shards_sized (L T : Z) (M : Map K V) : Prop :=
  Forall (fun sh => count sh <= T /\ len (buckets sh) <= Z.max L (4 * T))
         (maps M).

(** The keys and values of the occupied buckets, in bucket order, and those
    of all shards, in shard order. *)
Definition items (bs : list (entry K V)) : list (K * V) :=
  map (fun b => (key b, value b)) (filter (fun b => dib b <> 0) bs).

Definition map_items (M : Map K V) : list (K * V) :=
  concat (map (fun sh => items (buckets sh)) (maps M)).

(** A left fold that stops when the callback returns [false]; the flag
    tells whether it stopped. *)
Fixpoint visit {St : Type} (l : list (K * V)) (iter : K -> V -> St -> St * bool)
    (s : St) : St * bool :=
  match l with
  | [] => (s, false)
  | (k, v) :: l' =>
      let '(s', continue) := iter k v s in
      if continue then visit l' iter s' else (s', true)
  end.

End MapInvariant.

(** The size [newShard] allocates for the length at which a table of [2^k]
    buckets shrinks is above that length, and the length is above the shrink
    threshold of the new size unless the new size is the minimum. *)
Definition shrink_check (k : Z) : bool :=
  let s := 2 ^ k * 15 / 100 in
  let n' := double_until 64 8 s in
  (s <? n') && ((n' =? 8) || (n' * 15 / 100 <? s)).

(** ** Tables and maps with entries

    The states at which the facts further down are instantiated. *)

(** Iterations enough for every loop on a table of up to 2^15 buckets. *)
Definition demo_fuel : nat := Z.to_nat (2 ^ 16).

(** The table that a sequence of calls makes of [newShard(0)]. *)
Definition table_after (ops : list (shard_op Z Z)) : mapShard Z Z :=
  match run_ops demo_fuel ops (newShard Z Z 0) with
  | Ret m => m
  | _ => zeroShard Z Z
  end.

(** Five keys in a table of 8 buckets.  The hashes 0, 8 and 16 select
    bucket 0 and fill the buckets 0, 1 and 2; the hashes 1 and 2 find their
    buckets taken and end in the buckets 3 and 4. *)
Definition five_sets : list (shard_op Z Z) :=
  [OpSet 0 10 110; OpSet 8 11 111; OpSet 16 12 112; OpSet 1 13 113;
   OpSet 2 14 114].

(** A sixth key, in bucket 5, brings the length to the grow threshold of a
    table of 8 buckets. *)
Definition six_sets : list (shard_op Z Z) := five_sets ++ [OpSet 3 15 115].

(** A seventh key grows the table to 16 buckets; four deletions then leave
    the hashes 0, 16 and 8 in the buckets 0, 1 and 8, one entry more than
    the shrink threshold of 16 buckets. *)
Definition grown_then_three : list (shard_op Z Z) :=
  six_sets ++ [OpSet 4 16 116; OpDelete 1 13; OpDelete 2 14; OpDelete 3 15;
               OpDelete 4 16].

(** A callback for [Scan] and [Range] that notes the keys it is shown and
    stops at the key [stop]. *)
Definition note_until (stop : Z) (k v : Z) (seen : list Z) : list Z * bool :=
  (seen ++ [k], negb (k =? stop)).

(** An [accept] function that accepts whatever it is shown. *)
Definition accept_all (prev : Z) (changed : bool) : bool := true.

(** The map that a sequence of calls makes of [New(0)] on a one-CPU host
    (16 shards of 8 buckets), the key being its own digest: key [k] goes to
    shard [k mod 16] with hash [k / 2^16]. *)
Definition map_after (ops : list (map_op Z Z)) : Map Z Z :=
  match run_map_ops u64 demo_fuel ops (New Z Z 1 0) with
  | Ret M => M
  | _ => New Z Z 1 0
  end.

(** The keys 0, 16 and 32 go to shard 0, all with hash 0, and fill its
    buckets 0, 1 and 2; the keys 1 and 2 go to the shards 1 and 2. *)
Definition five_sets_map : list (map_op Z Z) :=
  [MSet 0 100; MSet 16 116; MSet 32 132; MSet 1 101; MSet 2 102].

(** * Facts *)

(** ** Lists and results *)

Lemma len_replicate {A} (n : Z) (x : A) :
  0 <= n -> len (replicate (Z.to_nat n) x) = n.
Proof. intros Hn. unfold len. rewrite length_replicate. lia. Qed.

Lemma len_insert {A} (l : list A) (i : nat) (x : A) : len (<[i := x]> l) = len l.
Proof. unfold len. now rewrite length_insert. Qed.

Lemma index_Ret {A} (s : list A) (i : Z) (a : A) :
  index s i = Ret a <-> s !! Z.to_nat i = Some a.
Proof.
  unfold index. destruct (s !! Z.to_nat i); split; intros E; congruence.
Qed.

Lemma index_in_range {A} (s : list A) (i : Z) :
  0 <= i < len s -> exists a, index s i = Ret a.
Proof.
  intros Hi. unfold index, len in *.
  destruct (lookup_lt_is_Some_2 s (Z.to_nat i)) as [a Ha]; [lia|].
  rewrite Ha. eauto.
Qed.

(** ** Doubling loops *)

Lemma double_until_spec (fuel : nat) (x bound : Z) :
  0 < x ->
  exists j : nat,
    (j <= fuel)%nat /\
    double_until fuel x bound = x * 2 ^ Z.of_nat j /\
    (j = O \/ x * 2 ^ (Z.of_nat j - 1) < bound).
Proof.
  revert x. induction fuel as [|f IH]; intros x Hx; simpl.
  - exists O. split; [lia|]. split; [rewrite Z.mul_1_r; reflexivity | now left].
  - destruct (Z.ltb_spec x bound) as [Hlt|Hge].
    + destruct (IH (x * 2)) as (j & Hj & E & Hlast); [lia|].
      exists (S j). split; [lia|]. split.
      * rewrite E. rewrite Nat2Z.inj_succ, Z.pow_succ_r by lia. ring.
      * right. destruct j as [|j].
        -- simpl. rewrite Z.mul_1_r. exact Hlt.
        -- destruct Hlast as [Hj0|Hlast]; [discriminate|].
           replace (Z.of_nat (S (S j)) - 1) with (Z.succ (Z.of_nat (S j) - 1)) by lia.
           rewrite Z.pow_succ_r by lia.
           replace (x * (2 * 2 ^ (Z.of_nat (S j) - 1)))
             with (x * 2 * 2 ^ (Z.of_nat (S j) - 1)) by ring.
           exact Hlast.
    + exists O. split; [lia|]. split; [rewrite Z.mul_1_r; reflexivity | now left].
Qed.

Lemma double_until_pow2 (fuel : nat) (a : Z) (bound : Z) :
  0 <= a ->
  exists k, a <= k <= a + Z.of_nat fuel /\
            double_until fuel (2 ^ a) bound = 2 ^ k /\
            (k = a \/ 2 ^ (k - 1) < bound).
Proof.
  intros Ha.
  destruct (double_until_spec fuel (2 ^ a) bound) as (j & Hj & E & Hlast); [lia|].
  exists (a + Z.of_nat j). split; [lia|]. split.
  - rewrite E, Z.pow_add_r by lia. reflexivity.
  - destruct Hlast as [->|Hlast]; [left; lia|].
    destruct j as [|j]; [left; lia|right].
    replace (a + Z.of_nat (S j) - 1) with (a + (Z.of_nat (S j) - 1)) by lia.
    rewrite Z.pow_add_r by lia. exact Hlast.
Qed.

Lemma double_until_ge (fuel : nat) (x bound : Z) :
  0 < x -> bound <= x * 2 ^ Z.of_nat fuel -> bound <= double_until fuel x bound.
Proof.
  revert x. induction fuel as [|f IH]; intros x Hx Hb; simpl.
  - simpl in Hb. lia.
  - destruct (Z.ltb_spec x bound); [|lia].
    apply IH; [lia|].
    rewrite Nat2Z.inj_succ, Z.pow_succ_r in Hb by lia. lia.
Qed.

(** ** Bit fields of the packed word *)

Lemma maxDIB_ones : maxDIB = Z.ones 16.
Proof. reflexivity. Qed.

Lemma hashMask_ones : hashMask = Z.shiftl (Z.ones 48) 16.
Proof. reflexivity. Qed.

Lemma land_maxDIB (x : Z) : Z.land x maxDIB = x mod 2 ^ 16.
Proof. rewrite maxDIB_ones. apply Z.land_ones. lia. Qed.

Lemma testbit_above (b n i : Z) :
  0 <= b < 2 ^ n -> 0 <= n <= i -> Z.testbit b i = false.
Proof.
  intros Hb Hi. destruct (Z.eq_dec b 0) as [->|]; [apply Z.bits_0|].
  apply Z.bits_above_log2; [lia|].
  assert (Z.log2 b < n) by (apply Z.log2_lt_pow2; lia). lia.
Qed.

Lemma land_shift_low (a b n : Z) :
  0 <= n -> 0 <= b < 2 ^ n -> Z.land (Z.shiftl a n) b = 0.
Proof.
  intros Hn Hb. apply Z.bits_inj'. intros i Hi.
  rewrite Z.land_spec, Z.bits_0.
  destruct (Z.lt_ge_cases i n).
  - rewrite Z.shiftl_spec_low by lia. reflexivity.
  - rewrite (testbit_above b n) by lia. apply andb_false_r.
Qed.

Lemma lor_shift_low (a b n : Z) :
  0 <= n -> 0 <= b < 2 ^ n -> Z.lor (a * 2 ^ n) b = a * 2 ^ n + b.
Proof.
  intros Hn Hb. rewrite <- Z.shiftl_mul_pow2 by lia.
  symmetry. rewrite <- Z.lxor_lor by (apply land_shift_low; lia).
  apply Z.add_nocarry_lxor, land_shift_low; lia.
Qed.

Lemma land_hashMask (x : Z) :
  0 <= x < 2 ^ 64 -> Z.land x hashMask = x / 2 ^ 16 * 2 ^ 16.
Proof.
  intros Hx. rewrite hashMask_ones.
  rewrite <- Z.shiftl_mul_pow2, <- Z.shiftr_div_pow2 by lia.
  apply Z.bits_inj'. intros i Hi.
  rewrite Z.land_spec.
  destruct (Z.lt_ge_cases i 16).
  - rewrite !Z.shiftl_spec_low by lia. apply andb_false_r.
  - rewrite !Z.shiftl_spec by lia. rewrite Z.shiftr_spec by lia.
    replace (i - 16 + 16) with i by lia.
    destruct (Z.lt_ge_cases i 64).
    + rewrite Z.ones_spec_low by lia. apply andb_true_r.
    + rewrite Z.ones_spec_high by lia. rewrite andb_false_r.
      symmetry. apply (testbit_above x 64); lia.
Qed.

Lemma makeHDIB_val (h d : Z) :
  0 <= h < 2 ^ 48 -> makeHDIB h d = h * 2 ^ 16 + d mod 2 ^ 16.
Proof.
  intros Hh. unfold makeHDIB, u64, dibBitSize.
  rewrite land_maxDIB, Z.shiftl_mul_pow2 by lia.
  rewrite Z.mod_small by lia.
  apply lor_shift_low; [lia|]. apply Z.mod_pos_bound. lia.
Qed.

Lemma makeHDIB_range (h d : Z) : 0 <= h < 2 ^ 48 -> 0 <= makeHDIB h d < 2 ^ 64.
Proof.
  intros Hh. rewrite makeHDIB_val by lia.
  pose proof (Z.mod_pos_bound d (2 ^ 16)). lia.
Qed.

Section Bits.
Context {K V : Type}.
Implicit Types (e : entry K V).

Lemma dib_mod e : dib e = hdib e mod 2 ^ 16.
Proof. apply land_maxDIB. Qed.

Lemma dib_range e : 0 <= dib e < 2 ^ 16.
Proof. rewrite dib_mod. apply Z.mod_pos_bound. lia. Qed.

Lemma hash_div e : hash e = hdib e / 2 ^ 16.
Proof. unfold hash, dibBitSize. apply Z.shiftr_div_pow2. lia. Qed.

Lemma dib_make (h d : Z) (k : K) (v : V) :
  0 <= h < 2 ^ 48 -> dib (Entry (makeHDIB h d) k v) = d mod 2 ^ 16.
Proof.
  intros Hh. rewrite dib_mod. simpl. rewrite makeHDIB_val by lia.
  rewrite Z.add_comm, Z.mod_add by lia. apply Z.mod_mod. lia.
Qed.

Lemma hash_make (h d : Z) (k : K) (v : V) :
  0 <= h < 2 ^ 48 -> hash (Entry (makeHDIB h d) k v) = h.
Proof.
  intros Hh. rewrite hash_div. simpl. rewrite makeHDIB_val by lia.
  rewrite Z.add_comm, Z.div_add by lia.
  rewrite Z.div_small by (apply Z.mod_pos_bound; lia). lia.
Qed.

Lemma setDIB_make (h d d' : Z) (k : K) (v : V) :
  0 <= h < 2 ^ 48 ->
  setDIB (Entry (makeHDIB h d) k v) d' = Entry (makeHDIB h d') k v.
Proof.
  intros Hh. unfold setDIB. simpl. f_equal.
  rewrite land_hashMask by (apply makeHDIB_range; lia).
  rewrite land_maxDIB, !makeHDIB_val by lia.
  rewrite (Z.add_comm (h * 2 ^ 16)), Z.div_add by lia.
  rewrite Z.div_small by (apply Z.mod_pos_bound; lia).
  apply lor_shift_low; [lia|]. apply Z.mod_pos_bound. lia.
Qed.

End Bits.

(** ** Thresholds *)

Lemma thresholds_check_all :
  forallb thresholds_check (map Z.of_nat (seq 3 53)) = true.
Proof. vm_compute. reflexivity. Qed.

Lemma thresholds_check_at (k : Z) : 3 <= k <= 55 -> thresholds_check k = true.
Proof.
  intros Hk. pose proof thresholds_check_all as Hall.
  rewrite forallb_forall in Hall. apply Hall.
  apply in_map_iff. exists (Z.to_nat k). split; [lia|].
  apply in_seq. lia.
Qed.

Lemma pow2_lt_inv (a b : Z) : 0 <= a -> 0 <= b -> 2 ^ a < 2 ^ b -> a < b.
Proof. intros Ha Hb H. apply (Z.pow_lt_mono_r_iff 2); lia. Qed.

Lemma bind_Ret_inv {A B} (c : result A) (f : A -> result B) (b : B) :
  c ≫= f = Ret b -> exists a, c = Ret a /\ f a = Ret b.
Proof. destruct c; simpl; intros E; try discriminate. eauto. Qed.

Section Thresholds.
Context {K V : Type} `{EqDecision K} `{Zero K} `{Zero V}.
Implicit Types (m nmap : mapShard K V) (e b : entry K V).

Lemma newShard_len (c : Z) :
  exists k, 3 <= k <= 67 /\ len (buckets (newShard K V c)) = 2 ^ k /\
            (k = 3 \/ 2 ^ (k - 1) < c).
Proof.
  destruct (double_until_pow2 64 3 c) as (k & Hk & E & Hlast); [lia|].
  exists k. split; [lia|]. split; [|exact Hlast].
  unfold newShard, buckets. change 8 with (2 ^ 3). rewrite E.
  apply len_replicate. lia.
Qed.

Lemma newShard_len_bounded (c : Z) :
  c <= 2 ^ 55 ->
  exists k, 3 <= k <= 55 /\ len (buckets (newShard K V c)) = 2 ^ k.
Proof.
  intros Hc. destruct (newShard_len c) as (k & Hk & E & Hlast).
  exists k. split; [|exact E].
  destruct Hlast as [->|Hlast]; [lia|].
  assert (k - 1 < 55) by (apply pow2_lt_inv; lia). lia.
Qed.

Lemma newShard_pow2_len (k : Z) :
  3 <= k <= 60 -> len (buckets (newShard K V (2 ^ k))) = 2 ^ k.
Proof.
  intros Hk. destruct (newShard_len (2 ^ k)) as (k' & Hk' & E & Hlast).
  rewrite E. f_equal.
  assert (2 ^ k <= 2 ^ k') as Hge.
  { rewrite <- E. unfold newShard, buckets. rewrite len_replicate.
    - apply double_until_ge; [lia|]. change 8 with (2 ^ 3).
      rewrite <- Z.pow_add_r by lia. apply Z.pow_le_mono_r; lia.
    - pose proof (double_until_ge 64 8 (2 ^ k)). 
      assert (0 < 2 ^ k) by (apply Z.pow_pos_nonneg; lia).
      assert (2 ^ k <= 8 * 2 ^ Z.of_nat 64).
      { change 8 with (2 ^ 3). rewrite <- Z.pow_add_r by lia.
        apply Z.pow_le_mono_r; lia. }
      lia. }
  assert (k <= k') by (apply Z.pow_le_mono_r_iff in Hge; lia).
  destruct Hlast as [->|Hlast]; [lia|].
  assert (k' - 1 < k) by (apply pow2_lt_inv; lia). lia.
Qed.

Lemma newShard_thresholds_ok (c : Z) :
  c <= 2 ^ 55 -> thresholds_ok (newShard K V c).
Proof.
  intros Hc. destruct (newShard_len_bounded c Hc) as (k & Hk & E).
  pose proof (thresholds_check_at k Hk) as Hck.
  unfold thresholds_check in Hck. apply andb_prop in Hck as [H1 H2].
  apply Z.eqb_eq in H1, H2.
  unfold thresholds_ok. unfold newShard, growAt, shrinkAt, buckets in *.
  rewrite E. split; assumption.
Qed.

Lemma same_frame_refl m : same_frame m m.
Proof. repeat split. Qed.

Lemma same_frame_trans (m1 m2 m3 : mapShard K V) :
  same_frame m1 m2 -> same_frame m2 m3 -> same_frame m1 m3.
Proof. unfold same_frame. intuition congruence. Qed.

Lemma set_loop_frame fuel : forall m e i m' r,
  set_loop fuel m e i = Ret (m', r) -> same_frame m m'.
Proof.
  induction fuel as [|f IH]; intros m e i m' r Hrun; [discriminate|].
  cbn [set_loop] in Hrun. apply bind_Ret_inv in Hrun as (b & Hb & Hrun).
  destruct (dib b =? 0).
  { inversion Hrun; subst. repeat split. simpl. apply len_insert. }
  destruct (bool_decide (hash e = hash b) && bool_decide (key e = key b)).
  { inversion Hrun; subst. repeat split. simpl. apply len_insert. }
  destruct (dib b <? dib e).
  - apply IH in Hrun. eapply same_frame_trans; [|exact Hrun].
    repeat split. simpl. apply len_insert.
  - apply IH in Hrun. exact Hrun.
Qed.

Lemma set_frame fuel m h k v m' r :
  set fuel m h k v = Ret (m', r) -> same_frame m m'.
Proof. apply set_loop_frame. Qed.

Lemma reinsert_frame fuel bs : forall nmap m',
  reinsert fuel bs nmap = Ret m' -> same_frame nmap m'.
Proof.
  induction bs as [|b bs IH]; intros nmap m' Hrun; simpl in Hrun.
  - inversion Hrun. apply same_frame_refl.
  - destruct (dib b >? 0).
    + apply bind_Ret_inv in Hrun as ([m1 r] & Hset & Hrun).
      apply set_frame in Hset. apply IH in Hrun.
      eapply same_frame_trans; eassumption.
    + apply IH. exact Hrun.
Qed.

Lemma resize_frame fuel m c m' :
  resize fuel m c = Ret m' ->
  cap m' = cap m /\ growAt m' = growAt (newShard K V c) /\
  shrinkAt m' = shrinkAt (newShard K V c) /\ mask m' = mask (newShard K V c) /\
  len (buckets m') = len (buckets (newShard K V c)).
Proof.
  unfold resize. intros Hrun.
  apply bind_Ret_inv in Hrun as (nmap & Hre & Hrun).
  apply reinsert_frame in Hre. inversion Hrun; subst. simpl.
  unfold same_frame in Hre. intuition.
Qed.

Lemma resize_thresholds_ok fuel m c m' :
  c <= 2 ^ 55 -> resize fuel m c = Ret m' -> thresholds_ok m'.
Proof.
  intros Hc Hrun. apply resize_frame in Hrun as (_ & Hg & Hs & _ & Hl).
  pose proof (newShard_thresholds_ok c Hc) as [H1 H2].
  unfold thresholds_ok. rewrite Hg, Hs, Hl. split; assumption.
Qed.

(** C8.  Every shard table the code constructs for a capacity of at most
    2^55 (more buckets than any slice can hold) has a power-of-two bucket
    array and thresholds that are exactly the floors of 0.85 and 0.15 times
    its length, although they are computed in float64: this holds for
    [newShard] itself, hence for the tables built by [Init] and [Clear], and
    for the table a grow or shrink [resize] leaves behind. *)
Theorem newShard_thresholds_exact (c : Z) :
  c <= 2 ^ 55 ->
  (exists k, 3 <= k <= 55 /\ len (buckets (newShard K V c)) = 2 ^ k) /\
  thresholds_ok (newShard K V c) /\
  (forall fuel m m', resize fuel m c = Ret m' -> thresholds_ok m') /\
  (forall numCPU cap_,
     Z.quot cap_ (shards (Init K V numCPU cap_)) = c ->
     Forall thresholds_ok (maps (Init K V numCPU cap_))) /\
  (forall M : Map K V,
     Z.quot (mcap M) (shards M) = c -> Forall thresholds_ok (maps (Clear M))).
Proof.
  intros Hc. split; [apply newShard_len_bounded; exact Hc|].
  split; [apply newShard_thresholds_ok; exact Hc|].
  split; [intros fuel m m'; apply resize_thresholds_ok; exact Hc|].
  split.
  - intros numCPU cap_ E. unfold Init in *. simpl in *. rewrite E.
    apply Forall_replicate, newShard_thresholds_ok, Hc.
  - intros M E. unfold Clear. simpl. rewrite E.
    apply Forall_replicate, newShard_thresholds_ok, Hc.
Qed.

End Thresholds.

(** The thresholds of a table with 2^56 buckets would no longer be the exact
    floor: the bound of the theorem above is sharp. *)
Example thresholds_check_beyond : thresholds_check 56 = false.
Proof. vm_compute. reflexivity. Qed.

(** ** The shard router *)

Section Router.
Context {K V : Type} `{EqDecision K} `{Zero K} `{Zero V}.
Variable hashKey : K -> Z.

Lemma Init_shards (numCPU cap_ : Z) :
  exists j, 0 <= j <= 64 /\ shards (Init K V numCPU cap_) = 2 ^ j /\
            shardIDMax (Init K V numCPU cap_) = 2 ^ j - 1 /\
            len (maps (Init K V numCPU cap_)) = 2 ^ j.
Proof.
  destruct (double_until_pow2 64 0 (numCPU * 16)) as (j & Hj & E & _); [lia|].
  change (2 ^ 0) with 1 in E.
  assert (0 < 2 ^ j <= 2 ^ 64) as Hp.
  { split; [apply Z.pow_pos_nonneg; lia | apply Z.pow_le_mono_r; lia]. }
  exists j. split; [lia|]. unfold Init, shards, shardIDMax, maps.
  rewrite E. split; [reflexivity|]. split.
  - unfold u64. apply Z.mod_small. lia.
  - apply len_replicate. lia.
Qed.

Lemma land_pow2_pred (x j : Z) : 0 <= j -> Z.land x (2 ^ j - 1) = x mod 2 ^ j.
Proof.
  intros Hj. rewrite <- Z.land_ones by lia. f_equal.
  rewrite Z.ones_equiv. lia.
Qed.

(** C1 (as the code has it).  On an initialized map the shard count is a
    power of two and the mask is the count minus one; [choose] returns the
    digest masked by it as the shard index and the digest shifted right by
    the fixed 16 bits of the displacement field, whatever the shard count,
    as the hash handed to the shard table. *)
Theorem choose_shifts_by_dibBitSize (numCPU cap_ : Z) (k : K) :
  let m := Init K V numCPU cap_ in
  (exists j, 0 <= j <= 64 /\ shards m = 2 ^ j /\ shardIDMax m = shards m - 1) /\
  choose hashKey m k =
    (Z.land (hashKey k) (shards m - 1), Z.shiftr (hashKey k) 16).
Proof.
  intros m. destruct (Init_shards numCPU cap_) as (j & Hj & Es & Em & _).
  fold m in Es, Em. split.
  - exists j. rewrite Es, Em. auto.
  - unfold choose, makeHash, dibBitSize. rewrite Es, Em. reflexivity.
Qed.

Lemma choose_bounds (numCPU cap_ : Z) (k : K) :
  0 <= hashKey k < 2 ^ 64 ->
  0 <= (choose hashKey (Init K V numCPU cap_) k).1
    < shards (Init K V numCPU cap_) /\
  (exists sh,
     index (maps (Init K V numCPU cap_))
           (choose hashKey (Init K V numCPU cap_) k).1 = Ret sh) /\
  0 <= (choose hashKey (Init K V numCPU cap_) k).2 < 2 ^ 48.
Proof.
  intros Hk. set (m := Init K V numCPU cap_).
  destruct (Init_shards numCPU cap_) as (j & Hj & Es & Em & El).
  fold m in Es, Em, El.
  assert (0 <= (choose hashKey m k).1 < shards m) as Hshard.
  { change ((choose hashKey m k).1) with (Z.land (hashKey k) (shardIDMax m)).
    rewrite Em, Es, land_pow2_pred by lia.
    apply Z.mod_pos_bound. apply Z.pow_pos_nonneg; lia. }
  split; [exact Hshard|]. split; [apply index_in_range; lia|].
  change ((choose hashKey m k).2) with (Z.shiftr (hashKey k) 16).
  rewrite Z.shiftr_div_pow2 by lia. split.
  - apply Z.div_pos; lia.
  - apply Z.div_lt_upper_bound; lia.
Qed.

(** C9.  On an initialized map and for a key whose digest is a 64-bit
    value, the shard index returned by [choose] is below the shard count (so
    indexing the shard slice succeeds) and the returned hash is below 2^48:
    packing it into an entry loses nothing, and the hash read back from the
    entry, also after any rewrite of its displacement field, equals the hash
    that lookups are given. *)
Theorem choose_fits (numCPU cap_ : Z) (k : K) :
  0 <= hashKey k < 2 ^ 64 ->
  let m := Init K V numCPU cap_ in
  let shard := (choose hashKey m k).1 in
  let h := (choose hashKey m k).2 in
  0 <= shard < shards m /\
  (exists sh, index (maps m) shard = Ret sh) /\
  0 <= h < 2 ^ 48 /\
  forall (d : Z) (v : V),
    hash (Entry (makeHDIB h d) k v) = h /\
    forall d', hash (setDIB (Entry (makeHDIB h d) k v) d') = h.
Proof.
  intros Hk m shard h.
  destruct (choose_bounds numCPU cap_ k Hk) as (Hshard & Hidx & Hh).
  split; [exact Hshard|]. split; [exact Hidx|].
  split; [exact Hh|]. intros d v. split.
  - apply hash_make. exact Hh.
  - intros d'. rewrite setDIB_make by exact Hh. apply hash_make. exact Hh.
Qed.

End Router.

(** C1 (as the specification words it) fails: with 16 shards the
    specification shifts the digest by 4 bits, the code by 16. *)
Lemma choose_spec_differs :
  choose u64 (Init Z Z 1 0) 16 <> choose_spec u64 (Init Z Z 1 0) 16.
Proof. vm_compute. discriminate. Qed.

Lemma choose_fits_witness :
  0 <= u64 16 < 2 ^ 64 /\
  0 <= (choose u64 (Init Z Z 1 0) 16).1 < shards (Init Z Z 1 0).
Proof.
  split; [vm_compute; split; [discriminate | reflexivity]|].
  apply (choose_fits u64 1 0 16). vm_compute. split; [discriminate | reflexivity].
Defined.

(** ** Termination of the insertion probe *)

Section Probe.
Context {K V : Type} `{EqDecision K} `{Zero K} `{Zero V}.
Implicit Types (m : mapShard K V) (e b : entry K V) (bs : list (entry K V)).

Lemma occupied_nil : occupied (@nil (entry K V)) = 0.
Proof. reflexivity. Qed.

Lemma occupied_cons b bs :
  occupied (b :: bs) = (if decide (dib b <> 0) then 1 else 0) + occupied bs.
Proof.
  unfold occupied, len. rewrite filter_cons.
  destruct (decide (dib b <> 0)); simpl; lia.
Qed.

Lemma occupied_bounds bs : 0 <= occupied bs <= len bs.
Proof.
  induction bs as [|b bs IH]; [unfold occupied, len; simpl; lia|].
  rewrite occupied_cons. unfold len in *. simpl.
  destruct (decide (dib b <> 0)); lia.
Qed.

Lemma occupied_insert bs : forall (i : nat) b e,
  bs !! i = Some b ->
  occupied (<[i := e]> bs)
  = occupied bs - (if decide (dib b <> 0) then 1 else 0)
                + (if decide (dib e <> 0) then 1 else 0).
Proof.
  induction bs as [|x bs IH]; intros i b e Hi; [discriminate|].
  destruct i as [|i].
  - inversion Hi; subst. change (<[O := e]> (b :: bs)) with (e :: bs).
    rewrite !occupied_cons. lia.
  - change (<[S i := e]> (x :: bs)) with (x :: <[i := e]> bs).
    rewrite !occupied_cons. rewrite (IH i b e Hi). lia.
Qed.

Lemma occupied_replicate_zero (n : nat) :
  occupied (replicate n (zeroEntry K V)) = 0.
Proof.
  induction n as [|n IH]; [reflexivity|].
  cbn [replicate]. rewrite occupied_cons, IH. reflexivity.
Qed.

(** A table with fewer occupied buckets than buckets has an empty one. *)
Lemma empty_slot_exists bs :
  occupied bs < len bs ->
  exists (z : nat) b, bs !! z = Some b /\ dib b = 0.
Proof.
  induction bs as [|b bs IH]; intros Hlt.
  - unfold occupied, len in Hlt. simpl in Hlt. lia.
  - rewrite occupied_cons in Hlt.
    destruct (decide (dib b <> 0)) as [Hne|Heq].
    + destruct IH as (z & b' & Hz & Hd).
      { unfold len in *. simpl in Hlt. lia. }
      exists (S z), b'. split; assumption.
    + exists O, b. split; [reflexivity|]. lia.
Qed.

Lemma next_index m i :
  shaped m -> 0 <= i < len (buckets m) ->
  Z.land (u64 (i + 1)) (mask m) = (i + 1) mod len (buckets m).
Proof.
  intros (k & Hk & El & Em) Hi. rewrite Em, El, land_pow2_pred by lia.
  unfold u64.
  assert (2 ^ k < 2 ^ 64) by (apply Z.pow_lt_mono_r; lia).
  rewrite (Z.mod_small (i + 1) (2 ^ 64)) by lia. reflexivity.
Qed.

Lemma masked_index m x :
  shaped m -> 0 <= Z.land x (mask m) < len (buckets m).
Proof.
  intros (k & Hk & El & Em). rewrite Em, El, land_pow2_pred by lia.
  apply Z.mod_pos_bound. apply Z.pow_pos_nonneg; lia.
Qed.

Lemma shaped_frame m m' : same_frame m m' -> shaped m -> shaped m'.
Proof.
  intros (_ & _ & _ & Em & El) (k & Hk & E1 & E2).
  exists k. rewrite El, Em. auto.
Qed.

Lemma shaped_len_pos m : shaped m -> 0 < len (buckets m).
Proof. intros (k & Hk & El & _). rewrite El. apply Z.pow_pos_nonneg; lia. Qed.

(** Cyclic distance from [i] forward to [z]. *)
Lemma dist_step (n i z : Z) :
  0 < n -> 0 <= i < n -> 0 <= z < n -> z <> i ->
  (z - (i + 1) mod n) mod n = (z - i) mod n - 1.
Proof.
  intros Hn Hi Hz Hne.
  destruct (Z.eq_dec (i + 1) n) as [E|E].
  - rewrite E, Z_mod_same_full, Z.sub_0_r.
    rewrite Z.mod_small by lia.
    replace (z - i) with (z + 1 + (-1) * n) by lia.
    rewrite Z.mod_add by lia. rewrite Z.mod_small by lia. lia.
  - rewrite (Z.mod_small (i + 1)) by lia.
    destruct (Z_lt_le_dec z i).
    + replace (z - (i + 1)) with (z - i - 1 + n + (-1) * n) by lia.
      replace (z - i) with (z - i + n + (-1) * n) by lia.
      rewrite !Z.mod_add by lia. rewrite !Z.mod_small by lia. lia.
    + rewrite !Z.mod_small by lia. lia.
Qed.

Lemma dist_zero (n i z : Z) :
  0 < n -> 0 <= i < n -> 0 <= z < n -> (z - i) mod n = 0 -> z = i.
Proof.
  intros Hn Hi Hz E.
  destruct (Z_lt_le_dec z i).
  - replace (z - i) with (z - i + n + (-1) * n) in E by lia.
    rewrite Z.mod_add, Z.mod_small in E by lia. lia.
  - rewrite Z.mod_small in E by lia. lia.
Qed.

(** The walk of [set] stops at the latest when it reaches an empty bucket
    that lies [d] steps ahead, so [d + 1] iterations are enough. *)
Lemma set_loop_reaches_empty (d : nat) : forall fuel m e i (z : Z) bz,
  shaped m -> 0 <= i < len (buckets m) ->
  0 <= z < len (buckets m) ->
  buckets m !! Z.to_nat z = Some bz -> dib bz = 0 ->
  (z - i) mod len (buckets m) = Z.of_nat d ->
  (d < fuel)%nat ->
  exists m' prev replaced,
    set_loop fuel m e i = Ret (m', (prev, replaced)) /\
    set_post m m' replaced.
Proof.
  induction d as [|d IH]; intros fuel m e i z bz Hs Hi Hz Hbz Hd Hdist Hfuel;
    (destruct fuel as [|f]; [lia|]); cbn [set_loop].
  - apply dist_zero in Hdist; [|lia..]. subst z.
    unfold index. rewrite Hbz. cbn [mbind result_bind].
    rewrite Hd. cbn [Z.eqb]. do 3 eexists. split; [reflexivity|].
    split; [repeat split; apply len_insert|]. split; [reflexivity|].
    cbn [withCount withBuckets buckets count].
    rewrite (occupied_insert _ _ bz e Hbz).
    destruct (decide (dib bz <> 0)); [contradiction|].
    destruct (decide (dib e <> 0)); lia.
  - destruct (index_in_range (buckets m) i Hi) as (b & Hb).
    rewrite Hb. cbn [mbind result_bind].
    pose proof Hb as Hbi. apply index_Ret in Hbi.
    destruct (Z.eqb_spec (dib b) 0) as [E0|Hne].
    { do 3 eexists. split; [reflexivity|].
      split; [repeat split; apply len_insert|]. split; [reflexivity|].
      cbn [withCount withBuckets buckets count].
      rewrite (occupied_insert _ _ b e Hbi).
      destruct (decide (dib b <> 0)); [contradiction|].
      destruct (decide (dib e <> 0)); lia. }
    destruct (bool_decide (hash e = hash b) && bool_decide (key e = key b)).
    { do 3 eexists. split; [reflexivity|].
      split; [repeat split; apply len_insert|]. split; [reflexivity|].
      cbn [withBuckets buckets count].
      rewrite (occupied_insert _ _ b (setValue b (value e)) Hbi).
      change (dib (setValue b (value e))) with (dib b).
      destruct (decide (dib b <> 0)); lia. }
    assert (z <> i) as Hzi.
    { intros ->. congruence. }
    assert ((z - (i + 1) mod len (buckets m)) mod len (buckets m) = Z.of_nat d)
      as Hdist'.
    { rewrite dist_step by lia. lia. }
    assert (0 <= (i + 1) mod len (buckets m) < len (buckets m)) as Hi'.
    { apply Z.mod_pos_bound. lia. }
    destruct (Z.ltb_spec (dib b) (dib e)) as [Hlt|Hge].
    + set (m1 := withBuckets m (<[Z.to_nat i := e]> (buckets m))).
      assert (same_frame m m1) as Hfr.
      { repeat split. apply len_insert. }
      assert (shaped m1) as Hs1 by (eapply shaped_frame; eassumption).
      assert (len (buckets m1) = len (buckets m)) as El by apply Hfr.
      change (mask m) with (mask m1).
      rewrite next_index by (rewrite ?El; assumption). rewrite El.
      destruct (IH f m1 (setDIB b (u64 (dib b + 1)))
                  ((i + 1) mod len (buckets m)) z bz)
        as (m' & prev & replaced & Hrun & Hfr' & Hcount & Hocc);
        rewrite ?El; try assumption; try lia.
      { cbn [m1 withBuckets buckets].
        rewrite list_lookup_insert_ne by lia. exact Hbz. }
      exists m', prev, replaced. split; [exact Hrun|].
      split; [eapply same_frame_trans; eassumption|].
      split; [exact Hcount|].
      assert (occupied (buckets m1) = occupied (buckets m)) as Eo.
      { cbn [m1 withBuckets buckets]. rewrite (occupied_insert _ _ b e Hbi).
        pose proof (dib_range b).
        destruct (decide (dib b <> 0)); [|contradiction].
        destruct (decide (dib e <> 0)); lia. }
      rewrite Eo in Hocc. exact Hocc.
    + rewrite next_index by assumption.
      destruct (IH f m (setDIB e (u64 (dib e + 1)))
                  ((i + 1) mod len (buckets m)) z bz)
        as (m' & prev & replaced & Hrun & Hpost); try assumption; try lia.
      eauto.
Qed.

Lemma set_returns (fuel : nat) m (h : Z) (k : K) (v : V) :
  shaped m ->
  occupied (buckets m) <= count m ->
  count m < len (buckets m) ->
  len (buckets m) <= Z.of_nat fuel ->
  exists m' prev replaced,
    set fuel m h k v = Ret (m', (prev, replaced)) /\
    set_post m m' replaced.
Proof.
  intros Hs Hocc Hlt Hfuel.
  destruct (empty_slot_exists (buckets m)) as (z & bz & Hz & Hd); [lia|].
  pose proof (lookup_lt_Some _ _ _ Hz) as Hzlt.
  unfold set.
  set (e := Entry (makeHDIB h 1) k v).
  pose proof (masked_index m (hash e) Hs) as Hi.
  set (i := Z.land (hash e) (mask m)) in *.
  assert (0 <= (Z.of_nat z - i) mod len (buckets m) < len (buckets m)) as Hdist.
  { apply Z.mod_pos_bound. lia. }
  apply (set_loop_reaches_empty
           (Z.to_nat ((Z.of_nat z - i) mod len (buckets m)))
           fuel m e i (Z.of_nat z) bz); try assumption; try lia.
  - unfold len. lia.
  - rewrite Nat2Z.id. exact Hz.
Qed.

Lemma newShard_shaped (c : Z) : c <= 2 ^ 62 -> shaped (newShard K V c).
Proof.
  intros Hc. destruct (newShard_len (K:=K) (V:=V) c) as (k & Hk & E & Hlast).
  assert (k <= 62) as Hk62.
  { destruct Hlast as [->|Hlast]; [lia|].
    assert (k - 1 < 62) by (apply pow2_lt_inv; lia). lia. }
  exists k. split; [lia|]. split; [exact E|].
  unfold newShard, mask, buckets in *. rewrite E. unfold u64.
  assert (0 < 2 ^ k) by (apply Z.pow_pos_nonneg; lia).
  assert (2 ^ k < 2 ^ 64) by (apply Z.pow_lt_mono_r; lia).
  apply Z.mod_small. lia.
Qed.

Lemma newShard_len_ge (c : Z) :
  c <= 2 ^ 62 -> c <= len (buckets (newShard K V c)).
Proof.
  intros Hc. unfold newShard, buckets.
  assert (c <= double_until 64 8 c) as Hge.
  { apply double_until_ge; [lia|].
    change (8 * 2 ^ Z.of_nat 64) with (2 ^ 67).
    assert (2 ^ 62 <= 2 ^ 67) by (apply Z.pow_le_mono_r; lia). lia. }
  destruct (double_until_spec 64 8 c) as (j & _ & Ej & _); [lia|].
  rewrite len_replicate; [exact Hge|].
  rewrite Ej. assert (0 <= 2 ^ Z.of_nat j) by (apply Z.pow_nonneg; lia). lia.
Qed.

Lemma newShard_empty (c : Z) :
  count (newShard K V c) = 0 /\ occupied (buckets (newShard K V c)) = 0.
Proof. split; [reflexivity|]. apply occupied_replicate_zero. Qed.

(** Re-inserting old buckets into a table with room for all the occupied
    ones returns. *)
Lemma reinsert_returns fuel bs : forall nm,
  shaped nm -> occupied (buckets nm) <= count nm ->
  count nm + occupied bs <= len (buckets nm) ->
  len (buckets nm) <= Z.of_nat fuel ->
  exists nm',
    reinsert fuel bs nm = Ret nm' /\ same_frame nm nm' /\
    occupied (buckets nm') <= count nm' /\
    count nm <= count nm' <= count nm + occupied bs.
Proof.
  induction bs as [|b bs IH]; intros nm Hs Hocc Hroom Hfuel; cbn [reinsert].
  - exists nm. rewrite occupied_nil. split; [reflexivity|].
    split; [apply same_frame_refl|]. lia.
  - rewrite occupied_cons in Hroom. pose proof (dib_range b) as Hdb.
    pose proof (occupied_bounds bs) as Hbs.
    destruct (Z.gtb_spec (dib b) 0) as [Hpos|Hzero].
    + destruct (decide (dib b <> 0)) as [_|?]; [|lia].
      destruct (set_returns fuel nm (hash b) (key b) (value b))
        as (nm1 & prev & replaced & Hset & Hfr & Hcnt & Hdiff);
        try assumption; try lia.
      rewrite Hset. cbn [mbind result_bind fst].
      assert (len (buckets nm1) = len (buckets nm)) as El by apply Hfr.
      destruct (IH nm1) as (nm' & Hrun & Hfr' & Hocc' & Hcnt').
      * eapply shaped_frame; eassumption.
      * lia.
      * rewrite El. destruct replaced; lia.
      * rewrite El. exact Hfuel.
      * exists nm'. split; [exact Hrun|].
        split; [eapply same_frame_trans; eassumption|].
        split; [exact Hocc'|]. rewrite occupied_cons.
        destruct (decide (dib b <> 0)) as [_|?]; [|lia].
        destruct replaced; lia.
    + destruct (decide (dib b <> 0)) as [?|_]; [lia|].
      destruct (IH nm) as (nm' & Hrun & Hfr' & Hocc' & Hcnt');
        try assumption; try lia.
      exists nm'. split; [exact Hrun|]. split; [exact Hfr'|].
      split; [exact Hocc'|]. rewrite occupied_cons.
      destruct (decide (dib b <> 0)) as [?|_]; lia.
Qed.

Lemma resize_returns fuel m (c : Z) :
  c <= 2 ^ 62 ->
  occupied (buckets m) <= len (buckets (newShard K V c)) ->
  len (buckets (newShard K V c)) <= Z.of_nat fuel ->
  exists m',
    resize fuel m c = Ret m' /\ shaped m' /\
    len (buckets m') = len (buckets (newShard K V c)) /\
    occupied (buckets m') <= count m' /\
    count m' <= occupied (buckets m).
Proof.
  intros Hc Hroom Hfuel. unfold resize.
  destruct (newShard_empty c) as [Hc0 Ho0].
  destruct (reinsert_returns fuel (buckets m) (newShard K V c))
    as (nm & Hrun & Hfr & Hocc & Hcnt);
    [apply newShard_shaped; exact Hc|lia|lia|exact Hfuel|].
  rewrite Hrun. cbn [mbind result_bind].
  exists (withCap nm (cap m)). split; [reflexivity|].
  assert (shaped nm) as Hs
    by (eapply shaped_frame; [exact Hfr | apply newShard_shaped; exact Hc]).
  split; [exact Hs|]. split; [apply Hfr|].
  cbn [withCap buckets count]. lia.
Qed.

(** [SetWithHash] returns on every table that [newShard] or [resize] built:
    the grow check leaves a table with an empty bucket to the probe of
    [set]. *)
Lemma SetWithHash_returns fuel m (h : Z) (k : K) (v : V) :
  shaped m -> 8 <= len (buckets m) <= 2 ^ 59 ->
  growAt m < len (buckets m) ->
  occupied (buckets m) <= count m ->
  2 * len (buckets m) <= Z.of_nat fuel ->
  exists m' prev replaced,
    SetWithHash fuel m h k v = Ret (m', (prev, replaced)).
Proof.
  intros Hs Hlen Hgrow Hocc Hfuel. unfold SetWithHash.
  destruct (Z.eqb_spec (len (buckets m)) 0) as [?|_]; [lia|].
  destruct (Z.geb_spec (count m) (growAt m)) as [Hge|Hlt].
  - destruct Hs as (j & Hj & El & Em).
    assert (3 <= j) as Hj3.
    { destruct (Z_lt_le_dec j 3) as [Hlt3|?]; [|assumption].
      assert (2 ^ j < 2 ^ 3) by (apply Z.pow_lt_mono_r; lia). lia. }
    assert (j <= 59) as Hj59.
    { destruct (Z_lt_le_dec 59 j) as [Hgt|?]; [|assumption].
      assert (2 ^ 59 < 2 ^ j) by (apply Z.pow_lt_mono_r; lia). lia. }
    assert (len (buckets m) * 2 = 2 ^ (j + 1)) as E2.
    { rewrite El, Z.pow_add_r by lia. lia. }
    rewrite E2.
    pose proof (newShard_pow2_len (K:=K) (V:=V) (j + 1) ltac:(lia)) as Enew.
    pose proof (occupied_bounds (buckets m)) as Hob.
    assert (2 ^ (j + 1) <= 2 ^ 62) by (apply Z.pow_le_mono_r; lia).
    destruct (resize_returns fuel m (2 ^ (j + 1)))
      as (m1 & Hres & Hs1 & El1 & Hocc1 & Hcnt1); try lia.
    rewrite Hres. cbn [mbind result_bind].
    destruct (set_returns fuel m1 h k v) as (m' & prev & replaced & Hset & _);
      try assumption; try lia.
    eauto.
  - cbn [mbind result_bind].
    destruct (set_returns fuel m h k v) as (m' & prev & replaced & Hset & _);
      try assumption; try lia.
    eauto.
Qed.

End Probe.

(** ** Probing a table that has no empty bucket *)

Section FullTable.
Context {K V : Type} `{EqDecision K} `{Zero K} `{Zero V}.
Implicit Types (m : mapShard K V) (e b : entry K V) (bs : list (entry K V)).

Lemma full_without_lookup m h k i b :
  full_without m h k -> index (buckets m) i = Ret b ->
  (dib b =? 0) = false /\
  bool_decide (hash b = h) && bool_decide (key b = k) = false.
Proof.
  intros Hfull Hb. apply index_Ret in Hb.
  unfold full_without in Hfull. rewrite Forall_lookup in Hfull.
  destruct (Hfull _ _ Hb) as [Hd Hk]. split.
  - apply Z.eqb_neq. exact Hd.
  - apply andb_false_iff.
    destruct (decide (hash b = h)) as [Eh|Nh].
    + right. apply bool_decide_eq_false. intros Ek. apply Hk. auto.
    + left. apply bool_decide_eq_false. exact Nh.
Qed.

(** The lookup walk never leaves a full table that lacks the key. *)
Lemma get_loop_spins m h k : shaped m -> full_without m h k ->
  forall fuel i, 0 <= i < len (buckets m) -> get_loop fuel m h k i = Spin.
Proof.
  intros Hs Hfull. induction fuel as [|f IH]; intros i Hi; [reflexivity|].
  cbn [get_loop delete_loop].
  destruct (index_in_range (buckets m) i Hi) as (b & Hb).
  rewrite Hb. cbn [mbind result_bind].
  destruct (full_without_lookup m h k i b Hfull Hb) as [-> ->].
  rewrite next_index by assumption. apply IH.
  apply Z.mod_pos_bound. lia.
Qed.

Lemma delete_loop_spins m h k : shaped m -> full_without m h k ->
  forall fuel i, 0 <= i < len (buckets m) -> delete_loop fuel m h k i = Spin.
Proof.
  intros Hs Hfull. induction fuel as [|f IH]; intros i Hi; [reflexivity|].
  cbn [get_loop delete_loop].
  destruct (index_in_range (buckets m) i Hi) as (b & Hb).
  rewrite Hb. cbn [mbind result_bind].
  destruct (full_without_lookup m h k i b Hfull Hb) as [-> ->].
  rewrite next_index by assumption. apply IH.
  apply Z.mod_pos_bound. lia.
Qed.

Lemma GetWithHash_spins m h k : shaped m -> full_without m h k ->
  forall fuel, GetWithHash fuel m h k = Spin.
Proof.
  intros Hs Hfull fuel. unfold GetWithHash.
  pose proof (shaped_len_pos m Hs).
  destruct (Z.eqb_spec (len (buckets m)) 0); [lia|].
  apply get_loop_spins; [assumption..|]. apply masked_index. exact Hs.
Qed.

Lemma DeleteWithHash_spins m h k : shaped m -> full_without m h k ->
  forall fuel, DeleteWithHash fuel m h k = Spin.
Proof.
  intros Hs Hfull fuel. unfold DeleteWithHash.
  pose proof (shaped_len_pos m Hs).
  destruct (Z.eqb_spec (len (buckets m)) 0); [lia|].
  apply delete_loop_spins; [assumption..|]. apply masked_index. exact Hs.
Qed.

End FullTable.

(** ** The shrink path on a concrete table *)

Lemma nine_then_delete_run :
  exists m,
    run_ops 64 nine_then_delete (newShard Z Z 33) = Ret m /\
    cap m = 33 /\ count m = 8 /\ len (buckets m) = 8 /\ mask m = 7 /\
    occupied (buckets m) = 8 /\ full_without m 100 100.
Proof.
  eexists. split; [vm_compute; reflexivity|].
  repeat (split; [reflexivity|]).
  unfold full_without. simpl buckets.
  repeat constructor; vm_compute; try discriminate; intros [E _]; discriminate.
Qed.

(** C2 (evaluated).  A table built with capacity hint 33 has 64 buckets and
    shrinks at 9 entries.  After nine insertions, deleting one entry leaves
    length 8, which triggers the shrink: the table is rebuilt with 8 buckets,
    fewer than the hint of 33 that it still records. *)
Theorem shrink_goes_below_hint :
  exists m9 m8 v,
    run_ops 64 nine_sets (newShard Z Z 33) = Ret m9 /\
    len (buckets m9) = 64 /\ cap m9 = 33 /\ count m9 = 9 /\ shrinkAt m9 = 9 /\
    DeleteWithHash 64 m9 8 8 = Ret (m8, (v, true)) /\
    count m8 = 8 /\ len (buckets m8) = 8 /\ cap m8 = 33 /\
    len (buckets m8) < cap m8.
Proof.
  eexists. eexists. eexists.
  split; [vm_compute; reflexivity|].
  do 4 (split; [reflexivity|]).
  split; [vm_compute; reflexivity|].
  do 3 (split; [reflexivity|]). reflexivity.
Qed.

(** ** The same state through the map *)

Section MapSpin.
Context {K V : Type} `{EqDecision K} `{Zero K} `{Zero V}.
Variable hashKey : K -> Z.

Lemma Delete_spins (M : Map K V) (k : K) (sh : mapShard K V) :
  index (maps M) (choose hashKey M k).1 = Ret sh ->
  shaped sh -> full_without sh (choose hashKey M k).2 k ->
  forall fuel, Delete hashKey fuel M k = Spin.
Proof.
  intros Hsh Hs Hfull fuel. unfold Delete.
  destruct (choose hashKey M k) as [shard shardKey]. simpl in *.
  unfold onShard. rewrite Hsh. simpl.
  rewrite DeleteWithHash_spins by assumption. reflexivity.
Qed.

Lemma DeleteAccept_spins (M : Map K V) (k : K) (sh : mapShard K V) :
  index (maps M) (choose hashKey M k).1 = Ret sh ->
  shaped sh -> full_without sh (choose hashKey M k).2 k ->
  forall fuel accept, DeleteAccept hashKey fuel M k accept = Spin.
Proof.
  intros Hsh Hs Hfull fuel accept. unfold DeleteAccept.
  destruct (choose hashKey M k) as [shard shardKey]. simpl in *.
  unfold onShard. rewrite Hsh. simpl.
  rewrite DeleteWithHash_spins by assumption. reflexivity.
Qed.

Lemma Get_spins (M : Map K V) (k : K) (sh : mapShard K V) :
  index (maps M) (choose hashKey M k).1 = Ret sh ->
  shaped sh -> full_without sh (choose hashKey M k).2 k ->
  forall fuel, Get hashKey fuel M k = Spin.
Proof.
  intros Hsh Hs Hfull fuel. unfold Get.
  destruct (choose hashKey M k) as [shard shardKey]. simpl in *.
  rewrite Hsh. simpl. apply GetWithHash_spins; assumption.
Qed.

End MapSpin.

(** The map after nine keys of one shard were set and one was deleted:
    the shard of the keys 8 and 100 has every bucket occupied, by other
    keys. *)
Lemma nine_then_delete_map_run :
  exists M sh,
    run_map_ops demoHash 64 nine_then_delete_map (New Z Z 1 528) = Ret M /\
    Forall (fun s => Forall (fun b => key b <> 100) (buckets s)) (maps M) /\
    index (maps M) 0 = Ret sh /\
    (choose demoHash M 100 = (0, 100) /\ choose demoHash M 8 = (0, 8)) /\
    shaped sh /\ full_without sh 100 100 /\ full_without sh 8 8 /\
    Get demoHash 64 M 0 = Ret (100, true).
Proof.
  eexists. eexists. split; [vm_compute; reflexivity|].
  split.
  { repeat constructor; discriminate. }
  split; [vm_compute; reflexivity|].
  split; [split; vm_compute; reflexivity|].
  split; [exists 3; vm_compute; repeat split; discriminate|].
  split; [|split; [|vm_compute; reflexivity]].
  - unfold full_without. simpl buckets.
    repeat constructor; vm_compute; try discriminate; intros [E _]; discriminate.
  - unfold full_without. simpl buckets.
    repeat constructor; vm_compute; try discriminate; intros [_ E]; discriminate.
Qed.

(** The same state is reached when the ninth key is set through
    [SetAccept] and rejected. *)
Lemma nine_sets_map_run :
  exists M8 M9 M,
    run_map_ops demoHash 64 eight_sets_map (New Z Z 1 528) = Ret M8 /\
    run_map_ops demoHash 64 nine_sets_map (New Z Z 1 528) = Ret M9 /\
    run_map_ops demoHash 64 nine_then_delete_map (New Z Z 1 528) = Ret M /\
    Get demoHash 64 M8 100 = Ret (0, false) /\
    SetAccept demoHash 64 M8 8 108 (Some reject) = Ret (M, (0, false)) /\
    Get demoHash 64 M9 8 = Ret (108, true) /\
    Delete demoHash 64 M9 8 = Ret (M, (108, true)).
Proof.
  do 3 eexists.
  do 6 (split; [vm_compute; reflexivity|]).
  vm_compute; reflexivity.
Qed.

Lemma packed_map_spins (M : Map Z Z) :
  run_map_ops demoHash 64 nine_then_delete_map (New Z Z 1 528) = Ret M ->
  (forall fuel, Get demoHash fuel M 8 = Spin) /\
  (forall fuel, Get demoHash fuel M 100 = Spin) /\
  (forall fuel, Delete demoHash fuel M 100 = Spin) /\
  (forall fuel accept, DeleteAccept demoHash fuel M 100 accept = Spin).
Proof.
  intros Hrun.
  destruct nine_then_delete_map_run
    as (M' & sh & Hrun' & _ & Hsh & [Hc100 Hc8] & Hs & Hf100 & Hf8 & _).
  assert (M' = M) as -> by congruence.
  assert (index (maps M) (choose demoHash M 8).1 = Ret sh) as Hi8
    by (rewrite Hc8; exact Hsh).
  assert (index (maps M) (choose demoHash M 100).1 = Ret sh) as Hi100
    by (rewrite Hc100; exact Hsh).
  assert (full_without sh (choose demoHash M 8).2 8) as Hw8
    by (rewrite Hc8; exact Hf8).
  assert (full_without sh (choose demoHash M 100).2 100) as Hw100
    by (rewrite Hc100; exact Hf100).
  split; [|split; [|split]].
  - exact (Get_spins demoHash M 8 sh Hi8 Hs Hw8).
  - exact (Get_spins demoHash M 100 sh Hi100 Hs Hw100).
  - exact (Delete_spins demoHash M 100 sh Hi100 Hs Hw100).
  - exact (DeleteAccept_spins demoHash M 100 sh Hi100 Hs Hw100).
Qed.

(** C6 (evaluated).  On a one-CPU host, a map of capacity 528 holds nine
    keys of one shard.  [Delete] of key 8, which is present with value 108,
    returns (108, true); the [Get] of key 8 that follows returns under no
    iteration budget, and neither does [Delete] of the never-set key 100:
    the probes walk a table in which every bucket is occupied. *)
Theorem Delete_then_Get_never_returns :
  exists M9 M,
    run_map_ops demoHash 64 nine_sets_map (New Z Z 1 528) = Ret M9 /\
    Get demoHash 64 M9 8 = Ret (108, true) /\
    Delete demoHash 64 M9 8 = Ret (M, (108, true)) /\
    (forall fuel, Get demoHash fuel M 8 = Spin) /\
    Forall (fun s => Forall (fun b => key b <> 100) (buckets s)) (maps M) /\
    (forall fuel, Delete demoHash fuel M 100 = Spin).
Proof.
  destruct nine_sets_map_run as (M8 & M9 & M & _ & H9 & Hrun & _ & _ & Hget & Hdel).
  destruct (packed_map_spins M Hrun) as (Hg8 & _ & Hd100 & _).
  destruct nine_then_delete_map_run as (M' & _ & Hrun' & Habs & _).
  assert (M' = M) as -> by congruence.
  exists M9, M. auto 10.
Qed.

(** C4 (evaluated).  On a one-CPU host, a map of capacity 528 holds eight
    keys of one shard, and [Get] of the never-set key 100 reports it as
    missing.  [SetAccept] of a ninth key with a rejecting [accept] returns
    the zero value and false; after it [Get] of key 100 returns under no
    iteration budget, and neither does [DeleteAccept] of key 100, whatever
    its [accept]: the rollback rebuilt the shard with every bucket
    occupied. *)
Theorem SetAccept_reject_changes_lookups :
  exists M8 M,
    run_map_ops demoHash 64 eight_sets_map (New Z Z 1 528) = Ret M8 /\
    Get demoHash 64 M8 100 = Ret (0, false) /\
    SetAccept demoHash 64 M8 8 108 (Some reject) = Ret (M, (0, false)) /\
    (forall fuel, Get demoHash fuel M 100 = Spin) /\
    (forall fuel accept, DeleteAccept demoHash fuel M 100 accept = Spin).
Proof.
  destruct nine_sets_map_run as (M8 & M9 & M & H8 & _ & Hrun & Hget & Hset & _).
  destruct (packed_map_spins M Hrun) as (_ & Hg100 & _ & Hda).
  exists M8, M. auto 10.
Qed.

(** ** A run of colliding keys *)

Lemma run_size_check_all :
  forallb run_size_check (map Z.of_nat (seq 3 15)) = true.
Proof. vm_compute. reflexivity. Qed.

Lemma run_size_facts (k : Z) :
  3 <= k <= 17 ->
  growAt_of k < 2 ^ k /\
  growAt_of k + 1 <= growAt_of (k + 1) /\
  (k = 17 \/ growAt_of k < 65535) /\
  65535 < growAt_of 17.
Proof.
  intros Hk. pose proof run_size_check_all as Hall.
  rewrite forallb_forall in Hall.
  assert (run_size_check k = true) as Hck.
  { apply Hall. apply in_map_iff. exists (Z.to_nat k). split; [lia|].
    apply in_seq. lia. }
  unfold run_size_check in Hck.
  apply andb_prop in Hck as [Hck H4]. apply andb_prop in Hck as [Hck H3].
  apply andb_prop in Hck as [H1 H2].
  apply Z.ltb_lt in H1, H4. apply Z.leb_le in H2.
  apply orb_prop in H3. rewrite Z.eqb_eq, Z.ltb_lt in H3. auto.
Qed.

Lemma bind_Ret {A B} (a : A) (f : A -> result B) : Ret a ≫= f = f a.
Proof. reflexivity. Qed.

Section Steps.
Context {K V : Type} `{EqDecision K} `{Zero K} `{Zero V}.
Implicit Types (m : mapShard K V) (e b : entry K V) (i : Z) (f : nat).

(** One iteration of the probe loops. *)
Lemma set_loop_empty f m e i b :
  index (buckets m) i = Ret b -> dib b = 0 ->
  set_loop (S f) m e i
  = Ret (withCount (withBuckets m (<[Z.to_nat i := e]> (buckets m)))
                   (count m + 1),
         (zeroV, false)).
Proof. intros Hb Hd. cbn [set_loop]. rewrite Hb. cbn. rewrite Hd. reflexivity. Qed.

Lemma set_loop_pass f m e i b :
  index (buckets m) i = Ret b -> dib b <> 0 ->
  key e <> key b -> ~ dib b < dib e ->
  set_loop (S f) m e i
  = set_loop f m (setDIB e (u64 (dib e + 1))) (Z.land (u64 (i + 1)) (mask m)).
Proof.
  intros Hb Hd Hk Hlt. cbn [set_loop]. rewrite Hb. cbn [mbind result_bind].
  destruct (Z.eqb_spec (dib b) 0) as [?|_]; [contradiction|].
  rewrite (bool_decide_eq_false_2 _ Hk), andb_false_r.
  destruct (Z.ltb_spec (dib b) (dib e)) as [?|_]; [contradiction|].
  reflexivity.
Qed.

Lemma get_loop_empty f m (h : Z) (k : K) i b :
  index (buckets m) i = Ret b -> dib b = 0 ->
  get_loop (S f) m h k i = Ret (zeroV, false).
Proof. intros Hb Hd. cbn [get_loop]. rewrite Hb. cbn. rewrite Hd. reflexivity. Qed.

Lemma get_loop_pass f m (h : Z) (k : K) i b :
  index (buckets m) i = Ret b -> dib b <> 0 -> key b <> k ->
  get_loop (S f) m h k i = get_loop f m h k (Z.land (u64 (i + 1)) (mask m)).
Proof.
  intros Hb Hd Hk. cbn [get_loop]. rewrite Hb. cbn [mbind result_bind].
  destruct (Z.eqb_spec (dib b) 0) as [?|_]; [contradiction|].
  rewrite (bool_decide_eq_false_2 _ Hk), andb_false_r. reflexivity.
Qed.

Lemma delete_loop_empty f m (h : Z) (k : K) i b :
  index (buckets m) i = Ret b -> dib b = 0 ->
  delete_loop (S f) m h k i = Ret (m, (zeroV, false)).
Proof. intros Hb Hd. cbn [delete_loop]. rewrite Hb. cbn. rewrite Hd. reflexivity. Qed.

Lemma delete_loop_pass f m (h : Z) (k : K) i b :
  index (buckets m) i = Ret b -> dib b <> 0 -> key b <> k ->
  delete_loop (S f) m h k i
  = delete_loop f m h k (Z.land (u64 (i + 1)) (mask m)).
Proof.
  intros Hb Hd Hk. cbn [delete_loop]. rewrite Hb. cbn [mbind result_bind].
  destruct (Z.eqb_spec (dib b) 0) as [?|_]; [contradiction|].
  rewrite (bool_decide_eq_false_2 _ Hk), andb_false_r. reflexivity.
Qed.

Lemma run_ops_app fuel (ops1 ops2 : list (shard_op K V)) m m1 :
  run_ops fuel ops1 m = Ret m1 ->
  run_ops fuel (ops1 ++ ops2) m = run_ops fuel ops2 m1.
Proof.
  revert m. induction ops1 as [|op ops1 IH]; intros m Hrun; cbn in *.
  - inversion Hrun. reflexivity.
  - destruct (apply_op fuel m op) as [m'| |]; cbn in *; try discriminate.
    apply IH. exact Hrun.
Qed.

End Steps.

Section Run.
Context {K V : Type} `{EqDecision K} `{Zero K} `{Zero V}.
Variable hs : nat -> Z.
Variable ks : nat -> K.
Variable vs : nat -> V.
Hypothesis hs_range : forall i, 0 <= hs i < 2 ^ 48.
Hypothesis hs_home : forall i, hs i mod 2 ^ 17 = 0.
Hypothesis ks_inj : forall i j, ks i = ks j -> i = j.
Implicit Types (m : mapShard K V) (e b : entry K V) (L n i j : nat).

Local Notation "'rentry'" := (run_entry hs ks vs).
Local Notation "'rbuckets'" := (run_buckets hs ks vs).
Local Notation "'rshard'" := (run_shard hs ks vs).

Lemma run_buckets_length L n : (n <= L)%nat -> length (rbuckets L n) = L.
Proof.
  intros Hn. unfold run_buckets.
  rewrite length_app, length_map, length_seq, length_replicate. lia.
Qed.

Lemma run_buckets_lookup_lt L n j :
  (j < n)%nat -> rbuckets L n !! j = Some (rentry j).
Proof.
  intros Hj. unfold run_buckets.
  rewrite lookup_app_l by (rewrite length_map, length_seq; lia).
  rewrite list_lookup_fmap, lookup_seq_lt by lia. reflexivity.
Qed.

Lemma run_buckets_lookup_ge L n j :
  (n <= j < L)%nat -> rbuckets L n !! j = Some (zeroEntry K V).
Proof.
  intros Hj. unfold run_buckets.
  rewrite lookup_app_r by (rewrite length_map, length_seq; lia).
  rewrite length_map, length_seq. apply lookup_replicate_2. lia.
Qed.

Lemma run_buckets_insert L n :
  (n < L)%nat -> <[n := rentry n]> (rbuckets L n) = rbuckets L (S n).
Proof.
  intros Hn. unfold run_buckets.
  rewrite insert_app_r_alt by (rewrite length_map, length_seq; lia).
  rewrite length_map, length_seq, Nat.sub_diag.
  replace (L - n)%nat with (S (L - S n)) by lia.
  rewrite seq_S, map_app, <- app_assoc. reflexivity.
Qed.

Lemma dib_run_entry i :
  Z.of_nat i < 65535 -> dib (rentry i) = Z.of_nat i + 1.
Proof.
  intros Hi. unfold run_entry. rewrite dib_make by apply hs_range.
  apply Z.mod_small. lia.
Qed.

Lemma dib_run_entry_last i : Z.of_nat i = 65535 -> dib (rentry i) = 0.
Proof.
  intros Hi. unfold run_entry. rewrite dib_make by apply hs_range.
  rewrite Hi. reflexivity.
Qed.

Lemma hash_run_entry i : hash (rentry i) = hs i.
Proof. unfold run_entry. apply hash_make, hs_range. Qed.

Lemma dib_zeroEntry : dib (zeroEntry K V) = 0.
Proof. reflexivity. Qed.

Lemma hs_home_k i (k : Z) : 0 <= k <= 17 -> hs i mod 2 ^ k = 0.
Proof.
  intros Hk. apply Z.mod_divide; [apply Z.pow_nonzero; lia|].
  apply Z.divide_trans with (2 ^ 17).
  - exists (2 ^ (17 - k)). rewrite <- Z.pow_add_r by lia. f_equal. lia.
  - apply Z.mod_divide; [lia|]. apply hs_home.
Qed.

Lemma shaped_intro m (k : Z) :
  0 <= k < 64 -> len (buckets m) = 2 ^ k -> mask m = 2 ^ k - 1 -> shaped m.
Proof. intros Hk El Em. exists k. auto. Qed.

Lemma index_run_lt m L n j :
  buckets m = rbuckets L n -> (j < n)%nat ->
  index (buckets m) (Z.of_nat j) = Ret (rentry j).
Proof.
  intros Hb Hj. apply index_Ret.
  rewrite Hb, Nat2Z.id. apply run_buckets_lookup_lt. exact Hj.
Qed.

Lemma index_run_ge m L n j :
  buckets m = rbuckets L n -> (n <= j < L)%nat ->
  index (buckets m) (Z.of_nat j) = Ret (zeroEntry K V).
Proof.
  intros Hb Hj. apply index_Ret.
  rewrite Hb, Nat2Z.id. apply run_buckets_lookup_ge. exact Hj.
Qed.

Lemma next_index_run m L n j :
  shaped m -> buckets m = rbuckets L n -> (n <= L)%nat -> (S j < L)%nat ->
  Z.land (u64 (Z.of_nat j + 1)) (mask m) = Z.of_nat (S j).
Proof.
  intros Hs Hb HnL Hj.
  assert (len (buckets m) = Z.of_nat L) as El.
  { unfold len. rewrite Hb, run_buckets_length by lia. reflexivity. }
  rewrite next_index by (rewrite ?El; assumption || lia).
  rewrite El, Z.mod_small by lia. lia.
Qed.

(** The probe of the [n]-th colliding key, at bucket [j] with displacement
    [j + 1], walks to bucket [n] and settles there. *)
Lemma set_loop_run (d : nat) : forall fuel m L n j,
  shaped m -> buckets m = rbuckets L n ->
  (n < L)%nat -> Z.of_nat n <= 65535 ->
  (j + d = n)%nat -> (d < fuel)%nat ->
  set_loop fuel m (Entry (makeHDIB (hs n) (Z.of_nat j + 1)) (ks n) (vs n))
           (Z.of_nat j)
  = Ret (withCount (withBuckets m (rbuckets L (S n))) (count m + 1),
         (zeroV, false)).
Proof.
  induction d as [|d IH]; intros fuel m L n j Hs Hb HnL Hn Hjd Hfuel;
    (destruct fuel as [|f]; [lia|]).
  - assert (j = n) as -> by lia.
    rewrite (set_loop_empty f m _ _ (zeroEntry K V));
      [|eapply index_run_ge; [eassumption|lia]|apply dib_zeroEntry].
    rewrite Hb, Nat2Z.id.
    change (Entry (makeHDIB (hs n) (Z.of_nat n + 1)) (ks n) (vs n))
      with (rentry n).
    rewrite run_buckets_insert by lia. reflexivity.
  - rewrite (set_loop_pass f m _ _ (rentry j));
      [|eapply index_run_lt; [eassumption|lia]
       |rewrite dib_run_entry by lia; lia
       |cbn [key run_entry]; intros E; apply ks_inj in E; lia
       |rewrite dib_run_entry, dib_make by (lia || apply hs_range);
        rewrite Z.mod_small by lia; lia].
    rewrite setDIB_make by apply hs_range.
    rewrite dib_make by apply hs_range.
    rewrite (Z.mod_small (Z.of_nat j + 1)) by lia.
    unfold u64 at 1. rewrite (Z.mod_small (Z.of_nat j + 1 + 1)) by lia.
    rewrite (next_index_run m L n j) by (assumption || lia).
    replace (Z.of_nat j + 1) with (Z.of_nat (S j)) by lia.
    apply IH; try assumption; lia.
Qed.

Lemma set_run fuel m (k : Z) n :
  3 <= k <= 17 ->
  len (buckets m) = 2 ^ k -> mask m = 2 ^ k - 1 ->
  buckets m = rbuckets (Z.to_nat (2 ^ k)) n ->
  Z.of_nat n < 2 ^ k -> Z.of_nat n <= 65535 ->
  (n < fuel)%nat ->
  set fuel m (hs n) (ks n) (vs n)
  = Ret (withCount (withBuckets m (rbuckets (Z.to_nat (2 ^ k)) (S n)))
                   (count m + 1),
         (zeroV, false)).
Proof.
  intros Hk El Em Hb HnL Hn Hfuel. unfold set.
  rewrite hash_make by apply hs_range.
  rewrite Em, land_pow2_pred, hs_home_k by lia.
  apply (set_loop_run n fuel m (Z.to_nat (2 ^ k)) n O); try assumption; try lia.
  apply (shaped_intro m k); auto; lia.
Qed.

Lemma rshard_fields (k : Z) n :
  3 <= k <= 60 ->
  cap (rshard k n) = 0 /\ count (rshard k n) = Z.of_nat n /\
  growAt (rshard k n) = growAt_of k /\
  mask (rshard k n) = 2 ^ k - 1 /\
  buckets (rshard k n) = rbuckets (Z.to_nat (2 ^ k)) n /\
  (Z.of_nat n <= 2 ^ k -> len (buckets (rshard k n)) = 2 ^ k).
Proof.
  intros Hk. pose proof (newShard_pow2_len (K:=K) (V:=V) k Hk) as E.
  assert (0 < 2 ^ k < 2 ^ 64) as Hp.
  { split; [apply Z.pow_pos_nonneg; lia | apply Z.pow_lt_mono_r; lia]. }
  unfold run_shard. cbn [cap count growAt mask buckets withCap withCount withBuckets].
  repeat split.
  - unfold newShard, growAt_of in *. cbn [growAt buckets] in *. rewrite E. reflexivity.
  - unfold newShard in *. cbn [mask buckets] in *. rewrite E.
    unfold u64. apply Z.mod_small. lia.
  - intros Hn. unfold len. rewrite run_buckets_length by lia. lia.
Qed.

Lemma newShard_is_rshard (k : Z) :
  3 <= k <= 60 -> withCap (newShard K V (2 ^ k)) 0 = rshard k O.
Proof.
  intros Hk. unfold run_shard, withCap, withCount, withBuckets.
  cbn [cap count growAt shrinkAt mask buckets].
  pose proof (newShard_pow2_len (K:=K) (V:=V) k Hk) as E.
  unfold newShard in *. cbn [cap count growAt shrinkAt mask buckets] in *.
  f_equal. unfold run_buckets. cbn [seq map app]. rewrite Nat.sub_0_r.
  f_equal. rewrite len_replicate in E; [lia|].
  destruct (double_until_spec 64 8 (2 ^ k)) as (j & _ & Ej & _); [lia|].
  rewrite Ej. assert (0 <= 2 ^ Z.of_nat j) by (apply Z.pow_nonneg; lia). lia.
Qed.

Lemma reinsert_zeros fuel (r : nat) (nm : mapShard K V) :
  reinsert fuel (replicate r (zeroEntry K V)) nm = Ret nm.
Proof. induction r as [|r IH]; [reflexivity|]. cbn [replicate reinsert]. exact IH. Qed.

(** Re-inserting the entries [j .. j+d-1] of a run into a table that holds
    the entries below [j] in run order. *)
Lemma reinsert_run fuel (k : Z) (r : nat) (d : nat) : forall nm n j,
  3 <= k <= 17 ->
  len (buckets nm) = 2 ^ k -> mask nm = 2 ^ k - 1 ->
  buckets nm = rbuckets (Z.to_nat (2 ^ k)) j ->
  (j + d = n)%nat -> Z.of_nat n <= 2 ^ k -> Z.of_nat n <= 65535 ->
  (n <= fuel)%nat ->
  reinsert fuel (map rentry (seq j d) ++ replicate r (zeroEntry K V)) nm
  = Ret (withCount (withBuckets nm (rbuckets (Z.to_nat (2 ^ k)) n))
                   (count nm + Z.of_nat d)).
Proof.
  induction d as [|d IH]; intros nm n j Hk El Em Hb Hjd HnL Hn Hfuel.
  - cbn [seq map app]. rewrite reinsert_zeros.
    assert (j = n) as -> by lia. rewrite <- Hb.
    destruct nm as [c0 n0 g0 s0 mk0 bs0].
    unfold withCount, withBuckets. cbn [cap count growAt shrinkAt mask buckets].
    do 2 f_equal. lia.
  - cbn [seq map app reinsert].
    rewrite dib_run_entry by lia.
    destruct (Z.gtb_spec (Z.of_nat j + 1) 0) as [_|?]; [|lia].
    rewrite hash_run_entry. cbn [key value run_entry].
    rewrite (set_run fuel nm k j) by (assumption || lia).
    cbn [mbind result_bind fst].
    rewrite (IH _ n (S j)); try assumption; try lia.
    + unfold withCount, withBuckets. cbn [cap count growAt shrinkAt mask buckets].
      do 2 f_equal. lia.
    + cbn [withCount withBuckets buckets]. unfold len.
      rewrite run_buckets_length; lia.
    + reflexivity.
Qed.

Lemma resize_run fuel (k : Z) n :
  3 <= k <= 16 -> Z.of_nat n <= 2 ^ k -> Z.of_nat n < 65535 ->
  (n <= fuel)%nat ->
  resize fuel (rshard k n) (len (buckets (rshard k n)) * 2)
  = Ret (rshard (k + 1) n).
Proof.
  intros Hk HnL Hn Hfuel.
  destruct (rshard_fields k n) as (Hc & _ & _ & _ & Hb & El); [lia|].
  rewrite El by lia.
  replace (2 ^ k * 2) with (2 ^ (k + 1)) by (rewrite Z.pow_add_r by lia; lia).
  assert (2 ^ k < 2 ^ (k + 1)) by (apply Z.pow_lt_mono_r; lia).
  unfold resize. rewrite Hb at 1. unfold run_buckets at 1.
  destruct (rshard_fields (k + 1) O) as (_ & _ & _ & Em' & Hb' & El'); [lia|].
  rewrite <- newShard_is_rshard in Em', Hb', El' by lia.
  cbn [withCap mask buckets] in Em', Hb', El'.
  rewrite (reinsert_run fuel (k + 1) _ n (newShard K V (2 ^ (k + 1))) n O);
    try assumption; try lia.
  cbn [mbind result_bind]. rewrite Hc. reflexivity.
Qed.

(** One more colliding key: the table grows first when it is at its
    threshold, and the key settles in bucket [n]. *)
Lemma SetWithHash_run fuel (k : Z) n :
  3 <= k <= 17 -> Z.of_nat n <= growAt_of k -> Z.of_nat n <= 65535 ->
  (n < fuel)%nat ->
  exists k',
    3 <= k' <= 17 /\
    (Z.of_nat n < 65535 -> Z.of_nat (S n) <= growAt_of k') /\
    (Z.of_nat n = 65535 -> k' = 17) /\
    SetWithHash fuel (rshard k n) (hs n) (ks n) (vs n)
    = Ret (rshard k' (S n), (zeroV, false)).
Proof.
  intros Hk Hg Hn Hfuel.
  destruct (run_size_facts k Hk) as (Hlt & Hup & Hbig & Htop).
  destruct (rshard_fields k n) as (Hc & Hcnt & Hgr & Hm & Hb & El); [lia|].
  specialize (El ltac:(lia)).
  assert (0 < 2 ^ k) by (apply Z.pow_pos_nonneg; lia).
  unfold SetWithHash.
  destruct (Z.eqb_spec (len (buckets (rshard k n))) 0) as [?|_]; [lia|].
  rewrite Hcnt, Hgr.
  destruct (Z.geb_spec (Z.of_nat n) (growAt_of k)) as [Hge|Hnge].
  - assert (k <> 17) as Hk17 by (intros ->; lia).
    destruct Hbig as [?|Hbig]; [contradiction|].
    rewrite resize_run by lia. cbn [mbind result_bind].
    exists (k + 1). split; [lia|]. split; [lia|]. split; [lia|].
    destruct (rshard_fields (k + 1) n) as (_ & Hcnt' & _ & Hm' & Hb' & El');
      [lia|].
    assert (2 ^ k < 2 ^ (k + 1)) by (apply Z.pow_lt_mono_r; lia).
    rewrite (set_run fuel _ (k + 1) n) by (assumption || lia || (apply El'; lia)).
    unfold run_shard, withCap, withCount, withBuckets.
    cbn [cap count growAt shrinkAt mask buckets]. do 3 f_equal. lia.
  - exists k. split; [lia|]. split; [lia|]. split.
    { intros E. destruct Hbig as [?|Hbig]; [assumption|lia]. }
    cbn [mbind result_bind].
    rewrite (set_run fuel _ k n) by (assumption || lia).
    unfold run_shard, withCap, withCount, withBuckets.
    cbn [cap count growAt shrinkAt mask buckets]. do 3 f_equal. lia.
Qed.

Lemma fresh_is_rshard : newShard K V 0 = rshard 3 O.
Proof. rewrite <- newShard_is_rshard by lia. reflexivity. Qed.

Lemma run_sets_S n :
  run_sets hs ks vs (S n) = run_sets hs ks vs n ++ [OpSet (hs n) (ks n) (vs n)].
Proof. unfold run_sets. rewrite seq_S, map_app. reflexivity. Qed.

(** The table after the first [n] colliding keys were set, up to 65536 of
    them: a run of [n] entries in a table of at most 2^17 buckets. *)
Lemma run_sets_run fuel n :
  Z.of_nat n <= 65536 -> 65535 < Z.of_nat fuel ->
  exists k,
    3 <= k <= 17 /\
    (Z.of_nat n <= 65535 -> Z.of_nat n <= growAt_of k) /\
    (Z.of_nat n = 65536 -> k = 17) /\
    run_ops fuel (run_sets hs ks vs n) (newShard K V 0) = Ret (rshard k n).
Proof.
  intros Hn Hfuel. induction n as [|n IH].
  - exists 3. split; [lia|]. split.
    + intros _. assert (growAt_of 3 = 6) as -> by (vm_compute; reflexivity).
      lia.
    + split; [lia|]. cbn [run_sets seq map run_ops]. rewrite fresh_is_rshard.
      reflexivity.
  - destruct IH as (k & Hk & Hg & _ & Hrun); [lia|].
    destruct (SetWithHash_run fuel k n) as (k' & Hk' & Hg' & Htop & Hset);
      try lia.
    exists k'. split; [exact Hk'|]. split; [intros; apply Hg'; lia|].
    split; [intros; apply Htop; lia|].
    rewrite run_sets_S, (run_ops_app _ _ _ _ _ Hrun).
    cbn [run_ops apply_op]. rewrite Hset. reflexivity.
Qed.

(** Looking up the key that sits in bucket [p] = 65535 of a run: the walk
    passes the 65535 entries before it and then meets its displacement
    field, which wrapped around to 0. *)
Lemma get_loop_run_last (d : nat) : forall fuel m L p j,
  shaped m -> buckets m = rbuckets L (S p) -> (S p < L)%nat ->
  Z.of_nat p = 65535 -> (j + d = p)%nat -> (d < fuel)%nat ->
  get_loop fuel m (hs p) (ks p) (Z.of_nat j) = Ret (zeroV, false).
Proof.
  induction d as [|d IH]; intros fuel m L p j Hs Hb HpL Hp Hjd Hfuel;
    (destruct fuel as [|f]; [lia|]).
  - assert (j = p) as -> by lia.
    apply (get_loop_empty f m _ _ _ (rentry p)).
    + eapply index_run_lt; [eassumption|lia].
    + apply dib_run_entry_last. exact Hp.
  - rewrite (get_loop_pass f m _ _ _ (rentry j));
      [|eapply index_run_lt; [eassumption|lia]
       |rewrite dib_run_entry by lia; lia
       |cbn [key run_entry]; intros E; apply ks_inj in E; lia].
    rewrite (next_index_run m L (S p) j) by (assumption || lia).
    apply IH with (L := L); try assumption; lia.
Qed.

Lemma delete_loop_run_last (d : nat) : forall fuel m L p j,
  shaped m -> buckets m = rbuckets L (S p) -> (S p < L)%nat ->
  Z.of_nat p = 65535 -> (j + d = p)%nat -> (d < fuel)%nat ->
  delete_loop fuel m (hs p) (ks p) (Z.of_nat j) = Ret (m, (zeroV, false)).
Proof.
  induction d as [|d IH]; intros fuel m L p j Hs Hb HpL Hp Hjd Hfuel;
    (destruct fuel as [|f]; [lia|]).
  - assert (j = p) as -> by lia.
    apply (delete_loop_empty f m _ _ _ (rentry p)).
    + eapply index_run_lt; [eassumption|lia].
    + apply dib_run_entry_last. exact Hp.
  - rewrite (delete_loop_pass f m _ _ _ (rentry j));
      [|eapply index_run_lt; [eassumption|lia]
       |rewrite dib_run_entry by lia; lia
       |cbn [key run_entry]; intros E; apply ks_inj in E; lia].
    rewrite (next_index_run m L (S p) j) by (assumption || lia).
    apply IH with (L := L); try assumption; lia.
Qed.

Lemma rshard_shaped (k : Z) n :
  3 <= k <= 17 -> Z.of_nat n <= 2 ^ k -> shaped (rshard k n).
Proof.
  intros Hk Hn. destruct (rshard_fields k n) as (_ & _ & _ & Hm & _ & El); [lia|].
  apply (shaped_intro _ k); auto; lia.
Qed.

Lemma GetWithHash_run_last fuel p :
  Z.of_nat p = 65535 -> 65535 < Z.of_nat fuel ->
  GetWithHash fuel (rshard 17 (S p)) (hs p) (ks p) = Ret (zeroV, false).
Proof.
  intros Hp Hfuel.
  destruct (rshard_fields 17 (S p)) as (_ & _ & _ & Hm & Hb & El); [lia|].
  specialize (El ltac:(lia)).
  unfold GetWithHash. rewrite El. change (2 ^ 17 =? 0) with false. cbv iota.
  rewrite Hm, land_pow2_pred, hs_home_k by lia.
  apply (get_loop_run_last p fuel _ (Z.to_nat (2 ^ 17)) p O);
    try assumption; try lia.
  apply rshard_shaped; lia.
Qed.

Lemma DeleteWithHash_run_last fuel p :
  Z.of_nat p = 65535 -> 65535 < Z.of_nat fuel ->
  DeleteWithHash fuel (rshard 17 (S p)) (hs p) (ks p)
  = Ret (rshard 17 (S p), (zeroV, false)).
Proof.
  intros Hp Hfuel.
  destruct (rshard_fields 17 (S p)) as (_ & _ & _ & Hm & Hb & El); [lia|].
  specialize (El ltac:(lia)).
  unfold DeleteWithHash. rewrite El. change (2 ^ 17 =? 0) with false. cbv iota.
  rewrite Hm, land_pow2_pred, hs_home_k by lia.
  apply (delete_loop_run_last p fuel _ (Z.to_nat (2 ^ 17)) p O);
    try assumption; try lia.
  apply rshard_shaped; lia.
Qed.

End Run.

(** ** Calls that all go to one shard *)

Section OneShard.
Context {K V : Type} `{EqDecision K} `{Zero K} `{Zero V}.
Variable hashKey : K -> Z.
Implicit Types (M : Map K V) (sh : mapShard K V).

Lemma Set_on_shard fuel M (k : K) (v : V) sh sh' r :
  index (maps M) (choose hashKey M k).1 = Ret sh ->
  SetWithHash fuel sh (choose hashKey M k).2 k v = Ret (sh', r) ->
  Set_ hashKey fuel M k v
  = Ret (withMaps M (<[Z.to_nat (choose hashKey M k).1 := sh']> (maps M)), r).
Proof.
  intros Hsh Hset. unfold Set_.
  destruct (choose hashKey M k) as [shard shardKey]. cbn [fst snd] in *.
  unfold onShard. rewrite Hsh. cbn [mbind result_bind]. rewrite Hset.
  reflexivity.
Qed.

Lemma Delete_on_shard fuel M (k : K) sh sh' r :
  index (maps M) (choose hashKey M k).1 = Ret sh ->
  DeleteWithHash fuel sh (choose hashKey M k).2 k = Ret (sh', r) ->
  Delete hashKey fuel M k
  = Ret (withMaps M (<[Z.to_nat (choose hashKey M k).1 := sh']> (maps M)), r).
Proof.
  intros Hsh Hdel. unfold Delete.
  destruct (choose hashKey M k) as [shard shardKey]. cbn [fst snd] in *.
  unfold onShard. rewrite Hsh. cbn [mbind result_bind]. rewrite Hdel.
  reflexivity.
Qed.

Lemma Get_on_shard fuel M (k : K) sh :
  index (maps M) (choose hashKey M k).1 = Ret sh ->
  Get hashKey fuel M k = GetWithHash fuel sh (choose hashKey M k).2 k.
Proof.
  intros Hsh. unfold Get.
  destruct (choose hashKey M k) as [shard shardKey]. cbn [fst snd] in *.
  rewrite Hsh. reflexivity.
Qed.

Lemma choose_withMaps M ms (k : K) :
  choose hashKey (withMaps M ms) k = choose hashKey M k.
Proof. reflexivity. Qed.

Lemma routed_withMaps M ms s mop sop :
  routed hashKey M s mop sop -> routed hashKey (withMaps M ms) s mop sop.
Proof.
  intros Hr. destruct Hr as [k v E|k E].
  - rewrite <- (choose_withMaps M ms k). constructor.
    rewrite choose_withMaps. exact E.
  - rewrite <- (choose_withMaps M ms k). constructor.
    rewrite choose_withMaps. exact E.
Qed.

Lemma index_insert_same {A} (l : list A) (s : Z) (x y : A) :
  index l s = Ret x -> index (<[Z.to_nat s := y]> l) s = Ret y.
Proof.
  intros Hx. apply index_Ret in Hx. apply index_Ret.
  apply list_lookup_insert_eq. eapply lookup_lt_Some. exact Hx.
Qed.

(** Map calls that are all routed to shard [s] act on that shard alone. *)
Lemma run_map_ops_on_shard fuel (s : Z) mops sops :
  forall M sh sh',
  Forall2 (routed hashKey M s) mops sops ->
  index (maps M) s = Ret sh ->
  run_ops fuel sops sh = Ret sh' ->
  run_map_ops hashKey fuel mops M
  = Ret (withMaps M (<[Z.to_nat s := sh']> (maps M))).
Proof.
  revert sops. induction mops as [|mop mops IH]; intros sops M sh sh' Hall Hsh Hrun.
  - inversion Hall; subst. cbn in *. inversion Hrun; subst.
    apply index_Ret in Hsh. rewrite list_insert_id by exact Hsh.
    destruct M; reflexivity.
  - inversion Hall as [|? sop ? sops' Hr Hall']; subst.
    cbn [run_ops] in Hrun. apply bind_Ret_inv in Hrun as (sh1 & Hop & Hrun).
    cbn [run_map_ops].
    assert (apply_map_op hashKey fuel M mop
            = Ret (withMaps M (<[Z.to_nat s := sh1]> (maps M)))) as ->.
    { destruct Hr as [k v E|k E]; cbn [apply_op apply_map_op] in *;
        apply bind_Ret_inv in Hop as ([sh2 r] & Hop & Hret);
        inversion Hret; subst; cbn [fst] in *.
      - rewrite (Set_on_shard fuel M k v sh sh1 r); [reflexivity|assumption..].
      - rewrite (Delete_on_shard fuel M k sh sh1 r); [reflexivity|assumption..]. }
    cbn [mbind result_bind].
    rewrite (IH sops' _ sh1 sh').
    + unfold withMaps. cbn [mcap shards shardIDMax maps].
      rewrite list_insert_insert_eq. reflexivity.
    + clear -Hall'. induction Hall'; constructor; auto using routed_withMaps.
    + cbn [withMaps maps]. eapply index_insert_same. exact Hsh.
    + exact Hrun.
Qed.

Lemma foldl_count_shift (l : list (mapShard K V)) (a : Z) :
  foldl (fun acc sh => acc + Len sh) a l
  = a + foldl (fun acc sh => acc + Len sh) 0 l.
Proof.
  revert a. induction l as [|x l IH]; intros a; cbn [foldl]; [lia|].
  rewrite (IH (a + Len x)), (IH (0 + Len x)). lia.
Qed.

Lemma foldl_count_insert (l : list (mapShard K V)) : forall (i : nat) (a : Z) sh sh',
  l !! i = Some sh ->
  foldl (fun acc s => acc + Len s) a (<[i := sh']> l)
  = foldl (fun acc s => acc + Len s) a l - count sh + count sh'.
Proof.
  induction l as [|x l IH]; intros i a sh sh' Hi; [discriminate|].
  destruct i as [|i].
  - inversion Hi; subst. cbn [insert list_insert foldl].
    rewrite (foldl_count_shift l (a + Len sh')), (foldl_count_shift l (a + Len sh)).
    unfold Len. lia.
  - cbn [insert list_insert foldl]. apply IH. exact Hi.
Qed.

Lemma MapLen_insert M (i : nat) sh sh' :
  maps M !! i = Some sh ->
  MapLen (withMaps M (<[i := sh']> (maps M))) = MapLen M - count sh + count sh'.
Proof. intros Hi. unfold MapLen. cbn [withMaps maps]. apply foldl_count_insert, Hi. Qed.

Lemma MapLen_fresh (n : nat) (sh : mapShard K V) (M : Map K V) :
  maps M = replicate n sh -> count sh = 0 -> MapLen M = 0.
Proof.
  intros Hm Hc. unfold MapLen. rewrite Hm. clear Hm.
  induction n as [|n IH]; [reflexivity|].
  cbn [replicate foldl]. unfold Len at 2. rewrite Hc. exact IH.
Qed.

End OneShard.

(** ** 65536 colliding keys through the map *)

Section MapRun.
Context {K V : Type} `{EqDecision K} `{Zero K} `{Zero V}.
Variable hashKey : K -> Z.
Variable ks : nat -> K.
Variable vs : nat -> V.
Variable numCPU : Z.
Variable s : Z.

Local Notation "'M0'" := (New K V numCPU 0).
Local Notation "'hs'" := (fun i : nat => (choose hashKey M0 (ks i)).2).

Hypothesis hk_range : forall i, 0 <= hashKey (ks i) < 2 ^ 64.
Hypothesis hk_shard : forall i, (choose hashKey M0 (ks i)).1 = s.
Hypothesis hk_home : forall i, (choose hashKey M0 (ks i)).2 mod 2 ^ 17 = 0.
Hypothesis ks_inj : forall i j, ks i = ks j -> i = j.

Local Notation "'rmap'" := (run_map hashKey ks vs numCPU s).

Lemma hs_range i : 0 <= hs i < 2 ^ 48.
Proof. apply (choose_bounds hashKey numCPU 0 (ks i)). apply hk_range. Qed.

Lemma M0_shard : index (maps M0) s = Ret (newShard K V 0).
Proof.
  pose proof (choose_bounds hashKey numCPU 0 (ks O) (hk_range O)) as (Hs & _).
  unfold New in hk_shard. rewrite hk_shard in Hs.
  destruct (Init_shards (K:=K) (V:=V) numCPU 0) as (j & Hj & Es & _ & El).
  apply index_Ret. unfold New, Init, maps in *.
  apply lookup_replicate_2. cbn [shards] in *. lia.
Qed.

Lemma run_sets_routed n :
  Forall2 (routed hashKey M0 s) (run_map_sets ks vs n) (run_sets hs ks vs n).
Proof.
  unfold run_map_sets, run_sets. generalize (seq 0 n). intros l.
  induction l as [|i l IH]; cbn [map]; constructor; [|exact IH].
  apply (routed_set hashKey M0 s (ks i) (vs i)). apply hk_shard.
Qed.

Lemma run_map_sets_run fuel n :
  Z.of_nat n <= 65536 -> 65535 < Z.of_nat fuel ->
  exists k,
    3 <= k <= 17 /\
    (Z.of_nat n <= 65535 -> Z.of_nat n <= growAt_of k) /\
    (Z.of_nat n = 65536 -> k = 17) /\
    run_map_ops hashKey fuel (run_map_sets ks vs n) M0 = Ret (rmap k n).
Proof.
  intros Hn Hfuel.
  destruct (run_sets_run hs ks vs hs_range hk_home ks_inj fuel n Hn Hfuel)
    as (k & Hk & Hg & Htop & Hrun).
  exists k. split; [exact Hk|]. split; [exact Hg|]. split; [exact Htop|].
  apply (run_map_ops_on_shard hashKey fuel s _ _ M0 _ _
           (run_sets_routed n) M0_shard Hrun).
Qed.

Lemma run_map_shard (k : Z) n :
  index (maps (rmap k n)) s = Ret (run_shard hs ks vs k n).
Proof. unfold run_map. cbn [withMaps maps]. eapply index_insert_same, M0_shard. Qed.

Lemma run_map_choose (k : Z) n i :
  choose hashKey (rmap k n) (ks i) = (s, hs i).
Proof.
  unfold run_map. rewrite choose_withMaps.
  rewrite <- (hk_shard i). destruct (choose hashKey M0 (ks i)). reflexivity.
Qed.

Lemma run_map_insert (k k' : Z) n n' :
  withMaps (rmap k n)
    (<[Z.to_nat s := run_shard hs ks vs k' n']> (maps (rmap k n)))
  = rmap k' n'.
Proof.
  unfold run_map, withMaps. cbn [mcap shards shardIDMax maps].
  rewrite list_insert_insert_eq. reflexivity.
Qed.

Lemma run_map_Len (k : Z) n : 3 <= k <= 60 -> MapLen (rmap k n) = Z.of_nat n.
Proof.
  intros Hk. unfold run_map.
  pose proof M0_shard as Hsh. apply index_Ret in Hsh.
  rewrite (MapLen_insert M0 _ _ _ Hsh).
  destruct (rshard_fields hs ks vs k n Hk) as (_ & -> & _).
  rewrite (MapLen_fresh _ (newShard K V 0) M0 eq_refl eq_refl).
  reflexivity.
Qed.

(** What the 65536th colliding key meets.  After 65535 colliding keys were
    set, setting one more reports a new entry, and then the map neither
    finds nor deletes that key, while [Len] counts it. *)
Lemma colliding_key_is_lost fuel p :
  Z.of_nat p = 65535 -> 65535 < Z.of_nat fuel ->
  exists M M',
    run_map_ops hashKey fuel (run_map_sets ks vs p) M0 = Ret M /\
    Set_ hashKey fuel M (ks p) (vs p) = Ret (M', (zeroV, false)) /\
    run_map_ops hashKey fuel (run_map_sets ks vs (S p)) M0 = Ret M' /\
    Get hashKey fuel M' (ks p) = Ret (zeroV, false) /\
    MapLen M' = 65536 /\
    Delete hashKey fuel M' (ks p) = Ret (M', (zeroV, false)).
Proof.
  intros Hp Hfuel.
  destruct (run_map_sets_run fuel p) as (k & Hk & Hg & _ & Hrun); try lia.
  destruct (run_map_sets_run fuel (S p)) as (k1 & Hk1 & _ & Htop1 & Hrun1);
    try lia.
  rewrite (Htop1 ltac:(lia)) in *. clear Htop1 Hk1.
  destruct (SetWithHash_run hs ks vs hs_range hk_home ks_inj fuel k p)
    as (k' & Hk' & _ & Htop & Hset); try lia.
  rewrite (Htop Hp) in *. clear Htop Hk'.
  exists (rmap k p), (rmap 17 (S p)).
  split; [exact Hrun|]. split.
  { rewrite (Set_on_shard hashKey fuel _ (ks p) (vs p)
               (run_shard hs ks vs k p) (run_shard hs ks vs 17 (S p))
               (zeroV, false)).
    - rewrite run_map_choose. cbn [fst]. rewrite run_map_insert. reflexivity.
    - rewrite run_map_choose. apply run_map_shard.
    - rewrite run_map_choose. exact Hset. }
  split; [exact Hrun1|]. split.
  { rewrite (Get_on_shard hashKey fuel _ (ks p) (run_shard hs ks vs 17 (S p))).
    - rewrite run_map_choose.
      apply (GetWithHash_run_last hs ks vs hs_range hk_home ks_inj fuel p Hp Hfuel).
    - rewrite run_map_choose. apply run_map_shard. }
  split; [rewrite run_map_Len; lia|].
  rewrite (Delete_on_shard hashKey fuel _ (ks p)
             (run_shard hs ks vs 17 (S p)) (run_shard hs ks vs 17 (S p))
             (zeroV, false)).
  - rewrite run_map_choose. cbn [fst]. rewrite run_map_insert. reflexivity.
  - rewrite run_map_choose. apply run_map_shard.
  - rewrite run_map_choose.
    apply (DeleteWithHash_run_last hs ks vs hs_range hk_home ks_inj fuel p Hp Hfuel).
Qed.

End MapRun.

(** ** What holds of [Delete] and of the accept variants wherever they return *)

Section Returning.
Context {K V : Type} `{EqDecision K} `{Zero K} `{Zero V}.
Variable hashKey : K -> Z.
Implicit Types (m : mapShard K V) (M : Map K V).

(** The search of [DeleteWithHash] is the search of [GetWithHash]: where the
    lookup reports the key as missing, the deletion reports the same and
    leaves the table as it is. *)
Lemma delete_loop_missing fuel : forall m (h : Z) (k : K) (i : Z) v,
  get_loop fuel m h k i = Ret (v, false) ->
  delete_loop fuel m h k i = Ret (m, (zeroV, false)).
Proof.
  induction fuel as [|f IH]; intros m h k i v Hget; [discriminate|].
  cbn [get_loop delete_loop] in *.
  destruct (index (buckets m) i) as [b| |]; cbn [mbind result_bind] in *;
    try discriminate.
  destruct (dib b =? 0); [reflexivity|].
  destruct (bool_decide (hash b = h) && bool_decide (key b = k));
    [discriminate|].
  eapply IH. exact Hget.
Qed.

Lemma DeleteWithHash_missing fuel m (h : Z) (k : K) v :
  GetWithHash fuel m h k = Ret (v, false) ->
  DeleteWithHash fuel m h k = Ret (m, (zeroV, false)).
Proof.
  unfold GetWithHash, DeleteWithHash. destruct (len (buckets m) =? 0).
  - reflexivity.
  - apply delete_loop_missing.
Qed.

(** Where the lookup finds a value, a deletion that returns reports that
    value as deleted. *)
Lemma delete_loop_present fuel : forall m (h : Z) (k : K) (i : Z) v m' r,
  get_loop fuel m h k i = Ret (v, true) ->
  delete_loop fuel m h k i = Ret (m', r) ->
  r = (v, true).
Proof.
  induction fuel as [|f IH]; intros m h k i v m' r Hget Hdel; [discriminate|].
  cbn [get_loop delete_loop] in *.
  destruct (index (buckets m) i) as [b| |]; cbn [mbind result_bind] in *;
    try discriminate.
  destruct (dib b =? 0); [discriminate|].
  destruct (bool_decide (hash b = h) && bool_decide (key b = k)).
  - apply bind_Ret_inv in Hdel as (m1 & _ & Hret).
    inversion Hget; inversion Hret; subst. reflexivity.
  - eapply IH; eassumption.
Qed.

Lemma withMaps_same M (s : nat) (sh : mapShard K V) :
  maps M !! s = Some sh -> withMaps M (<[s := sh]> (maps M)) = M.
Proof.
  intros Hs. rewrite list_insert_id by exact Hs. destruct M. reflexivity.
Qed.

Lemma Delete_missing fuel M (k : K) v :
  Get hashKey fuel M k = Ret (v, false) ->
  Delete hashKey fuel M k = Ret (M, (zeroV, false)).
Proof.
  unfold Get, Delete, onShard.
  destruct (choose hashKey M k) as [shard shardKey].
  destruct (index (maps M) shard) as [sh| |] eqn:Hsh;
    cbn [mbind result_bind]; try discriminate.
  intros Hget. rewrite (DeleteWithHash_missing fuel sh shardKey k v Hget).
  cbn [mbind result_bind fst snd]. apply index_Ret in Hsh.
  rewrite withMaps_same by exact Hsh. reflexivity.
Qed.

(** With no [accept] function, or with one that accepts, [SetAccept] is
    [Set] and [DeleteAccept] is [Delete]. *)
Lemma SetAccept_accepting fuel M (k : K) (v : V) accept :
  accepting accept -> SetAccept hashKey fuel M k v accept = Set_ hashKey fuel M k v.
Proof.
  intros Hacc. unfold SetAccept, Set_, onShard.
  destruct (choose hashKey M k) as [shard shardKey].
  destruct (index (maps M) shard) as [sh| |]; cbn [mbind result_bind];
    try reflexivity.
  destruct (SetWithHash fuel sh shardKey k v) as [[sh' [prev replaced]]| |];
    cbn [mbind result_bind]; try reflexivity.
  destruct accept as [f|]; [|reflexivity].
  rewrite (Hacc prev replaced). reflexivity.
Qed.

Lemma DeleteAccept_accepting fuel M (k : K) accept :
  accepting accept -> DeleteAccept hashKey fuel M k accept = Delete hashKey fuel M k.
Proof.
  intros Hacc. unfold DeleteAccept, Delete, onShard.
  destruct (choose hashKey M k) as [shard shardKey].
  destruct (index (maps M) shard) as [sh| |]; cbn [mbind result_bind];
    try reflexivity.
  destruct (DeleteWithHash fuel sh shardKey k) as [[sh' [prev deleted]]| |];
    cbn [mbind result_bind]; try reflexivity.
  destruct accept as [f|]; [|reflexivity].
  rewrite (Hacc prev deleted). reflexivity.
Qed.

(** With an [accept] function that rejects, a call that returns returns the
    zero value and false. *)
Lemma SetAccept_rejecting fuel M (k : K) (v : V) f M' r :
  (forall prev b, f prev b = false) ->
  SetAccept hashKey fuel M k v (Some f) = Ret (M', r) -> r = (zeroV, false).
Proof.
  intros Hrej. unfold SetAccept, onShard.
  destruct (choose hashKey M k) as [shard shardKey].
  intros Hrun. apply bind_Ret_inv in Hrun as (sh & _ & Hrun).
  apply bind_Ret_inv in Hrun as ([sh1 r1] & Hop & Hret).
  inversion Hret; subst. cbn [snd]. clear Hret.
  apply bind_Ret_inv in Hop as ([sh' [prev replaced]] & _ & Hop).
  rewrite (Hrej prev replaced) in Hop. cbn [negb] in Hop.
  destruct replaced; cbn [negb] in Hop;
    apply bind_Ret_inv in Hop as (r' & _ & Hret); inversion Hret; reflexivity.
Qed.

Lemma DeleteAccept_rejecting fuel M (k : K) f M' r :
  (forall prev b, f prev b = false) ->
  DeleteAccept hashKey fuel M k (Some f) = Ret (M', r) -> r = (zeroV, false).
Proof.
  intros Hrej. unfold DeleteAccept, onShard.
  destruct (choose hashKey M k) as [shard shardKey].
  intros Hrun. apply bind_Ret_inv in Hrun as (sh & _ & Hrun).
  apply bind_Ret_inv in Hrun as ([sh1 r1] & Hop & Hret).
  inversion Hret; subst. cbn [snd]. clear Hret.
  apply bind_Ret_inv in Hop as ([sh' [prev deleted]] & _ & Hop).
  rewrite (Hrej prev deleted) in Hop. cbn [negb] in Hop.
  destruct deleted.
  - apply bind_Ret_inv in Hop as (r' & _ & Hret); inversion Hret; reflexivity.
  - inversion Hop; reflexivity.
Qed.

End Returning.

(** ** The colliding run on integer keys *)

Lemma collideHash_range (k : Z) : 0 <= collideHash k < 2 ^ 64.
Proof. unfold collideHash, u64. apply Z.mod_pos_bound. lia. Qed.

Lemma collideHash_divide (k : Z) : (2 ^ 33 | collideHash k).
Proof.
  unfold collideHash, u64. rewrite Z.mod_eq by lia.
  apply Z.divide_sub_r.
  - apply Z.divide_factor_r.
  - apply Z.divide_mul_l. exists (2 ^ 31). reflexivity.
Qed.

Lemma collideHash_shard (i : nat) :
  (choose collideHash (New Z Z 1 0) (collideKey i)).1 = 0.
Proof.
  unfold choose. cbn [fst].
  change (shardIDMax (New Z Z 1 0)) with (2 ^ 4 - 1).
  rewrite land_pow2_pred by lia.
  apply Z.mod_divide; [lia|].
  apply Z.divide_trans with (2 ^ 33); [|apply collideHash_divide].
  exists (2 ^ 29). reflexivity.
Qed.

Lemma collideHash_home (i : nat) :
  (choose collideHash (New Z Z 1 0) (collideKey i)).2 mod 2 ^ 17 = 0.
Proof.
  unfold choose, makeHash, dibBitSize. cbn [snd].
  rewrite Z.shiftr_div_pow2 by lia.
  destruct (collideHash_divide (collideKey i)) as [q ->].
  replace (q * 2 ^ 33) with (q * 2 ^ 17 * 2 ^ 16) by (rewrite <- Z.mul_assoc; reflexivity).
  rewrite Z.div_mul by lia. apply Z.mod_mul. lia.
Qed.

Lemma collideKey_inj (i j : nat) : collideKey i = collideKey j -> i = j.
Proof. unfold collideKey. lia. Qed.

(** C3 (evaluated).  Two runs in which [Get] does not return the value
    that was set.
    - On a one-CPU host, a map of capacity 0 receives the keys 0 .. 65534,
      whose digests agree on the shard bits and on the 17 low bits of the
      hash.  [Set] of key 65535 with value 65536 then reports a new entry,
      and the [Get] of key 65535 that follows at once reports the key as
      missing.
    - On a one-CPU host, a map of capacity 528 receives nine keys of one
      shard and deletes one.  [Get] of key 0 returns the value that was set;
      [Delete] of the other, never set key 100 then returns under no
      iteration budget, so that no [Get] of key 0 is ever reached after
      it. *)
Theorem Set_then_Get_misses :
  (exists M M',
     run_map_ops collideHash (Z.to_nat 65536)
       (run_map_sets collideKey collideValue (Z.to_nat 65535)) (New Z Z 1 0)
     = Ret M /\
     Set_ collideHash (Z.to_nat 65536) M 65535 65536 = Ret (M', (0, false)) /\
     Get collideHash (Z.to_nat 65536) M' 65535 = Ret (0, false)) /\
  (exists M,
     run_map_ops demoHash 64 nine_then_delete_map (New Z Z 1 528) = Ret M /\
     Get demoHash 64 M 0 = Ret (100, true) /\
     forall fuel, Delete demoHash fuel M 100 = Spin).
Proof.
  split.
  - destruct (colliding_key_is_lost collideHash collideKey collideValue 1 0
                (fun i => collideHash_range (collideKey i))
                collideHash_shard collideHash_home collideKey_inj
                (Z.to_nat 65536) (Z.to_nat 65535))
      as (M & M' & Hrun & Hset & _ & Hget & _); [lia..|].
    exists M, M'. split; [exact Hrun|].
    unfold collideKey, collideValue in Hset, Hget.
    rewrite Z2Nat.id in Hset, Hget by lia.
    split; [exact Hset | exact Hget].
  - destruct nine_then_delete_map_run as (M & _ & Hrun & _ & _ & _ & _ & _ & _ & Hget).
    exists M. split; [exact Hrun|]. split; [exact Hget|].
    apply (packed_map_spins M Hrun).
Qed.

(** C5 (evaluated).  After [Set] on the 65536 pairwise-distinct keys
    0 .. 65535 of that run, [Len] is 65536; [Delete] of key 65535, one of
    them, reports that nothing was deleted and [Len] stays 65536 instead of
    dropping to 65535. *)
Theorem Len_after_Delete_overcounts :
  (forall i j, collideKey i = collideKey j -> i = j) /\
  exists M M',
    run_map_ops collideHash (Z.to_nat 65536)
      (run_map_sets collideKey collideValue (Z.to_nat 65536)) (New Z Z 1 0)
    = Ret M /\
    MapLen M = 65536 /\
    Delete collideHash (Z.to_nat 65536) M 65535 = Ret (M', (0, false)) /\
    MapLen M' = 65536.
Proof.
  split; [exact collideKey_inj|].
  destruct (colliding_key_is_lost collideHash collideKey collideValue 1 0
              (fun i => collideHash_range (collideKey i))
              collideHash_shard collideHash_home collideKey_inj
              (Z.to_nat 65536) (Z.to_nat 65535))
    as (_ & M' & _ & _ & Hrun & _ & Hlen & Hdel); [lia..|].
  exists M', M'.
  replace (Z.to_nat 65536) with (S (Z.to_nat 65535)) at 2 by lia.
  split; [exact Hrun|]. split; [exact Hlen|].
  unfold collideKey in Hdel. rewrite Z2Nat.id in Hdel by lia.
  split; [exact Hdel | exact Hlen].
Qed.

(** ** What the shrink path does in general *)

Section Shrink.
Context {K V : Type} `{EqDecision K} `{Zero K} `{Zero V}.
Implicit Types (m : mapShard K V) (e b : entry K V) (bs : list (entry K V)).

Lemma remove_loop_len fuel : forall bs (mask_ i : Z) bs',
  remove_loop fuel bs mask_ i = Ret bs' -> len bs' = len bs.
Proof.
  induction fuel as [|f IH]; intros bs mask_ i bs' Hrun; [discriminate|].
  cbn [remove_loop] in Hrun. apply bind_Ret_inv in Hrun as (b & Hb & Hrun).
  destruct (dib b <=? 1).
  - apply bind_Ret_inv in Hrun as (b0 & _ & Hrun). inversion Hrun; subst.
    apply len_insert.
  - apply bind_Ret_inv in Hrun as (b0 & _ & Hrun). apply IH in Hrun.
    rewrite Hrun. apply len_insert.
Qed.

(** [remove] either keeps the bucket array or, on the shrink path, leaves
    the array that [newShard] allocates for the new length; the capacity
    hint is kept in both cases. *)
Lemma remove_result fuel m (i : Z) m' :
  remove fuel m i = Ret m' ->
  cap m' = cap m /\
  if (len (buckets m) >? cap m) && (count m - 1 <=? shrinkAt m)
  then len (buckets m') = len (buckets (newShard K V (count m - 1)))
  else len (buckets m') = len (buckets m) /\ count m' = count m - 1.
Proof.
  unfold remove. intros Hrun.
  apply bind_Ret_inv in Hrun as (b & Hb & Hrun).
  apply bind_Ret_inv in Hrun as (bs & Hloop & Hrun).
  apply remove_loop_len in Hloop. rewrite len_insert in Hloop.
  cbn [withCount withBuckets buckets cap count shrinkAt] in Hrun.
  rewrite Hloop in Hrun.
  destruct ((len (buckets m) >? cap m) && (count m - 1 <=? shrinkAt m)).
  - apply resize_frame in Hrun as (Hc & _ & _ & _ & Hl).
    cbn [withCount withBuckets cap] in Hc. auto.
  - inversion Hrun; subst. cbn [withCount withBuckets buckets cap count]. auto.
Qed.

Lemma delete_loop_found fuel : forall m (h : Z) (k : K) (i : Z) m' v,
  delete_loop fuel m h k i = Ret (m', (v, true)) ->
  exists f j, remove f m j = Ret m'.
Proof.
  induction fuel as [|f IH]; intros m h k i m' v Hrun; [discriminate|].
  cbn [delete_loop] in Hrun. apply bind_Ret_inv in Hrun as (b & Hb & Hrun).
  destruct (dib b =? 0); [discriminate|].
  destruct (bool_decide (hash b = h) && bool_decide (key b = k)).
  - apply bind_Ret_inv in Hrun as (m1 & Hrem & Hrun). inversion Hrun; subst.
    eauto.
  - eapply IH. exact Hrun.
Qed.

(** A [DeleteWithHash] that removes an entry from a table with more buckets
    than the capacity hint and leaves at most [shrinkAt] entries returns a
    table whose bucket array is the one [newShard] allocates for the new
    length (the least power of two that is at least 8 and at least that
    length), with the capacity hint unchanged. *)
Lemma shrink_sizes_from_length fuel m (h : Z) (k : K) m' v :
  DeleteWithHash fuel m h k = Ret (m', (v, true)) ->
  cap m < len (buckets m) -> count m - 1 <= shrinkAt m ->
  cap m' = cap m /\
  len (buckets m') = len (buckets (newShard K V (count m - 1))).
Proof.
  unfold DeleteWithHash. intros Hrun Hcap Hshrink.
  destruct (len (buckets m) =? 0); [discriminate|].
  apply delete_loop_found in Hrun as (f & j & Hrem).
  apply remove_result in Hrem as (Hc & Hl).
  destruct (Z.gtb_spec (len (buckets m)) (cap m)) as [_|?]; [|lia].
  destruct (Z.leb_spec (count m - 1) (shrinkAt m)) as [_|?]; [|lia].
  cbn [andb] in Hl. auto.
Qed.

End Shrink.

(** ** The length field after 65536 colliding keys *)

Section RunCount.
Context {K V : Type} `{EqDecision K} `{Zero K} `{Zero V}.
Variable hs : nat -> Z.
Variable ks : nat -> K.
Variable vs : nat -> V.
Hypothesis hs_range : forall i, 0 <= hs i < 2 ^ 48.

Lemma occupied_app (l1 l2 : list (entry K V)) :
  occupied (l1 ++ l2) = occupied l1 + occupied l2.
Proof.
  induction l1 as [|b l1 IH]; [rewrite occupied_nil; reflexivity|].
  change ((b :: l1) ++ l2) with (b :: (l1 ++ l2)).
  rewrite !occupied_cons, IH. lia.
Qed.

Lemma occupied_run_entries (n : nat) :
  Z.of_nat n <= 65536 ->
  occupied (map (run_entry hs ks vs) (seq 0 n)) = Z.min (Z.of_nat n) 65535.
Proof.
  induction n as [|n IH]; intros Hn; [reflexivity|].
  rewrite seq_S, map_app, occupied_app. rewrite IH by lia. cbn [map Nat.add].
  rewrite occupied_cons. change (occupied (@nil (entry K V))) with 0.
  destruct (Z.eq_dec (Z.of_nat n) 65535) as [E|NE].
  - rewrite (dib_run_entry_last hs ks vs hs_range n E).
    destruct (decide (0 <> 0)); lia.
  - rewrite (dib_run_entry hs ks vs hs_range n) by lia.
    destruct (decide (Z.of_nat n + 1 <> 0)); lia.
Qed.

Lemma occupied_run_buckets (L n : nat) :
  Z.of_nat n <= 65536 ->
  occupied (run_buckets hs ks vs L n) = Z.min (Z.of_nat n) 65535.
Proof.
  intros Hn. unfold run_buckets.
  rewrite occupied_app, occupied_replicate_zero.
  rewrite occupied_run_entries by lia. lia.
Qed.

End RunCount.

(** C10 (evaluated).  Two reachable tables break the invariant.  The table
    reached from [newShard(33)] by nine insertions and one deletion has
    length 8 and 8 buckets, all occupied: its length is not below the number
    of buckets and no empty bucket is left.  The table reached from
    [newShard(0)] by 65536 insertions of colliding keys has length 65536 but
    only 65535 buckets with a nonzero displacement field. *)
Theorem reachable_tables_break_length_invariant :
  (exists m : mapShard Z Z,
     reachable m /\
     count m = len (buckets m) /\ occupied (buckets m) = len (buckets m)) /\
  (exists m : mapShard Z Z,
     reachable m /\ count m = 65536 /\ occupied (buckets m) = 65535).
Proof.
  split.
  - destruct nine_then_delete_run as (m & Hrun & _ & Hc & Hl & _ & Ho & _).
    exists m. split; [exists 33, 64%nat, nine_then_delete; exact Hrun|].
    rewrite Hc, Hl, Ho. split; reflexivity.
  - assert (forall i : nat, 0 <= (fun _ : nat => 0) i < 2 ^ 48) as Hr
      by (intros _; lia).
    destruct (run_sets_run (fun _ => 0) collideKey collideValue Hr
                (fun _ => eq_refl) collideKey_inj
                (Z.to_nat 65536) (Z.to_nat 65536))
      as (k & Hk & _ & Htop & Hrun); [lia..|].
    rewrite (Htop ltac:(lia)) in Hrun.
    eexists. split; [exists 0, (Z.to_nat 65536); eexists; exact Hrun|].
    destruct (rshard_fields (fun _ => 0) collideKey collideValue 17
                (Z.to_nat 65536)) as (_ & Hc & _ & _ & Hb & _); [lia|].
    rewrite Hc, Hb. rewrite (occupied_run_buckets _ _ _ Hr) by lia.
    split; lia.
Qed.

(** * The Robin Hood layout

    What the operations do on a well-formed table: the facts behind the
    lookup, insertion and deletion theorems further down. *)

(** ** Positions on the ring of buckets *)

Lemma ring_succ (n a : Z) : 0 < n -> (a mod n + 1) mod n = (a + 1) mod n.
Proof. intros Hn. apply Zplus_mod_idemp_l. Qed.

Lemma ring_back (n j s : Z) :
  0 < n -> ((j - (s + 1)) mod n + 1) mod n = (j - s) mod n.
Proof.
  intros Hn. rewrite ring_succ by lia. f_equal. lia.
Qed.

Lemma ring_range (n a : Z) : 0 < n -> 0 <= a mod n < n.
Proof. intros Hn. apply Z.mod_pos_bound. lia. Qed.

Lemma ring_shift_ne (n i s : Z) :
  0 <= i < n -> 0 < s < n -> (i + s) mod n <> i.
Proof.
  intros Hi Hs E.
  destruct (Z_lt_le_dec (i + s) n).
  - rewrite Z.mod_small in E by lia. lia.
  - replace (i + s) with (i + s - n + 1 * n) in E by lia.
    rewrite Z.mod_add, Z.mod_small in E by lia. lia.
Qed.

Lemma ring_back_ne (n j s : Z) :
  0 <= j < n -> 0 < s < n -> (j - s) mod n <> j.
Proof.
  intros Hj Hs E.
  destruct (Z_lt_le_dec (j - s) 0).
  - replace (j - s) with (j - s + n + (-1) * n) in E by lia.
    rewrite Z.mod_add, Z.mod_small in E by lia. lia.
  - rewrite Z.mod_small in E by lia. lia.
Qed.

(** Two positions at the same distance behind [j] and [j'] coincide only if
    [j] and [j'] do. *)
Lemma ring_back_inj (n j j' s : Z) :
  0 <= j < n -> 0 <= j' < n -> (j - s) mod n = (j' - s) mod n -> j = j'.
Proof.
  intros Hj Hj' E.
  assert ((j - s + s) mod n = (j' - s + s) mod n) as E'.
  { rewrite <- (Zplus_mod_idemp_l (j - s)), E, Zplus_mod_idemp_l. reflexivity. }
  replace (j - s + s) with j in E' by lia.
  replace (j' - s + s) with j' in E' by lia.
  rewrite !Z.mod_small in E' by lia. exact E'.
Qed.

(** [j] lies [(j - i) mod n] steps after [i]. *)
Lemma ring_dist (n i j : Z) :
  0 < n -> 0 <= j < n -> (i + (j - i) mod n) mod n = j.
Proof.
  intros Hn Hj. rewrite Zplus_mod_idemp_r.
  replace (i + (j - i)) with j by lia. apply Z.mod_small. lia.
Qed.

Lemma ring_back_dist (n i j : Z) :
  0 < n -> 0 <= i < n -> (j - (j - i) mod n) mod n = i.
Proof.
  intros Hn Hi. rewrite Zminus_mod_idemp_r.
  replace (j - (j - i)) with i by lia. apply Z.mod_small. lia.
Qed.

Lemma len_cons {A} (x : A) (l : list A) : len (x :: l) = len l + 1.
Proof. unfold len. cbn [length]. lia. Qed.

Lemma len_nonneg {A} (l : list A) : 0 <= len l.
Proof. unfold len. lia. Qed.

(** ** Buckets by index *)

Section Slots.
Context {K V : Type} `{EqDecision K} `{Zero K} `{Zero V}.
Implicit Types (m : mapShard K V) (e b : entry K V) (bs : list (entry K V)).

Lemma slot_lookup bs (i : Z) :
  0 <= i < len bs -> bs !! Z.to_nat i = Some (slot bs i).
Proof.
  intros Hi. unfold slot, len in *.
  destruct (lookup_lt_is_Some_2 bs (Z.to_nat i)) as [b Hb]; [lia|].
  rewrite Hb. reflexivity.
Qed.

Lemma index_slot bs (i : Z) : 0 <= i < len bs -> index bs i = Ret (slot bs i).
Proof. intros Hi. unfold index. rewrite slot_lookup by assumption. reflexivity. Qed.

Lemma lookup_slot bs (i : Z) b : bs !! Z.to_nat i = Some b -> slot bs i = b.
Proof. intros Hb. unfold slot. rewrite Hb. reflexivity. Qed.

Lemma slot_insert_eq bs (i : Z) e :
  0 <= i < len bs -> slot (<[Z.to_nat i := e]> bs) i = e.
Proof.
  intros Hi. unfold slot, len in *.
  rewrite list_lookup_insert_eq by lia. reflexivity.
Qed.

Lemma slot_insert_ne bs (i j : Z) e :
  0 <= i -> 0 <= j -> i <> j -> slot (<[Z.to_nat i := e]> bs) j = slot bs j.
Proof.
  intros Hi Hj Hne. unfold slot.
  rewrite list_lookup_insert_ne by lia. reflexivity.
Qed.

Lemma slot_insert bs (i j : Z) e :
  0 <= i < len bs -> 0 <= j ->
  slot (<[Z.to_nat i := e]> bs) j = if decide (j = i) then e else slot bs j.
Proof.
  intros Hi Hj. destruct (decide (j = i)) as [->|Hne].
  - apply slot_insert_eq. exact Hi.
  - apply slot_insert_ne; lia.
Qed.

Lemma slot_replicate (n : nat) (i : Z) :
  slot (replicate n (zeroEntry K V)) i = zeroEntry K V.
Proof.
  unfold slot. destruct (replicate n (zeroEntry K V) !! Z.to_nat i) as [b|] eqn:E.
  - apply lookup_replicate in E. destruct E as [-> _]. reflexivity.
  - reflexivity.
Qed.

Lemma occupied_insert_slot bs (i : Z) e :
  0 <= i < len bs ->
  occupied (<[Z.to_nat i := e]> bs)
  = occupied bs - (if decide (dib (slot bs i) <> 0) then 1 else 0)
                + (if decide (dib e <> 0) then 1 else 0).
Proof. intros Hi. apply occupied_insert, slot_lookup, Hi. Qed.

(** ** The two fields of an entry *)

Lemma entry_word e :
  0 <= hdib e < 2 ^ 64 ->
  hdib e = hash e * 2 ^ 16 + dib e /\ 0 <= hash e < 2 ^ 48.
Proof.
  intros Hw. rewrite hash_div, dib_mod. split.
  - rewrite Z.mul_comm. apply Z_div_mod_eq_full.
  - split; [apply Z.div_pos; lia | apply Z.div_lt_upper_bound; lia].
Qed.

Lemma hdib_setDIB e (d : Z) :
  0 <= hdib e < 2 ^ 64 ->
  hdib (setDIB e d) = hash e * 2 ^ 16 + d mod 2 ^ 16.
Proof.
  intros Hw. unfold setDIB. cbn [hdib].
  rewrite land_hashMask, land_maxDIB by assumption.
  rewrite hash_div. apply lor_shift_low; [lia|]. apply Z.mod_pos_bound. lia.
Qed.

Lemma setDIB_fields e (d : Z) :
  0 <= hdib e < 2 ^ 64 -> 0 <= d < 2 ^ 16 ->
  dib (setDIB e d) = d /\ hash (setDIB e d) = hash e /\
  0 <= hdib (setDIB e d) < 2 ^ 64.
Proof.
  intros Hw Hd. destruct (entry_word e Hw) as [_ Hh].
  rewrite dib_mod, hash_div, hdib_setDIB by assumption.
  rewrite (Z.mod_small d) by lia. split; [|split].
  - rewrite Z.add_comm, Z.mod_add by lia. apply Z.mod_small. lia.
  - rewrite Z.add_comm, Z.div_add by lia. rewrite Z.div_small by lia. lia.
  - lia.
Qed.

Lemma key_setDIB e (d : Z) : key (setDIB e d) = key e.
Proof. reflexivity. Qed.

Lemma value_setDIB e (d : Z) : value (setDIB e d) = value e.
Proof. reflexivity. Qed.

Lemma new_entry_fields (h : Z) (k : K) (v : V) :
  0 <= h < 2 ^ 48 ->
  dib (Entry (makeHDIB h 1) k v) = 1 /\
  hash (Entry (makeHDIB h 1) k v) = h /\
  0 <= hdib (Entry (makeHDIB h 1) k v) < 2 ^ 64.
Proof.
  intros Hh. rewrite dib_make, hash_make by assumption.
  split; [reflexivity|]. split; [reflexivity|].
  cbn [hdib]. apply makeHDIB_range. exact Hh.
Qed.

Lemma dib_zero_entry : dib (zeroEntry K V) = 0.
Proof. reflexivity. Qed.

Lemma ok_words m : table_ok m -> words_ok (buckets m).
Proof. intros Hok. apply (ok_layout m Hok). Qed.

Lemma ok_homes m : table_ok m -> homes_ok (mask m) (buckets m).
Proof. intros Hok. apply (ok_layout m Hok). Qed.

Lemma ok_steps m : table_ok m -> steps_ok (buckets m).
Proof. intros Hok. apply (ok_layout m Hok). Qed.

Lemma ok_keys m : table_ok m -> keys_ok (buckets m).
Proof. intros Hok. apply (ok_layout m Hok). Qed.

End Slots.

(** ** Lookups on a well-formed table *)

Section Lookup.
Context {K V : Type} `{EqDecision K} `{Zero K} `{Zero V}.
Implicit Types (m : mapShard K V) (e b : entry K V) (bs : list (entry K V)).

Lemma matches_test b (h : Z) (k : K) :
  bool_decide (hash b = h) && bool_decide (key b = k) = true <-> matches b h k.
Proof.
  unfold matches. rewrite andb_true_iff, !bool_decide_eq_true. reflexivity.
Qed.

Lemma matches_test_false b (h : Z) (k : K) :
  ~ matches b h k ->
  bool_decide (hash b = h) && bool_decide (key b = k) = false.
Proof.
  intros Hn. apply not_true_is_false. rewrite matches_test. exact Hn.
Qed.

Lemma matches_test_true b (h : Z) (k : K) :
  matches b h k ->
  bool_decide (hash b = h) && bool_decide (key b = k) = true.
Proof. apply matches_test. Qed.

Lemma matches_dec b (h : Z) (k : K) : {matches b h k} + {~ matches b h k}.
Proof.
  unfold matches. destruct (decide (hash b = h)); destruct (decide (key b = k));
    [left; split; assumption | right; tauto..].
Qed.

(** Behind an entry the displacements fall by at most one per step: the
    [dib - 1] buckets before it are occupied. *)
Lemma steps_back bs (s : nat) : forall j,
  steps_ok bs -> 0 <= j < len bs ->
  dib (slot bs j) - Z.of_nat s <= dib (slot bs ((j - Z.of_nat s) mod len bs)).
Proof.
  induction s as [|s IH]; intros j Hst Hj.
  - change (Z.of_nat 0) with 0. rewrite !Z.sub_0_r, Z.mod_small by lia. lia.
  - specialize (IH j Hst Hj).
    assert (0 < len bs) as Hn by lia.
    pose proof (ring_range (len bs) (j - Z.of_nat (S s)) Hn) as Hp.
    pose proof (Hst _ Hp) as Hstep.
    replace (Z.of_nat (S s)) with (Z.of_nat s + 1) in * by lia.
    rewrite ring_back in Hstep by lia. lia.
Qed.

(** In a table with an empty bucket no displacement exceeds the number of
    buckets. *)
Lemma dib_below_len bs (z j : Z) :
  steps_ok bs -> 0 <= z < len bs -> dib (slot bs z) = 0 ->
  0 <= j < len bs -> dib (slot bs j) <= (j - z) mod len bs.
Proof.
  intros Hst Hz Hd Hj.
  assert (0 < len bs) as Hn by lia.
  pose proof (ring_range (len bs) (j - z) Hn) as Hr.
  pose proof (steps_back bs (Z.to_nat ((j - z) mod len bs)) j Hst Hj) as Hc.
  rewrite Z2Nat.id in Hc by lia.
  rewrite ring_back_dist in Hc by lia. lia.
Qed.

(** The probe of a lookup that starts [t] buckets before the entry it is
    looking for, with nothing but other entries in between, finds it. *)
Lemma get_loop_walk (t : nat) : forall (fuel : nat) m (h : Z) (k : K) (j : Z),
  shaped m -> 0 <= j < len (buckets m) -> (t < fuel)%nat ->
  dib (slot (buckets m) j) <> 0 -> matches (slot (buckets m) j) h k ->
  (forall s, 1 <= s <= Z.of_nat t ->
     dib (slot (buckets m) ((j - s) mod len (buckets m))) <> 0 /\
     ~ matches (slot (buckets m) ((j - s) mod len (buckets m))) h k) ->
  get_loop fuel m h k ((j - Z.of_nat t) mod len (buckets m))
  = Ret (value (slot (buckets m) j), true).
Proof.
  induction t as [|t IH]; intros fuel m h k j Hs Hj Hfuel Hd Hm Hpath;
    (destruct fuel as [|f]; [lia|]); cbn [get_loop].
  - change (Z.of_nat 0) with 0. rewrite !Z.sub_0_r, Z.mod_small by lia.
    rewrite index_slot by assumption. cbn [mbind result_bind].
    destruct (Z.eqb_spec (dib (slot (buckets m) j)) 0); [contradiction|].
    rewrite matches_test_true by assumption. reflexivity.
  - pose proof (shaped_len_pos m Hs) as Hn.
    pose proof (ring_range (len (buckets m)) (j - Z.of_nat (S t)) Hn) as Hp.
    rewrite index_slot by assumption. cbn [mbind result_bind].
    destruct (Hpath (Z.of_nat (S t))) as [Hocc Hnm]; [lia|].
    destruct (Z.eqb_spec
                (dib (slot (buckets m)
                        ((j - Z.of_nat (S t)) mod len (buckets m)))) 0);
      [contradiction|].
    rewrite matches_test_false by assumption.
    rewrite next_index by assumption.
    replace (Z.of_nat (S t)) with (Z.of_nat t + 1) by lia.
    rewrite ring_back by lia.
    apply IH; try assumption; try lia.
    intros s Hs'. apply Hpath. lia.
Qed.

(** The probe of a lookup for an entry that no bucket holds stops at the
    first empty bucket. *)
Lemma get_loop_absent (d : nat) : forall (fuel : nat) m (h : Z) (k : K) (i z : Z),
  shaped m -> 0 <= i < len (buckets m) -> 0 <= z < len (buckets m) ->
  dib (slot (buckets m) z) = 0 ->
  (z - i) mod len (buckets m) = Z.of_nat d -> (d < fuel)%nat ->
  absent m h k ->
  get_loop fuel m h k i = Ret (zeroV, false).
Proof.
  induction d as [|d IH]; intros fuel m h k i z Hs Hi Hz Hd Hdist Hfuel Habs;
    (destruct fuel as [|f]; [lia|]); cbn [get_loop];
    rewrite index_slot by assumption; cbn [mbind result_bind].
  - apply dist_zero in Hdist; [|lia..]. subst z.
    rewrite Hd. reflexivity.
  - destruct (Z.eqb_spec (dib (slot (buckets m) i)) 0) as [|Hne];
      [reflexivity|].
    rewrite matches_test_false.
    2:{ intros Hm. apply (Habs (value (slot (buckets m) i))).
        exists i. unfold entry_is. auto. }
    rewrite next_index by assumption.
    assert (z <> i) as Hzi by (intros ->; contradiction).
    apply (IH f m h k _ z); try assumption; try lia.
    + apply ring_range. lia.
    + rewrite dist_step by lia. lia.
Qed.

(** Whatever a lookup returns with [true] is in the table, and what it
    returns with [false] is the zero value. *)
Lemma get_loop_sound (fuel : nat) : forall m (h : Z) (k : K) (i : Z) v ok,
  get_loop fuel m h k i = Ret (v, ok) ->
  if ok then stored m h k v else v = zeroV.
Proof.
  induction fuel as [|f IH]; intros m h k i v ok Hrun; [discriminate|].
  cbn [get_loop] in Hrun. unfold index in Hrun.
  destruct (buckets m !! Z.to_nat i) as [b|] eqn:Hb; [|discriminate].
  cbn [mbind result_bind] in Hrun.
  destruct (Z.eqb_spec (dib b) 0) as [|Hne].
  { inversion Hrun; subst. reflexivity. }
  destruct (bool_decide (hash b = h) && bool_decide (key b = k)) eqn:Hm.
  - inversion Hrun; subst. apply matches_test in Hm.
    pose proof (lookup_lt_Some _ _ _ Hb) as Hlt.
    destruct (Z_lt_le_dec i 0) as [Hneg|Hpos].
    + exists 0. unfold len, entry_is. split; [lia|].
      replace (Z.to_nat i) with (Z.to_nat 0) in Hb by lia.
      rewrite (lookup_slot _ 0 _ Hb). auto.
    + exists i. unfold len, entry_is. split; [lia|].
      rewrite (lookup_slot _ _ _ Hb). auto.
  - eapply IH. exact Hrun.
Qed.

Lemma table_has_empty m :
  table_wf m ->
  exists z, 0 <= z < len (buckets m) /\ dib (slot (buckets m) z) = 0.
Proof.
  intros [Hok Hroom].
  destruct (empty_slot_exists (buckets m)) as (z & bz & Hz & Hd).
  { rewrite <- (ok_count m Hok). exact Hroom. }
  pose proof (lookup_lt_Some _ _ _ Hz) as Hlt.
  exists (Z.of_nat z). unfold len. split; [lia|].
  rewrite (lookup_slot _ (Z.of_nat z) bz); [exact Hd|].
  rewrite Nat2Z.id. exact Hz.
Qed.

Lemma GetWithHash_stored (fuel : nat) m (h : Z) (k : K) (v : V) :
  table_ok m -> len (buckets m) <= Z.of_nat fuel ->
  stored m h k v ->
  GetWithHash fuel m h k = Ret (v, true).
Proof.
  intros Hok Hfuel (j & Hj & Hd & Hm & Hv).
  pose proof (ok_homes m Hok) as Hhomes. pose proof (ok_steps m Hok) as Hsteps.
  pose proof (ok_keys m Hok) as Hkeys.
  pose proof (ok_shaped m Hok) as Hs.
  pose proof (shaped_len_pos m Hs) as Hn.
  unfold GetWithHash.
  destruct (Z.eqb_spec (len (buckets m)) 0) as [?|_]; [lia|].
  pose proof (Hhomes j Hj Hd) as Hhome.
  destruct Hm as [Eh Ek]. rewrite Eh in Hhome. rewrite Hhome.
  set (n := len (buckets m)) in *.
  set (d := dib (slot (buckets m) j)) in *.
  pose proof (dib_range (slot (buckets m) j)) as Hdr. fold d in Hdr.
  set (t := (d - 1) mod n).
  assert (0 <= t < n) as Ht by (apply ring_range; lia).
  assert (t <= d - 1) as Htd by (apply Z.mod_le; lia).
  assert ((j - (d - 1)) mod n = (j - Z.of_nat (Z.to_nat t)) mod n) as E.
  { rewrite Z2Nat.id by lia. unfold t.
    rewrite Zminus_mod_idemp_r. reflexivity. }
  rewrite E, <- Hv.
  apply get_loop_walk; try assumption; try lia.
  - split; assumption.
  - rewrite Z2Nat.id by lia. intros s Hs'.
    pose proof (steps_back (buckets m) (Z.to_nat s) j Hsteps Hj) as Hc.
    rewrite Z2Nat.id in Hc by lia. fold n d in Hc |- *.
    split; [lia|].
    intros [Eh' Ek'].
    assert ((j - s) mod n = j) as Ej.
    { apply Hkeys; try assumption.
      - apply ring_range. lia.
      - fold n. lia.
      - split; congruence. }
    apply (ring_back_ne n j s); [lia|lia|exact Ej].
Qed.

Lemma GetWithHash_absent (fuel : nat) m (h : Z) (k : K) :
  table_wf m -> len (buckets m) <= Z.of_nat fuel ->
  absent m h k ->
  GetWithHash fuel m h k = Ret (zeroV, false).
Proof.
  intros Hwf Hfuel Habs. pose proof Hwf as [Hok Hroom].
  pose proof (ok_shaped m Hok) as Hs.
  pose proof (shaped_len_pos m Hs) as Hn.
  destruct (table_has_empty m Hwf) as (z & Hz & Hd).
  unfold GetWithHash.
  destruct (Z.eqb_spec (len (buckets m)) 0) as [?|_]; [lia|].
  pose proof (masked_index m h Hs) as Hi.
  pose proof (ring_range (len (buckets m)) (z - Z.land h (mask m)) Hn) as Hr.
  apply (get_loop_absent
           (Z.to_nat ((z - Z.land h (mask m)) mod len (buckets m)))
           fuel m h k _ z); try assumption; lia.
Qed.

Lemma GetWithHash_sound (fuel : nat) m (h : Z) (k : K) v ok :
  GetWithHash fuel m h k = Ret (v, ok) ->
  if ok then stored m h k v else v = zeroV.
Proof.
  unfold GetWithHash. destruct (len (buckets m) =? 0).
  - intros E. inversion E; subst. reflexivity.
  - apply get_loop_sound.
Qed.

End Lookup.

(** ** Writing one bucket *)

Section Write.
Context {K V : Type} `{EqDecision K} `{Zero K} `{Zero V}.
Implicit Types (m : mapShard K V) (e b : entry K V) (bs : list (entry K V)).

Lemma ring_add_cancel (n a b c : Z) :
  a mod n = b mod n -> (a + c) mod n = (b + c) mod n.
Proof.
  intros E. rewrite <- (Zplus_mod_idemp_l a), E, Zplus_mod_idemp_l. reflexivity.
Qed.

Lemma ring_pred_succ (n p i : Z) :
  0 < n -> 0 <= p < n -> (p + 1) mod n = i -> (i - 1) mod n = p.
Proof.
  intros Hn Hp <-. rewrite Zminus_mod_idemp_l.
  replace (p + 1 - 1) with p by lia. apply Z.mod_small. lia.
Qed.

Lemma ring_succ_pred (n i : Z) :
  0 < n -> 0 <= i < n -> ((i - 1) mod n + 1) mod n = i.
Proof.
  intros Hn Hi. rewrite Zplus_mod_idemp_l.
  replace (i - 1 + 1) with i by lia. apply Z.mod_small. lia.
Qed.

Lemma matches_sym e b : matches e (hash b) (key b) -> matches b (hash e) (key e).
Proof. intros [E1 E2]. split; congruence. Qed.

Lemma words_ok_insert bs (i : Z) e :
  words_ok bs -> 0 <= i < len bs -> 0 <= hdib e < 2 ^ 64 ->
  words_ok (<[Z.to_nat i := e]> bs).
Proof.
  intros Hw Hi He p Hp. rewrite len_insert in Hp.
  rewrite slot_insert by lia. destruct (decide (p = i)); auto.
Qed.

Lemma homes_ok_insert (mask_ : Z) bs (i : Z) e :
  homes_ok mask_ bs -> 0 <= i < len bs ->
  (dib e <> 0 -> Z.land (hash e) mask_ = (i - (dib e - 1)) mod len bs) ->
  homes_ok mask_ (<[Z.to_nat i := e]> bs).
Proof.
  intros Hh Hi He p Hp. rewrite len_insert in *.
  rewrite slot_insert by lia. destruct (decide (p = i)) as [->|]; auto.
Qed.

Lemma steps_ok_insert bs (i : Z) e :
  steps_ok bs -> 0 <= i < len bs ->
  dib (slot bs i) <= dib e ->
  dib e <= dib (slot bs ((i - 1) mod len bs)) + 1 ->
  steps_ok (<[Z.to_nat i := e]> bs).
Proof.
  intros Hst Hi Hup Hdown p Hp. rewrite len_insert in *.
  assert (0 < len bs) as Hn by lia.
  pose proof (ring_range (len bs) (p + 1) Hn) as Hq.
  rewrite !slot_insert by lia.
  pose proof (Hst p Hp) as Hstep.
  destruct (decide ((p + 1) mod len bs = i)) as [E|Hne];
    destruct (decide (p = i)) as [->|Hpi]; try lia.
  rewrite (ring_pred_succ _ p i) in Hdown by assumption. lia.
Qed.

Lemma keys_ok_insert bs (i : Z) e :
  keys_ok bs -> 0 <= i < len bs ->
  (forall p, 0 <= p < len bs -> p <> i -> dib (slot bs p) <> 0 ->
     ~ matches (slot bs p) (hash e) (key e)) ->
  keys_ok (<[Z.to_nat i := e]> bs).
Proof.
  intros Hk Hi Hun p q Hp Hq. rewrite len_insert in *.
  rewrite !slot_insert by lia.
  destruct (decide (p = i)) as [->|Hpi]; destruct (decide (q = i)) as [->|Hqi];
    intros Hdp Hdq Hm; try reflexivity.
  - exfalso. apply (Hun q Hq Hqi Hdq). apply matches_sym. exact Hm.
  - exfalso. apply (Hun p Hp Hpi Hdp). exact Hm.
  - apply Hk; assumption.
Qed.

Lemma layout_ok_insert (mask_ : Z) bs (i : Z) e :
  layout_ok mask_ bs -> 0 <= i < len bs ->
  carried_ok mask_ bs e i -> dib (slot bs i) <= dib e ->
  unmatched bs e ->
  layout_ok mask_ (<[Z.to_nat i := e]> bs).
Proof.
  intros (Hw & Hh & Hst & Hk) Hi (Hwe & Hd1 & Hhome & Hprev) Hup Hun.
  split; [|split; [|split]].
  - apply words_ok_insert; assumption.
  - apply homes_ok_insert; auto.
  - apply steps_ok_insert; assumption.
  - apply keys_ok_insert; try assumption.
    intros p Hp _. apply Hun. exact Hp.
Qed.

(** The entries of a table with one bucket rewritten. *)
Lemma holds_insert bs (i : Z) e (h : Z) (k : K) (v : V) :
  0 <= i < len bs ->
  holds (<[Z.to_nat i := e]> bs) h k v <->
  entry_is e h k v \/
  exists p, 0 <= p < len bs /\ p <> i /\ entry_is (slot bs p) h k v.
Proof.
  intros Hi. split.
  - intros (p & Hp & He). rewrite len_insert in Hp.
    rewrite slot_insert in He by lia.
    destruct (decide (p = i)); [left; exact He | right; eauto].
  - intros [He | (p & Hp & Hpi & He)].
    + exists i. rewrite len_insert. split; [exact Hi|].
      rewrite slot_insert_eq by assumption. exact He.
    + exists p. rewrite len_insert. split; [exact Hp|].
      rewrite slot_insert_ne by lia. exact He.
Qed.

Lemma holds_split bs (i : Z) (h : Z) (k : K) (v : V) :
  0 <= i < len bs ->
  holds bs h k v <->
  entry_is (slot bs i) h k v \/
  exists p, 0 <= p < len bs /\ p <> i /\ entry_is (slot bs p) h k v.
Proof.
  intros Hi. split.
  - intros (p & Hp & He).
    destruct (decide (p = i)) as [->|]; [left; exact He | right; eauto].
  - intros [He | (p & Hp & _ & He)]; [exists i | exists p]; auto.
Qed.

(** Writing an entry into an empty bucket adds it to the entries. *)
Lemma holds_insert_empty bs (i : Z) e (h : Z) (k : K) (v : V) :
  0 <= i < len bs -> dib (slot bs i) = 0 ->
  holds (<[Z.to_nat i := e]> bs) h k v <-> entry_is e h k v \/ holds bs h k v.
Proof.
  intros Hi Hd. rewrite holds_insert, (holds_split bs i) by assumption.
  assert (~ entry_is (slot bs i) h k v) by (intros [? _]; contradiction).
  tauto.
Qed.

End Write.

(** ** The loop of [set] on a well-formed table *)

Section InsertLoop.
Context {K V : Type} `{EqDecision K} `{Zero K} `{Zero V}.
Implicit Types (m : mapShard K V) (e b : entry K V) (bs : list (entry K V)).

(** The carried entry is never further from its bucket than the table is
    long. *)
Lemma carried_bound (mask_ : Z) bs e (i z : Z) :
  steps_ok bs -> 0 <= i < len bs ->
  0 <= z < len bs -> dib (slot bs z) = 0 ->
  carried_ok mask_ bs e i -> dib e <= len bs.
Proof.
  intros Hst Hi Hz Hd (_ & _ & _ & Hprev).
  assert (0 < len bs) as Hn by lia.
  pose proof (ring_range (len bs) (i - 1) Hn) as Hp.
  pose proof (dib_below_len bs z _ Hst Hz Hd Hp) as Hb.
  pose proof (ring_range (len bs) ((i - 1) mod len bs - z) Hn). lia.
Qed.

Lemma entry_is_setDIB e (d : Z) (h : Z) (k : K) (v : V) :
  0 <= hdib e < 2 ^ 64 -> 1 <= d < 2 ^ 16 -> dib e <> 0 ->
  entry_is (setDIB e d) h k v <-> entry_is e h k v.
Proof.
  intros Hw Hd Hne. destruct (setDIB_fields e d Hw) as (Ed & Eh & _); [lia|].
  unfold entry_is, matches. rewrite Ed, Eh, key_setDIB, value_setDIB.
  split; intros (_ & Hm & Hv); (split; [lia|auto]).
Qed.

(** The carried entry moves on past a bucket whose entry is at least as far
    from its own. *)
Lemma carried_next (mask_ : Z) bs e (i : Z) :
  0 <= i < len bs -> len bs <= 2 ^ 15 -> dib e <= len bs ->
  carried_ok mask_ bs e i -> dib e <= dib (slot bs i) ->
  carried_ok mask_ bs (setDIB e (u64 (dib e + 1))) ((i + 1) mod len bs).
Proof.
  intros Hi Hsmall Hbound (Hw & Hd1 & Hhome & Hprev) Hge.
  assert (0 < len bs) as Hn by lia.
  assert (u64 (dib e + 1) = dib e + 1) as Eu.
  { unfold u64. apply Z.mod_small. lia. }
  rewrite Eu.
  destruct (setDIB_fields e (dib e + 1) Hw) as (Ed & Eh & Hw'); [lia|].
  unfold carried_ok. rewrite Ed, Eh.
  split; [exact Hw'|]. split; [lia|]. split.
  - rewrite Hhome, Zminus_mod_idemp_l. f_equal. lia.
  - rewrite Zminus_mod_idemp_l.
    replace (i + 1 - 1) with i by lia. rewrite Z.mod_small by lia. lia.
Qed.

(** After a swap the evicted entry is carried on. *)
Lemma carried_swap (mask_ : Z) bs e (i : Z) :
  0 <= i < len bs -> len bs <= 2 ^ 15 -> dib e <= len bs ->
  words_ok bs -> homes_ok mask_ bs ->
  dib (slot bs i) <> 0 -> dib (slot bs i) < dib e ->
  carried_ok mask_ (<[Z.to_nat i := e]> bs)
    (setDIB (slot bs i) (u64 (dib (slot bs i) + 1))) ((i + 1) mod len bs).
Proof.
  intros Hi Hsmall Hbound Hw Hh Hne Hlt.
  set (b := slot bs i) in *.
  assert (0 < len bs) as Hn by lia.
  pose proof (dib_range b) as Hdb.
  assert (u64 (dib b + 1) = dib b + 1) as Eu.
  { unfold u64. apply Z.mod_small. lia. }
  rewrite Eu.
  destruct (setDIB_fields b (dib b + 1) (Hw i Hi)) as (Ed & Eh & Hw'); [lia|].
  unfold carried_ok. rewrite Ed, Eh, len_insert.
  split; [exact Hw'|]. split; [lia|]. split.
  - pose proof (Hh i Hi Hne) as Hhome. fold b in Hhome.
    rewrite Hhome, Zminus_mod_idemp_l. f_equal. lia.
  - rewrite Zminus_mod_idemp_l.
    replace (i + 1 - 1) with i by lia. rewrite Z.mod_small by lia.
    rewrite slot_insert_eq by assumption. lia.
Qed.

Lemma unmatched_swap bs e (i : Z) (d : Z) :
  0 <= i < len bs -> keys_ok bs -> dib (slot bs i) <> 0 ->
  0 <= hdib (slot bs i) < 2 ^ 64 -> 0 <= d < 2 ^ 16 ->
  ~ matches e (hash (slot bs i)) (key (slot bs i)) ->
  unmatched (<[Z.to_nat i := e]> bs) (setDIB (slot bs i) d).
Proof.
  intros Hi Hk Hne Hw Hd Hnm p Hp. rewrite len_insert in Hp.
  destruct (setDIB_fields (slot bs i) d Hw Hd) as (_ & Eh & _).
  rewrite Eh, key_setDIB, slot_insert by lia.
  destruct (decide (p = i)) as [->|Hpi]; intros Hdp Hm.
  - contradiction.
  - apply Hpi. apply Hk; assumption.
Qed.

Lemma unmatched_setDIB bs e (d : Z) :
  0 <= hdib e < 2 ^ 64 -> 0 <= d < 2 ^ 16 ->
  unmatched bs e -> unmatched bs (setDIB e d).
Proof.
  intros Hw Hd Hun p Hp Hdp.
  destruct (setDIB_fields e d Hw Hd) as (_ & Eh & _).
  rewrite Eh, key_setDIB. apply Hun; assumption.
Qed.

(** Once an entry has been evicted, the loop carries entries that the table
    does not hold, up to the first empty bucket. *)
Lemma set_loop_carry (dd : nat) : forall (fuel : nat) m e (i z : Z),
  shaped m -> len (buckets m) <= 2 ^ 15 ->
  layout_ok (mask m) (buckets m) ->
  0 <= i < len (buckets m) -> 0 <= z < len (buckets m) ->
  dib (slot (buckets m) z) = 0 ->
  (z - i) mod len (buckets m) = Z.of_nat dd -> (dd < fuel)%nat ->
  carried_ok (mask m) (buckets m) e i -> unmatched (buckets m) e ->
  exists m',
    set_loop fuel m e i = Ret (m', (zeroV, false)) /\
    layout_ok (mask m') (buckets m') /\
    count m' = count m + 1 /\
    occupied (buckets m') = occupied (buckets m) + 1 /\
    forall h k v,
      holds (buckets m') h k v <-> entry_is e h k v \/ holds (buckets m) h k v.
Proof.
  induction dd as [|dd IH];
    intros fuel m e i z Hs Hsmall Hlay Hi Hz Hzd Hdist Hfuel Hcar Hun;
    (destruct fuel as [|f]; [lia|]); cbn [set_loop];
    rewrite index_slot by assumption; cbn [mbind result_bind];
    pose proof Hcar as (Hwe & Hd1 & Hhome & Hprev);
    pose proof Hlay as (Hw & Hh & Hst & Hk);
    assert (place :
      dib (slot (buckets m) i) = 0 ->
      exists m',
        Ret (withCount (withBuckets m (<[Z.to_nat i := e]> (buckets m)))
                       (count m + 1), (zeroV, false))
        = Ret (m', (zeroV, false)) /\
        layout_ok (mask m') (buckets m') /\
        count m' = count m + 1 /\
        occupied (buckets m') = occupied (buckets m) + 1 /\
        forall h k v,
          holds (buckets m') h k v
          <-> entry_is e h k v \/ holds (buckets m) h k v)
    by (intros Hd0; eexists; split; [reflexivity|];
        cbn [withCount withBuckets buckets count mask];
        split; [apply layout_ok_insert; try assumption; lia|];
        split; [reflexivity|];
        split; [rewrite occupied_insert_slot by assumption;
                destruct (decide (dib (slot (buckets m) i) <> 0));
                [contradiction|];
                destruct (decide (dib e <> 0)); lia|];
        intros h k v; apply holds_insert_empty; assumption).
  - apply dist_zero in Hdist; [|lia..]. subst z.
    rewrite Hzd. cbn [Z.eqb]. apply place. exact Hzd.
  - set (b := slot (buckets m) i) in *.
    destruct (Z.eqb_spec (dib b) 0) as [Hd0|Hne]; [apply place; exact Hd0|].
    clear place.
    rewrite matches_test_false.
    2:{ intros Hm. apply (Hun i Hi Hne). apply matches_sym. exact Hm. }
    assert (z <> i) as Hzi by (intros ->; contradiction).
    pose proof (shaped_len_pos m Hs) as Hn.
    pose proof (ring_range (len (buckets m)) (i + 1) Hn) as Hi'.
    assert ((z - (i + 1) mod len (buckets m)) mod len (buckets m) = Z.of_nat dd)
      as Hdist' by (rewrite dist_step by lia; lia).
    pose proof (carried_bound _ _ _ _ _ Hst Hi Hz Hzd Hcar) as Hbound.
    pose proof (dib_range b) as Hdb.
    destruct (Z.ltb_spec (dib b) (dib e)) as [Hlt|Hge].
    + set (m1 := withBuckets m (<[Z.to_nat i := e]> (buckets m))).
      assert (len (buckets m1) = len (buckets m)) as El by apply len_insert.
      assert (shaped m1) as Hs1.
      { eapply shaped_frame; [|exact Hs]. repeat split. exact El. }
      change (mask m) with (mask m1).
      rewrite next_index by (rewrite ?El; assumption). rewrite El.
      destruct (IH f m1 (setDIB b (u64 (dib b + 1)))
                  ((i + 1) mod len (buckets m)) z)
        as (m' & Hrun & Hlay' & Hcnt & Hocc & Hholds);
        rewrite ?El; try assumption; try lia.
      * apply layout_ok_insert; try assumption. fold b. lia.
      * cbn [m1 withBuckets buckets]. rewrite slot_insert_ne by lia. exact Hzd.
      * apply carried_swap; assumption.
      * assert (0 <= u64 (dib b + 1) < 2 ^ 16) as Hu
          by (unfold u64; rewrite Z.mod_small by lia; lia).
        assert (~ matches e (hash b) (key b)) as Hnm.
        { intros Hm. apply (Hun i Hi Hne). apply matches_sym. exact Hm. }
        exact (unmatched_swap _ _ _ _ Hi Hk Hne (Hw i Hi) Hu Hnm).
      * exists m'. split; [exact Hrun|]. split; [exact Hlay'|].
        split; [exact Hcnt|]. split.
        { rewrite Hocc. cbn [m1 withBuckets buckets].
          rewrite occupied_insert_slot by assumption. fold b.
          destruct (decide (dib b <> 0)); [|contradiction].
          destruct (decide (dib e <> 0)); lia. }
        intros h k v. rewrite Hholds. cbn [m1 withBuckets buckets].
        rewrite holds_insert, (holds_split (buckets m) i) by assumption.
        fold b. rewrite entry_is_setDIB; [tauto|apply Hw; exact Hi| |exact Hne].
        unfold u64. rewrite Z.mod_small by lia. lia.
    + rewrite next_index by assumption.
      destruct (IH f m (setDIB e (u64 (dib e + 1)))
                  ((i + 1) mod len (buckets m)) z)
        as (m' & Hrun & Hlay' & Hcnt & Hocc & Hholds);
        try assumption; try lia.
      * apply carried_next; assumption.
      * apply unmatched_setDIB; try assumption.
        unfold u64. rewrite Z.mod_small by lia. lia.
      * exists m'. split; [exact Hrun|]. split; [exact Hlay'|].
        split; [exact Hcnt|]. split; [exact Hocc|].
        intros h k v. rewrite Hholds.
        rewrite entry_is_setDIB; [tauto|exact Hwe| |lia].
        unfold u64. rewrite Z.mod_small by lia. lia.
Qed.

End InsertLoop.

Section InsertProbe.
Context {K V : Type} `{EqDecision K} `{Zero K} `{Zero V}.
Implicit Types (m : mapShard K V) (e b : entry K V) (bs : list (entry K V)).

(** If every entry with the hash and key of [e] is at least as far from its
    bucket as [e], and bucket [i] holds an entry that is closer to its own
    (or none), then no bucket has the hash and key of [e]: it would lie
    further along, behind a bucket that it would have displaced. *)
Lemma unmatched_here (mask_ : Z) bs e (i : Z) :
  homes_ok mask_ bs -> steps_ok bs -> 0 <= i < len bs ->
  Z.land (hash e) mask_ = (i - (dib e - 1)) mod len bs ->
  (forall p, 0 <= p < len bs -> dib (slot bs p) <> 0 ->
     matches (slot bs p) (hash e) (key e) -> dib e <= dib (slot bs p)) ->
  dib (slot bs i) < dib e ->
  unmatched bs e.
Proof.
  intros Hh Hst Hi Hhome Hfar Hlt p Hp Hdp Hm.
  pose proof (Hfar p Hp Hdp Hm) as Hge.
  pose proof (Hh p Hp Hdp) as Hhp. destruct Hm as [Eh _].
  rewrite Eh, Hhome in Hhp.
  set (s := dib (slot bs p) - dib e) in *.
  assert ((p - s) mod len bs = i) as Ei.
  { apply (ring_add_cancel _ _ _ (dib e - 1)) in Hhp.
    replace (i - (dib e - 1) + (dib e - 1)) with i in Hhp by lia.
    replace (p - (dib (slot bs p) - 1) + (dib e - 1)) with (p - s) in Hhp
      by (unfold s; lia).
    rewrite (Z.mod_small i) in Hhp by lia. congruence. }
  pose proof (steps_back bs (Z.to_nat s) p Hst Hp) as Hc.
  rewrite Z2Nat.id in Hc by lia. rewrite Ei in Hc. unfold s in Hc. lia.
Qed.

(** Overwriting the value of an entry keeps the layout. *)
Lemma layout_ok_setValue (mask_ : Z) bs (i : Z) (v : V) :
  layout_ok mask_ bs -> 0 <= i < len bs -> dib (slot bs i) <> 0 ->
  layout_ok mask_ (<[Z.to_nat i := setValue (slot bs i) v]> bs).
Proof.
  intros (Hw & Hh & Hst & Hk) Hi Hne.
  assert (0 < len bs) as Hn by lia.
  split; [|split; [|split]].
  - apply words_ok_insert; try assumption. apply Hw. exact Hi.
  - apply homes_ok_insert; try assumption. intros Hd. apply Hh; assumption.
  - apply steps_ok_insert; try assumption.
    + change (dib (setValue (slot bs i) v)) with (dib (slot bs i)). lia.
    + change (dib (setValue (slot bs i) v)) with (dib (slot bs i)).
      pose proof (Hst _ (ring_range (len bs) (i - 1) Hn)) as Hstep.
      rewrite ring_succ_pred in Hstep by lia. exact Hstep.
  - apply keys_ok_insert; try assumption.
    intros p Hp Hpi Hdp Hm. apply Hpi. apply Hk; assumption.
Qed.

(** The probe of [set] before any swap: the table is still the one that
    [set] was given. *)
Lemma set_loop_probe (dd : nat) : forall (fuel : nat) m e (i z : Z),
  shaped m -> len (buckets m) <= 2 ^ 15 ->
  layout_ok (mask m) (buckets m) ->
  0 <= i < len (buckets m) -> 0 <= z < len (buckets m) ->
  dib (slot (buckets m) z) = 0 ->
  (z - i) mod len (buckets m) = Z.of_nat dd -> (dd < fuel)%nat ->
  carried_ok (mask m) (buckets m) e i ->
  (forall p, 0 <= p < len (buckets m) -> dib (slot (buckets m) p) <> 0 ->
     matches (slot (buckets m) p) (hash e) (key e) ->
     dib e <= dib (slot (buckets m) p)) ->
  exists m' prev replaced,
    set_loop fuel m e i = Ret (m', (prev, replaced)) /\
    layout_ok (mask m') (buckets m') /\
    (if replaced
     then holds (buckets m) (hash e) (key e) prev /\
          count m' = count m /\
          occupied (buckets m') = occupied (buckets m)
     else prev = zeroV /\ unmatched (buckets m) e /\
          count m' = count m + 1 /\
          occupied (buckets m') = occupied (buckets m) + 1) /\
    forall h k v,
      holds (buckets m') h k v <->
      (matches e h k /\ v = value e) \/
      (~ matches e h k /\ holds (buckets m) h k v).
Proof.
  induction dd as [|dd IH];
    intros fuel m e i z Hs Hsmall Hlay Hi Hz Hzd Hdist Hfuel Hcar Hfar;
    (destruct fuel as [|f]; [lia|]);
    pose proof Hcar as (Hwe & Hd1 & Hhome & Hprev);
    pose proof Hlay as (Hw & Hh & Hst & Hk);
    assert (fresh : forall h k v,
      unmatched (buckets m) e ->
      (entry_is e h k v \/ holds (buckets m) h k v <->
       (matches e h k /\ v = value e) \/
       (~ matches e h k /\ holds (buckets m) h k v)))
    by (intros h k v Hun; split;
        [ intros [(_ & Hm & Hv) | Hho];
          [ left; auto
          | right; split; [|exact Hho];
            intros [Eh Ek]; destruct Hho as (p & Hp & Hdp & [Eh' Ek'] & _);
            apply (Hun p Hp Hdp); split; congruence ]
        | intros [[Hm Hv] | [_ Hho]];
          [ left; unfold entry_is; split; [lia|auto] | right; exact Hho ] ]);
    assert (place :
      dib (slot (buckets m) i) = 0 ->
      exists m' prev replaced,
        set_loop (S f) m e i = Ret (m', (prev, replaced)) /\
        layout_ok (mask m') (buckets m') /\
        (if replaced
         then holds (buckets m) (hash e) (key e) prev /\
              count m' = count m /\
              occupied (buckets m') = occupied (buckets m)
         else prev = zeroV /\ unmatched (buckets m) e /\
              count m' = count m + 1 /\
              occupied (buckets m') = occupied (buckets m) + 1) /\
        forall h k v,
          holds (buckets m') h k v <->
          (matches e h k /\ v = value e) \/
          (~ matches e h k /\ holds (buckets m) h k v))
    by (intros Hd0;
        assert (unmatched (buckets m) e) as Hun
          by (apply (unmatched_here (mask m) _ _ i); try assumption; lia);
        cbn [set_loop]; rewrite index_slot by assumption;
        cbn [mbind result_bind]; rewrite Hd0; cbn [Z.eqb];
        eexists _, _, false; split; [reflexivity|];
        cbn [withCount withBuckets buckets count mask];
        split; [apply layout_ok_insert; try assumption; lia|];
        split;
        [ split; [reflexivity|]; split; [exact Hun|]; split; [reflexivity|];
          rewrite occupied_insert_slot by assumption;
          destruct (decide (dib (slot (buckets m) i) <> 0)); [contradiction|];
          destruct (decide (dib e <> 0)); lia |];
        intros h k v; rewrite holds_insert_empty by assumption;
        apply fresh; exact Hun).
  - apply dist_zero in Hdist; [|lia..]. subst z. apply place. exact Hzd.
  - set (b := slot (buckets m) i) in *.
    destruct (Z.eq_dec (dib b) 0) as [Hd0|Hne]; [apply place; exact Hd0|].
    clear place.
    cbn [set_loop]. rewrite index_slot by assumption.
    cbn [mbind result_bind]. fold b.
    destruct (Z.eqb_spec (dib b) 0) as [|_]; [contradiction|].
    assert (z <> i) as Hzi by (intros ->; contradiction).
    pose proof (shaped_len_pos m Hs) as Hn.
    pose proof (ring_range (len (buckets m)) (i + 1) Hn) as Hi'.
    assert ((z - (i + 1) mod len (buckets m)) mod len (buckets m) = Z.of_nat dd)
      as Hdist' by (rewrite dist_step by lia; lia).
    pose proof (carried_bound _ _ _ _ _ Hst Hi Hz Hzd Hcar) as Hbound.
    pose proof (dib_range b) as Hdb.
    destruct (matches_dec e (hash b) (key b)) as [Hm|Hnm].
    { (* the key is there: its value is replaced *)
      rewrite matches_test_true by exact Hm.
      eexists _, _, true. split; [reflexivity|].
      cbn [withBuckets buckets count mask].
      split; [apply layout_ok_setValue; assumption|].
      split.
      { split; [|split; [reflexivity|]].
        - exists i. split; [exact Hi|]. fold b. split; [exact Hne|].
          split; [apply matches_sym; exact Hm | reflexivity].
        - rewrite occupied_insert_slot by assumption. fold b.
          change (dib (setValue b (value e))) with (dib b).
          destruct (decide (dib b <> 0)); lia. }
      intros h k v. rewrite holds_insert by assumption.
      destruct Hm as [Eh Ek]. unfold entry_is, matches.
      change (dib (setValue b (value e))) with (dib b).
      change (hash (setValue b (value e))) with (hash b).
      change (key (setValue b (value e))) with (key b).
      change (value (setValue b (value e))) with (value e).
      split.
      - intros [(_ & [Eh' Ek'] & Ev) | (p & Hp & Hpi & Hdp & [Eh' Ek'] & Ev)].
        + left. split; [split; congruence | congruence].
        + right. split.
          * intros [Eh'' Ek'']. apply Hpi. apply Hk; try assumption.
            fold b. split; congruence.
          * exists p. split; [exact Hp|]. split; [exact Hdp|].
            split; [split; assumption | exact Ev].
      - intros [[[Eh' Ek'] Ev] | [Hnm (p & Hp & Hdp & [Eh' Ek'] & Ev)]].
        + left. split; [exact Hne|]. split; [split; congruence | congruence].
        + right. exists p. split; [exact Hp|]. split.
          * intros ->. apply Hnm. fold b in Eh', Ek'. split; congruence.
          * split; [exact Hdp|]. split; [split; assumption | exact Ev]. }
    rewrite matches_test_false by exact Hnm.
    destruct (Z.ltb_spec (dib b) (dib e)) as [Hlt|Hge].
    + (* swap: the rest of the walk carries entries of the table *)
      assert (unmatched (buckets m) e) as Hun
        by (apply (unmatched_here (mask m) _ _ i); try assumption).
      set (m1 := withBuckets m (<[Z.to_nat i := e]> (buckets m))).
      assert (len (buckets m1) = len (buckets m)) as El by apply len_insert.
      assert (shaped m1) as Hs1.
      { eapply shaped_frame; [|exact Hs]. repeat split. exact El. }
      change (mask m) with (mask m1).
      rewrite next_index by (rewrite ?El; assumption). rewrite El.
      assert (0 <= u64 (dib b + 1) < 2 ^ 16) as Hu
        by (unfold u64; rewrite Z.mod_small by lia; lia).
      destruct (set_loop_carry dd f m1 (setDIB b (u64 (dib b + 1)))
                  ((i + 1) mod len (buckets m)) z)
        as (m' & Hrun & Hlay' & Hcnt & Hocc & Hholds);
        rewrite ?El; try assumption; try lia.
      * apply layout_ok_insert; try assumption. fold b. lia.
      * cbn [m1 withBuckets buckets]. rewrite slot_insert_ne by lia. exact Hzd.
      * apply carried_swap; assumption.
      * exact (unmatched_swap _ _ _ _ Hi Hk Hne (Hw i Hi) Hu Hnm).
      * exists m', zeroV, false. split; [exact Hrun|]. split; [exact Hlay'|].
        split.
        { split; [reflexivity|]. split; [exact Hun|]. split; [exact Hcnt|].
          rewrite Hocc. cbn [m1 withBuckets buckets].
          rewrite occupied_insert_slot by assumption. fold b.
          destruct (decide (dib b <> 0)); [|contradiction].
          destruct (decide (dib e <> 0)); lia. }
        intros h k v. rewrite <- (fresh h k v Hun).
        rewrite Hholds. cbn [m1 withBuckets buckets].
        rewrite holds_insert, (holds_split (buckets m) i) by assumption.
        fold b. rewrite entry_is_setDIB; [tauto|apply Hw; exact Hi| |exact Hne].
        unfold u64. rewrite Z.mod_small by lia. lia.
    + (* the entry in the bucket stays: one step on *)
      rewrite next_index by assumption.
      assert (0 <= u64 (dib e + 1) < 2 ^ 16) as Hu
        by (unfold u64; rewrite Z.mod_small by lia; lia).
      assert (u64 (dib e + 1) = dib e + 1) as Eu
        by (unfold u64; apply Z.mod_small; lia).
      destruct (setDIB_fields e (u64 (dib e + 1)) Hwe Hu) as (Ed & Eh & _).
      destruct (IH f m (setDIB e (u64 (dib e + 1)))
                  ((i + 1) mod len (buckets m)) z)
        as (m' & prev & replaced & Hrun & Hlay' & Hcase & Hholds);
        try assumption; try lia.
      * apply carried_next; assumption.
      * rewrite Ed, Eh, key_setDIB, Eu. intros p Hp Hdp Hm.
        pose proof (Hfar p Hp Hdp Hm) as Hle.
        destruct (Z.eq_dec (dib (slot (buckets m) p)) (dib e)) as [E|]; [|lia].
        exfalso. pose proof (Hh p Hp Hdp) as Hhp.
        destruct Hm as [Eh' Ek']. rewrite Eh', Hhome, E in Hhp.
        apply ring_back_inj in Hhp; [|lia..]. subst p.
        apply Hnm. fold b in Eh', Ek'. split; congruence.
      * rewrite Eh, key_setDIB in Hcase.
        exists m', prev, replaced. split; [exact Hrun|]. split; [exact Hlay'|].
        split.
        { destruct replaced; [exact Hcase|].
          destruct Hcase as (Hp0 & Hun & Hrest). split; [exact Hp0|].
          split; [|exact Hrest].
          intros p Hp Hdp. specialize (Hun p Hp Hdp).
          rewrite Eh, key_setDIB in Hun. exact Hun. }
        intros h k v. rewrite Hholds. unfold matches.
        rewrite Eh, key_setDIB, value_setDIB. reflexivity.
Qed.

End InsertProbe.

(** ** [set] on a well-formed table *)

Section Insert.
Context {K V : Type} `{EqDecision K} `{Zero K} `{Zero V}.
Implicit Types (m nm : mapShard K V) (e b : entry K V) (bs : list (entry K V)).

Lemma table_ok_frame m m' :
  table_ok m -> same_frame m m' -> layout_ok (mask m') (buckets m') ->
  count m' = occupied (buckets m') -> table_ok m'.
Proof.
  intros Hok Hfr Hlay Hcnt. pose proof Hfr as (_ & Eg & Es & _ & El).
  split; try assumption.
  - eapply shaped_frame; [exact Hfr | apply (ok_shaped m Hok)].
  - rewrite El. apply (ok_size m Hok).
  - destruct (ok_thresholds m Hok) as [H1 H2].
    unfold thresholds_ok. rewrite Eg, Es, El. split; assumption.
Qed.

Lemma set_spec (fuel : nat) m (h : Z) (k : K) (v : V) :
  table_wf m -> 0 <= h < 2 ^ 48 -> len (buckets m) <= Z.of_nat fuel ->
  exists m' prev replaced,
    set fuel m h k v = Ret (m', (prev, replaced)) /\
    table_ok m' /\ same_frame m m' /\
    (if replaced then stored m h k prev /\ count m' = count m
     else prev = zeroV /\ absent m h k /\ count m' = count m + 1) /\
    entries_put m m' h k v.
Proof.
  intros Hwf Hh Hfuel. pose proof Hwf as [Hok Hroom].
  pose proof (ok_shaped m Hok) as Hs.
  pose proof (shaped_len_pos m Hs) as Hn.
  destruct (table_has_empty m Hwf) as (z & Hz & Hzd).
  unfold set. set (e := Entry (makeHDIB h 1) k v).
  destruct (new_entry_fields h k v Hh) as (Ed & Eh & Hw). fold e in Ed, Eh, Hw.
  rewrite Eh.
  pose proof (masked_index m h Hs) as Hi.
  pose proof (ring_range (len (buckets m)) (z - Z.land h (mask m)) Hn) as Hr.
  destruct (set_loop_probe
              (Z.to_nat ((z - Z.land h (mask m)) mod len (buckets m)))
              fuel m e (Z.land h (mask m)) z)
    as (m' & prev & replaced & Hrun & Hlay & Hcase & Hholds);
    try assumption; try lia.
  - apply (ok_size m Hok).
  - apply (ok_layout m Hok).
  - unfold carried_ok. rewrite Ed, Eh. split; [exact Hw|]. split; [lia|].
    split.
    + rewrite Z.sub_0_r, Z.mod_small by lia. reflexivity.
    + pose proof (dib_range (slot (buckets m)
                    ((Z.land h (mask m) - 1) mod len (buckets m)))). lia.
  - intros p Hp Hdp _. rewrite Ed.
    pose proof (dib_range (slot (buckets m) p)). lia.
  - pose proof (set_loop_frame _ _ _ _ _ _ Hrun) as Hfr.
    exists m', prev, replaced. split; [exact Hrun|].
    rewrite Eh in Hcase. change (key e) with k in Hcase.
    split.
    { apply (table_ok_frame m); try assumption.
      pose proof (ok_count m Hok).
      destruct replaced; [destruct Hcase as (_ & ? & ?)
                         | destruct Hcase as (_ & _ & ? & ?)]; lia. }
    split; [exact Hfr|]. split.
    { destruct replaced.
      - destruct Hcase as (Hho & Hc & _). split; assumption.
      - destruct Hcase as (Hp0 & Hun & Hc & _). split; [exact Hp0|].
        split; [|exact Hc].
        intros v0 (p & Hp & Hdp & Hm & _). apply (Hun p Hp Hdp).
        rewrite Eh. exact Hm. }
    intros h' k' v'. unfold stored. rewrite Hholds. unfold matches.
    rewrite Eh. change (key e) with k. change (value e) with v.
    split.
    + intros [[[E1 E2] E3] | [Hn' Hho]].
      * left. auto.
      * right. split; [|exact Hho]. intros [E1 E2]. apply Hn'. auto.
    + intros [(E1 & E2 & E3) | [Hn' Hho]].
      * left. auto.
      * right. split; [|exact Hho]. intros [E1 E2]. apply Hn'. auto.
Qed.

(** ** A fresh table *)

Lemma newShard_layout (c : Z) :
  layout_ok (mask (newShard K V c)) (buckets (newShard K V c)).
Proof.
  unfold newShard. cbn [buckets mask].
  split; [|split; [|split]]; intros i; intros; rewrite ?slot_replicate in *;
    try (rewrite dib_zero_entry in *; try contradiction; try lia).
  cbn [zeroEntry hdib]. lia.
Qed.

Lemma newShard_size (c : Z) :
  c <= 2 ^ 15 -> 8 <= len (buckets (newShard K V c)) <= 2 ^ 15.
Proof.
  intros Hc. destruct (newShard_len (K:=K) (V:=V) c) as (k & Hk & E & Hlast).
  rewrite E. split.
  - change 8 with (2 ^ 3). apply Z.pow_le_mono_r; lia.
  - destruct Hlast as [->|Hlast]; [lia|].
    assert (k - 1 < 15) by (apply pow2_lt_inv; lia).
    apply Z.pow_le_mono_r; lia.
Qed.

Lemma newShard_ok (c : Z) : c <= 2 ^ 15 -> table_wf (newShard K V c).
Proof.
  intros Hc. destruct (newShard_empty (K:=K) (V:=V) c) as [Hc0 Ho0].
  assert (shaped (newShard K V c)) as Hs by (apply newShard_shaped; lia).
  split; [split|].
  - exact Hs.
  - apply newShard_size. exact Hc.
  - apply newShard_layout.
  - rewrite Hc0, Ho0. reflexivity.
  - apply newShard_thresholds_ok. lia.
  - rewrite Hc0. apply shaped_len_pos. exact Hs.
Qed.

Lemma newShard_no_entries (c : Z) (h : Z) (k : K) : absent (newShard K V c) h k.
Proof.
  intros v (i & Hi & Hd & _). unfold newShard in Hd. cbn [buckets] in Hd.
  rewrite slot_replicate in Hd. apply Hd. reflexivity.
Qed.

End Insert.

(** ** [resize] and [SetWithHash] on a well-formed table *)

Section Rebuild.
Context {K V : Type} `{EqDecision K} `{Zero K} `{Zero V}.
Implicit Types (m nm : mapShard K V) (e b : entry K V) (bs : list (entry K V)).

Lemma slot_cons b bs (i : Z) : 0 <= i -> slot (b :: bs) (i + 1) = slot bs i.
Proof.
  intros Hi. unfold slot. replace (Z.to_nat (i + 1)) with (S (Z.to_nat i)) by lia.
  reflexivity.
Qed.

Lemma holds_among bs (h : Z) (k : K) (v : V) : holds bs h k v <-> among bs h k v.
Proof.
  split.
  - intros (i & Hi & He). exists (slot bs i). split; [|exact He].
    eapply list_elem_of_lookup_2. apply slot_lookup. exact Hi.
  - intros (b & Hb & He). apply list_elem_of_lookup_1 in Hb as [n Hn].
    pose proof (lookup_lt_Some _ _ _ Hn) as Hlt.
    exists (Z.of_nat n). unfold len. split; [lia|].
    rewrite (lookup_slot bs (Z.of_nat n) b); [exact He|].
    rewrite Nat2Z.id. exact Hn.
Qed.

Lemma among_cons b bs (h : Z) (k : K) (v : V) :
  among (b :: bs) h k v <-> entry_is b h k v \/ among bs h k v.
Proof.
  unfold among. split.
  - intros (b' & Hb & He). apply elem_of_cons in Hb as [->|Hb]; eauto.
  - intros [He | (b' & Hb & He)].
    + exists b. split; [apply elem_of_cons; auto | exact He].
    + exists b'. split; [apply elem_of_cons; auto | exact He].
Qed.

(** The buckets of a table in the Robin Hood layout, as a list. *)
Lemma layout_distinct bs : words_ok bs -> keys_ok bs -> distinct bs.
Proof.
  induction bs as [|b bs IH]; intros Hw Hk; [exact I|].
  pose proof (len_nonneg bs) as Hlen.
  cbn [distinct]. split; [|split].
  - apply (Hw 0). rewrite len_cons. lia.
  - intros Hd v Ham. apply holds_among in Ham as (i & Hi & Hdi & Hm & _).
    assert (i + 1 = 0); [|lia].
    apply Hk; rewrite ?len_cons, ?slot_cons by lia; try lia; try assumption.
  - apply IH.
    + intros i Hi. rewrite <- (slot_cons b) by lia. apply Hw.
      rewrite len_cons. lia.
    + intros i j Hi Hj Hdi Hdj Hm.
      assert (i + 1 = j + 1); [|lia].
      apply Hk; rewrite ?len_cons, ?slot_cons by lia; try lia; assumption.
Qed.

(** Re-inserting distinct entries that the new table does not hold adds
    every one of them. *)
Lemma reinsert_spec (fuel : nat) bs : forall nm,
  table_ok nm -> distinct bs ->
  (forall b, b ∈ bs -> dib b <> 0 -> absent nm (hash b) (key b)) ->
  count nm + occupied bs <= len (buckets nm) ->
  len (buckets nm) <= Z.of_nat fuel ->
  exists nm',
    reinsert fuel bs nm = Ret nm' /\ table_ok nm' /\ same_frame nm nm' /\
    count nm' = count nm + occupied bs /\
    forall h k v, stored nm' h k v <-> stored nm h k v \/ among bs h k v.
Proof.
  induction bs as [|b bs IH]; intros nm Hok Hdis Hnew Hroom Hfuel;
    cbn [reinsert].
  - exists nm. split; [reflexivity|]. split; [exact Hok|].
    split; [apply same_frame_refl|]. rewrite occupied_nil.
    split; [lia|]. intros h k v. split; [auto|].
    intros [?|(b & Hb & _)]; [assumption|]. inversion Hb.
  - rewrite occupied_cons in Hroom. pose proof (dib_range b) as Hdb.
    pose proof (occupied_bounds bs) as Hbs.
    destruct Hdis as (Hwb & Hfresh & Hdis).
    destruct (Z.gtb_spec (dib b) 0) as [Hpos|Hzero].
    + assert (dib b <> 0) as Hne by lia.
      destruct (decide (dib b <> 0)) as [_|?]; [|contradiction].
      destruct (entry_word b Hwb) as [_ Hhb].
      destruct (set_spec fuel nm (hash b) (key b) (value b))
        as (nm1 & prev & replaced & Hset & Hok1 & Hfr & Hcase & Hput);
        try assumption; [split; [exact Hok|lia]|].
      destruct replaced.
      { exfalso. destruct Hcase as [Hst _].
        apply (Hnew b (list_elem_of_here b bs) Hne prev). exact Hst. }
      destruct Hcase as (_ & Habs & Hcnt).
      rewrite Hset. cbn [mbind result_bind fst].
      assert (len (buckets nm1) = len (buckets nm)) as El by apply Hfr.
      destruct (IH nm1) as (nm' & Hrun & Hok' & Hfr' & Hcnt' & Hst');
        rewrite ?El; try assumption; try lia.
      * intros b' Hb' Hd' v' Hs'. apply Hput in Hs' as [(E1 & E2 & _) | [_ Hs']].
        -- apply (Hfresh Hne (value b')). exists b'. split; [exact Hb'|].
           split; [exact Hd'|]. split; [split; congruence | reflexivity].
        -- apply (Hnew b' (list_elem_of_further _ _ _ Hb') Hd' v'). exact Hs'.
      * exists nm'. split; [exact Hrun|]. split; [exact Hok'|].
        split; [eapply same_frame_trans; eassumption|].
        rewrite occupied_cons.
        destruct (decide (dib b <> 0)) as [_|?]; [|contradiction].
        split; [lia|].
        intros h k v. rewrite Hst', among_cons. rewrite (Hput h k v).
        unfold entry_is, matches. split.
        -- intros [[(E1 & E2 & E3) | [_ Hs]] | Ha]; auto.
           right. left. split; [exact Hne|]. split; [split|]; congruence.
        -- intros [Hs | [(_ & [E1 E2] & E3) | Ha]]; auto.
           left. right. split; [|exact Hs].
           intros [E1 E2]. subst h k. apply (Habs v). exact Hs.
    + assert (dib b = 0) as Hd0 by lia.
      destruct (decide (dib b <> 0)) as [?|_]; [contradiction|].
      destruct (IH nm) as (nm' & Hrun & Hok' & Hfr' & Hcnt' & Hst');
        try assumption; try lia.
      * intros b' Hb'. apply Hnew. apply list_elem_of_further. exact Hb'.
      * exists nm'. split; [exact Hrun|]. split; [exact Hok'|].
        split; [exact Hfr'|]. rewrite occupied_cons.
        destruct (decide (dib b <> 0)) as [?|_]; [contradiction|].
        split; [lia|].
        intros h k v. rewrite Hst', among_cons. unfold entry_is. tauto.
Qed.

Lemma table_ok_withCap m (c : Z) : table_ok m -> table_ok (withCap m c).
Proof. intros [H1 H2 H3 H4 H5]. split; assumption. Qed.

(** [resize] moves every entry to a table of the size that [newShard]
    gives for the new capacity. *)
Lemma resize_spec (fuel : nat) m (c : Z) :
  table_ok m -> c <= 2 ^ 15 ->
  count m <= len (buckets (newShard K V c)) ->
  len (buckets (newShard K V c)) <= Z.of_nat fuel ->
  exists m',
    resize fuel m c = Ret m' /\ table_ok m' /\ cap m' = cap m /\
    len (buckets m') = len (buckets (newShard K V c)) /\
    count m' = count m /\ same_entries m m'.
Proof.
  intros Hok Hc Hroom Hfuel. unfold resize.
  destruct (newShard_ok (K:=K) (V:=V) c Hc) as [Hnok _].
  destruct (newShard_empty (K:=K) (V:=V) c) as [Hc0 _].
  destruct (reinsert_spec fuel (buckets m) (newShard K V c))
    as (nm & Hrun & Hok' & Hfr & Hcnt & Hst); try assumption.
  - apply layout_distinct; [apply ok_words | apply ok_keys]; exact Hok.
  - intros b _ _. apply newShard_no_entries.
  - rewrite Hc0, <- (ok_count m Hok). lia.
  - rewrite Hrun. cbn [mbind result_bind].
    exists (withCap nm (cap m)). split; [reflexivity|].
    split; [apply table_ok_withCap; exact Hok'|].
    split; [reflexivity|]. cbn [withCap buckets count].
    split; [apply Hfr|].
    split; [rewrite Hcnt, Hc0, (ok_count m Hok); lia|].
    intros h k v. unfold stored in *. cbn [withCap buckets].
    rewrite (Hst h k v), <- holds_among. split; [|auto].
    intros [Hs|Hs]; [|exact Hs].
    exfalso. exact (newShard_no_entries c h k v Hs).
Qed.

End Rebuild.

Section SetSpec.
Context {K V : Type} `{EqDecision K} `{Zero K} `{Zero V}.
Implicit Types (m nm : mapShard K V) (e b : entry K V) (bs : list (entry K V)).

Lemma shaped_pow2 m :
  shaped m -> 8 <= len (buckets m) <= 2 ^ 15 ->
  exists k, 3 <= k <= 15 /\ len (buckets m) = 2 ^ k.
Proof.
  intros (k & Hk & El & _) Hlen. exists k. split; [|exact El].
  rewrite El in Hlen. split.
  - destruct (Z_lt_le_dec k 3) as [Hlt|?]; [|assumption].
    assert (2 ^ k < 2 ^ 3) by (apply Z.pow_lt_mono_r; lia). lia.
  - destruct (Z_lt_le_dec 15 k) as [Hgt|?]; [|assumption].
    assert (2 ^ 15 < 2 ^ k) by (apply Z.pow_lt_mono_r; lia). lia.
Qed.

Lemma entries_put_same m m1 m' (h : Z) (k : K) (v : V) :
  same_entries m m1 -> entries_put m1 m' h k v -> entries_put m m' h k v.
Proof.
  intros Hsame Hput h' k' v'. rewrite (Hput h' k' v'), (Hsame h' k' v').
  reflexivity.
Qed.

Lemma absent_same m m1 (h : Z) (k : K) :
  same_entries m m1 -> absent m1 h k -> absent m h k.
Proof. intros Hsame Habs v Hs. apply (Habs v). apply Hsame. exact Hs. Qed.

(** [SetWithHash] on a well-formed table of at most 2^14 buckets: it
    returns, the table is well-formed again and has an empty bucket, and it
    holds the value under the hash and key, and otherwise what it held. *)
Lemma SetWithHash_spec (fuel : nat) m (h : Z) (k : K) (v : V) :
  table_wf m -> 0 <= h < 2 ^ 48 -> len (buckets m) <= 2 ^ 14 ->
  2 * len (buckets m) <= Z.of_nat fuel ->
  exists m' prev replaced,
    SetWithHash fuel m h k v = Ret (m', (prev, replaced)) /\
    table_wf m' /\ cap m' = cap m /\
    (if replaced then stored m h k prev /\ count m' = count m
     else prev = zeroV /\ absent m h k /\ count m' = count m + 1) /\
    entries_put m m' h k v /\
    (len (buckets m') = len (buckets m) \/
     len (buckets m') = 2 * len (buckets m) /\ growAt m <= count m) /\
    (shrink_safe m -> shrink_safe m').
Proof.
  intros Hwf Hh Hsmall Hfuel. pose proof Hwf as [Hok Hroom].
  pose proof (ok_shaped m Hok) as Hs.
  pose proof (ok_size m Hok) as Hsize.
  pose proof (ok_thresholds m Hok) as [Hg Hsh].
  unfold SetWithHash.
  destruct (Z.eqb_spec (len (buckets m)) 0) as [?|_]; [lia|].
  destruct (Z.geb_spec (count m) (growAt m)) as [Hge|Hlt].
  - (* the table grows first *)
    destruct (shaped_pow2 m Hs Hsize) as (j & Hj & El).
    assert (j <= 14) as Hj14.
    { destruct (Z_lt_le_dec 14 j) as [Hgt|?]; [|assumption].
      assert (2 ^ 14 < 2 ^ j) by (apply Z.pow_lt_mono_r; lia). lia. }
    assert (len (buckets m) * 2 = 2 ^ (j + 1)) as E2.
    { rewrite El, Z.pow_add_r by lia. lia. }
    rewrite E2.
    pose proof (newShard_pow2_len (K:=K) (V:=V) (j + 1) ltac:(lia)) as Enew.
    assert (2 ^ (j + 1) <= 2 ^ 15) by (apply Z.pow_le_mono_r; lia).
    destruct (resize_spec fuel m (2 ^ (j + 1)))
      as (m1 & Hres & Hok1 & Hcap1 & El1 & Hcnt1 & Hsame); try assumption;
      try lia.
    rewrite Hres. cbn [mbind result_bind].
    destruct (set_spec fuel m1 h k v)
      as (m' & prev & replaced & Hset & Hok' & Hfr & Hcase & Hput);
      try assumption; try lia; [split; [exact Hok1|lia]|].
    pose proof Hfr as (Hcap' & _ & _ & _ & El').
    exists m', prev, replaced. split; [exact Hset|].
    assert (count m' <= count m + 1) as Hc'
      by (destruct replaced; [destruct Hcase as [_ ?]
                             | destruct Hcase as (_ & _ & ?)]; lia).
    assert (count m <= count m') as Hc''
      by (destruct replaced; [destruct Hcase as [_ ?]
                             | destruct Hcase as (_ & _ & ?)]; lia).
    split; [split; [exact Hok'|lia]|].
    split; [congruence|]. split.
    { destruct replaced.
      - destruct Hcase as [Hst Hc]. split; [apply Hsame; exact Hst | lia].
      - destruct Hcase as (Hp & Habs & Hc). split; [exact Hp|].
        split; [eapply absent_same; eassumption | lia]. }
    split; [eapply entries_put_same; eassumption|].
    split; [right; lia|].
    intros _. right. right.
    destruct (ok_thresholds m' Hok') as [_ Hsh'].
    rewrite Hsh', El', El1, Enew, <- E2. rewrite Hg in Hge.
    assert (len (buckets m) * 2 * 15 / 100 < len (buckets m) * 85 / 100); [|lia].
    apply Z.div_lt_upper_bound; [lia|].
    pose proof (Z.mul_succ_div_gt (len (buckets m) * 85) 100 ltac:(lia)). lia.
  - cbn [mbind result_bind].
    destruct (set_spec fuel m h k v)
      as (m' & prev & replaced & Hset & Hok' & Hfr & Hcase & Hput);
      try assumption; try lia.
    pose proof Hfr as (Hcap' & _ & Hsh' & _ & El').
    exists m', prev, replaced. split; [exact Hset|].
    assert (count m' <= count m + 1) as Hc'
      by (destruct replaced; [destruct Hcase as [_ ?]
                             | destruct Hcase as (_ & _ & ?)]; lia).
    assert (count m <= count m') as Hc''
      by (destruct replaced; [destruct Hcase as [_ ?]
                             | destruct Hcase as (_ & _ & ?)]; lia).
    assert (len (buckets m) * 85 / 100 < len (buckets m)) as Hgl.
    { apply Z.div_lt_upper_bound; lia. }
    split; [split; [exact Hok'|lia]|].
    split; [exact Hcap'|]. split; [exact Hcase|]. split; [exact Hput|].
    split; [left; exact El'|].
    unfold shrink_safe. rewrite El', Hcap', Hsh'. lia.
Qed.

End SetSpec.

(** ** The backward shift of [remove] *)

Section Shift.
Context {K V : Type} `{EqDecision K} `{Zero K} `{Zero V}.
Implicit Types (m nm : mapShard K V) (e b : entry K V) (bs : list (entry K V)).

(** Writing a bucket keeps the steps if the new displacement fits between
    its neighbours. *)
Lemma steps_ok_write bs (g : Z) e :
  steps_ok bs -> 0 <= g < len bs ->
  dib e <= dib (slot bs ((g - 1) mod len bs)) + 1 ->
  dib (slot bs ((g + 1) mod len bs)) <= dib e + 1 ->
  steps_ok (<[Z.to_nat g := e]> bs).
Proof.
  intros Hst Hg Hdown Hup p Hp. rewrite len_insert in *.
  assert (0 < len bs) as Hn by lia.
  pose proof (ring_range (len bs) (p + 1) Hn) as Hq.
  rewrite !slot_insert by lia.
  pose proof (Hst p Hp) as Hstep.
  destruct (decide ((p + 1) mod len bs = g)) as [E|Hne];
    destruct (decide (p = g)) as [->|Hpg]; try lia.
  rewrite (ring_pred_succ _ p g) in Hdown by assumption. lia.
Qed.

(** Moving an entry one bucket back, into the gap. *)
Lemma keys_ok_move bs (g i : Z) e :
  0 <= g < len bs -> 0 <= i < len bs -> g <> i ->
  hash e = hash (slot bs i) -> key e = key (slot bs i) ->
  dib (slot bs i) <> 0 ->
  keys_ok (<[Z.to_nat g := zeroEntry K V]> bs) ->
  keys_ok (<[Z.to_nat i := zeroEntry K V]> (<[Z.to_nat g := e]> bs)).
Proof.
  intros Hg Hi Hgi Eh Ek Hdi Hk p q Hp Hq. rewrite !len_insert in *.
  assert (forall r, 0 <= r < len bs -> r <> g ->
            slot (<[Z.to_nat g := zeroEntry K V]> bs) r = slot bs r) as Hold
    by (intros r Hr Hrg; apply slot_insert_ne; lia).
  assert (forall r, 0 <= r < len bs -> r <> g -> r <> i ->
            dib (slot bs r) <> 0 ->
            ~ matches (slot bs r) (hash (slot bs i)) (key (slot bs i))) as Hsep.
  { assert (i <> g) as Hig by lia.
    intros r Hr Hrg Hri Hdr Hm. apply Hri.
    apply Hk; rewrite ?len_insert; try assumption;
      rewrite !Hold by assumption; assumption. }
  rewrite !(slot_insert (<[Z.to_nat g := e]> bs)) by (rewrite ?len_insert; lia).
  rewrite !slot_insert by lia.
  destruct (decide (p = i)) as [->|Hpi];
    [intros Hd; exfalso; apply Hd; reflexivity|].
  destruct (decide (q = i)) as [->|Hqi];
    [intros _ Hd; exfalso; apply Hd; reflexivity|].
  destruct (decide (p = g)) as [->|Hpg]; destruct (decide (q = g)) as [->|Hqg];
    intros Hdp Hdq Hm; try reflexivity.
  - exfalso. apply (Hsep q Hq Hqg Hqi Hdq). apply matches_sym.
    destruct Hm as [E1 E2]. split; congruence.
  - exfalso. apply (Hsep p Hp Hpg Hpi Hdp).
    destruct Hm as [E1 E2]. split; congruence.
  - apply Hk; rewrite ?len_insert; try assumption;
      rewrite !Hold by assumption; assumption.
Qed.

Lemma holds_move bs (g i : Z) e (h : Z) (k : K) (v : V) :
  0 <= g < len bs -> 0 <= i < len bs -> g <> i ->
  (entry_is e h k v <-> entry_is (slot bs i) h k v) ->
  holds (<[Z.to_nat i := zeroEntry K V]> (<[Z.to_nat g := e]> bs)) h k v <->
  holds (<[Z.to_nat g := zeroEntry K V]> bs) h k v.
Proof.
  intros Hg Hi Hgi He.
  rewrite !holds_insert by (rewrite ?len_insert; assumption).
  rewrite len_insert.
  assert (~ entry_is (zeroEntry K V) h k v) as Hz
    by (intros [Hd _]; apply Hd; reflexivity).
  split; (intros [?|(p & Hp & Hne & Hep)]; [contradiction|]); right.
  - rewrite slot_insert in Hep by lia.
    destruct (decide (p = g)) as [->|Hpg].
    + exists i. split; [exact Hi|]. split; [lia|]. apply He. exact Hep.
    + exists p. auto.
  - destruct (decide (p = i)) as [->|Hpi].
    + exists g. split; [exact Hg|]. split; [exact Hgi|].
      rewrite slot_insert_eq by assumption. apply He. exact Hep.
    + exists p. split; [exact Hp|]. split; [exact Hpi|].
      rewrite slot_insert_ne by lia. exact Hep.
Qed.

(** Where the shift stops, the gap becomes an empty bucket. *)
Lemma remove_stop (mask_ : Z) bs (g : Z) :
  words_ok bs -> homes_ok mask_ bs -> steps_ok bs ->
  keys_ok (<[Z.to_nat g := zeroEntry K V]> bs) ->
  0 <= g < len bs -> dib (slot bs ((g + 1) mod len bs)) <= 1 ->
  layout_ok mask_ (<[Z.to_nat g := zeroEntry K V]> bs) /\
  occupied (<[Z.to_nat g := zeroEntry K V]> bs)
  = occupied bs - (if decide (dib (slot bs g) <> 0) then 1 else 0).
Proof.
  intros Hw Hh Hst Hk Hg Hle. split; [split; [|split; [|split]]|].
  - apply words_ok_insert; try assumption. cbn [zeroEntry hdib]. lia.
  - apply homes_ok_insert; try assumption.
    intros Hd. exfalso. apply Hd. reflexivity.
  - apply steps_ok_write; try assumption; rewrite dib_zero_entry.
    pose proof (dib_range (slot bs ((g - 1) mod len bs))). lia.
  - exact Hk.
  - rewrite occupied_insert_slot by assumption.
    destruct (decide (dib (zeroEntry K V) <> 0)) as [Hd|_]; [|lia].
    exfalso. apply Hd. reflexivity.
Qed.

(** The loop of [remove] closes the gap at [g]: it moves the entries after
    the gap one bucket back, up to the first bucket that is empty or holds
    an entry that sits in its own bucket, at most [D + 1] buckets ahead. *)
Lemma remove_loop_spec (D : nat) : forall (fuel : nat) m bs (g z : Z),
  shaped m -> 2 <= len (buckets m) -> len bs = len (buckets m) ->
  words_ok bs -> homes_ok (mask m) bs -> steps_ok bs ->
  keys_ok (<[Z.to_nat g := zeroEntry K V]> bs) ->
  0 <= g < len bs -> 0 <= z < len bs -> dib (slot bs z) <= 1 ->
  (z - g) mod len bs = Z.of_nat (S D) -> (D < fuel)%nat ->
  exists bs',
    remove_loop fuel bs (mask m) g = Ret bs' /\ len bs' = len bs /\
    layout_ok (mask m) bs' /\
    occupied bs'
    = occupied bs - (if decide (dib (slot bs g) <> 0) then 1 else 0) /\
    forall h k v,
      holds bs' h k v <-> holds (<[Z.to_nat g := zeroEntry K V]> bs) h k v.
Proof.
  induction D as [|D IH];
    intros fuel m bs g z Hs Hn2 El Hw Hh Hst Hk Hg Hz Hzd Hdist Hfuel;
    (destruct fuel as [|f]; [lia|]); cbn [remove_loop];
    rewrite <- El in Hn2;
    (assert (Z.land (u64 (g + 1)) (mask m) = (g + 1) mod len bs) as Enext
       by (rewrite El; apply next_index; [exact Hs | rewrite <- El; exact Hg]));
    rewrite Enext;
    pose proof (ring_range (len bs) (g + 1) ltac:(lia)) as Hi;
    (assert ((g + 1) mod len bs <> g) as Hig by (apply ring_shift_ne; lia));
    (assert (z <> g) as Hzg
       by (intros ->; rewrite Z.sub_diag, Z.mod_0_l in Hdist by lia; lia));
    (assert ((z - (g + 1) mod len bs) mod len bs = (z - g) mod len bs - 1)
       as Hdist' by (apply dist_step; lia));
    rewrite Hdist in Hdist';
    pose proof (remove_stop (mask m) bs g Hw Hh Hst Hk Hg) as stop;
    set (i := (g + 1) mod len bs) in *;
    rewrite (index_slot bs i) by assumption; cbn [mbind result_bind];
    rewrite (index_slot bs g) by assumption; cbn [mbind result_bind];
    pose proof (dib_range (slot bs i)) as Hdi.
  - (* the next bucket is the one that stops the shift *)
    apply dist_zero in Hdist'; [|lia..]. subst z.
    destruct (Z.leb_spec (dib (slot bs i)) 1) as [Hle|?]; [|lia].
    destruct (stop Hle) as [Hlay Hocc].
    eexists. split; [reflexivity|]. split; [apply len_insert|].
    split; [exact Hlay|]. split; [exact Hocc|]. reflexivity.
  - destruct (Z.leb_spec (dib (slot bs i)) 1) as [Hle|Hgt].
    { destruct (stop Hle) as [Hlay Hocc].
      eexists. split; [reflexivity|]. split; [apply len_insert|].
      split; [exact Hlay|]. split; [exact Hocc|]. reflexivity. }
    clear stop.
    assert (z <> i) as Hzi by (intros E; rewrite E in Hzd; lia).
    set (b := slot bs i) in *.
    assert (u64 (dib b - 1) = dib b - 1) as Eu
      by (unfold u64; apply Z.mod_small; lia).
    rewrite Eu.
    destruct (setDIB_fields b (dib b - 1) (Hw i Hi)) as (Ed & Eh & Hwe); [lia|].
    set (e := setDIB b (dib b - 1)) in *.
    set (bs2 := <[Z.to_nat g := e]> bs).
    assert (len bs2 = len bs) as El2 by apply len_insert.
    destruct (IH f m bs2 i z) as (bs' & Hrun & El' & Hlay & Hocc & Hholds);
      rewrite ?El2; try assumption; try lia.
    + apply words_ok_insert; assumption.
    + apply homes_ok_insert; try assumption. intros _.
      rewrite Eh, Ed. pose proof (Hh i Hi) as Hhome. fold b in Hhome.
      rewrite Hhome by lia. unfold i.
      rewrite Zminus_mod_idemp_l. f_equal. lia.
    + apply steps_ok_write; try assumption.
      * rewrite Ed.
        pose proof (Hst g Hg) as H1. fold i b in H1.
        pose proof (Hst _ (ring_range (len bs) (g - 1) ltac:(lia))) as H2.
        rewrite ring_succ_pred in H2 by lia. lia.
      * rewrite Ed. fold i b. lia.
    + apply keys_ok_move; try assumption; try lia;
        [reflexivity | fold b; lia].
    + unfold bs2. rewrite slot_insert_ne by lia. exact Hzd.
    + exists bs'. split; [exact Hrun|]. split; [lia|]. split; [exact Hlay|].
      split.
      * rewrite Hocc. unfold bs2.
        rewrite slot_insert_ne by lia. fold b.
        rewrite occupied_insert_slot by assumption. rewrite Ed.
        destruct (decide (dib b <> 0)); [|lia].
        destruct (decide (dib b - 1 <> 0)); [|lia]. lia.
      * intros h k v. rewrite Hholds. unfold bs2.
        apply holds_move; try assumption; try lia.
        unfold e. apply entry_is_setDIB;
          [apply Hw; exact Hi | fold b; lia | fold b; lia].
Qed.

End Shift.

(** ** [remove] and [DeleteWithHash] on a well-formed table *)

Lemma shrink_check_all : forallb shrink_check (map Z.of_nat (seq 3 53)) = true.
Proof. vm_compute. reflexivity. Qed.

Lemma shrink_check_at (k : Z) : 3 <= k <= 55 -> shrink_check k = true.
Proof.
  intros Hk. pose proof shrink_check_all as Hall.
  rewrite forallb_forall in Hall. apply Hall.
  apply in_map_iff. exists (Z.to_nat k). split; [lia|].
  apply in_seq. lia.
Qed.

Section Remove.
Context {K V : Type} `{EqDecision K} `{Zero K} `{Zero V}.
Implicit Types (m nm : mapShard K V) (e b : entry K V) (bs : list (entry K V)).

Lemma newShard_len_eq (c : Z) :
  c <= 2 ^ 62 -> len (buckets (newShard K V c)) = double_until 64 8 c.
Proof.
  intros Hc. unfold newShard, buckets.
  destruct (double_until_spec 64 8 c) as (j & _ & Ej & _); [lia|].
  apply len_replicate. rewrite Ej.
  assert (0 <= 2 ^ Z.of_nat j) by (apply Z.pow_nonneg; lia). lia.
Qed.

Lemma newShard_len_min (c : Z) : c <= 8 -> len (buckets (newShard K V c)) = 8.
Proof.
  intros Hc. destruct (newShard_len (K:=K) (V:=V) c) as (k & Hk & E & Hlast).
  rewrite E. destruct Hlast as [->|Hlast]; [reflexivity|].
  destruct (Z.eq_dec k 3) as [->|Hne]; [reflexivity|].
  assert (2 ^ 3 <= 2 ^ (k - 1)) by (apply Z.pow_le_mono_r; lia). lia.
Qed.

Lemma newShard_len_le (c k : Z) :
  3 <= k -> c <= 2 ^ k -> len (buckets (newShard K V c)) <= 2 ^ k.
Proof.
  intros Hk Hc. destruct (newShard_len (K:=K) (V:=V) c) as (k' & Hk' & E & Hlast).
  rewrite E. apply Z.pow_le_mono_r; [lia|].
  destruct Hlast as [->|Hlast]; [lia|].
  assert (k' - 1 < k) by (apply pow2_lt_inv; lia). lia.
Qed.

(** The table that a shrink at exactly [shrinkAt] entries builds has room,
    and holds more than its own [shrinkAt] unless it has the minimum size. *)
Lemma shrink_target (k : Z) :
  3 <= k <= 15 ->
  let s := 2 ^ k * 15 / 100 in
  s < len (buckets (newShard K V s)) /\
  (len (buckets (newShard K V s)) = 8 \/
   len (buckets (newShard K V s)) * 15 / 100 < s).
Proof.
  intros Hk s. pose proof (shrink_check_at k ltac:(lia)) as Hck.
  unfold shrink_check in Hck. fold s in Hck.
  assert (s <= 2 ^ 62) as Hs.
  { assert (2 ^ k <= 2 ^ 15) by (apply Z.pow_le_mono_r; lia).
    assert (s <= 2 ^ k); [|lia].
    unfold s. apply Z.div_le_upper_bound; lia. }
  rewrite (newShard_len_eq s Hs).
  apply andb_prop in Hck as [H1 H2]. apply Z.ltb_lt in H1.
  split; [exact H1|]. apply orb_prop in H2 as [H2|H2].
  - left. apply Z.eqb_eq. exact H2.
  - right. apply Z.ltb_lt. exact H2.
Qed.

Lemma remove_loop_gap (fuel : nat) bs (mask_ g : Z) e :
  0 <= g < len bs -> 0 <= Z.land (u64 (g + 1)) mask_ ->
  Z.land (u64 (g + 1)) mask_ <> g ->
  remove_loop fuel (<[Z.to_nat g := e]> bs) mask_ g
  = remove_loop fuel bs mask_ g.
Proof.
  intros Hg Hpos Hne. destruct fuel as [|f]; [reflexivity|].
  cbn [remove_loop]. unfold index.
  rewrite (list_lookup_insert_ne bs (Z.to_nat g)
             (Z.to_nat (Z.land (u64 (g + 1)) mask_))) by lia.
  destruct (bs !! Z.to_nat (Z.land (u64 (g + 1)) mask_)) as [b|];
    [|reflexivity].
  cbn [mbind result_bind].
  rewrite list_lookup_insert_eq by (unfold len in Hg; lia).
  rewrite (slot_lookup bs g Hg). cbn [mbind result_bind].
  rewrite !list_insert_insert_eq. reflexivity.
Qed.

Lemma keys_ok_clear bs (g : Z) :
  keys_ok bs -> 0 <= g < len bs -> keys_ok (<[Z.to_nat g := zeroEntry K V]> bs).
Proof.
  intros Hk Hg p q Hp Hq. rewrite len_insert in *.
  rewrite !slot_insert by lia.
  destruct (decide (p = g)) as [->|Hpg];
    [intros Hd; exfalso; apply Hd; reflexivity|].
  destruct (decide (q = g)) as [->|Hqg];
    [intros _ Hd; exfalso; apply Hd; reflexivity|].
  apply Hk; assumption.
Qed.

Lemma remove_spec (fuel : nat) m (j : Z) :
  table_wf m -> 0 <= j < len (buckets m) ->
  dib (slot (buckets m) j) <> 0 -> len (buckets m) <= Z.of_nat fuel ->
  exists m',
    remove fuel m j = Ret m' /\ table_ok m' /\ cap m' = cap m /\
    count m' = count m - 1 /\
    entries_del m m' (hash (slot (buckets m) j)) (key (slot (buckets m) j)) /\
    len (buckets m') <= len (buckets m) /\
    (shrink_safe m -> count m' < len (buckets m') /\ shrink_safe m').
Proof.
  intros Hwf Hj Hdj Hfuel. pose proof Hwf as [Hok Hroom].
  pose proof (ok_shaped m Hok) as Hs.
  pose proof (ok_size m Hok) as Hsize.
  pose proof (ok_layout m Hok) as (Hw & Hh & Hst & Hk).
  pose proof (ok_thresholds m Hok) as [Hg Hsh].
  destruct (table_has_empty m Hwf) as (z & Hz & Hzd).
  assert (z <> j) as Hzj by (intros ->; contradiction).
  set (n := len (buckets m)) in *.
  assert (1 <= (z - j) mod n < n) as HD.
  { pose proof (ring_range n (z - j) ltac:(lia)).
    destruct (Z.eq_dec ((z - j) mod n) 0) as [E|]; [|lia].
    apply dist_zero in E; lia. }
  unfold remove. rewrite index_slot by assumption. cbn [mbind result_bind].
  assert (Z.land (u64 (j + 1)) (mask m) = (j + 1) mod n) as Enext
    by (apply next_index; assumption).
  pose proof (ring_range n (j + 1) ltac:(lia)) as Hi.
  rewrite remove_loop_gap;
    [|exact Hj | rewrite Enext; lia | rewrite Enext; apply ring_shift_ne; lia].
  destruct (remove_loop_spec (Z.to_nat ((z - j) mod n - 1)) fuel m
              (buckets m) j z)
    as (bs' & Hrun & El & Hlay & Hocc & Hholds); try assumption; try lia.
  { apply keys_ok_clear; assumption. }
  { fold n. lia. }
  rewrite Hrun. cbn [mbind result_bind].
  destruct (decide (dib (slot (buckets m) j) <> 0)) as [_|?]; [|contradiction].
  set (m1 := withCount (withBuckets m bs') (count m - 1)).
  assert (same_frame m m1) as Hfr1 by (repeat split; exact El).
  assert (table_ok m1) as Hok1.
  { apply (table_ok_frame m); try assumption.
    cbn [m1 withCount withBuckets count buckets].
    rewrite Hocc, (ok_count m Hok). reflexivity. }
  assert (entries_del m m1 (hash (slot (buckets m) j))
            (key (slot (buckets m) j))) as Hdel1.
  { intros h' k' v'. unfold stored. cbn [m1 withCount withBuckets buckets].
    rewrite Hholds, holds_insert by assumption. split.
    - intros [[Hd _] | (p & Hp & Hpj & He)];
        [exfalso; apply Hd; reflexivity|].
      split; [|exists p; auto].
      intros [E1 E2]. apply Hpj. destruct He as (Hdp & [E3 E4] & _).
      apply Hk; try assumption. split; congruence.
    - intros [Hn' (p & Hp & He)]. right. exists p. split; [exact Hp|].
      split; [|exact He]. intros ->. apply Hn'.
      destruct He as (_ & [E3 E4] & _). auto. }
  change (len (buckets m1)) with (len bs').
  change (cap m1) with (cap m).
  change (count m1) with (count m - 1).
  change (shrinkAt m1) with (shrinkAt m).
  rewrite El. fold n.
  assert (1 <= count m) as Hc1.
  { rewrite (ok_count m Hok).
    pose proof (occupied_bounds bs') as Hb. rewrite Hocc in Hb. lia. }
  destruct (shaped_pow2 m Hs Hsize) as (kk & Hkk & Ekk). fold n in Ekk.
  destruct (Z.gtb_spec n (cap m)) as [Hcap|Hcap];
    destruct (Z.leb_spec (count m - 1) (shrinkAt m)) as [Hle|Hgt];
    cbn [andb].
  2,3,4: (exists m1; split; [reflexivity|]; split; [exact Hok1|];
          split; [reflexivity|]; split; [reflexivity|];
          split; [exact Hdel1|];
          split; [cbn [m1 withCount withBuckets buckets]; fold n in El; lia|];
          intros Hsafe; cbn [m1 withCount withBuckets buckets count];
          split; [fold n in El; lia|];
          unfold shrink_safe;
          cbn [m1 withCount withBuckets buckets count cap shrinkAt];
          rewrite El; fold n; lia).
  (* the table shrinks *)
  assert (shrinkAt m <= n) as Hsn.
  { rewrite Hsh. fold n. apply Z.div_le_upper_bound; lia. }
  assert (n <= 2 ^ 15) as Hn15 by lia.
  destruct (resize_spec fuel m1 (count m - 1))
    as (m2 & Hres & Hok2 & Hcap2 & El2 & Hcnt2 & Hsame); try assumption.
  { lia. }
  { cbn [m1 withCount withBuckets count].
    apply newShard_len_ge. lia. }
  { pose proof (newShard_len_le (count m - 1) kk ltac:(lia) ltac:(lia)). lia. }
  exists m2. split; [exact Hres|]. split; [exact Hok2|].
  split; [exact Hcap2|]. split; [exact Hcnt2|]. split.
  { intros h' k' v'. rewrite (Hsame h' k' v'). apply Hdel1. }
  split.
  { rewrite El2. rewrite Ekk. apply newShard_len_le; lia. }
  intros Hsafe. rewrite Hcnt2, El2.
  cbn [m1 withCount withBuckets count].
  unfold shrink_safe. rewrite Hcap2, El2, Hcnt2.
  cbn [m1 withCount withBuckets count cap].
  destruct (ok_thresholds m2 Hok2) as [_ Hsh2]. rewrite Hsh2, El2.
  destruct Hsafe as [Hs1 | [Hs2 | Hs3]]; [fold n in Hs1; lia | | ].
  - fold n in Hs2. rewrite Hs2 in Hsh. change (8 * 15 / 100) with 1 in Hsh.
    rewrite (newShard_len_min (count m - 1)) by lia. lia.
  - assert (count m - 1 = 2 ^ kk * 15 / 100) as Ec by (rewrite <- Ekk; lia).
    rewrite Ec.
    destruct (shrink_target kk ltac:(lia)) as [H1 H2]. cbv zeta in H1, H2.
    split; [exact H1|]. right. exact H2.
Qed.

End Remove.

Section DeleteSpec.
Context {K V : Type} `{EqDecision K} `{Zero K} `{Zero V}.
Implicit Types (m nm : mapShard K V) (e b : entry K V) (bs : list (entry K V)).

(** Whether a table holds a hash and key can be decided. *)
Lemma among_dec bs (h : Z) (k : K) :
  (exists v, among bs h k v) \/ (forall v, ~ among bs h k v).
Proof.
  induction bs as [|b bs IH].
  - right. intros v (b & Hb & _). inversion Hb.
  - destruct IH as [[v Hv] | Hno].
    + left. exists v. apply among_cons. auto.
    + destruct (Z.eq_dec (dib b) 0) as [Hd|Hd].
      * right. intros v Hv. apply among_cons in Hv as [[Hne _]|Hv];
          [contradiction | exact (Hno v Hv)].
      * destruct (matches_dec b h k) as [Hm|Hnm].
        -- left. exists (value b). apply among_cons. left.
           split; [exact Hd|]. split; [exact Hm | reflexivity].
        -- right. intros v Hv. apply among_cons in Hv as [(_ & Hm & _)|Hv];
             [contradiction | exact (Hno v Hv)].
Qed.

Lemma stored_dec m (h : Z) (k : K) : (exists v, stored m h k v) \/ absent m h k.
Proof.
  destruct (among_dec (buckets m) h k) as [[v Hv] | Hno].
  - left. exists v. apply holds_among. exact Hv.
  - right. intros v Hs. apply (Hno v). apply holds_among. exact Hs.
Qed.

(** The probe of a deletion that starts [t] buckets before the entry, with
    nothing but other entries in between, removes it. *)
Lemma delete_loop_walk (t : nat) : forall (fuel : nat) m (h : Z) (k : K) (j : Z),
  shaped m -> 0 <= j < len (buckets m) -> (t < fuel)%nat ->
  dib (slot (buckets m) j) <> 0 -> matches (slot (buckets m) j) h k ->
  (forall s, 1 <= s <= Z.of_nat t ->
     dib (slot (buckets m) ((j - s) mod len (buckets m))) <> 0 /\
     ~ matches (slot (buckets m) ((j - s) mod len (buckets m))) h k) ->
  delete_loop fuel m h k ((j - Z.of_nat t) mod len (buckets m))
  = (m' ← remove (fuel - t) m j; Ret (m', (value (slot (buckets m) j), true))).
Proof.
  induction t as [|t IH]; intros fuel m h k j Hs Hj Hfuel Hd Hm Hpath;
    (destruct fuel as [|f]; [lia|]); cbn [delete_loop].
  - change (Z.of_nat 0) with 0. rewrite Z.sub_0_r, Z.mod_small by lia.
    rewrite index_slot by assumption. cbn [mbind result_bind].
    destruct (Z.eqb_spec (dib (slot (buckets m) j)) 0); [contradiction|].
    rewrite matches_test_true by assumption.
    replace (S f - 0)%nat with (S f) by lia. reflexivity.
  - pose proof (shaped_len_pos m Hs) as Hn.
    pose proof (ring_range (len (buckets m)) (j - Z.of_nat (S t)) Hn) as Hp.
    rewrite index_slot by assumption. cbn [mbind result_bind].
    destruct (Hpath (Z.of_nat (S t))) as [Hocc Hnm]; [lia|].
    destruct (Z.eqb_spec
                (dib (slot (buckets m)
                        ((j - Z.of_nat (S t)) mod len (buckets m)))) 0);
      [contradiction|].
    rewrite matches_test_false by assumption.
    rewrite next_index by assumption.
    replace (Z.of_nat (S t)) with (Z.of_nat t + 1) by lia.
    rewrite ring_back by lia.
    replace (S f - S t)%nat with (f - t)%nat by lia.
    apply IH; try assumption; try lia.
    intros s Hs'. apply Hpath. lia.
Qed.

(** [DeleteWithHash] on a well-formed table: it returns; the table is in
    the Robin Hood layout again and holds nothing under the hash and key,
    and otherwise what it held.  If a shrink could not fill the table
    before, the table has an empty bucket again, and a shrink cannot fill it
    afterwards. *)
Lemma DeleteWithHash_spec (fuel : nat) m (h : Z) (k : K) :
  table_wf m -> 2 * len (buckets m) <= Z.of_nat fuel ->
  exists m' prev deleted,
    DeleteWithHash fuel m h k = Ret (m', (prev, deleted)) /\
    table_ok m' /\ cap m' = cap m /\
    (if deleted then stored m h k prev /\ count m' = count m - 1
     else prev = zeroV /\ absent m h k /\ m' = m) /\
    entries_del m m' h k /\
    len (buckets m') <= len (buckets m) /\
    (shrink_safe m -> table_wf m' /\ shrink_safe m').
Proof.
  intros Hwf Hfuel. pose proof Hwf as [Hok Hroom].
  pose proof (ok_shaped m Hok) as Hs.
  pose proof (shaped_len_pos m Hs) as Hn.
  destruct (stored_dec m h k) as [[v Hst] | Habs].
  - (* the entry is there *)
    pose proof Hst as (j & Hj & Hd & Hm & Hv).
    pose proof (ok_homes m Hok) as Hhomes.
    pose proof (ok_steps m Hok) as Hsteps.
    pose proof (ok_keys m Hok) as Hkeys.
    unfold DeleteWithHash.
    destruct (Z.eqb_spec (len (buckets m)) 0) as [?|_]; [lia|].
    pose proof (Hhomes j Hj Hd) as Hhome.
    pose proof Hm as [Eh Ek]. rewrite Eh in Hhome. rewrite Hhome.
    set (n := len (buckets m)) in *.
    set (d := dib (slot (buckets m) j)) in *.
    pose proof (dib_range (slot (buckets m) j)) as Hdr. fold d in Hdr.
    set (t := (d - 1) mod n).
    assert (0 <= t < n) as Ht by (apply ring_range; lia).
    assert (t <= d - 1) as Htd by (apply Z.mod_le; lia).
    assert ((j - (d - 1)) mod n = (j - Z.of_nat (Z.to_nat t)) mod n) as E.
    { rewrite Z2Nat.id by lia. unfold t.
      rewrite Zminus_mod_idemp_r. reflexivity. }
    rewrite E. unfold n.
    rewrite delete_loop_walk; try assumption; try lia.
    2:{ rewrite Z2Nat.id by lia. intros s Hs'.
        pose proof (steps_back (buckets m) (Z.to_nat s) j Hsteps Hj) as Hc.
        rewrite Z2Nat.id in Hc by lia. fold n d in Hc |- *.
        split; [lia|].
        intros [Eh' Ek'].
        assert ((j - s) mod n = j) as Ej.
        { apply Hkeys; try assumption.
          - apply ring_range. lia.
          - fold n. lia.
          - split; congruence. }
        apply (ring_back_ne n j s); [lia|lia|exact Ej]. }
    destruct (remove_spec (fuel - Z.to_nat t) m j)
      as (m' & Hrem & Hok' & Hcap & Hcnt & Hdel & Hlen & Hsafe);
      try assumption; try (fold n; lia).
    rewrite Hrem. cbn [mbind result_bind]. rewrite Hv.
    exists m', v, true. split; [reflexivity|]. split; [exact Hok'|].
    split; [exact Hcap|]. split; [split; assumption|].
    rewrite Eh, Ek in Hdel. split; [exact Hdel|]. split; [exact Hlen|].
    intros Hsf. destruct (Hsafe Hsf) as [Hroom' Hsf'].
    split; [split; assumption | exact Hsf'].
  - (* nothing to delete *)
    pose proof (GetWithHash_absent fuel m h k Hwf ltac:(lia) Habs) as Hget.
    rewrite (DeleteWithHash_missing fuel m h k zeroV Hget).
    exists m, zeroV, false. split; [reflexivity|]. split; [exact Hok|].
    split; [reflexivity|]. split; [auto|]. split.
    + intros h' k' v'. split.
      * intros Hs'. split; [|exact Hs'].
        intros [-> ->]. exact (Habs v' Hs').
      * intros [_ Hs']. exact Hs'.
    + split; [lia|]. intros Hsf. split; assumption.
Qed.

End DeleteSpec.

(** ** Sequences of calls on one shard *)

Section ShardRuns.
Context {K V : Type} `{EqDecision K} `{Zero K} `{Zero V}.
Implicit Types (m nm : mapShard K V) (ops : list (shard_op K V)).

(** A stored value is the only one under its hash and key. *)
Lemma stored_functional m (h : Z) (k : K) (v v' : V) :
  table_ok m -> stored m h k v -> stored m h k v' -> v = v'.
Proof.
  intros Hok (i & Hi & Hdi & [E1 E2] & Ev) (j & Hj & Hdj & [E3 E4] & Ev').
  assert (i = j) as ->; [|congruence].
  apply (ok_keys m Hok); try assumption. split; congruence.
Qed.

Lemma newShard_safe (c : Z) :
  safe_cap c ->
  table_wf (newShard K V c) /\ shrink_safe (newShard K V c) /\
  len (buckets (newShard K V c)) <= 2 ^ 14.
Proof.
  intros Hc.
  assert (c <= 2 ^ 14) as Hc14.
  { destruct Hc as [?|(j & Hj & ->)]; [lia|]. apply Z.pow_le_mono_r; lia. }
  split; [apply newShard_ok; lia|]. split.
  - destruct Hc as [Hc|(j & Hj & ->)].
    + right. left. apply newShard_len_min. exact Hc.
    + left. rewrite newShard_pow2_len by lia. reflexivity.
  - apply newShard_len_le; lia.
Qed.

(** What the calls so far have left: a well-formed table with an empty
    bucket that a shrink cannot fill, with at most [T] entries and at most
    [max L (4 T)] buckets. *)
Lemma apply_op_safe (fuel : nat) m (op : shard_op K V) (L T : Z)
    (st : Z -> K -> option V) :
  table_wf m -> shrink_safe m -> count m <= T ->
  len (buckets m) <= Z.max L (4 * T) ->
  L <= 2 ^ 14 -> 0 <= T < 2 ^ 12 -> 2 ^ 15 <= Z.of_nat fuel ->
  0 <= op_hash op < 2 ^ 48 ->
  (forall h k v, stored m h k v <-> st h k = Some v) ->
  exists m',
    apply_op fuel m op = Ret m' /\
    table_wf m' /\ shrink_safe m' /\ count m' <= T + 1 /\
    len (buckets m') <= Z.max L (4 * (T + 1)) /\
    forall h k v, stored m' h k v <-> after_op h k (st h k) op = Some v.
Proof.
  intros Hwf Hsafe Hcnt Hlen HL HT Hfuel Hh Hst.
  pose proof Hwf as [Hok _].
  pose proof (ok_size m Hok) as Hsize.
  pose proof (ok_thresholds m Hok) as [Hg _].
  destruct op as [h k v | h k]; cbn [apply_op op_hash after_op] in *.
  - destruct (SetWithHash_spec fuel m h k v)
      as (m' & prev & replaced & Hrun & Hwf' & _ & Hcase & Hput & Hl & Hs');
      try assumption; try lia.
    rewrite Hrun. cbn [mbind result_bind fst].
    exists m'. split; [reflexivity|]. split; [exact Hwf'|].
    split; [apply Hs'; exact Hsafe|]. split.
    { destruct replaced; [destruct Hcase as [_ ?]
                         | destruct Hcase as (_ & _ & ?)]; lia. }
    split.
    { destruct Hl as [->|[-> Hgrow]]; [lia|].
      rewrite Hg in Hgrow.
      assert (len (buckets m) <= 2 * (len (buckets m) * 85 / 100)); [|lia].
      pose proof (Z.mul_succ_div_gt (len (buckets m) * 85) 100 ltac:(lia)).
      lia. }
    intros h' k' v'. rewrite (Hput h' k' v'), (Hst h' k' v').
    destruct (decide (h = h' /\ k = k')) as [[-> ->]|Hne].
    + split.
      * intros [(_ & _ & ->) | [Hn _]]; [reflexivity | exfalso; auto].
      * intros E. inversion E. auto.
    + split.
      * intros [(-> & -> & _) | [_ E]]; [exfalso; auto | exact E].
      * intros E. right. split; [|exact E]. intros [-> ->]. auto.
  - destruct (DeleteWithHash_spec fuel m h k)
      as (m' & prev & deleted & Hrun & Hok' & _ & Hcase & Hdel & Hl & Hs');
      try assumption; try lia.
    rewrite Hrun. cbn [mbind result_bind fst].
    destruct (Hs' Hsafe) as [Hwf' Hsafe'].
    exists m'. split; [reflexivity|]. split; [exact Hwf'|].
    split; [exact Hsafe'|]. split.
    { destruct deleted; [destruct Hcase as [_ ?]
                        | destruct Hcase as (_ & _ & ->)]; lia. }
    split; [lia|].
    intros h' k' v'. rewrite (Hdel h' k' v'), (Hst h' k' v').
    destruct (decide (h = h' /\ k = k')) as [[-> ->]|Hne].
    + split; [intros [Hn _]; exfalso; auto | discriminate].
    + split; [intros [_ E]; exact E|].
      intros E. split; [|exact E]. intros [-> ->]. auto.
Qed.

Lemma run_ops_safe (fuel : nat) ops : forall m (L T : Z)
    (st : Z -> K -> option V),
  table_wf m -> shrink_safe m -> count m <= T ->
  len (buckets m) <= Z.max L (4 * T) ->
  L <= 2 ^ 14 -> 0 <= T -> T + len ops <= 2 ^ 12 ->
  2 ^ 15 <= Z.of_nat fuel ->
  Forall (fun op => 0 <= op_hash op < 2 ^ 48) ops ->
  (forall h k v, stored m h k v <-> st h k = Some v) ->
  exists m',
    run_ops fuel ops m = Ret m' /\ table_wf m' /\ shrink_safe m' /\
    forall h k v, stored m' h k v <-> foldl (after_op h k) (st h k) ops = Some v.
Proof.
  induction ops as [|op ops IH];
    intros m L T st Hwf Hsafe Hcnt Hlen HL HT0 HT Hfuel Hops Hst;
    cbn [run_ops foldl].
  - exists m. auto.
  - rewrite len_cons in HT. pose proof (len_nonneg ops) as Hlo.
    inversion Hops as [|? ? Hop Hops']; subst.
    destruct (apply_op_safe fuel m op L T st)
      as (m1 & Hrun & Hwf1 & Hsafe1 & Hcnt1 & Hlen1 & Hst1);
      try assumption; try lia.
    rewrite Hrun. cbn [mbind result_bind].
    destruct (IH m1 L (T + 1) (fun h k => after_op h k (st h k) op))
      as (m' & Hrun' & Hwf' & Hsafe' & Hst'); try assumption; try lia.
    exists m'. auto.
Qed.

End ShardRuns.

(** * The map on well-formed shards *)

Section MapSteps.
Context {K V : Type} `{EqDecision K} `{Zero K} `{Zero V}.
Variable hashKey : K -> Z.
Hypothesis hashKey_range : forall k, 0 <= hashKey k < 2 ^ 64.
Implicit Types (M : Map K V) (sh : mapShard K V).

Local Notation "'shard_of' M k" := (Z.to_nat (choose hashKey M k).1)
  (at level 10, M at level 9, k at level 9).
Local Notation "'hash_of' k" := (Z.shiftr (hashKey k) 16) (at level 10).

Lemma choose_hash M (k : K) : (choose hashKey M k).2 = hash_of k.
Proof. reflexivity. Qed.

Lemma hash_of_range (k : K) : 0 <= hash_of k < 2 ^ 48.
Proof.
  pose proof (hashKey_range k). rewrite Z.shiftr_div_pow2 by lia. split.
  - apply Z.div_pos; lia.
  - apply Z.div_lt_upper_bound; lia.
Qed.

Lemma map_ok_wf M : map_ok hashKey M -> map_wf hashKey M.
Proof.
  intros [Hshape Hall]. split; [exact Hshape|].
  intros s sh Hs. destruct (Hall s sh Hs) as (Hwf & _ & Hr). auto.
Qed.

Lemma map_wf_shard M (k : K) :
  map_wf hashKey M ->
  0 <= (choose hashKey M k).1 /\
  exists sh,
    maps M !! shard_of M k = Some sh /\
    index (maps M) (choose hashKey M k).1 = Ret sh.
Proof.
  intros [(j & Hj & Es & Em & El) _].
  assert (0 <= (choose hashKey M k).1 < len (maps M)) as Hr.
  { change ((choose hashKey M k).1) with (Z.land (hashKey k) (shardIDMax M)).
    rewrite Em, El, land_pow2_pred by lia.
    apply Z.mod_pos_bound. apply Z.pow_pos_nonneg; lia. }
  split; [lia|].
  destruct (lookup_lt_is_Some_2 (maps M) (shard_of M k)) as [sh Hsh].
  { unfold len in Hr. lia. }
  exists sh. split; [exact Hsh|]. apply index_Ret. exact Hsh.
Qed.

Lemma map_shard M (k : K) :
  map_ok hashKey M ->
  0 <= (choose hashKey M k).1 /\
  exists sh,
    maps M !! shard_of M k = Some sh /\
    index (maps M) (choose hashKey M k).1 = Ret sh.
Proof. intros Hok. apply map_wf_shard, map_ok_wf, Hok. Qed.

Lemma choose_eq M (k : K) (s : nat) (h : Z) :
  0 <= (choose hashKey M k).1 ->
  choose hashKey M k = (Z.of_nat s, h) <-> shard_of M k = s /\ hash_of k = h.
Proof.
  intros Hpos. pose proof (choose_hash M k) as Eh.
  destruct (choose hashKey M k) as [a b]. cbn [fst snd] in *. split.
  - intros E. inversion E as [[E1 E2]]. split; [apply Nat2Z.id | congruence].
  - intros [E1 E2]. f_equal; [lia | congruence].
Qed.

(** One shard replaced. *)
Lemma has_update M (s : nat) sh' (k : K) (v : V) :
  (s < length (maps M))%nat ->
  has hashKey (withMaps M (<[s := sh']> (maps M))) k v <->
  if decide (shard_of M k = s) then stored sh' (hash_of k) k v
  else has hashKey M k v.
Proof.
  intros Hs. unfold has. rewrite !choose_withMaps, choose_hash.
  change (maps (withMaps M (<[s := sh']> (maps M))))
    with (<[s := sh']> (maps M)).
  destruct (decide (shard_of M k = s)) as [E|Hne].
  - rewrite E, list_lookup_insert_eq by exact Hs. split.
    + intros (sh & Esh & Hst). inversion Esh; subst. exact Hst.
    + intros Hst. exists sh'. auto.
  - rewrite list_lookup_insert_ne by auto. reflexivity.
Qed.

Lemma map_ok_update M (s : nat) sh sh' :
  map_ok hashKey M -> maps M !! s = Some sh ->
  table_wf sh' -> shrink_safe sh' -> shard_routes hashKey M s sh' ->
  map_ok hashKey (withMaps M (<[s := sh']> (maps M))).
Proof.
  intros [Hshape Hall] Hs Hwf Hsafe Hroutes. split.
  - destruct Hshape as (j & Hj & Es & Em & El). exists j.
    cbn [withMaps shards shardIDMax maps]. rewrite len_insert. auto.
  - intros s' sh0 Hs0. cbn [withMaps maps] in Hs0.
    destruct (decide (s' = s)) as [->|Hne].
    + rewrite list_lookup_insert_eq in Hs0 by (eapply lookup_lt_Some; eauto).
      inversion Hs0; subst. auto.
    + rewrite list_lookup_insert_ne in Hs0 by auto.
      destruct (Hall s' sh0 Hs0) as (H1 & H2 & H3). auto.
Qed.

(** A shard that takes a value for [k], and otherwise holds what it held. *)
Lemma update_put M sh sh' (k : K) (v : V) :
  map_ok hashKey M -> maps M !! shard_of M k = Some sh ->
  table_wf sh' -> shrink_safe sh' ->
  entries_put sh sh' (hash_of k) k v ->
  map_ok hashKey (withMaps M (<[shard_of M k := sh']> (maps M))) /\
  forall k' v',
    has hashKey (withMaps M (<[shard_of M k := sh']> (maps M))) k' v' <->
    (k' = k /\ v' = v) \/ (k' <> k /\ has hashKey M k' v').
Proof.
  intros Hok Hsh Hwf Hsafe Hput.
  destruct (map_shard M k Hok) as [Hpos _].
  pose proof (lookup_lt_Some _ _ _ Hsh) as Hlt.
  split.
  - apply (map_ok_update M _ sh); try assumption.
    intros h' k' v' Hst. apply Hput in Hst as [(-> & -> & _) | [_ Hst]].
    + apply choose_eq; auto.
    + destruct Hok as [_ Hall]. destruct (Hall _ _ Hsh) as (_ & _ & Hr).
      exact (Hr h' k' v' Hst).
  - intros k' v'. rewrite has_update by exact Hlt.
    destruct (decide (shard_of M k' = shard_of M k)) as [E|Hne].
    + rewrite (Hput (hash_of k') k' v'). unfold has.
      rewrite E, choose_hash. split.
      * intros [(_ & -> & ->) | [Hn Hst]]; [left; auto|].
        right. split; [|exists sh; auto].
        intros ->. apply Hn. auto.
      * intros [[-> ->] | [Hn (sh0 & Esh & Hst)]]; [left; auto|].
        right. rewrite Hsh in Esh. inversion Esh; subst.
        split; [|exact Hst]. intros [_ ->]. auto.
    + split; [|intros [[-> _]|[_ ?]]; [contradiction|assumption]].
      intros Hh. right. split; [|exact Hh]. intros ->. auto.
Qed.

(** A shard that drops [k], and otherwise holds what it held. *)
Lemma update_del M sh sh' (k : K) :
  map_ok hashKey M -> maps M !! shard_of M k = Some sh ->
  table_wf sh' -> shrink_safe sh' ->
  entries_del sh sh' (hash_of k) k ->
  map_ok hashKey (withMaps M (<[shard_of M k := sh']> (maps M))) /\
  forall k' v',
    has hashKey (withMaps M (<[shard_of M k := sh']> (maps M))) k' v' <->
    k' <> k /\ has hashKey M k' v'.
Proof.
  intros Hok Hsh Hwf Hsafe Hdel.
  pose proof (lookup_lt_Some _ _ _ Hsh) as Hlt.
  split.
  - apply (map_ok_update M _ sh); try assumption.
    intros h' k' v' Hst. apply Hdel in Hst as [_ Hst].
    destruct Hok as [_ Hall]. destruct (Hall _ _ Hsh) as (_ & _ & Hr).
    exact (Hr h' k' v' Hst).
  - intros k' v'. rewrite has_update by exact Hlt.
    destruct (decide (shard_of M k' = shard_of M k)) as [E|Hne].
    + rewrite (Hdel (hash_of k') k' v'). unfold has.
      rewrite E, choose_hash. split.
      * intros [Hn Hst]. split; [|exists sh; auto].
        intros ->. apply Hn. auto.
      * intros [Hn (sh0 & Esh & Hst)].
        rewrite Hsh in Esh. inversion Esh; subst.
        split; [|exact Hst]. intros [_ ->]. auto.
    + split; [|intros [_ ?]; assumption].
      intros Hh. split; [|exact Hh]. intros ->. auto.
Qed.

(** A shard rebuilt with the entries it had. *)
Lemma update_same M sh sh' (k : K) :
  map_ok hashKey M -> maps M !! shard_of M k = Some sh ->
  table_wf sh' -> shrink_safe sh' -> same_entries sh sh' ->
  map_ok hashKey (withMaps M (<[shard_of M k := sh']> (maps M))) /\
  forall k' v',
    has hashKey (withMaps M (<[shard_of M k := sh']> (maps M))) k' v' <->
    has hashKey M k' v'.
Proof.
  intros Hok Hsh Hwf Hsafe Hsame.
  pose proof (lookup_lt_Some _ _ _ Hsh) as Hlt.
  split.
  - apply (map_ok_update M _ sh); try assumption.
    intros h' k' v' Hst. apply Hsame in Hst.
    destruct Hok as [_ Hall]. destruct (Hall _ _ Hsh) as (_ & _ & Hr).
    exact (Hr h' k' v' Hst).
  - intros k' v'. rewrite has_update by exact Hlt.
    destruct (decide (shard_of M k' = shard_of M k)) as [E|Hne];
      [|reflexivity].
    rewrite (Hsame (hash_of k') k' v'). unfold has.
    rewrite E, choose_hash. split.
    + intros Hst. exists sh. auto.
    + intros (sh0 & Esh & Hst). rewrite Hsh in Esh. inversion Esh; subst.
      exact Hst.
Qed.

End MapSteps.

Section MapCalls.
Context {K V : Type} `{EqDecision K} `{Zero K} `{Zero V}.
Variable hashKey : K -> Z.
Hypothesis hashKey_range : forall k, 0 <= hashKey k < 2 ^ 64.
Implicit Types (M : Map K V) (sh : mapShard K V).

Local Notation "'shard_of' M k" := (Z.to_nat (choose hashKey M k).1)
  (at level 10, M at level 9, k at level 9).
Local Notation "'hash_of' k" := (Z.shiftr (hashKey k) 16) (at level 10).

Lemma has_shard M sh (k : K) (v : V) :
  maps M !! shard_of M k = Some sh ->
  has hashKey M k v <-> stored sh (hash_of k) k v.
Proof.
  intros Hsh. unfold has. rewrite Hsh. change ((choose hashKey M k).2)
    with (hash_of k). split.
  - intros (sh0 & E & Hst). inversion E; subst. exact Hst.
  - intros Hst. exists sh. auto.
Qed.

Lemma shard_wf M (s : nat) sh :
  map_ok hashKey M -> maps M !! s = Some sh ->
  table_wf sh /\ shrink_safe sh /\ len (buckets sh) <= 2 ^ 15.
Proof.
  intros [_ Hall] Hs. destruct (Hall s sh Hs) as (Hwf & Hsafe & _).
  split; [exact Hwf|]. split; [exact Hsafe|].
  destruct Hwf as [Hok _]. apply (ok_size sh Hok).
Qed.

(** [Set] is [SetWithHash] on the shard of the key. *)
Lemma Set_shard (fuel : nat) M (k : K) (v : V) :
  map_ok hashKey M -> 2 ^ 15 <= Z.of_nat fuel ->
  (forall sh, maps M !! shard_of M k = Some sh -> len (buckets sh) <= 2 ^ 14) ->
  exists sh sh' prev replaced,
    maps M !! shard_of M k = Some sh /\
    Set_ hashKey fuel M k v
    = Ret (withMaps M (<[shard_of M k := sh']> (maps M)), (prev, replaced)) /\
    table_wf sh' /\ shrink_safe sh' /\
    (if replaced then stored sh (hash_of k) k prev /\ count sh' = count sh
     else prev = zeroV /\ absent sh (hash_of k) k /\ count sh' = count sh + 1) /\
    entries_put sh sh' (hash_of k) k v /\
    (len (buckets sh') = len (buckets sh) \/
     len (buckets sh') = 2 * len (buckets sh) /\ growAt sh <= count sh).
Proof.
  intros Hok Hfuel Hsmall.
  destruct (map_shard hashKey M k Hok) as (Hpos & sh & Hsh & Hidx).
  destruct (shard_wf M _ sh Hok Hsh) as (Hwf & Hsafe & Hlen).
  specialize (Hsmall sh Hsh).
  destruct (SetWithHash_spec fuel sh (hash_of k) k v)
    as (sh' & prev & replaced & Hrun & Hwf' & _ & Hcase & Hput & Hl & Hs');
    try assumption; try lia.
  { apply hash_of_range. exact hashKey_range. }
  exists sh, sh', prev, replaced. split; [exact Hsh|].
  split; [apply (Set_on_shard hashKey fuel M k v sh); assumption|].
  split; [exact Hwf'|]. split; [apply Hs'; exact Hsafe|].
  split; [exact Hcase|]. split; [exact Hput|]. exact Hl.
Qed.

(** [Delete] is [DeleteWithHash] on the shard of the key. *)
Lemma Delete_shard (fuel : nat) M (k : K) :
  map_ok hashKey M -> 2 ^ 16 <= Z.of_nat fuel ->
  exists sh sh' prev deleted,
    maps M !! shard_of M k = Some sh /\
    Delete hashKey fuel M k
    = Ret (withMaps M (<[shard_of M k := sh']> (maps M)), (prev, deleted)) /\
    table_wf sh' /\ shrink_safe sh' /\
    (if deleted then stored sh (hash_of k) k prev /\ count sh' = count sh - 1
     else prev = zeroV /\ absent sh (hash_of k) k /\ sh' = sh) /\
    entries_del sh sh' (hash_of k) k /\
    len (buckets sh') <= len (buckets sh).
Proof.
  intros Hok Hfuel.
  destruct (map_shard hashKey M k Hok) as (Hpos & sh & Hsh & Hidx).
  destruct (shard_wf M _ sh Hok Hsh) as (Hwf & Hsafe & Hlen).
  destruct (DeleteWithHash_spec fuel sh (hash_of k) k)
    as (sh' & prev & deleted & Hrun & Hok' & _ & Hcase & Hdel & Hl & Hs');
    try assumption; try lia.
  destruct (Hs' Hsafe) as [Hwf' Hsafe'].
  exists sh, sh', prev, deleted. split; [exact Hsh|].
  split; [apply (Delete_on_shard hashKey fuel M k sh); assumption|].
  split; [exact Hwf'|]. split; [exact Hsafe'|].
  split; [exact Hcase|]. split; [exact Hdel|]. exact Hl.
Qed.

Lemma Set_step (fuel : nat) M (k : K) (v : V) :
  map_ok hashKey M -> shards_within (2 ^ 14) M -> 2 ^ 15 <= Z.of_nat fuel ->
  exists M' prev replaced,
    Set_ hashKey fuel M k v = Ret (M', (prev, replaced)) /\
    map_ok hashKey M' /\
    (if replaced then has hashKey M k prev
     else prev = zeroV /\ forall v0, ~ has hashKey M k v0) /\
    (forall k' v',
       has hashKey M' k' v' <->
       (k' = k /\ v' = v) \/ (k' <> k /\ has hashKey M k' v')) /\
    MapLen M' = MapLen M + (if replaced then 0 else 1).
Proof.
  intros Hok Hsmall Hfuel.
  destruct (Set_shard fuel M k v Hok Hfuel)
    as (sh & sh' & prev & replaced & Hsh & Hrun & Hwf' & Hsafe' & Hcase & Hput & _).
  { intros sh Hsh. exact (Forall_lookup_1 _ _ _ _ Hsmall Hsh). }
  destruct (update_put hashKey M sh sh' k v)
    as [Hok' Hhas]; try assumption.
  eexists _, prev, replaced. split; [exact Hrun|]. split; [exact Hok'|].
  split; [|split; [exact Hhas|]].
  - destruct replaced.
    + apply (has_shard M sh); [exact Hsh | apply Hcase].
    + destruct Hcase as (Hp & Habs & _). split; [exact Hp|].
      intros v0 Hh. apply (Habs v0). apply (has_shard M sh); assumption.
  - rewrite (MapLen_insert M _ sh sh' Hsh).
    destruct replaced; [destruct Hcase as [_ ->]
                       | destruct Hcase as (_ & _ & ->)]; lia.
Qed.

Lemma Delete_step (fuel : nat) M (k : K) :
  map_ok hashKey M -> 2 ^ 16 <= Z.of_nat fuel ->
  exists M' prev deleted,
    Delete hashKey fuel M k = Ret (M', (prev, deleted)) /\
    map_ok hashKey M' /\
    (if deleted then has hashKey M k prev
     else prev = zeroV /\ (forall v0, ~ has hashKey M k v0) /\ M' = M) /\
    (forall k' v', has hashKey M' k' v' <-> k' <> k /\ has hashKey M k' v') /\
    MapLen M' = MapLen M - (if deleted then 1 else 0).
Proof.
  intros Hok Hfuel.
  destruct (Delete_shard fuel M k Hok Hfuel)
    as (sh & sh' & prev & deleted & Hsh & Hrun & Hwf' & Hsafe' & Hcase & Hdel & _).
  destruct (update_del hashKey M sh sh' k)
    as [Hok' Hhas]; try assumption.
  eexists _, prev, deleted. split; [exact Hrun|]. split; [exact Hok'|].
  split; [|split; [exact Hhas|]].
  - destruct deleted.
    + apply (has_shard M sh); [exact Hsh | apply Hcase].
    + destruct Hcase as (Hp & Habs & ->). split; [exact Hp|]. split.
      * intros v0 Hh. apply (Habs v0). apply (has_shard M sh); assumption.
      * apply withMaps_same. exact Hsh.
  - rewrite (MapLen_insert M _ sh sh' Hsh).
    destruct deleted; [destruct Hcase as [_ ->]
                      | destruct Hcase as (_ & _ & ->)]; lia.
Qed.

Lemma Get_wf_step (fuel : nat) M (k : K) :
  map_wf hashKey M -> 2 ^ 15 <= Z.of_nat fuel ->
  (exists r, Get hashKey fuel M k = Ret r) /\
  (forall v, Get hashKey fuel M k = Ret (v, true) <-> has hashKey M k v) /\
  (Get hashKey fuel M k = Ret (zeroV, false) <-> forall v, ~ has hashKey M k v).
Proof.
  intros Hok Hfuel.
  destruct (map_wf_shard hashKey M k Hok) as (Hpos & sh & Hsh & Hidx).
  destruct Hok as [_ Hall]. destruct (Hall _ sh Hsh) as [Hwf _].
  pose proof Hwf as [Hok' _]. pose proof (ok_size sh Hok') as Hlen.
  rewrite (Get_on_shard hashKey fuel M k sh Hidx).
  change ((choose hashKey M k).2) with (hash_of k).
  assert (forall v, stored sh (hash_of k) k v ->
            GetWithHash fuel sh (hash_of k) k = Ret (v, true)) as Hfound
    by (intros v Hst; apply GetWithHash_stored; [exact Hok' | lia | exact Hst]).
  assert (absent sh (hash_of k) k ->
            GetWithHash fuel sh (hash_of k) k = Ret (zeroV, false)) as Hmiss
    by (intros Habs; apply GetWithHash_absent; [exact Hwf | lia | exact Habs]).
  split; [|split].
  - destruct (stored_dec sh (hash_of k) k) as [[v Hst]|Habs]; eauto.
  - intros v. rewrite (has_shard M sh k v Hsh). split; [|apply Hfound].
    intros Hget. exact (GetWithHash_sound fuel sh _ k v true Hget).
  - split.
    + intros Hget v Hh. apply (has_shard M sh k v Hsh) in Hh.
      rewrite (Hfound v Hh) in Hget. discriminate.
    + intros Hno. apply Hmiss. intros v Hst. apply (Hno v).
      apply (has_shard M sh k v Hsh). exact Hst.
Qed.

Lemma Get_step (fuel : nat) M (k : K) :
  map_ok hashKey M -> 2 ^ 15 <= Z.of_nat fuel ->
  (exists r, Get hashKey fuel M k = Ret r) /\
  (forall v, Get hashKey fuel M k = Ret (v, true) <-> has hashKey M k v) /\
  (Get hashKey fuel M k = Ret (zeroV, false) <-> forall v, ~ has hashKey M k v).
Proof. intros Hok. apply Get_wf_step, map_ok_wf, Hok. Qed.

End MapCalls.

(** ** Calls that ask before they commit *)

Section Undo.
Context {K V : Type} `{EqDecision K} `{Zero K} `{Zero V}.
Implicit Types (m : mapShard K V).

Lemma put_then_del m m1 m2 (h : Z) (k : K) (v : V) :
  entries_put m m1 h k v -> absent m h k -> entries_del m1 m2 h k ->
  same_entries m m2.
Proof.
  intros Hput Habs Hdel h' k' v'. rewrite (Hdel h' k' v'), (Hput h' k' v').
  split.
  - intros [Hn [(E1 & E2 & _) | [_ Hst]]]; [exfalso; auto | exact Hst].
  - intros Hst. assert (~ (h' = h /\ k' = k)) as Hn.
    { intros [-> ->]. exact (Habs v' Hst). }
    auto.
Qed.

Lemma put_then_put m m1 m2 (h : Z) (k : K) (v prev : V) :
  table_ok m -> entries_put m m1 h k v -> stored m h k prev ->
  entries_put m1 m2 h k prev -> same_entries m m2.
Proof.
  intros Hok Hput Hst Hput' h' k' v'.
  rewrite (Hput' h' k' v'), (Hput h' k' v'). split.
  - intros [(-> & -> & ->) | [Hn [(E1 & E2 & _) | [_ Hst']]]];
      [exact Hst | exfalso; auto | exact Hst'].
  - intros Hst'. destruct (decide (h' = h /\ k' = k)) as [[-> ->]|Hn].
    + left. split; [reflexivity|]. split; [reflexivity|].
      exact (stored_functional m h k v' prev Hok Hst' Hst).
    + right. auto.
Qed.

Lemma del_then_put m m1 m2 (h : Z) (k : K) (prev : V) :
  table_ok m -> entries_del m m1 h k -> stored m h k prev ->
  entries_put m1 m2 h k prev -> same_entries m m2.
Proof.
  intros Hok Hdel Hst Hput h' k' v'.
  rewrite (Hput h' k' v'), (Hdel h' k' v'). split.
  - intros [(-> & -> & ->) | [_ [_ Hst']]]; [exact Hst | exact Hst'].
  - intros Hst'. destruct (decide (h' = h /\ k' = k)) as [[-> ->]|Hn].
    + left. split; [reflexivity|]. split; [reflexivity|].
      exact (stored_functional m h k v' prev Hok Hst' Hst).
    + right. auto.
Qed.

End Undo.

Section MapAccept.
Context {K V : Type} `{EqDecision K} `{Zero K} `{Zero V}.
Variable hashKey : K -> Z.
Hypothesis hashKey_range : forall k, 0 <= hashKey k < 2 ^ 64.
Implicit Types (M : Map K V) (sh : mapShard K V).

Local Notation "'shard_of' M k" := (Z.to_nat (choose hashKey M k).1)
  (at level 10, M at level 9, k at level 9).
Local Notation "'hash_of' k" := (Z.shiftr (hashKey k) 16) (at level 10).

Lemma SetAccept_on_shard (fuel : nat) M (k : K) (v : V)
    (f : V -> bool -> bool) sh sh1 (prev : V) (replaced : bool) :
  index (maps M) (choose hashKey M k).1 = Ret sh ->
  SetWithHash fuel sh (hash_of k) k v = Ret (sh1, (prev, replaced)) ->
  SetAccept hashKey fuel M k v (Some f)
  = (if f prev replaced
     then Ret (withMaps M (<[shard_of M k := sh1]> (maps M)), (prev, replaced))
     else if replaced
     then r ← SetWithHash fuel sh1 (hash_of k) k prev;
          Ret (withMaps M (<[shard_of M k := r.1]> (maps M)), (zeroV, false))
     else r ← DeleteWithHash fuel sh1 (hash_of k) k;
          Ret (withMaps M (<[shard_of M k := r.1]> (maps M)), (zeroV, false))).
Proof.
  intros Hsh Hset. unfold SetAccept.
  change (hash_of k) with ((choose hashKey M k).2) in *.
  destruct (choose hashKey M k) as [shard shardKey]. cbn [fst snd] in *.
  unfold onShard. rewrite Hsh. cbn [mbind result_bind]. rewrite Hset.
  cbn [mbind result_bind].
  destruct (f prev replaced); cbn [negb]; [reflexivity|].
  destruct replaced; cbn [negb].
  - destruct (SetWithHash fuel sh1 shardKey k prev) as [r| |]; reflexivity.
  - destruct (DeleteWithHash fuel sh1 shardKey k) as [r| |]; reflexivity.
Qed.

Lemma DeleteAccept_on_shard (fuel : nat) M (k : K)
    (f : V -> bool -> bool) sh sh1 (prev : V) (deleted : bool) :
  index (maps M) (choose hashKey M k).1 = Ret sh ->
  DeleteWithHash fuel sh (hash_of k) k = Ret (sh1, (prev, deleted)) ->
  DeleteAccept hashKey fuel M k (Some f)
  = (if f prev deleted
     then Ret (withMaps M (<[shard_of M k := sh1]> (maps M)), (prev, deleted))
     else if deleted
     then r ← SetWithHash fuel sh1 (hash_of k) k prev;
          Ret (withMaps M (<[shard_of M k := r.1]> (maps M)), (zeroV, false))
     else Ret (withMaps M (<[shard_of M k := sh1]> (maps M)), (zeroV, false))).
Proof.
  intros Hsh Hdel. unfold DeleteAccept.
  change (hash_of k) with ((choose hashKey M k).2) in *.
  destruct (choose hashKey M k) as [shard shardKey]. cbn [fst snd] in *.
  unfold onShard. rewrite Hsh. cbn [mbind result_bind]. rewrite Hdel.
  cbn [mbind result_bind].
  destruct (f prev deleted); cbn [negb]; [reflexivity|].
  destruct deleted.
  - destruct (SetWithHash fuel sh1 shardKey k prev) as [r| |]; reflexivity.
  - reflexivity.
Qed.

(** [SetAccept] shows [accept] what [Set] would return, commits if [accept]
    returns [true], and otherwise leaves the map holding what it held. *)
Lemma SetAccept_step (fuel : nat) M (k : K) (v : V) (f : V -> bool -> bool) :
  map_ok hashKey M -> shards_within (2 ^ 13) M -> 2 ^ 16 <= Z.of_nat fuel ->
  exists M' (prev : V) (replaced : bool),
    (if replaced then has hashKey M k prev
     else prev = zeroV /\ forall v0, ~ has hashKey M k v0) /\
    SetAccept hashKey fuel M k v (Some f)
    = Ret (M', if f prev replaced then (prev, replaced) else (zeroV, false)) /\
    map_ok hashKey M' /\
    (forall k' v',
       has hashKey M' k' v' <->
       if f prev replaced
       then (k' = k /\ v' = v) \/ (k' <> k /\ has hashKey M k' v')
       else has hashKey M k' v') /\
    MapLen M'
    = MapLen M + (if f prev replaced then if replaced then 0 else 1 else 0).
Proof.
  intros Hok Hsmall Hfuel.
  destruct (map_shard hashKey M k Hok) as (Hpos & sh & Hsh & Hidx).
  destruct (shard_wf hashKey M _ sh Hok Hsh) as (Hwf & Hsafe & Hlen).
  pose proof Hwf as [Hoksh _].
  pose proof (Forall_lookup_1 _ _ _ _ Hsmall Hsh) as Hsm. cbv beta in Hsm.
  pose proof (hash_of_range hashKey hashKey_range k) as Hh.
  destruct (SetWithHash_spec fuel sh (hash_of k) k v)
    as (sh1 & prev & replaced & Hrun & Hwf1 & _ & Hcase & Hput & Hl & Hs1);
    try assumption; try lia.
  specialize (Hs1 Hsafe).
  exists (if f prev replaced
          then withMaps M (<[shard_of M k := sh1]> (maps M))
          else if replaced
          then match SetWithHash fuel sh1 (hash_of k) k prev with
               | Ret r => withMaps M (<[shard_of M k := r.1]> (maps M))
               | _ => M
               end
          else match DeleteWithHash fuel sh1 (hash_of k) k with
               | Ret r => withMaps M (<[shard_of M k := r.1]> (maps M))
               | _ => M
               end), prev, replaced.
  split.
  { destruct replaced.
    - apply (has_shard hashKey M sh); [exact Hsh | apply Hcase].
    - destruct Hcase as (Hp & Habs & _). split; [exact Hp|].
      intros v0 Hh0. apply (Habs v0).
      apply (has_shard hashKey M sh); assumption. }
  rewrite (SetAccept_on_shard fuel M k v f sh sh1 prev replaced Hidx Hrun).
  destruct (f prev replaced).
  - (* accepted *)
    split; [reflexivity|].
    destruct (update_put hashKey M sh sh1 k v) as [Hok' Hhas]; try assumption.
    split; [exact Hok'|]. split; [exact Hhas|].
    rewrite (MapLen_insert M _ sh sh1 Hsh).
    destruct replaced; [destruct Hcase as [_ ->]
                       | destruct Hcase as (_ & _ & ->)]; lia.
  - destruct replaced.
    + (* rejected: the previous value is set again *)
      destruct Hcase as [Hst Hcnt].
      destruct (SetWithHash_spec fuel sh1 (hash_of k) k prev)
        as (sh2 & prev2 & replaced2 & Hrun2 & Hwf2 & _ & Hcase2 & Hput2 & _ & Hs2);
        try assumption; try lia.
      rewrite Hrun2. cbn [mbind result_bind fst].
      split; [reflexivity|].
      destruct (update_same hashKey M sh sh2 k) as [Hok' Hhas];
        try assumption; [apply Hs2; exact Hs1 | |].
      { exact (put_then_put sh sh1 sh2 _ k v prev Hoksh Hput Hst Hput2). }
      split; [exact Hok'|]. split; [exact Hhas|].
      rewrite (MapLen_insert M _ sh sh2 Hsh).
      destruct replaced2.
      * destruct Hcase2 as [_ ->]. lia.
      * exfalso. destruct Hcase2 as (_ & Habs & _).
        apply (Habs v). apply Hput. auto.
    + (* rejected: the new entry is deleted *)
      destruct Hcase as (Hp & Habs & Hcnt).
      destruct (DeleteWithHash_spec fuel sh1 (hash_of k) k)
        as (sh2 & prev2 & deleted2 & Hrun2 & Hok2 & _ & Hcase2 & Hdel2 & _ & Hs2);
        try assumption.
      { destruct Hwf1 as [Hok1 _]. pose proof (ok_size sh1 Hok1). lia. }
      destruct (Hs2 Hs1) as [Hwf2 Hsafe2].
      rewrite Hrun2. cbn [mbind result_bind fst].
      split; [reflexivity|].
      destruct (update_same hashKey M sh sh2 k) as [Hok' Hhas];
        try assumption.
      { exact (put_then_del sh sh1 sh2 _ k v Hput Habs Hdel2). }
      split; [exact Hok'|]. split; [exact Hhas|].
      rewrite (MapLen_insert M _ sh sh2 Hsh).
      destruct deleted2.
      * destruct Hcase2 as [_ ->]. lia.
      * exfalso. destruct Hcase2 as (_ & Habs2 & _).
        apply (Habs2 v). apply Hput. auto.
Qed.

(** [DeleteAccept] shows [accept] what [Delete] would return, commits if
    [accept] returns [true], and otherwise leaves the map holding what it
    held. *)
Lemma DeleteAccept_step (fuel : nat) M (k : K) (f : V -> bool -> bool) :
  map_ok hashKey M -> shards_within (2 ^ 14) M -> 2 ^ 16 <= Z.of_nat fuel ->
  exists M' (prev : V) (deleted : bool),
    (if deleted then has hashKey M k prev
     else prev = zeroV /\ forall v0, ~ has hashKey M k v0) /\
    DeleteAccept hashKey fuel M k (Some f)
    = Ret (M', if f prev deleted then (prev, deleted) else (zeroV, false)) /\
    map_ok hashKey M' /\
    (forall k' v',
       has hashKey M' k' v' <->
       if f prev deleted then k' <> k /\ has hashKey M k' v'
       else has hashKey M k' v') /\
    MapLen M'
    = MapLen M - (if f prev deleted then if deleted then 1 else 0 else 0).
Proof.
  intros Hok Hsmall Hfuel.
  destruct (map_shard hashKey M k Hok) as (Hpos & sh & Hsh & Hidx).
  destruct (shard_wf hashKey M _ sh Hok Hsh) as (Hwf & Hsafe & Hlen).
  pose proof Hwf as [Hoksh _].
  pose proof (Forall_lookup_1 _ _ _ _ Hsmall Hsh) as Hsm. cbv beta in Hsm.
  pose proof (hash_of_range hashKey hashKey_range k) as Hh.
  destruct (DeleteWithHash_spec fuel sh (hash_of k) k)
    as (sh1 & prev & deleted & Hrun & Hok1 & _ & Hcase & Hdel & Hl & Hs1);
    try assumption; try lia.
  destruct (Hs1 Hsafe) as [Hwf1 Hsafe1].
  exists (if f prev deleted
          then withMaps M (<[shard_of M k := sh1]> (maps M))
          else if deleted
          then match SetWithHash fuel sh1 (hash_of k) k prev with
               | Ret r => withMaps M (<[shard_of M k := r.1]> (maps M))
               | _ => M
               end
          else withMaps M (<[shard_of M k := sh1]> (maps M))), prev, deleted.
  split.
  { destruct deleted.
    - apply (has_shard hashKey M sh); [exact Hsh | apply Hcase].
    - destruct Hcase as (Hp & Habs & _). split; [exact Hp|].
      intros v0 Hh0. apply (Habs v0).
      apply (has_shard hashKey M sh); assumption. }
  rewrite (DeleteAccept_on_shard fuel M k f sh sh1 prev deleted Hidx Hrun).
  destruct (f prev deleted).
  - split; [reflexivity|].
    destruct (update_del hashKey M sh sh1 k) as [Hok' Hhas]; try assumption.
    split; [exact Hok'|]. split; [exact Hhas|].
    rewrite (MapLen_insert M _ sh sh1 Hsh).
    destruct deleted; [destruct Hcase as [_ ->]
                      | destruct Hcase as (_ & _ & ->)]; lia.
  - destruct deleted.
    + (* rejected: the deleted value is set again *)
      destruct Hcase as [Hst Hcnt].
      destruct (SetWithHash_spec fuel sh1 (hash_of k) k prev)
        as (sh2 & prev2 & replaced2 & Hrun2 & Hwf2 & _ & Hcase2 & Hput2 & _ & Hs2);
        try assumption; try lia.
      rewrite Hrun2. cbn [mbind result_bind fst].
      split; [reflexivity|].
      destruct (update_same hashKey M sh sh2 k) as [Hok' Hhas];
        try assumption; [apply Hs2; exact Hsafe1 | |].
      { exact (del_then_put sh sh1 sh2 _ k prev Hoksh Hdel Hst Hput2). }
      split; [exact Hok'|]. split; [exact Hhas|].
      rewrite (MapLen_insert M _ sh sh2 Hsh).
      destruct replaced2.
      * exfalso. destruct Hcase2 as [Hst2 _].
        apply Hdel in Hst2 as [Hn _]. auto.
      * destruct Hcase2 as (_ & _ & ->). lia.
    + destruct Hcase as (Hp & Habs & ->).
      split; [reflexivity|].
      rewrite withMaps_same by exact Hsh.
      split; [exact Hok|]. split; [reflexivity|]. lia.
Qed.

End MapAccept.

(** ** A new map, and sequences of calls on it *)

Section MapRuns.
Context {K V : Type} `{EqDecision K} `{Zero K} `{Zero V}.
Variable hashKey : K -> Z.
Hypothesis hashKey_range : forall k, 0 <= hashKey k < 2 ^ 64.
Implicit Types (M : Map K V) (sh : mapShard K V) (ops : list (map_op K V)).

Local Notation "'shard_of' M k" := (Z.to_nat (choose hashKey M k).1)
  (at level 10, M at level 9, k at level 9).
Local Notation "'hash_of' k" := (Z.shiftr (hashKey k) 16) (at level 10).

Lemma New_shards (numCPU cap_ : Z) (s : nat) sh :
  maps (New K V numCPU cap_) !! s = Some sh ->
  sh = newShard K V (Z.quot cap_ (shards (New K V numCPU cap_))).
Proof.
  unfold New, Init. cbn [maps shards]. intros Hs.
  apply lookup_replicate in Hs as [-> _]. reflexivity.
Qed.

Lemma New_has_nothing (numCPU cap_ : Z) (k : K) (v : V) :
  ~ has hashKey (New K V numCPU cap_) k v.
Proof.
  intros (sh & Hsh & Hst). apply New_shards in Hsh. subst sh.
  exact (newShard_no_entries _ _ _ _ Hst).
Qed.

Lemma New_ok (numCPU cap_ : Z) :
  safe_cap (Z.quot cap_ (shards (New K V numCPU cap_))) ->
  map_ok hashKey (New K V numCPU cap_) /\
  shards_sized (2 ^ 14) 0 (New K V numCPU cap_).
Proof.
  intros Hc.
  destruct (newShard_safe (K:=K) (V:=V) _ Hc) as (Hwf & Hsafe & Hlen).
  split; [split|].
  - destruct (Init_shards (K:=K) (V:=V) numCPU cap_) as (j & Hj & Es & Em & El).
    exists j. auto.
  - intros s sh Hs. apply New_shards in Hs. subst sh.
    split; [exact Hwf|]. split; [exact Hsafe|].
    intros h k v Hst. exfalso. exact (newShard_no_entries _ _ _ _ Hst).
  - apply Forall_lookup. intros s sh Hs.
    apply New_shards in Hs. subst sh.
    split; [reflexivity|]. lia.
Qed.

Lemma New_within (numCPU cap_ n : Z) :
  Z.quot cap_ (shards (New K V numCPU cap_)) <= 8 -> 8 <= n ->
  shards_within n (New K V numCPU cap_).
Proof.
  intros Hc Hn. apply Forall_lookup. intros s sh Hs.
  apply New_shards in Hs. subst sh. cbv beta.
  rewrite newShard_len_min by exact Hc. exact Hn.
Qed.

Lemma shards_sized_within (L T : Z) M :
  shards_sized L T M -> L <= 2 ^ 14 -> 4 * T <= 2 ^ 14 ->
  shards_within (2 ^ 14) M.
Proof.
  intros Hs HL HT. apply Forall_lookup. intros s sh Hsh.
  pose proof (Forall_lookup_1 _ _ _ _ Hs Hsh) as [_ Hl]. cbv beta in Hl. lia.
Qed.

Lemma shards_sized_update (L T : Z) M (s : nat) sh' :
  shards_sized L T M -> 0 <= T ->
  count sh' <= T + 1 -> len (buckets sh') <= Z.max L (4 * (T + 1)) ->
  shards_sized L (T + 1) (withMaps M (<[s := sh']> (maps M))).
Proof.
  intros Hs HT Hc Hl. unfold shards_sized. cbn [withMaps maps].
  apply Forall_insert; [|auto].
  apply Forall_lookup. intros s0 sh Hsh.
  pose proof (Forall_lookup_1 _ _ _ _ Hs Hsh) as [H1 H2].
  cbv beta in H1, H2. lia.
Qed.

Lemma apply_map_op_safe (fuel : nat) M (op : map_op K V) (L T : Z)
    (st : K -> option V) :
  map_ok hashKey M -> shards_sized L T M ->
  L <= 2 ^ 14 -> 0 <= T < 2 ^ 12 -> 2 ^ 16 <= Z.of_nat fuel ->
  (forall k v, has hashKey M k v <-> st k = Some v) ->
  exists M',
    apply_map_op hashKey fuel M op = Ret M' /\
    map_ok hashKey M' /\ shards_sized L (T + 1) M' /\
    forall k v, has hashKey M' k v <-> after_map_op k (st k) op = Some v.
Proof.
  intros Hok Hsized HL HT Hfuel Hst.
  pose proof (shards_sized_within L T M Hsized HL ltac:(lia)) as Hsmall.
  destruct op as [k v | k]; cbn [apply_map_op after_map_op].
  - destruct (Set_shard hashKey hashKey_range fuel M k v Hok ltac:(lia))
      as (sh & sh' & prev & replaced & Hsh & Hrun & Hwf' & Hsafe' & Hcase
          & Hput & Hl).
    { intros sh Hsh. exact (Forall_lookup_1 _ _ _ _ Hsmall Hsh). }
    destruct (update_put hashKey M sh sh' k v) as [Hok' Hhas]; try assumption.
    rewrite Hrun. cbn [mbind result_bind fst].
    eexists. split; [reflexivity|]. split; [exact Hok'|].
    pose proof (Forall_lookup_1 _ _ _ _ Hsized Hsh) as [Hc0 Hl0].
    cbv beta in Hc0, Hl0.
    destruct (shard_wf hashKey M _ sh Hok Hsh) as ([Hoksh _] & _ & _).
    pose proof (ok_size sh Hoksh) as Hsize.
    pose proof (ok_thresholds sh Hoksh) as [Hg _].
    split.
    { apply shards_sized_update; try assumption; try lia.
      - destruct replaced; [destruct Hcase as [_ ?]
                           | destruct Hcase as (_ & _ & ?)]; lia.
      - destruct Hl as [->|[-> Hgrow]]; [lia|].
        rewrite Hg in Hgrow.
        assert (len (buckets sh) <= 2 * (len (buckets sh) * 85 / 100)); [|lia].
        pose proof (Z.mul_succ_div_gt (len (buckets sh) * 85) 100 ltac:(lia)).
        lia. }
    intros k' v'. rewrite (Hhas k' v'), (Hst k' v').
    destruct (decide (k = k')) as [->|Hne].
    + split; [intros [[_ ->]|[Hn _]]; [reflexivity | contradiction]|].
      intros E. inversion E. auto.
    + split; [intros [[-> _]|[_ E]]; [contradiction | exact E]|].
      intros E. right. split; [congruence | exact E].
  - destruct (Delete_shard hashKey fuel M k Hok Hfuel)
      as (sh & sh' & prev & deleted & Hsh & Hrun & Hwf' & Hsafe' & Hcase
          & Hdel & Hl).
    destruct (update_del hashKey M sh sh' k) as [Hok' Hhas]; try assumption.
    rewrite Hrun. cbn [mbind result_bind fst].
    eexists. split; [reflexivity|]. split; [exact Hok'|].
    pose proof (Forall_lookup_1 _ _ _ _ Hsized Hsh) as [Hc0 Hl0].
    cbv beta in Hc0, Hl0.
    split.
    { apply shards_sized_update; try assumption; try lia.
      destruct deleted; [destruct Hcase as [_ ?]
                        | destruct Hcase as (_ & _ & ->)]; lia. }
    intros k' v'. rewrite (Hhas k' v'), (Hst k' v').
    destruct (decide (k = k')) as [->|Hne].
    + split; [intros [Hn _]; contradiction | discriminate].
    + split; [intros [_ E]; exact E|].
      intros E. split; [congruence | exact E].
Qed.

Lemma run_map_ops_safe (fuel : nat) ops : forall M (L T : Z)
    (st : K -> option V),
  map_ok hashKey M -> shards_sized L T M ->
  L <= 2 ^ 14 -> 0 <= T -> T + len ops <= 2 ^ 12 ->
  2 ^ 16 <= Z.of_nat fuel ->
  (forall k v, has hashKey M k v <-> st k = Some v) ->
  exists M',
    run_map_ops hashKey fuel ops M = Ret M' /\ map_ok hashKey M' /\
    shards_sized L (T + len ops) M' /\
    forall k v, has hashKey M' k v <-> foldl (after_map_op k) (st k) ops = Some v.
Proof.
  induction ops as [|op ops IH]; intros M L T st Hok Hsized HL HT0 HT Hfuel Hst;
    cbn [run_map_ops foldl].
  - exists M. split; [reflexivity|]. split; [exact Hok|].
    split; [|exact Hst]. change (len (@nil (map_op K V))) with 0.
    rewrite Z.add_0_r. exact Hsized.
  - rewrite len_cons in HT |- *. pose proof (len_nonneg ops) as Hlo.
    destruct (apply_map_op_safe fuel M op L T st)
      as (M1 & Hrun & Hok1 & Hsized1 & Hst1); try assumption; try lia.
    rewrite Hrun. cbn [mbind result_bind].
    destruct (IH M1 L (T + 1) (fun k => after_map_op k (st k) op))
      as (M' & Hrun' & Hok' & Hsized' & Hst'); try assumption; try lia.
    exists M'. split; [exact Hrun'|]. split; [exact Hok'|].
    split; [|exact Hst'].
    replace (T + (len ops + 1)) with (T + 1 + len ops) by lia. exact Hsized'.
Qed.

(** Calls change the shards and nothing else of the map. *)
Lemma run_map_ops_frame (fuel : nat) ops : forall M M',
  run_map_ops hashKey fuel ops M = Ret M' ->
  mcap M' = mcap M /\ shards M' = shards M /\ shardIDMax M' = shardIDMax M /\
  length (maps M') = length (maps M).
Proof.
  induction ops as [|op ops IH]; intros M M' Hrun; cbn [run_map_ops] in Hrun.
  - inversion Hrun; subst. auto.
  - apply bind_Ret_inv in Hrun as (M1 & Hop & Hrun).
    apply IH in Hrun as (E1 & E2 & E3 & E4).
    assert (mcap M1 = mcap M /\ shards M1 = shards M /\
            shardIDMax M1 = shardIDMax M /\
            length (maps M1) = length (maps M)) as (F1 & F2 & F3 & F4).
    { destruct op as [k v | k]; cbn [apply_map_op] in Hop;
        apply bind_Ret_inv in Hop as ([M2 r] & Hcall & Hret);
        inversion Hret; subst; cbn [fst];
        [unfold Set_ in Hcall | unfold Delete in Hcall];
        destruct (choose hashKey M k) as [shard shardKey];
        unfold onShard in Hcall;
        apply bind_Ret_inv in Hcall as (sh & _ & Hcall);
        apply bind_Ret_inv in Hcall as (r' & _ & Hcall);
        inversion Hcall; subst; cbn [withMaps mcap shards shardIDMax maps];
        rewrite length_insert; auto. }
    split; [congruence|]. split; [congruence|]. split; congruence.
Qed.

End MapRuns.

(** * Iteration *)

Section Iteration.
Context {K V : Type} `{EqDecision K} `{Zero K} `{Zero V}.
Implicit Types (M : Map K V) (sh : mapShard K V) (b : entry K V)
  (bs : list (entry K V)).

Lemma items_nil : items (@nil (entry K V)) = [].
Proof. reflexivity. Qed.

Lemma items_cons b bs :
  items (b :: bs)
  = if dib b >? 0 then (key b, value b) :: items bs else items bs.
Proof.
  unfold items. rewrite filter_cons. pose proof (dib_range b) as Hd.
  destruct (Z.gtb_spec (dib b) 0); destruct (decide (dib b <> 0));
    try lia; reflexivity.
Qed.

Lemma visit_app {St : Type} (l1 l2 : list (K * V))
    (iter : K -> V -> St -> St * bool) (s : St) :
  visit (l1 ++ l2) iter s
  = if (visit l1 iter s).2 then visit l1 iter s
    else visit l2 iter (visit l1 iter s).1.
Proof.
  revert s. induction l1 as [|[k v] l1 IH]; intros s; cbn [app visit].
  - reflexivity.
  - destruct (iter k v s) as [s' c]. destruct c; [apply IH | reflexivity].
Qed.

(** [Scan] is a left fold over the occupied buckets that stops when the
    callback returns [false]. *)
Lemma scan_loop_visit {St : Type} bs (iter : K -> V -> St -> St * bool) (s : St) :
  scan_loop bs iter s = (visit (items bs) iter s).1.
Proof.
  revert s. induction bs as [|b bs IH]; intros s; [reflexivity|].
  cbn [scan_loop]. rewrite items_cons. destruct (dib b >? 0); [|apply IH].
  cbn [visit]. destruct (iter (key b) (value b) s) as [s' c].
  destruct c; cbn [negb]; [apply IH | reflexivity].
Qed.

(** With the closure of [Range], the scan also records whether it was
    stopped. *)
Lemma scan_loop_range_iter {St : Type} bs (iter : K -> V -> St -> St * bool)
    (s : St) (done : bool) :
  scan_loop bs (range_iter iter) (s, done)
  = ((visit (items bs) iter s).1, done || (visit (items bs) iter s).2).
Proof.
  revert s. induction bs as [|b bs IH]; intros s.
  - cbn [scan_loop items visit]. rewrite items_nil. cbn [visit fst snd].
    rewrite orb_false_r. reflexivity.
  - cbn [scan_loop]. rewrite items_cons. destruct (dib b >? 0); [|apply IH].
    cbn [visit range_iter]. destruct (iter (key b) (value b) s) as [s' c].
    destruct c; cbn [negb fst snd]; [apply IH|].
    rewrite orb_true_r. reflexivity.
Qed.

Lemma range_loop_visit {St : Type} (n : nat) M
    (iter : K -> V -> St -> St * bool) : forall (i : nat) (s : St),
  (i + n <= length (maps M))%nat ->
  range_loop n M (Z.of_nat i) iter (s, false)
  = Ret (visit (concat (map (fun sh => items (buckets sh))
                            (take n (drop i (maps M))))) iter s).1.
Proof.
  induction n as [|n IH]; intros i s Hi; cbn [range_loop].
  - cbn [take map concat visit fst]. reflexivity.
  - destruct (lookup_lt_is_Some_2 (maps M) i) as [sh Hsh]; [lia|].
    unfold index. rewrite Nat2Z.id, Hsh. cbn [mbind result_bind].
    rewrite (drop_S _ _ _ Hsh). cbn [take map concat].
    unfold Scan. rewrite scan_loop_range_iter, visit_app. cbn [fst snd orb].
    destruct (visit (items (buckets sh)) iter s) as [s1 stopped] eqn:Ev.
    cbn [fst snd]. destruct stopped; [reflexivity|].
    replace (Z.of_nat i + 1) with (Z.of_nat (S i)) by lia.
    apply IH. lia.
Qed.

(** [Range] is the same fold over the shards one after the other: once the
    callback has returned [false] no other entry is visited, in this shard
    or in a later one. *)
Lemma Range_visit {St : Type} M (iter : K -> V -> St -> St * bool) (s : St) :
  Z.to_nat (shards M) = length (maps M) ->
  Range M iter s = Ret (visit (map_items M) iter s).1.
Proof.
  intros Hn. unfold Range. rewrite (range_loop_visit _ M iter O s) by lia.
  rewrite drop_0, Hn, take_ge by lia. reflexivity.
Qed.

Lemma keys_loop_items bs (acc : list K) :
  keys_loop bs acc = acc ++ (items bs).*1.
Proof.
  revert acc. induction bs as [|b bs IH]; intros acc; cbn [keys_loop].
  - rewrite items_nil. cbn [fmap list_fmap]. rewrite app_nil_r. reflexivity.
  - rewrite IH, items_cons. destruct (dib b >? 0); [|reflexivity].
    cbn [fmap list_fmap fst]. rewrite <- app_assoc. reflexivity.
Qed.

Lemma values_loop_items bs (acc : list V) :
  values_loop bs acc = acc ++ (items bs).*2.
Proof.
  revert acc. induction bs as [|b bs IH]; intros acc; cbn [values_loop].
  - rewrite items_nil. cbn [fmap list_fmap]. rewrite app_nil_r. reflexivity.
  - rewrite IH, items_cons. destruct (dib b >? 0); [|reflexivity].
    cbn [fmap list_fmap snd]. rewrite <- app_assoc. reflexivity.
Qed.

Lemma len_items bs : len (items bs) = occupied bs.
Proof. unfold items, occupied, len. rewrite length_map. reflexivity. Qed.

Lemma elem_of_items bs (k : K) (v : V) :
  (k, v) ∈ items bs <-> exists h, among bs h k v.
Proof.
  unfold items. rewrite list_elem_of_fmap. split.
  - intros (b & E & Hb). apply list_elem_of_filter in Hb as [Hd Hb].
    inversion E; subst. exists (hash b), b. split; [exact Hb|].
    split; [exact Hd|]. split; [split|]; reflexivity.
  - intros (h & b & Hb & Hd & [_ Ek] & Ev). exists b.
    split; [congruence|]. apply list_elem_of_filter. auto.
Qed.

End Iteration.

(** ** The entries of a well-formed map *)

Section MapItems.
Context {K V : Type} `{EqDecision K} `{Zero K} `{Zero V}.
Variable hashKey : K -> Z.
Implicit Types (M : Map K V) (sh : mapShard K V) (b : entry K V)
  (bs : list (entry K V)).

Local Notation "'shard_of' M k" := (Z.to_nat (choose hashKey M k).1)
  (at level 10, M at level 9, k at level 9).
Local Notation "'hash_of' k" := (Z.shiftr (hashKey k) 16) (at level 10).

Lemma elem_of_items_stored sh (k : K) (v : V) :
  (k, v) ∈ items (buckets sh) <-> exists h, stored sh h k v.
Proof.
  rewrite elem_of_items. unfold stored.
  split; intros [h Hh]; exists h; apply holds_among; exact Hh.
Qed.

(** Where the hash is a function of the key, the keys of distinct entries
    differ. *)
Lemma items_NoDup bs (hf : K -> Z) :
  distinct bs ->
  (forall b, b ∈ bs -> dib b <> 0 -> hash b = hf (key b)) ->
  NoDup (items bs).*1.
Proof.
  induction bs as [|b bs IH]; intros Hdis Hhash.
  - rewrite items_nil. constructor.
  - destruct Hdis as (_ & Hfresh & Hdis).
    assert (NoDup (items bs).*1) as Hnd.
    { apply IH; [exact Hdis|]. intros b' Hb'. apply Hhash.
      apply list_elem_of_further. exact Hb'. }
    rewrite items_cons. pose proof (dib_range b) as Hd.
    destruct (Z.gtb_spec (dib b) 0) as [Hpos|_]; [|exact Hnd].
    cbn [fmap list_fmap fst]. constructor; [|exact Hnd].
    intros Hin. apply list_elem_of_fmap in Hin as ([k v] & Ek & Hin).
    cbn [fst] in Ek. subst k.
    apply elem_of_items in Hin as (h & b' & Hb' & Hd' & [Eh Ek] & Ev).
    apply (Hfresh ltac:(lia) v). exists b'. split; [exact Hb'|].
    split; [exact Hd'|]. split; [split|]; [|exact Ek | exact Ev].
    rewrite (Hhash b' (list_elem_of_further _ _ _ Hb') Hd').
    rewrite (Hhash b (list_elem_of_here _ _)) by lia. congruence.
Qed.

Lemma shard_items_NoDup M (s : nat) sh :
  map_wf hashKey M -> maps M !! s = Some sh ->
  NoDup (items (buckets sh)).*1.
Proof.
  intros [_ Hall] Hs. destruct (Hall s sh Hs) as ([Hok _] & Hroutes).
  apply (items_NoDup _ (fun k => hash_of k)).
  - apply layout_distinct; [apply ok_words | apply ok_keys]; exact Hok.
  - intros b Hb Hd.
    assert (stored sh (hash b) (key b) (value b)) as Hst.
    { apply holds_among. exists b. split; [exact Hb|].
      split; [exact Hd|]. split; [split|]; reflexivity. }
    apply Hroutes in Hst. inversion Hst. reflexivity.
Qed.

Lemma elem_of_concat_items (shs : list (mapShard K V)) (k : K) (v : V) :
  (k, v) ∈ concat (map (fun sh => items (buckets sh)) shs) <->
  exists (s : nat) sh, shs !! s = Some sh /\ (k, v) ∈ items (buckets sh).
Proof.
  induction shs as [|sh0 shs IH]; cbn [map concat].
  - split; [intros Hin; inversion Hin | intros (s & sh & Hs & _); discriminate].
  - rewrite elem_of_app, IH. split.
    + intros [Hin | (s & sh & Hs & Hin)].
      * exists O, sh0. auto.
      * exists (S s), sh. auto.
    + intros (s & sh & Hs & Hin). destruct s as [|s].
      * inversion Hs; subst. auto.
      * right. exists s, sh. auto.
Qed.

Lemma concat_items_NoDup (shs : list (mapShard K V)) :
  (forall s sh, shs !! s = Some sh -> NoDup (items (buckets sh)).*1) ->
  (forall (s s' : nat) sh sh' k v v',
     shs !! s = Some sh -> shs !! s' = Some sh' ->
     (k, v) ∈ items (buckets sh) -> (k, v') ∈ items (buckets sh') -> s = s') ->
  NoDup (concat (map (fun sh => items (buckets sh)) shs)).*1.
Proof.
  induction shs as [|sh0 shs IH]; intros Hnd Hsep; cbn [map concat].
  - constructor.
  - rewrite fmap_app. apply list.NoDup_app. split; [|split].
    + apply (Hnd O sh0). reflexivity.
    + intros k Hin Hin'.
      apply list_elem_of_fmap in Hin as ([k1 v] & E & Hin).
      apply list_elem_of_fmap in Hin' as ([k2 v'] & E' & Hin').
      cbn [fst] in E, E'. subst k1 k2.
      apply elem_of_concat_items in Hin' as (s & sh & Hs & Hin').
      assert (O = S s) as Habs; [|discriminate].
      apply (Hsep O (S s) sh0 sh k v v'); auto.
    + apply IH.
      * intros s sh Hs. apply (Hnd (S s) sh). exact Hs.
      * intros s s' sh sh' k v v' Hs Hs' Hin Hin'.
        assert (S s = S s') as E; [|congruence].
        apply (Hsep (S s) (S s') sh sh' k v v'); auto.
Qed.

Lemma foldl_count_items (shs : list (mapShard K V)) (a : Z) :
  (forall s sh, shs !! s = Some sh -> count sh = occupied (buckets sh)) ->
  foldl (fun acc sh => acc + Len sh) a shs
  = a + len (concat (map (fun sh => items (buckets sh)) shs)).
Proof.
  revert a. induction shs as [|sh0 shs IH]; intros a Hcnt; cbn [foldl map concat].
  - change (len (@nil (K * V))) with 0. lia.
  - rewrite IH by (intros s sh Hs; apply (Hcnt (S s) sh); exact Hs).
    unfold Len. rewrite (Hcnt O sh0 eq_refl), <- len_items.
    unfold len. rewrite length_app. lia.
Qed.

(** The entries of a well-formed map, shard by shard: each key once, those
    and only those that the map holds, as many as [Len] reports. *)
Lemma map_items_wf M :
  map_wf hashKey M ->
  NoDup (map_items M).*1 /\
  (forall k v, (k, v) ∈ map_items M <-> has hashKey M k v) /\
  MapLen M = len (map_items M).
Proof.
  intros Hok. pose proof Hok as [Hshape Hall].
  assert (forall s sh k v, maps M !! s = Some sh ->
            (k, v) ∈ items (buckets sh) ->
            shard_of M k = s /\ stored sh (hash_of k) k v) as Hroute.
  { intros s sh k v Hs Hin.
    apply elem_of_items_stored in Hin as [h Hst].
    destruct (Hall s sh Hs) as (_ & Hr).
    pose proof (Hr h k v Hst) as E.
    assert ((choose hashKey M k).1 = Z.of_nat s /\ h = hash_of k) as [E1 E2].
    { inversion E. split; reflexivity. }
    split; [rewrite E1; apply Nat2Z.id | rewrite <- E2; exact Hst]. }
  split; [|split].
  - unfold map_items. apply concat_items_NoDup.
    + intros s sh Hs. exact (shard_items_NoDup M s sh Hok Hs).
    + intros s s' sh sh' k v v' Hs Hs' Hin Hin'.
      destruct (Hroute s sh k v Hs Hin) as [E _].
      destruct (Hroute s' sh' k v' Hs' Hin') as [E' _]. congruence.
  - intros k v. unfold map_items. rewrite elem_of_concat_items. split.
    + intros (s & sh & Hs & Hin).
      destruct (Hroute s sh k v Hs Hin) as [E Hst].
      exists sh. rewrite E. auto.
    + intros (sh & Hs & Hst). exists (shard_of M k), sh.
      split; [exact Hs|]. apply elem_of_items_stored. eauto.
  - unfold MapLen, map_items. rewrite foldl_count_items; [lia|].
    intros s sh Hs. destruct (Hall s sh Hs) as ([Hoksh _] & _).
    apply (ok_count sh Hoksh).
Qed.

Lemma map_items_spec M :
  map_ok hashKey M ->
  NoDup (map_items M).*1 /\
  (forall k v, (k, v) ∈ map_items M <-> has hashKey M k v) /\
  MapLen M = len (map_items M).
Proof. intros Hok. apply map_items_wf, map_ok_wf, Hok. Qed.

End MapItems.

(** * The shard table: what a caller can rely on *)

Lemma makeHDIB_word (h d : Z) :
  makeHDIB h d = h mod 2 ^ 48 * 2 ^ 16 + d mod 2 ^ 16.
Proof.
  unfold makeHDIB, u64, dibBitSize.
  rewrite land_maxDIB, Z.shiftl_mul_pow2 by lia.
  change (2 ^ 64) with (2 ^ 48 * 2 ^ 16). rewrite Zmult_mod_distr_r.
  apply lor_shift_low; [lia|]. apply Z.mod_pos_bound. lia.
Qed.

Section ShardFacts.
Context {K V : Type} `{EqDecision K} `{Zero K} `{Zero V}.
Implicit Types (m : mapShard K V) (e b : entry K V).

Lemma word_fields (a b : Z) :
  0 <= b < 2 ^ 16 ->
  (a * 2 ^ 16 + b) mod 2 ^ 16 = b /\ (a * 2 ^ 16 + b) / 2 ^ 16 = a.
Proof.
  intros Hb. split.
  - rewrite Z.add_comm, Z.mod_add by lia. apply Z.mod_small. exact Hb.
  - rewrite Z.add_comm, Z.div_add by lia. rewrite Z.div_small by lia. lia.
Qed.

(** X1.  The packed word keeps its two fields apart.  [setDIB] stores the
    displacement reduced to 16 bits and leaves the hash, key and value;
    [setHash] stores the hash reduced to 48 bits and leaves the
    displacement; [makeHDIB] packs both the same way.  An overlong field
    value is cut, it never spills into the other field. *)
Theorem packed_fields_independent (e : entry K V) (h d : Z) (k : K) (v : V) :
  0 <= hdib e < 2 ^ 64 ->
  (dib (setDIB e d) = d mod 2 ^ 16 /\ hash (setDIB e d) = hash e /\
   key (setDIB e d) = key e /\ value (setDIB e d) = value e) /\
  (hash (setHash e h) = h mod 2 ^ 48 /\ dib (setHash e h) = dib e /\
   key (setHash e h) = key e /\ value (setHash e h) = value e) /\
  (hash (Entry (makeHDIB h d) k v) = h mod 2 ^ 48 /\
   dib (Entry (makeHDIB h d) k v) = d mod 2 ^ 16).
Proof.
  intros Hw.
  pose proof (Z.mod_pos_bound d (2 ^ 16) ltac:(lia)) as Hd.
  pose proof (dib_range e) as Hde.
  split; [|split].
  - rewrite dib_mod, hash_div, hdib_setDIB by exact Hw.
    destruct (word_fields (hash e) (d mod 2 ^ 16) Hd) as [E1 E2].
    rewrite E1, E2. auto.
  - assert (hdib (setHash e h) = makeHDIB h (hdib e)) as Ew by reflexivity.
    rewrite dib_mod, hash_div, Ew, makeHDIB_word, <- dib_mod.
    destruct (word_fields (h mod 2 ^ 48) (dib e) Hde) as [E1 E2].
    rewrite E1, E2. auto.
  - rewrite dib_mod, hash_div. cbn [hdib]. rewrite makeHDIB_word.
    destruct (word_fields (h mod 2 ^ 48) (d mod 2 ^ 16) Hd) as [E1 E2].
    rewrite E1, E2. auto.
Qed.

(** X2.  [newShard(cap)] allocates the smallest power of two that is at
    least 8 and at least [cap] (half of it would be below [cap]), with
    [mask] one less; it records [cap], has length 0, and every bucket is the
    zero entry, so it holds nothing. *)
Theorem newShard_smallest_power_of_two (c : Z) :
  c <= 2 ^ 62 ->
  (exists k, 3 <= k <= 62 /\ len (buckets (newShard K V c)) = 2 ^ k /\
             (k = 3 \/ 2 ^ (k - 1) < c)) /\
  c <= len (buckets (newShard K V c)) /\
  mask (newShard K V c) = len (buckets (newShard K V c)) - 1 /\
  cap (newShard K V c) = c /\ count (newShard K V c) = 0 /\
  Forall (fun b => b = zeroEntry K V) (buckets (newShard K V c)) /\
  forall h k, absent (newShard K V c) h k.
Proof.
  intros Hc.
  destruct (newShard_len (K:=K) (V:=V) c) as (k & Hk & E & Hlast).
  assert (k <= 62) as Hk62.
  { destruct Hlast as [->|Hlast]; [lia|].
    assert (k - 1 < 62) by (apply pow2_lt_inv; lia). lia. }
  split; [exists k; split; [lia|auto]|].
  split; [apply newShard_len_ge; exact Hc|].
  split.
  { destruct (newShard_shaped (K:=K) (V:=V) c Hc) as (k' & _ & E1 & E2).
    rewrite E2, E1. reflexivity. }
  split; [reflexivity|]. split; [reflexivity|]. split.
  - unfold newShard. cbn [buckets]. apply Forall_replicate. reflexivity.
  - intros h k0. apply newShard_no_entries.
Qed.

Lemma Get_same (fuel : nat) m m' (h : Z) (k : K) :
  table_wf m -> table_wf m' ->
  len (buckets m) <= Z.of_nat fuel -> len (buckets m') <= Z.of_nat fuel ->
  (forall v, stored m' h k v <-> stored m h k v) ->
  GetWithHash fuel m' h k = GetWithHash fuel m h k.
Proof.
  intros Hwf Hwf' Hf Hf' Hsame.
  destruct (stored_dec m h k) as [[v Hst]|Habs].
  - rewrite (GetWithHash_stored fuel m h k v) by (try apply Hwf; assumption).
    apply GetWithHash_stored; [apply Hwf' | exact Hf' | apply Hsame; exact Hst].
  - rewrite (GetWithHash_absent fuel m h k) by assumption.
    apply GetWithHash_absent; try assumption.
    intros v Hst. apply (Habs v). apply Hsame. exact Hst.
Qed.

(** The lookup reads the buckets and the mask only. *)
Lemma get_loop_reads (fuel : nat) : forall m m' (h : Z) (k : K) (i : Z),
  buckets m' = buckets m -> mask m' = mask m ->
  get_loop fuel m' h k i = get_loop fuel m h k i.
Proof.
  induction fuel as [|f IH]; intros m m' h k i Eb Em; [reflexivity|].
  cbn [get_loop]. rewrite Eb, Em.
  destruct (index (buckets m) i) as [b| |]; cbn [mbind result_bind];
    try reflexivity.
  destruct (dib b =? 0); [reflexivity|].
  destruct (bool_decide (hash b = h) && bool_decide (key b = k));
    [reflexivity|].
  apply IH; assumption.
Qed.

Lemma occupied_below (bs : list (entry K V)) :
  (exists z, 0 <= z < len bs /\ dib (slot bs z) = 0) -> occupied bs < len bs.
Proof.
  intros (z & Hz & Hd).
  pose proof (occupied_bounds (<[Z.to_nat z := Entry 1 zeroK zeroV]> bs)) as Hb.
  rewrite occupied_insert_slot, len_insert in Hb by exact Hz.
  destruct (decide (dib (slot bs z) <> 0)) as [?|_]; [contradiction|].
  destruct (decide (dib (Entry (K:=K) (V:=V) 1 zeroK zeroV) <> 0)) as [_|Hn];
    [lia|].
  exfalso. apply Hn. vm_compute. discriminate.
Qed.

(** X3.  On a table of 8 to 2^15 buckets, a power of two with the mask one
    less, that is in the Robin Hood layout (every packed word a 64-bit
    value, every occupied bucket [dib - 1] steps after the bucket its hash
    selects, the displacement growing by at most one from a bucket to the
    next, no hash and key in two occupied buckets) and has an empty bucket,
    whatever its length field, thresholds and capacity hint: [GetWithHash]
    returns within [len(buckets)] iterations; it returns [(v, true)] exactly
    when the table holds [v] under the hash and key, and [(zero, false)]
    exactly when it holds nothing under them.  On a shard without buckets
    it returns [(zero, false)] at once. *)
Theorem GetWithHash_finds_what_is_stored (fuel : nat) m (h : Z) (k : K) :
  shaped m -> 8 <= len (buckets m) <= 2 ^ 15 ->
  layout_ok (mask m) (buckets m) ->
  (exists z, 0 <= z < len (buckets m) /\ dib (slot (buckets m) z) = 0) ->
  len (buckets m) <= Z.of_nat fuel ->
  (exists r, GetWithHash fuel m h k = Ret r) /\
  (forall v, GetWithHash fuel m h k = Ret (v, true) <-> stored m h k v) /\
  (GetWithHash fuel m h k = Ret (zeroV, false) <-> absent m h k) /\
  GetWithHash O (zeroShard K V) h k = Ret (zeroV, false).
Proof.
  intros Hs Hsize Hlay Hempty Hfuel.
  set (m1 := MapShard (cap m) (occupied (buckets m))
               (len (buckets m) * 85 / 100) (len (buckets m) * 15 / 100)
               (mask m) (buckets m)).
  assert (table_wf m1) as Hwf.
  { split; [|apply occupied_below; exact Hempty].
    split; [exact Hs | exact Hsize | exact Hlay | reflexivity |].
    split; reflexivity. }
  assert (GetWithHash fuel m h k = GetWithHash fuel m1 h k) as Eg.
  { unfold GetWithHash. change (buckets m1) with (buckets m).
    change (mask m1) with (mask m).
    destruct (len (buckets m) =? 0); [reflexivity|].
    symmetry. apply get_loop_reads; reflexivity. }
  rewrite Eg. change (absent m h k) with (absent m1 h k).
  assert (forall v, stored m h k v <-> stored m1 h k v) as Est
    by (intros v; reflexivity).
  pose proof Hwf as [Hok _].
  split; [|split; [|split]].
  - destruct (stored_dec m1 h k) as [[v Hst]|Habs].
    + exists (v, true). apply GetWithHash_stored; assumption.
    + exists (zeroV, false). apply GetWithHash_absent; assumption.
  - intros v. rewrite Est. split.
    + intros Hget. exact (GetWithHash_sound fuel m1 h k v true Hget).
    + apply GetWithHash_stored; assumption.
  - split.
    + intros Hget v Hst.
      rewrite (GetWithHash_stored fuel m1 h k v Hok Hfuel Hst) in Hget.
      discriminate.
    + apply GetWithHash_absent; assumption.
  - reflexivity.
Qed.

(** X4.  On a well-formed table of at most 2^14 buckets that has an empty
    bucket, [SetWithHash] with a 48-bit hash returns; the table is
    well-formed again with an empty bucket and the same capacity hint.  If
    the table held a value under the hash and key, that value is returned
    with [true] and the length is unchanged; otherwise the zero value is
    returned with [false] and the length grows by one.  Afterwards the table
    holds the new value under the hash and key and is otherwise unchanged: a
    lookup of the hash and key returns the new value, and every other lookup
    returns what it returned before. *)
Theorem SetWithHash_stores (fuel : nat) m (h : Z) (k : K) (v : V) :
  table_wf m -> 0 <= h < 2 ^ 48 -> len (buckets m) <= 2 ^ 14 ->
  2 ^ 15 <= Z.of_nat fuel ->
  exists m' prev replaced,
    SetWithHash fuel m h k v = Ret (m', (prev, replaced)) /\
    table_wf m' /\ cap m' = cap m /\
    (if replaced then stored m h k prev /\ count m' = count m
     else prev = zeroV /\ absent m h k /\ count m' = count m + 1) /\
    entries_put m m' h k v /\
    GetWithHash fuel m' h k = Ret (v, true) /\
    forall h' k', ~ (h' = h /\ k' = k) ->
      GetWithHash fuel m' h' k' = GetWithHash fuel m h' k'.
Proof.
  intros Hwf Hh Hsmall Hfuel.
  destruct (SetWithHash_spec fuel m h k v)
    as (m' & prev & replaced & Hrun & Hwf' & Hcap & Hcase & Hput & Hl & _);
    try assumption; try lia.
  exists m', prev, replaced. split; [exact Hrun|]. split; [exact Hwf'|].
  split; [exact Hcap|]. split; [exact Hcase|]. split; [exact Hput|].
  pose proof Hwf' as [Hok' _]. pose proof (ok_size m' Hok') as Hsize'.
  split.
  - apply GetWithHash_stored; [exact Hok' | lia | apply Hput; auto].
  - intros h' k' Hne. apply Get_same; try assumption; try lia.
    intros v'. rewrite (Hput h' k' v'). split.
    + intros [(E1 & E2 & _) | [_ Hst]]; [exfalso; auto | exact Hst].
    + intros Hst. right. auto.
Qed.

(** X5.  On a well-formed table with an empty bucket, that is a table of 8
    to 2^15 buckets (a power of two, mask one less) in the Robin Hood
    layout whose length field is the number of occupied buckets and is
    below the number of buckets, and whose thresholds are the floors of 85%
    and 15% of the size: [DeleteWithHash] returns and leaves such a table,
    but possibly without an empty bucket, with the same capacity hint and
    no more buckets.  If the table held a value under the hash and key,
    that value is returned with [true], the entries behind it are shifted
    back and the length drops by one; otherwise the zero value is returned
    with [false] and the table is untouched.  Afterwards the table holds
    nothing under the hash and key and is otherwise unchanged.  If the
    table was at most as large as its capacity hint, or had 8 buckets, or
    held more than [shrinkAt] entries, the same is true afterwards and the
    table has an empty bucket: a lookup of the hash and key then returns
    [(zero, false)], and every other lookup returns what it returned
    before.  On a shard without buckets [DeleteWithHash] returns
    [(zero, false)] at once. *)
Theorem DeleteWithHash_removes (fuel : nat) m (h : Z) (k : K) :
  table_wf m -> 2 ^ 16 <= Z.of_nat fuel ->
  (exists m' prev deleted,
     DeleteWithHash fuel m h k = Ret (m', (prev, deleted)) /\
     table_ok m' /\ cap m' = cap m /\
     len (buckets m') <= len (buckets m) /\
     (if deleted then stored m h k prev /\ count m' = count m - 1
      else prev = zeroV /\ absent m h k /\ m' = m) /\
     entries_del m m' h k /\
     (shrink_safe m ->
      table_wf m' /\ shrink_safe m' /\
      GetWithHash fuel m' h k = Ret (zeroV, false) /\
      forall h' k', ~ (h' = h /\ k' = k) ->
        GetWithHash fuel m' h' k' = GetWithHash fuel m h' k')) /\
  DeleteWithHash O (zeroShard K V) h k = Ret (zeroShard K V, (zeroV, false)).
Proof.
  intros Hwf Hfuel. split; [|reflexivity].
  pose proof Hwf as [Hok _]. pose proof (ok_size m Hok) as Hsize.
  destruct (DeleteWithHash_spec fuel m h k)
    as (m' & prev & deleted & Hrun & Hok' & Hcap & Hcase & Hdel & Hl & Hs');
    try assumption; try lia.
  exists m', prev, deleted. split; [exact Hrun|]. split; [exact Hok'|].
  split; [exact Hcap|]. split; [exact Hl|]. split; [exact Hcase|].
  split; [exact Hdel|].
  intros Hsafe. destruct (Hs' Hsafe) as [Hwf' Hsafe'].
  split; [exact Hwf'|]. split; [exact Hsafe'|]. split.
  - apply GetWithHash_absent; [exact Hwf' | lia |].
    intros v Hst. apply Hdel in Hst as [Hn _]. auto.
  - intros h' k' Hne. apply Get_same; try assumption; try lia.
    intros v'. rewrite (Hdel h' k' v'). split; [intros [_ ?]; assumption|].
    intros Hst. auto.
Qed.

(** X6.  On a table of 8 to 2^15 buckets (a power of two, mask one less) in
    the Robin Hood layout whose length field is the number of occupied
    buckets and whose thresholds are the floors of 85% and 15% of the size:
    [resize] to a capacity of at most 2^15 for which [newShard] gives at
    least as many buckets as the table has entries returns such a table of
    the size that [newShard] gives, with the same capacity hint, the same
    length and the same entries: no entry is lost or duplicated.  If both
    tables have an empty bucket, every lookup returns what it returned
    before. *)
Theorem resize_keeps_every_entry (fuel : nat) m (c : Z) :
  table_ok m -> c <= 2 ^ 15 ->
  count m <= len (buckets (newShard K V c)) ->
  len (buckets (newShard K V c)) <= Z.of_nat fuel ->
  exists m',
    resize fuel m c = Ret m' /\ table_ok m' /\ cap m' = cap m /\
    len (buckets m') = len (buckets (newShard K V c)) /\
    count m' = count m /\
    (forall h k v, stored m' h k v <-> stored m h k v) /\
    (forall h k,
       count m < len (buckets (newShard K V c)) -> count m < len (buckets m) ->
       len (buckets m) <= Z.of_nat fuel ->
       GetWithHash fuel m' h k = GetWithHash fuel m h k).
Proof.
  intros Hok Hc Hroom Hfuel.
  destruct (resize_spec fuel m c Hok Hc Hroom Hfuel)
    as (m' & Hrun & Hok' & Hcap & El & Hcnt & Hsame).
  exists m'. split; [exact Hrun|]. split; [exact Hok'|].
  split; [exact Hcap|]. split; [exact El|]. split; [exact Hcnt|].
  split; [exact Hsame|].
  intros h k Hr1 Hr2 Hf. apply Get_same; try lia.
  - split; assumption.
  - split; [exact Hok' | lia].
  - intros v. apply Hsame.
Qed.

(** Calls on a table that [newShard] made for a capacity hint of at most 8
    or a power of two up to 2^14. *)
Lemma run_ops_fresh (fuel : nat) (c : Z) (ops : list (shard_op K V)) :
  safe_cap c -> len ops <= 2 ^ 12 ->
  Forall (fun op => 0 <= op_hash op < 2 ^ 48) ops ->
  2 ^ 16 <= Z.of_nat fuel ->
  exists m,
    run_ops fuel ops (newShard K V c) = Ret m /\
    table_wf m /\ shrink_safe m /\
    forall h k v, stored m h k v <-> after_ops ops h k = Some v.
Proof.
  intros Hc Hlen Hops Hfuel.
  destruct (newShard_safe (K:=K) (V:=V) c Hc) as (Hwf & Hsafe & Hl).
  destruct (run_ops_safe fuel ops (newShard K V c) (2 ^ 14) 0
              (fun _ _ => None))
    as (m & Hrun & Hwf' & Hsafe' & Hst); try assumption; try lia.
  { change (count (newShard K V c)) with 0. lia. }
  { intros h k v. split; [|discriminate].
    intros Hs. exfalso. exact (newShard_no_entries c h k v Hs). }
  exists m. auto.
Qed.

(** X7.  Tables made from a capacity hint of at most 8, or from a power of
    two up to 2^14, stay well-formed: every sequence of at most 4096
    [SetWithHash] and [DeleteWithHash] calls with 48-bit hashes on
    [newShard(cap)] returns, and leaves a table in the Robin Hood layout
    whose length field counts the occupied buckets and is below the number
    of buckets, which holds under every hash and key the value of the last
    [SetWithHash] for them that no [DeleteWithHash] followed. *)
Theorem safe_hint_tables_stay_well_formed (fuel : nat) (c : Z)
    (ops : list (shard_op K V)) :
  safe_cap c -> len ops <= 2 ^ 12 ->
  Forall (fun op => 0 <= op_hash op < 2 ^ 48) ops ->
  2 ^ 16 <= Z.of_nat fuel ->
  exists m,
    run_ops fuel ops (newShard K V c) = Ret m /\
    table_ok m /\ count m = occupied (buckets m) /\
    count m < len (buckets m) /\
    forall h k v, stored m h k v <-> after_ops ops h k = Some v.
Proof.
  intros Hc Hlen Hops Hfuel.
  destruct (newShard_safe (K:=K) (V:=V) c Hc) as (Hwf & Hsafe & Hl).
  destruct (run_ops_safe fuel ops (newShard K V c) (2 ^ 14) 0
              (fun _ _ => None))
    as (m & Hrun & Hwf' & _ & Hst); try assumption; try lia.
  { change (count (newShard K V c)) with 0. lia. }
  { intros h k v. split; [|discriminate].
    intros Hs. exfalso. exact (newShard_no_entries c h k v Hs). }
  exists m. split; [exact Hrun|]. destruct Hwf' as [Hok Hroom].
  split; [exact Hok|]. split; [apply (ok_count m Hok)|].
  split; [exact Hroom|]. exact Hst.
Qed.

(** X8.  [Keys], [Values] and [Scan] go through the same entries in the same
    order: on a shard whose length field is between 0 and the number of
    buckets, [Keys] and [Values] return lists of equal length, one element
    per occupied bucket,
    whose pairs are the keys and values of the occupied buckets in bucket
    order, and [Scan] calls the callback on exactly those pairs, in that
    order, up to and including the first call that returns [false].  With a
    negative length field the allocation in [Keys] and [Values] panics. *)
Theorem Keys_Values_Scan_agree m :
  0 <= count m <= len (buckets m) ->
  (exists ks vs,
     Keys m = Ret ks /\ Values m = Ret vs /\
     length ks = length vs /\ len ks = occupied (buckets m) /\
     zip ks vs = items (buckets m) /\
     forall (St : Type) (iter : K -> V -> St -> St * bool) (s : St),
       Scan m iter s = (visit (zip ks vs) iter s).1) /\
  (forall m0 : mapShard K V,
     count m0 < 0 -> Keys m0 = Panic /\ Values m0 = Panic).
Proof.
  intros Hc. split.
  - exists (items (buckets m)).*1, (items (buckets m)).*2.
    unfold Keys, Values.
    destruct (Z.ltb_spec (count m) 0) as [?|_]; [lia|].
    rewrite keys_loop_items, values_loop_items. cbn [app].
    split; [reflexivity|]. split; [reflexivity|].
    split; [rewrite !length_fmap; reflexivity|].
    split; [unfold len; rewrite length_fmap; apply len_items|].
    rewrite zip_fst_snd. split; [reflexivity|].
    intros St iter s. apply scan_loop_visit.
  - intros m0 Hneg. unfold Keys, Values.
    destruct (Z.ltb_spec (count m0) 0) as [_|?]; [auto | lia].
Qed.

End ShardFacts.

(** * The map: what a caller can rely on *)

Section MapFacts.
Context {K V : Type} `{EqDecision K} `{Zero K} `{Zero V}.
Variable hashKey : K -> Z.
Hypothesis hashKey_range : forall k, 0 <= hashKey k < 2 ^ 64.
Implicit Types (M : Map K V) (sh : mapShard K V) (ops : list (map_op K V)).

Local Notation "'shard_of' M k" := (Z.to_nat (choose hashKey M k).1)
  (at level 10, M at level 9, k at level 9).
Local Notation "'hash_of' k" := (Z.shiftr (hashKey k) 16) (at level 10).

Lemma has_dec M (k : K) :
  map_ok hashKey M ->
  (exists v, has hashKey M k v) \/ (forall v, ~ has hashKey M k v).
Proof.
  intros Hok. destruct (map_shard hashKey M k Hok) as (_ & sh & Hsh & _).
  destruct (stored_dec sh (hash_of k) k) as [[v Hst]|Habs].
  - left. exists v. apply (has_shard hashKey M sh); assumption.
  - right. intros v Hh. apply (Habs v).
    apply (has_shard hashKey M sh); assumption.
Qed.

Lemma has_functional M (k : K) (v v' : V) :
  map_wf hashKey M -> has hashKey M k v -> has hashKey M k v' -> v = v'.
Proof.
  intros [_ Hall] (sh & Hsh & Hst) (sh' & Hsh' & Hst').
  rewrite Hsh in Hsh'. inversion Hsh'; subst sh'.
  destruct (Hall _ sh Hsh) as ([Hoksh _] & _).
  exact (stored_functional sh _ k v v' Hoksh Hst Hst').
Qed.

Lemma Get_has (fuel : nat) M (k : K) (v : V) :
  map_ok hashKey M -> 2 ^ 15 <= Z.of_nat fuel ->
  has hashKey M k v -> Get hashKey fuel M k = Ret (v, true).
Proof.
  intros Hok Hfuel Hh.
  apply (Get_step hashKey fuel M k Hok Hfuel). exact Hh.
Qed.

Lemma Get_has_not (fuel : nat) M (k : K) :
  map_ok hashKey M -> 2 ^ 15 <= Z.of_nat fuel ->
  (forall v, ~ has hashKey M k v) -> Get hashKey fuel M k = Ret (zeroV, false).
Proof.
  intros Hok Hfuel Hh.
  apply (Get_step hashKey fuel M k Hok Hfuel). exact Hh.
Qed.

Lemma Get_determined (fuel : nat) M M' (k : K) :
  map_ok hashKey M -> map_ok hashKey M' -> 2 ^ 15 <= Z.of_nat fuel ->
  (forall v, has hashKey M' k v <-> has hashKey M k v) ->
  Get hashKey fuel M' k = Get hashKey fuel M k.
Proof.
  intros Hok Hok' Hfuel Hsame.
  destruct (has_dec M k Hok) as [[v Hh]|Hno].
  - rewrite (Get_has fuel M k v) by assumption.
    apply Get_has; try assumption. apply Hsame. exact Hh.
  - rewrite (Get_has_not fuel M k) by assumption.
    apply Get_has_not; try assumption.
    intros v Hh. apply (Hno v). apply Hsame. exact Hh.
Qed.

Lemma GetWithHash_fresh (fuel : nat) (c h : Z) (k : K) :
  c <= 2 ^ 62 -> GetWithHash (S fuel) (newShard K V c) h k = Ret (zeroV, false).
Proof.
  intros Hc. pose proof (newShard_shaped (K:=K) (V:=V) c Hc) as Hs.
  pose proof (shaped_len_pos _ Hs) as Hn.
  pose proof (masked_index _ h Hs) as Hi.
  unfold GetWithHash.
  destruct (Z.eqb_spec (len (buckets (newShard K V c))) 0) as [?|_]; [lia|].
  cbn [get_loop]. rewrite index_slot by assumption.
  cbn [mbind result_bind].
  replace (slot (buckets (newShard K V c))
             (Z.land h (mask (newShard K V c)))) with (zeroEntry K V)
    by (unfold newShard; cbn [buckets]; rewrite slot_replicate; reflexivity).
  reflexivity.
Qed.

(** What [Get] returned before a call, said with [has]. *)
Lemma Get_before (fuel : nat) M (k : K) (prev : V) (found : bool) :
  map_ok hashKey M -> 2 ^ 15 <= Z.of_nat fuel ->
  (if found then has hashKey M k prev
   else prev = zeroV /\ forall v0, ~ has hashKey M k v0) ->
  Get hashKey fuel M k = Ret (prev, found).
Proof.
  intros Hok Hfuel Hcase. destruct found.
  - apply Get_has; assumption.
  - destruct Hcase as [-> Hno]. apply Get_has_not; assumption.
Qed.

(** X9.  On a host with 1 to 2^58 CPUs, [New(cap)] makes a map whose number
    of shards is the smallest power of two that is at least 16 times the
    number of CPUs, with [shardIDMax] one less; every shard is
    [newShard(cap / shards)], so the map is empty: [Len] is 0 and [Get]
    returns [(zero, false)] for every key after one probe.  If
    [cap / shards] is at most 8 or a power of two up to 2^14, the map is
    well-formed. *)
Theorem New_builds_empty_shards (numCPU cap_ : Z) (fuel : nat) (k : K) :
  1 <= numCPU <= 2 ^ 58 -> Z.quot cap_ (shards (New K V numCPU cap_)) <= 2 ^ 62 ->
  (exists j, 4 <= j <= 62 /\ shards (New K V numCPU cap_) = 2 ^ j /\
             2 ^ (j - 1) < numCPU * 16 <= 2 ^ j) /\
  shardIDMax (New K V numCPU cap_) = shards (New K V numCPU cap_) - 1 /\
  len (maps (New K V numCPU cap_)) = shards (New K V numCPU cap_) /\
  mcap (New K V numCPU cap_) = cap_ /\
  Forall (fun sh => sh = newShard K V
                     (Z.quot cap_ (shards (New K V numCPU cap_))))
         (maps (New K V numCPU cap_)) /\
  MapLen (New K V numCPU cap_) = 0 /\
  Get hashKey (S fuel) (New K V numCPU cap_) k = Ret (zeroV, false) /\
  (safe_cap (Z.quot cap_ (shards (New K V numCPU cap_))) ->
   map_ok hashKey (New K V numCPU cap_)).
Proof.
  intros Hcpu Hcap.
  destruct (Init_shards (K:=K) (V:=V) numCPU cap_) as (j & Hj & Es & Em & El).
  change (Init K V numCPU cap_) with (New K V numCPU cap_) in *.
  assert (numCPU * 16 <= shards (New K V numCPU cap_)) as Hge.
  { unfold New, Init. cbn [shards]. apply double_until_ge; [lia|].
    change (1 * 2 ^ Z.of_nat 64) with (2 ^ 64).
    assert (2 ^ 58 * 16 <= 2 ^ 64) by (vm_compute; discriminate). lia. }
  assert (exists j', 0 <= j' /\ shards (New K V numCPU cap_) = 2 ^ j' /\
                     (j' = 0 \/ 2 ^ (j' - 1) < numCPU * 16))
    as (j' & Hj' & Es' & Hlast).
  { unfold New, Init. cbn [shards].
    destruct (double_until_pow2 64 0 (numCPU * 16)) as (k0 & Hk0 & E & Hl);
      [lia|].
    change (2 ^ 0) with 1 in E. exists k0. split; [lia|]. auto. }
  assert (j' = j) as ->.
  { rewrite Es in Es'. apply (Z.pow_inj_r 2); lia. }
  assert (2 ^ (j - 1) < numCPU * 16) as Hlt.
  { destruct Hlast as [->|?]; [|assumption]. rewrite Es in Hge.
    change (2 ^ 0) with 1 in Hge. lia. }
  assert (4 <= j <= 62) as Hj4.
  { split.
    - destruct (Z_lt_le_dec j 4) as [Hlt4|?]; [|assumption].
      assert (2 ^ j <= 2 ^ 3) by (apply Z.pow_le_mono_r; lia).
      rewrite Es in Hge. lia.
    - destruct (Z_lt_le_dec 62 j) as [Hgt|?]; [|assumption].
      assert (2 ^ 62 <= 2 ^ (j - 1)) by (apply Z.pow_le_mono_r; lia).
      assert (2 ^ 58 * 16 = 2 ^ 62) by reflexivity. lia. }
  split; [exists j; rewrite <- Es; auto|].
  split; [rewrite Em, Es; reflexivity|].
  split; [rewrite El, Es; reflexivity|].
  split; [reflexivity|]. split.
  { apply Forall_lookup. intros s sh Hs. exact (New_shards _ _ s sh Hs). }
  split.
  { apply (MapLen_fresh (Z.to_nat (shards (New K V numCPU cap_)))
             (newShard K V (Z.quot cap_ (shards (New K V numCPU cap_)))));
      reflexivity. }
  split.
  - assert (0 <= (choose hashKey (New K V numCPU cap_) k).1
            < len (maps (New K V numCPU cap_))) as Hr.
    { change ((choose hashKey (New K V numCPU cap_) k).1)
        with (Z.land (hashKey k) (shardIDMax (New K V numCPU cap_))).
      rewrite Em, El, land_pow2_pred by lia.
      apply Z.mod_pos_bound. apply Z.pow_pos_nonneg; lia. }
    destruct (lookup_lt_is_Some_2 (maps (New K V numCPU cap_))
                (shard_of (New K V numCPU cap_) k)) as [sh Hsh];
      [unfold len in Hr; lia|].
    pose proof (New_shards _ _ _ _ Hsh) as Esh. subst sh.
    rewrite (Get_on_shard hashKey (S fuel) _ k _
               (proj2 (index_Ret _ _ _) Hsh)).
    apply GetWithHash_fresh. exact Hcap.
  - intros Hsafe. apply New_ok. exact Hsafe.
Qed.

(** X10.  [Clear] puts the map back into the state in which [New] made it:
    whatever calls have been made since, all shards are fresh tables for the
    original capacity, so [Len] is 0 and nothing is held. *)
Theorem Clear_restores_New (fuel : nat) (numCPU cap_ : Z) ops M :
  run_map_ops hashKey fuel ops (New K V numCPU cap_) = Ret M ->
  Clear M = New K V numCPU cap_ /\
  MapLen (Clear M) = 0 /\
  forall k v, ~ has hashKey (Clear M) k v.
Proof.
  intros Hrun.
  apply run_map_ops_frame in Hrun as (E1 & E2 & E3 & _).
  assert (Clear M = New K V numCPU cap_) as Ec.
  { unfold Clear, withMaps. rewrite E1, E2, E3. reflexivity. }
  split; [exact Ec|]. rewrite Ec. split.
  - apply (MapLen_fresh (Z.to_nat (shards (New K V numCPU cap_)))
             (newShard K V (Z.quot cap_ (shards (New K V numCPU cap_)))));
      reflexivity.
  - intros k v. apply New_has_nothing.
Qed.

(** X11.  [Set] on a well-formed map whose shards have at most 2^14 buckets
    returns what [Get] returned for the key before ([(zero, false)] for a
    new key) and leaves a well-formed map in which [Get] returns the new
    value for the key and, for every other key, what it returned before;
    [Len] grows by one for a new key and is unchanged otherwise. *)
Theorem Get_after_Set (fuel : nat) M (k : K) (v : V) :
  map_ok hashKey M -> shards_within (2 ^ 14) M -> 2 ^ 15 <= Z.of_nat fuel ->
  exists M' prev replaced,
    Set_ hashKey fuel M k v = Ret (M', (prev, replaced)) /\
    Get hashKey fuel M k = Ret (prev, replaced) /\
    (replaced = false -> prev = zeroV) /\
    map_ok hashKey M' /\
    Get hashKey fuel M' k = Ret (v, true) /\
    (forall k', k' <> k -> Get hashKey fuel M' k' = Get hashKey fuel M k') /\
    MapLen M' = MapLen M + (if replaced then 0 else 1).
Proof.
  intros Hok Hsmall Hfuel.
  destruct (Set_step hashKey hashKey_range fuel M k v Hok Hsmall Hfuel)
    as (M' & prev & replaced & Hrun & Hok' & Hcase & Hhas & Hlen).
  exists M', prev, replaced. split; [exact Hrun|].
  split; [apply Get_before; assumption|].
  split; [intros ->; apply Hcase|]. split; [exact Hok'|]. split.
  - apply Get_has; try assumption. apply Hhas. auto.
  - split; [|exact Hlen]. intros k' Hne. apply Get_determined; try assumption.
    intros v'. rewrite (Hhas k' v'). split.
    + intros [[? _]|[_ ?]]; [contradiction | assumption].
    + intros Hh. right. auto.
Qed.

(** X12.  On a map whose shard count is a power of two with [shardIDMax]
    one less, and whose every shard is a well-formed table with an empty
    bucket (8 to 2^15 buckets, a power of two with the mask one less, in
    the Robin Hood layout, the length field the number of occupied buckets
    and below the number of buckets, the thresholds the floors of 85% and
    15% of the size) that holds only keys that [choose] routes to it:
    [Get] returns; it returns [(v, true)] exactly when the shard that
    [choose] selects for the key holds [v] under the key and its hash, and
    [(zero, false)] exactly when that shard holds nothing under them; a key
    has at most one value. *)
Theorem Get_reports_what_the_map_holds (fuel : nat) M (k : K) :
  map_wf hashKey M -> 2 ^ 15 <= Z.of_nat fuel ->
  (exists r, Get hashKey fuel M k = Ret r) /\
  (forall v, Get hashKey fuel M k = Ret (v, true) <-> has hashKey M k v) /\
  (Get hashKey fuel M k = Ret (zeroV, false)
   <-> forall v, ~ has hashKey M k v) /\
  (forall v v', has hashKey M k v -> has hashKey M k v' -> v = v').
Proof.
  intros Hok Hfuel.
  destruct (Get_wf_step hashKey fuel M k Hok Hfuel) as (H1 & H2 & H3).
  split; [exact H1|]. split; [exact H2|]. split; [exact H3|].
  intros v v'. apply has_functional. exact Hok.
Qed.

(** X13.  On a well-formed map, that is a map whose shard count is a power
    of two with [shardIDMax] one less and whose every shard
    - is a well-formed table with an empty bucket (8 to 2^15 buckets, a
      power of two with the mask one less, in the Robin Hood layout, the
      length field the number of occupied buckets and below the number of
      buckets, the thresholds the floors of 85% and 15% of the size),
    - holds only keys that [choose] routes to it, and
    - is at most as large as its capacity hint, or has 8 buckets, or holds
      more than [shrinkAt] entries, so that a shrink cannot fill it:
    [Delete] returns what [Get] returned for the key before and leaves a
    well-formed map in which [Get] returns [(zero, false)] for the key and,
    for every other key, what it returned before; [Len] drops by one if the
    key was there, and a [Delete] of a key that is not there leaves the map
    as it is. *)
Theorem Get_after_Delete (fuel : nat) M (k : K) :
  map_ok hashKey M -> 2 ^ 16 <= Z.of_nat fuel ->
  exists M' prev deleted,
    Delete hashKey fuel M k = Ret (M', (prev, deleted)) /\
    Get hashKey fuel M k = Ret (prev, deleted) /\
    (deleted = false -> prev = zeroV /\ M' = M) /\
    map_ok hashKey M' /\
    Get hashKey fuel M' k = Ret (zeroV, false) /\
    (forall k', k' <> k -> Get hashKey fuel M' k' = Get hashKey fuel M k') /\
    MapLen M' = MapLen M - (if deleted then 1 else 0).
Proof.
  intros Hok Hfuel.
  destruct (Delete_step hashKey fuel M k Hok Hfuel)
    as (M' & prev & deleted & Hrun & Hok' & Hcase & Hhas & Hlen).
  exists M', prev, deleted. split; [exact Hrun|].
  split.
  { apply Get_before; try assumption; try lia.
    destruct deleted; [exact Hcase|]. destruct Hcase as (? & ? & _). auto. }
  split; [intros ->; destruct Hcase as (? & _ & ?); auto|].
  split; [exact Hok'|]. split.
  - apply Get_has_not; try assumption; try lia.
    intros v Hh. apply Hhas in Hh as [Hn _]. auto.
  - split; [|exact Hlen]. intros k' Hne.
    apply Get_determined; try assumption; try lia.
    intros v'. rewrite (Hhas k' v'). split; [intros [_ ?]; assumption|].
    intros Hh. auto.
Qed.

(** X14.  On a well-formed map (shard count a power of two with
    [shardIDMax] one less; every shard a well-formed table with an empty
    bucket that holds only keys routed to it and that a shrink cannot fill:
    it is at most as large as its capacity hint, or has 8 buckets, or holds
    more than [shrinkAt] entries) whose shards have at most 2^13 buckets,
    [SetAccept] shows [accept] what [Get] returned for the key before.  If
    [accept] returns [true] the call is a [Set]: it returns that, and [Get]
    returns the new value afterwards.  If [accept] returns [false] the call
    returns [(zero, false)] and the change is undone: [Get] returns for
    every key what it returned before, and [Len] is unchanged.  Without an
    [accept] function the call is [Set]. *)
Theorem SetAccept_commits_what_accept_accepts (fuel : nat) M (k : K) (v : V)
    (f : V -> bool -> bool) :
  map_ok hashKey M -> shards_within (2 ^ 13) M -> 2 ^ 16 <= Z.of_nat fuel ->
  (exists M' (prev : V) (replaced : bool),
     Get hashKey fuel M k = Ret (prev, replaced) /\
     SetAccept hashKey fuel M k v (Some f)
     = Ret (M', if f prev replaced then (prev, replaced) else (zeroV, false)) /\
     map_ok hashKey M' /\
     (if f prev replaced
      then Get hashKey fuel M' k = Ret (v, true) /\
           MapLen M' = MapLen M + (if replaced then 0 else 1)
      else Get hashKey fuel M' k = Get hashKey fuel M k /\
           MapLen M' = MapLen M) /\
     forall k', k' <> k -> Get hashKey fuel M' k' = Get hashKey fuel M k') /\
  SetAccept hashKey fuel M k v None = Set_ hashKey fuel M k v.
Proof.
  intros Hok Hsmall Hfuel. split; [|apply SetAccept_accepting; exact I].
  destruct (SetAccept_step hashKey hashKey_range fuel M k v f Hok Hsmall Hfuel)
    as (M' & prev & replaced & Hcase & Hrun & Hok' & Hhas & Hlen).
  exists M', prev, replaced.
  split; [apply Get_before; try assumption; lia|].
  split; [exact Hrun|]. split; [exact Hok'|].
  destruct (f prev replaced).
  - split; [split; [|exact Hlen]|].
    + apply Get_has; try assumption; try lia. apply Hhas. auto.
    + intros k' Hne. apply Get_determined; try assumption; try lia.
      intros v'. rewrite (Hhas k' v'). split.
      * intros [[? _]|[_ ?]]; [contradiction | assumption].
      * intros Hh. right. auto.
  - split; [split; [|lia]|].
    + apply Get_determined; try assumption; try lia. intros v'. apply Hhas.
    + intros k' _. apply Get_determined; try assumption; try lia.
      intros v'. apply Hhas.
Qed.

(** X15.  On a well-formed map (shard count a power of two with
    [shardIDMax] one less; every shard a well-formed table with an empty
    bucket that holds only keys routed to it and that a shrink cannot fill:
    it is at most as large as its capacity hint, or has 8 buckets, or holds
    more than [shrinkAt] entries) whose shards have at most 2^14 buckets,
    [DeleteAccept] shows [accept] what [Get] returned for the key before.
    If [accept] returns [true] the call is a [Delete]: it returns that, and
    [Get] returns [(zero, false)] afterwards.  If [accept] returns [false]
    the call returns [(zero, false)] and the deletion is undone: [Get]
    returns for every key what it returned before, and [Len] is unchanged.
    Without an [accept] function the call is [Delete]. *)
Theorem DeleteAccept_commits_what_accept_accepts (fuel : nat) M (k : K)
    (f : V -> bool -> bool) :
  map_ok hashKey M -> shards_within (2 ^ 14) M -> 2 ^ 16 <= Z.of_nat fuel ->
  (exists M' (prev : V) (deleted : bool),
     Get hashKey fuel M k = Ret (prev, deleted) /\
     DeleteAccept hashKey fuel M k (Some f)
     = Ret (M', if f prev deleted then (prev, deleted) else (zeroV, false)) /\
     map_ok hashKey M' /\
     (if f prev deleted
      then Get hashKey fuel M' k = Ret (zeroV, false) /\
           MapLen M' = MapLen M - (if deleted then 1 else 0)
      else Get hashKey fuel M' k = Get hashKey fuel M k /\
           MapLen M' = MapLen M) /\
     forall k', k' <> k -> Get hashKey fuel M' k' = Get hashKey fuel M k') /\
  DeleteAccept hashKey fuel M k None = Delete hashKey fuel M k.
Proof.
  intros Hok Hsmall Hfuel. split; [|apply DeleteAccept_accepting; exact I].
  destruct (DeleteAccept_step hashKey hashKey_range fuel M k f Hok Hsmall Hfuel)
    as (M' & prev & deleted & Hcase & Hrun & Hok' & Hhas & Hlen).
  exists M', prev, deleted.
  split; [apply Get_before; try assumption; lia|].
  split; [exact Hrun|]. split; [exact Hok'|].
  destruct (f prev deleted).
  - split; [split; [|exact Hlen]|].
    + apply Get_has_not; try assumption; try lia.
      intros v Hh. apply Hhas in Hh as [Hn _]. auto.
    + intros k' Hne. apply Get_determined; try assumption; try lia.
      intros v'. rewrite (Hhas k' v'). split; [intros [_ ?]; assumption|].
      intros Hh. auto.
  - split; [split; [|lia]|].
    + apply Get_determined; try assumption; try lia. intros v'. apply Hhas.
    + intros k' _. apply Get_determined; try assumption; try lia.
      intros v'. apply Hhas.
Qed.

(** X16.  On a map whose shard count is a power of two with [shardIDMax]
    one less, and whose every shard is a well-formed table with an empty
    bucket (8 to 2^15 buckets, a power of two with the mask one less, in
    the Robin Hood layout, the length field the number of occupied buckets
    and below the number of buckets, the thresholds the floors of 85% and
    15% of the size) that holds only keys that [choose] routes to it:
    [Len] is the number of keys for which [Get] returns a value, and
    [Range] visits exactly those keys with their values, each once, shard
    by shard and bucket by bucket, up to and including the first call of
    the callback that returns [false]. *)
Theorem Len_and_Range_cover_the_keys (fuel : nat) M :
  map_wf hashKey M -> 2 ^ 15 <= Z.of_nat fuel ->
  NoDup (map_items M).*1 /\
  (forall k v,
     (k, v) ∈ map_items M <-> Get hashKey fuel M k = Ret (v, true)) /\
  MapLen M = len (map_items M) /\
  forall (St : Type) (iter : K -> V -> St -> St * bool) (s : St),
    Range M iter s = Ret (visit (map_items M) iter s).1.
Proof.
  intros Hok Hfuel.
  destruct (map_items_wf hashKey M Hok) as (Hnd & Hin & Hlen).
  split; [exact Hnd|]. split.
  - intros k v. rewrite (Hin k v). symmetry.
    apply (Get_wf_step hashKey fuel M k Hok Hfuel).
  - split; [exact Hlen|]. intros St iter s. apply Range_visit.
    destruct Hok as [(j & Hj & Es & _ & El) _].
    unfold len in El. rewrite Es. rewrite <- El. apply Nat2Z.id.
Qed.

(** Calls on a map that [New] made with a per-shard capacity of at most 8:
    the shards start with 8 buckets. *)
Lemma run_map_ops_fresh (fuel : nat) (numCPU cap_ : Z) ops :
  Z.quot cap_ (shards (New K V numCPU cap_)) <= 8 ->
  len ops <= 2 ^ 11 -> 2 ^ 16 <= Z.of_nat fuel ->
  exists M,
    run_map_ops hashKey fuel ops (New K V numCPU cap_) = Ret M /\
    map_ok hashKey M /\ shards_within (2 ^ 13) M /\
    forall k v, has hashKey M k v <-> after_map_ops ops k = Some v.
Proof.
  intros Hc Hlen Hfuel. pose proof (len_nonneg ops) as Hl0.
  destruct (New_ok hashKey numCPU cap_ (or_introl Hc)) as [Hok _].
  assert (shards_sized 8 0 (New K V numCPU cap_)) as Hsized.
  { apply Forall_lookup. intros s sh Hs. apply New_shards in Hs. subst sh.
    cbv beta. rewrite newShard_len_min by exact Hc.
    change (count (newShard K V (Z.quot cap_ (shards (New K V numCPU cap_)))))
      with 0. lia. }
  destruct (run_map_ops_safe hashKey hashKey_range fuel ops
              (New K V numCPU cap_) 8 0 (fun _ => None))
    as (M & Hrun & Hok' & Hsized' & Hst); try assumption; try lia.
  { intros k v. split; [|discriminate].
    intros Hh. exfalso. exact (New_has_nothing hashKey _ _ k v Hh). }
  exists M. split; [exact Hrun|]. split; [exact Hok'|]. split; [|exact Hst].
  apply Forall_lookup. intros s sh Hsh.
  pose proof (Forall_lookup_1 _ _ _ _ Hsized' Hsh) as [_ Hl]. cbv beta in Hl.
  lia.
Qed.

(** X17.  A map made by [New] with a per-shard capacity of at most 8, or a
    power of two up to 2^14, behaves like a Go map: every sequence of at
    most 4096 [Set] and [Delete] calls returns, and afterwards [Get]
    returns for every key the value of the last [Set] for it that no
    [Delete] followed, or [(zero, false)] if there is none, and [Len] is the
    number of keys that have a value. *)
Theorem map_behaves_like_a_go_map (fuel : nat) (numCPU cap_ : Z) ops :
  safe_cap (Z.quot cap_ (shards (New K V numCPU cap_))) ->
  len ops <= 2 ^ 12 -> 2 ^ 16 <= Z.of_nat fuel ->
  exists M,
    run_map_ops hashKey fuel ops (New K V numCPU cap_) = Ret M /\
    map_ok hashKey M /\
    (forall k,
       Get hashKey fuel M k
       = Ret (match after_map_ops ops k with
              | Some v => (v, true)
              | None => (zeroV, false)
              end)) /\
    exists l : list (K * V),
      NoDup l.*1 /\
      (forall k v, (k, v) ∈ l <-> after_map_ops ops k = Some v) /\
      MapLen M = len l.
Proof.
  intros Hc Hlen Hfuel.
  destruct (New_ok hashKey numCPU cap_ Hc) as [Hok Hsized].
  destruct (run_map_ops_safe hashKey hashKey_range fuel ops
              (New K V numCPU cap_) (2 ^ 14) 0 (fun _ => None))
    as (M & Hrun & Hok' & _ & Hst); try assumption; try lia.
  { intros k v. split; [|discriminate].
    intros Hh. exfalso. exact (New_has_nothing hashKey _ _ k v Hh). }
  exists M. split; [exact Hrun|]. split; [exact Hok'|]. split.
  - intros k. unfold after_map_ops.
    destruct (foldl (after_map_op k) None ops) as [v|] eqn:E.
    + apply Get_has; try assumption; try lia. apply Hst. exact E.
    + apply Get_has_not; try assumption; try lia.
      intros v Hh. apply Hst in Hh. congruence.
  - destruct (map_items_spec hashKey M Hok') as (Hnd & Hin & Hl).
    exists (map_items M). split; [exact Hnd|]. split; [|exact Hl].
    intros k v. rewrite (Hin k v). apply Hst.
Qed.

End MapFacts.

(** * The walk of [set], bucket by bucket *)

Section Walk.
Context {K V : Type} `{EqDecision K} `{Zero K} `{Zero V}.
Implicit Types (m : mapShard K V) (e b : entry K V).

(** [setDIB] leaves a 64-bit word whatever it is given. *)
Lemma setDIB_word e (d : Z) : 0 <= hdib (setDIB e d) < 2 ^ 64.
Proof.
  unfold setDIB. cbn [hdib].
  assert (Z.land (hdib e) hashMask
          = hdib e mod 2 ^ 64 / 2 ^ 16 * 2 ^ 16) as E.
  { change hashMask with (Z.land (Z.ones 64) hashMask) at 1.
    rewrite Z.land_assoc, Z.land_ones by lia.
    apply land_hashMask. apply Z.mod_pos_bound. lia. }
  rewrite E, land_maxDIB.
  pose proof (Z.mod_pos_bound (hdib e) (2 ^ 64) ltac:(lia)) as Hw.
  pose proof (Z.mod_pos_bound d (2 ^ 16) ltac:(lia)) as Hd.
  rewrite lor_shift_low by lia.
  assert (0 <= hdib e mod 2 ^ 64 / 2 ^ 16 < 2 ^ 48) as Hq.
  { split; [apply Z.div_pos; lia | apply Z.div_lt_upper_bound; lia]. }
  lia.
Qed.

Lemma hash_setDIB e (d : Z) :
  0 <= hdib e < 2 ^ 64 -> hash (setDIB e d) = hash e.
Proof.
  intros Hw. rewrite (hash_div (setDIB e d)), hdib_setDIB by exact Hw.
  apply word_fields. apply Z.mod_pos_bound. lia.
Qed.

(** The loop of [set] from bucket [i] with the entry [e] in hand, on a table
    with an empty bucket [d] steps ahead.  It stops after [t <= d] steps, at
    bucket [i + t]: with [t] iterations or fewer it has not returned, with
    more it has.  The buckets walked over are occupied, and no bucket but
    those on the walk is changed.  Where it stops the bucket is empty, or
    has the hash and key of the entry in hand, which is [e] or an entry that
    was displaced on the way. *)
Lemma set_loop_stops (d : nat) : forall m e i (z : Z),
  shaped m -> 0 <= i < len (buckets m) -> 0 <= z < len (buckets m) ->
  dib (slot (buckets m) z) = 0 ->
  (z - i) mod len (buckets m) = Z.of_nat d ->
  0 <= hdib e < 2 ^ 64 ->
  exists (t : nat) m' prev replaced,
    (t <= d)%nat /\
    (forall f : nat,
       set_loop f m e i
       = if (f <=? t)%nat then Spin else Ret (m', (prev, replaced))) /\
    same_frame m m' /\
    (forall s, 0 <= s < Z.of_nat t ->
       dib (slot (buckets m) ((i + s) mod len (buckets m))) <> 0) /\
    (forall p, 0 <= p < len (buckets m) ->
       (forall s, 0 <= s <= Z.of_nat t -> p <> (i + s) mod len (buckets m)) ->
       slot (buckets m') p = slot (buckets m) p) /\
    (if replaced
     then dib (slot (buckets m) ((i + Z.of_nat t) mod len (buckets m))) <> 0 /\
          prev = value (slot (buckets m) ((i + Z.of_nat t) mod len (buckets m))) /\
          count m' = count m /\
          ((matches (slot (buckets m) ((i + Z.of_nat t) mod len (buckets m)))
              (hash e) (key e) /\
            slot (buckets m') ((i + Z.of_nat t) mod len (buckets m))
            = setValue (slot (buckets m) ((i + Z.of_nat t) mod len (buckets m)))
                       (value e)) \/
           exists s, 0 <= s < Z.of_nat t /\
             key (slot (buckets m) ((i + Z.of_nat t) mod len (buckets m)))
             = key (slot (buckets m) ((i + s) mod len (buckets m))) /\
             (0 <= hdib (slot (buckets m) ((i + s) mod len (buckets m))) < 2 ^ 64 ->
              hash (slot (buckets m) ((i + Z.of_nat t) mod len (buckets m)))
              = hash (slot (buckets m) ((i + s) mod len (buckets m)))))
     else dib (slot (buckets m) ((i + Z.of_nat t) mod len (buckets m))) = 0 /\
          prev = zeroV /\ count m' = count m + 1) /\
    exists s, 0 <= s <= Z.of_nat t /\
      key (slot (buckets m') ((i + s) mod len (buckets m))) = key e /\
      value (slot (buckets m') ((i + s) mod len (buckets m))) = value e /\
      hash (slot (buckets m') ((i + s) mod len (buckets m))) = hash e.
Proof.
  induction d as [|d IH]; intros m e i z Hs Hi Hz Hdz Hdist Hw;
    pose proof (shaped_len_pos m Hs) as Hn;
    set (n := len (buckets m)) in *;
    set (b := slot (buckets m) i);
    assert (i mod n = i) as Ei by (apply Z.mod_small; lia);
    assert (forall f : nat, set_loop (S f) m e i
              = if dib b =? 0 then
                  Ret (withCount (withBuckets m (<[Z.to_nat i := e]> (buckets m)))
                                 (count m + 1), (zeroV, false))
                else if bool_decide (hash e = hash b) && bool_decide (key e = key b)
                then Ret (withBuckets m
                            (<[Z.to_nat i := setValue b (value e)]> (buckets m)),
                          (value b, true))
                else
                  let '(e, m) :=
                    if dib b <? dib e
                    then (b, withBuckets m (<[Z.to_nat i := e]> (buckets m)))
                    else (e, m) in
                  set_loop f m (setDIB e (u64 (dib e + 1)))
                           (Z.land (u64 (i + 1)) (mask m))) as Hstep
      by (intros f; cbn [set_loop]; rewrite index_slot by exact Hi;
          reflexivity).
  - (* the empty bucket is bucket [i] *)
    apply dist_zero in Hdist; [|lia..]. subst z. fold b in Hdz.
    exists O. do 3 eexists. split; [lia|]. split.
    { intros [|f]; [reflexivity|]. rewrite Hstep, Hdz. reflexivity. }
    split; [repeat split; apply len_insert|].
    split; [intros s Hs0; lia|]. split.
    { intros p Hp Hne. cbn [withCount withBuckets buckets].
      apply slot_insert_ne; try lia. specialize (Hne 0 ltac:(lia)).
      rewrite Z.add_0_r, Ei in Hne. lia. }
    change (Z.of_nat 0) with 0. rewrite !Z.add_0_r, !Ei. fold b.
    split; [auto|].
    exists 0. split; [lia|]. rewrite Z.add_0_r, Ei.
    cbn [withCount withBuckets buckets]. rewrite slot_insert_eq by exact Hi.
    auto.
  - destruct (Z.eqb_spec (dib b) 0) as [E0|Hne0].
    { (* bucket [i] is empty *)
      exists O. do 3 eexists. split; [lia|]. split.
      { intros [|f]; [reflexivity|]. rewrite Hstep. reflexivity. }
      split; [repeat split; apply len_insert|].
      split; [intros s Hs0; lia|]. split.
      { intros p Hp Hne. cbn [withCount withBuckets buckets].
        apply slot_insert_ne; try lia. specialize (Hne 0 ltac:(lia)).
        rewrite Z.add_0_r, Ei in Hne. lia. }
      change (Z.of_nat 0) with 0. rewrite !Z.add_0_r, !Ei. fold b.
      split; [auto|].
      exists 0. split; [lia|]. rewrite Z.add_0_r, Ei.
      cbn [withCount withBuckets buckets]. rewrite slot_insert_eq by exact Hi.
      auto. }
    destruct (bool_decide (hash e = hash b) && bool_decide (key e = key b))
      eqn:Hm.
    { (* bucket [i] has the hash and key of [e] *)
      apply andb_prop in Hm as [Hh Hk].
      apply bool_decide_eq_true in Hh. apply bool_decide_eq_true in Hk.
      exists O. do 3 eexists. split; [lia|]. split.
      { intros [|f]; [reflexivity|]. rewrite Hstep. reflexivity. }
      split; [repeat split; apply len_insert|].
      split; [intros s Hs0; lia|]. split.
      { intros p Hp Hne. cbn [withBuckets buckets].
        apply slot_insert_ne; try lia. specialize (Hne 0 ltac:(lia)).
        rewrite Z.add_0_r, Ei in Hne. lia. }
      change (Z.of_nat 0) with 0. rewrite !Z.add_0_r, !Ei. fold b.
      cbn [withBuckets buckets count]. rewrite slot_insert_eq by exact Hi.
      split.
      { split; [exact Hne0|]. split; [reflexivity|]. split; [reflexivity|].
        left. split; [split; congruence | reflexivity]. }
      exists 0. split; [lia|]. rewrite Z.add_0_r, Ei.
      rewrite slot_insert_eq by exact Hi.
      change (key (setValue b (value e))) with (key b).
      change (hash (setValue b (value e))) with (hash b).
      change (value (setValue b (value e))) with (value e). auto. }
    (* the walk goes on *)
    assert (z <> i) as Hzi by (intros ->; fold b in Hdz; contradiction).
    assert ((z - (i + 1) mod n) mod n = Z.of_nat d) as Hdist'
      by (rewrite dist_step by lia; lia).
    assert (0 <= (i + 1) mod n < n) as Hi' by (apply Z.mod_pos_bound; lia).
    assert (Z.of_nat (S d) < n) as Hdn
      by (rewrite <- Hdist; apply Z.mod_pos_bound; lia).
    assert (forall s, 0 <= s -> ((i + 1) mod n + s) mod n = (i + (s + 1)) mod n)
      as Eshift.
    { intros s _. rewrite Zplus_mod_idemp_l. f_equal. lia. }
    assert (forall s, 0 <= s <= Z.of_nat d -> (i + (s + 1)) mod n <> i) as Hoff.
    { intros s Hs0. apply ring_shift_ne; lia. }
    destruct (Z.ltb_spec (dib b) (dib e)) as [Hlt|Hge].
    + (* [e] takes bucket [i], the entry of bucket [i] is carried on *)
      set (m1 := withBuckets m (<[Z.to_nat i := e]> (buckets m))).
      assert (same_frame m m1) as Hfr by (repeat split; apply len_insert).
      assert (shaped m1) as Hs1 by (eapply shaped_frame; eassumption).
      assert (len (buckets m1) = n) as El by apply Hfr.
      assert (forall p, 0 <= p -> p <> i ->
                slot (buckets m1) p = slot (buckets m) p) as Hout.
      { intros p Hp Hpi. cbn [m1 withBuckets buckets].
        apply slot_insert_ne; lia. }
      assert (slot (buckets m1) i = e) as Hin
        by (cbn [m1 withBuckets buckets]; apply slot_insert_eq; exact Hi).
      destruct (IH m1 (setDIB b (u64 (dib b + 1))) ((i + 1) mod n) z)
        as (t & m' & prev & replaced & Ht & Hrun & Hfr' & Hocc & Hsame
            & Hstop & _);
        rewrite ?El; try assumption; try lia.
      { rewrite Hout by lia. exact Hdz. }
      { apply setDIB_word. }
      rewrite El in Hocc, Hsame, Hstop.
      exists (S t), m', prev, replaced. split; [lia|]. split.
      { intros [|f]; [reflexivity|]. rewrite Hstep.
        fold m1. rewrite (next_index m1 i Hs1) by (rewrite El; exact Hi).
        rewrite El, Hrun. reflexivity. }
      split; [eapply same_frame_trans; eassumption|]. split.
      { intros s Hs0. destruct (Z.eq_dec s 0) as [->|Hs1'].
        - rewrite Z.add_0_r, Ei. exact Hne0.
        - specialize (Hocc (s - 1) ltac:(lia)).
          rewrite Eshift in Hocc by lia.
          replace (s - 1 + 1) with s in Hocc by lia.
          rewrite Hout in Hocc; [exact Hocc | apply Z.mod_pos_bound; lia |].
          replace s with ((s - 1) + 1) by lia. apply Hoff. lia. }
      split.
      { intros p Hp Hne. rewrite Hsame; [| exact Hp |].
        - apply Hout; [lia|]. specialize (Hne 0 ltac:(lia)).
          rewrite Z.add_0_r, Ei in Hne. exact Hne.
        - intros s Hs0. rewrite Eshift by lia. apply Hne. lia. }
      rewrite Eshift in Hstop by lia.
      replace (Z.of_nat (S t)) with (Z.of_nat t + 1) by lia.
      assert (slot (buckets m1) ((i + (Z.of_nat t + 1)) mod n)
              = slot (buckets m) ((i + (Z.of_nat t + 1)) mod n)) as Ej.
      { apply Hout; [apply Z.mod_pos_bound; lia | apply Hoff; lia]. }
      rewrite Ej in Hstop. split.
      { destruct replaced; [|exact Hstop].
        destruct Hstop as (Hd & Hp & Hc & Hcase).
        split; [exact Hd|]. split; [exact Hp|]. split; [exact Hc|]. right.
        destruct Hcase as [[[Hh Hk] _]|(s & Hs0 & Hk & Hh)].
        - exists 0. split; [lia|]. rewrite Z.add_0_r, Ei. fold b.
          split; [exact Hk|]. intros Hwb. rewrite Hh.
          apply hash_setDIB. exact Hwb.
        - exists (s + 1). split; [lia|].
          rewrite Eshift, Hout in Hk, Hh;
            try lia; try (apply Z.mod_pos_bound; lia); try (apply Hoff; lia).
          split; [exact Hk | exact Hh]. }
      exists 0. split; [lia|]. rewrite Z.add_0_r, Ei.
      rewrite Hsame; [rewrite Hin; auto | exact Hi |].
      intros s Hs0. rewrite Eshift by lia. intros E. symmetry in E.
      revert E. apply Hoff. lia.
    + (* [e] is carried on *)
      destruct (IH m (setDIB e (u64 (dib e + 1))) ((i + 1) mod n) z)
        as (t & m' & prev & replaced & Ht & Hrun & Hfr' & Hocc & Hsame
            & Hstop & (s0 & Hs0 & Hpk & Hpv & Hph));
        try assumption; try lia.
      { apply setDIB_word. }
      fold n in Hrun, Hocc, Hsame, Hstop, Hpk, Hpv, Hph.
      exists (S t), m', prev, replaced. split; [lia|]. split.
      { intros [|f]; [reflexivity|]. rewrite Hstep.
        rewrite next_index by assumption. fold n. rewrite Hrun. reflexivity. }
      split; [exact Hfr'|]. split.
      { intros s Hs1. destruct (Z.eq_dec s 0) as [->|Hs1'].
        - rewrite Z.add_0_r, Ei. exact Hne0.
        - specialize (Hocc (s - 1) ltac:(lia)).
          rewrite Eshift in Hocc by lia.
          replace (s - 1 + 1) with s in Hocc by lia. exact Hocc. }
      split.
      { intros p Hp Hne. apply Hsame; [exact Hp|].
        intros s Hs1. rewrite Eshift by lia. apply Hne. lia. }
      rewrite Eshift in Hstop by lia.
      replace (Z.of_nat (S t)) with (Z.of_nat t + 1) by lia.
      rewrite (hash_setDIB e) in Hstop, Hph by exact Hw.
      rewrite key_setDIB in Hstop, Hpk. rewrite value_setDIB in Hstop, Hpv.
      split.
      { destruct replaced; [|exact Hstop].
        destruct Hstop as (Hd & Hp & Hc & Hcase).
        split; [exact Hd|]. split; [exact Hp|]. split; [exact Hc|].
        destruct Hcase as [Hhere|(s & Hs1 & Hk & Hh)]; [left; exact Hhere|].
        right. exists (s + 1). split; [lia|].
        rewrite Eshift in Hk, Hh by lia. split; [exact Hk | exact Hh]. }
      exists (s0 + 1). split; [lia|]. rewrite Eshift in Hpk, Hpv, Hph by lia.
      auto.
Qed.

Lemma new_entry_word (h : Z) (k : K) (v : V) :
  0 <= hdib (Entry (makeHDIB h 1) k v) < 2 ^ 64.
Proof.
  cbn [hdib]. rewrite makeHDIB_word.
  pose proof (Z.mod_pos_bound h (2 ^ 48) ltac:(lia)).
  pose proof (Z.mod_pos_bound 1 (2 ^ 16) ltac:(lia)). lia.
Qed.

Lemma empty_slot_at (bs : list (entry K V)) :
  occupied bs < len bs -> exists z, 0 <= z < len bs /\ dib (slot bs z) = 0.
Proof.
  intros Hlt. destruct (empty_slot_exists bs Hlt) as (z & bz & Hz & Hd).
  pose proof (lookup_lt_Some _ _ _ Hz) as Hzlt.
  exists (Z.of_nat z). split; [unfold len; lia|].
  rewrite (lookup_slot bs (Z.of_nat z) bz); [exact Hd|].
  rewrite Nat2Z.id. exact Hz.
Qed.

(** C7.  On a table of power-of-two size whose length field counts at least
    the occupied buckets:
    - If the length is below the number of buckets, the walk of [set] stops
      after [t < len(buckets)] steps, whatever the hash, key and value: the
      loop has not returned within [t] iterations and has returned after
      [t + 1].  The [t] buckets it walks over are occupied.  The bucket at
      which it stops is empty, and then [set] reports a new key and adds one
      to the length; or it is occupied and has the hash and key of the entry
      in hand, and then [set] reports a replacement, returns the value of
      that bucket and leaves the length.  The entry in hand is the one of
      the call or one that it displaced on the way; where no hash and key
      occur twice, it is the one of the call, whose value the bucket takes.
      Afterwards the hash, key and value of the call are in a bucket on the
      walk, and no bucket off the walk has changed.
    - If the grow threshold is below the number of buckets, as [newShard]
      makes it, the grow check of [SetWithHash] hands [set] a table whose
      length is below its number of buckets: the table itself if its length
      is below the threshold, else the table resized to twice the size; so
      [SetWithHash] returns. *)
Theorem set_terminates (fuel : nat) m (h : Z) (k : K) (v : V) :
  shaped m ->
  occupied (buckets m) <= count m ->
  (count m < len (buckets m) ->
   len (buckets m) <= Z.of_nat fuel ->
   exists (t : nat) m' prev replaced,
     Z.of_nat t < len (buckets m) /\
     set fuel m h k v = Ret (m', (prev, replaced)) /\
     (forall f : nat,
        set f m h k v
        = if (f <=? t)%nat then Spin else Ret (m', (prev, replaced))) /\
     (forall s, 0 <= s < Z.of_nat t ->
        dib (slot (buckets m) (probe m h s)) <> 0) /\
     (if replaced
      then dib (slot (buckets m) (probe m h (Z.of_nat t))) <> 0 /\
           prev = value (slot (buckets m) (probe m h (Z.of_nat t))) /\
           count m' = count m /\
           ((matches (slot (buckets m) (probe m h (Z.of_nat t)))
               (makeHash (makeHDIB h 1)) k /\
             slot (buckets m') (probe m h (Z.of_nat t))
             = setValue (slot (buckets m) (probe m h (Z.of_nat t))) v) \/
            exists s, 0 <= s < Z.of_nat t /\
              key (slot (buckets m) (probe m h (Z.of_nat t)))
              = key (slot (buckets m) (probe m h s)) /\
              (0 <= hdib (slot (buckets m) (probe m h s)) < 2 ^ 64 ->
               hash (slot (buckets m) (probe m h (Z.of_nat t)))
               = hash (slot (buckets m) (probe m h s))))
      else dib (slot (buckets m) (probe m h (Z.of_nat t))) = 0 /\
           prev = zeroV /\ count m' = count m + 1) /\
     (words_ok (buckets m) -> keys_ok (buckets m) -> replaced = true ->
      matches (slot (buckets m) (probe m h (Z.of_nat t)))
        (makeHash (makeHDIB h 1)) k /\
      slot (buckets m') (probe m h (Z.of_nat t))
      = setValue (slot (buckets m) (probe m h (Z.of_nat t))) v) /\
     (exists s, 0 <= s <= Z.of_nat t /\
        key (slot (buckets m') (probe m h s)) = k /\
        value (slot (buckets m') (probe m h s)) = v /\
        hash (slot (buckets m') (probe m h s)) = makeHash (makeHDIB h 1)) /\
     (forall p, 0 <= p < len (buckets m) ->
        (forall s, 0 <= s <= Z.of_nat t -> p <> probe m h s) ->
        slot (buckets m') p = slot (buckets m) p)) /\
  (8 <= len (buckets m) <= 2 ^ 59 ->
   growAt m < len (buckets m) ->
   2 * len (buckets m) <= Z.of_nat fuel ->
   exists m1 m' prev replaced,
     (if count m >=? growAt m
      then resize fuel m (len (buckets m) * 2) = Ret m1 /\
           len (buckets m1) = 2 * len (buckets m)
      else m1 = m) /\
     shaped m1 /\ occupied (buckets m1) <= count m1 /\
     count m1 < len (buckets m1) /\
     SetWithHash fuel m h k v = set fuel m1 h k v /\
     set fuel m1 h k v = Ret (m', (prev, replaced))).
Proof.
  intros Hs Hocc. pose proof (shaped_len_pos m Hs) as Hn. split.
  - intros Hlt Hfuel.
    destruct (empty_slot_at (buckets m)) as (z & Hz & Hdz); [lia|].
    set (e := Entry (makeHDIB h 1) k v).
    set (i := Z.land (makeHash (makeHDIB h 1)) (mask m)).
    assert (0 <= i < len (buckets m)) as Hi by (apply masked_index; exact Hs).
    assert (0 <= (z - i) mod len (buckets m) < len (buckets m)) as Hd
      by (apply Z.mod_pos_bound; lia).
    destruct (set_loop_stops (Z.to_nat ((z - i) mod len (buckets m))) m e i z)
      as (t & m' & prev & replaced & Ht & Hrun & _ & Hwalk & Hsame & Hstop
          & Hput);
      try assumption; try lia.
    { apply new_entry_word. }
    change (key e) with k in *. change (value e) with v in *.
    change (hash e) with (makeHash (makeHDIB h 1)) in *.
    assert (forall f : nat, set f m h k v = set_loop f m e i) as Eset
      by reflexivity.
    fold (probe m h (Z.of_nat t)) in Hstop.
    exists t, m', prev, replaced. split; [lia|]. split.
    { rewrite Eset, Hrun.
      destruct (Nat.leb_spec fuel t) as [Hle|_]; [lia | reflexivity]. }
    split; [intros f; rewrite Eset; apply Hrun|].
    split; [exact Hwalk|]. split; [exact Hstop|]. split.
    { intros Hwords Hkeys ->.
      destruct Hstop as (Hdj & _ & _ & [Hhere|(s & Hs0 & Hk & Hh)]);
        [exact Hhere|]. exfalso.
      assert (0 <= probe m h s < len (buckets m)) as Hps
        by (apply Z.mod_pos_bound; lia).
      assert (0 <= probe m h (Z.of_nat t) < len (buckets m)) as Hpt
        by (apply Z.mod_pos_bound; lia).
      specialize (Hh (Hwords _ Hps)).
      assert (probe m h (Z.of_nat t) = probe m h s) as E.
      { apply Hkeys; try assumption; [apply Hwalk; lia|]. split; assumption. }
      assert (probe m h (Z.of_nat t)
              = (probe m h s + (Z.of_nat t - s)) mod len (buckets m)) as E'.
      { unfold probe. rewrite Zplus_mod_idemp_l. f_equal. lia. }
      rewrite E' in E. revert E. apply ring_shift_ne; lia. }
    split; [exact Hput | exact Hsame].
  - intros Hlen Hgrow Hfuel. unfold SetWithHash.
    destruct (Z.eqb_spec (len (buckets m)) 0) as [?|_]; [lia|].
    destruct (Z.geb_spec (count m) (growAt m)) as [Hge|Hlt].
    + pose proof Hs as (j & Hj & El & Em).
      assert (3 <= j) as Hj3.
      { destruct (Z_lt_le_dec j 3) as [Hlt3|?]; [|assumption].
        assert (2 ^ j < 2 ^ 3) by (apply Z.pow_lt_mono_r; lia). lia. }
      assert (j <= 59) as Hj59.
      { destruct (Z_lt_le_dec 59 j) as [Hgt|?]; [|assumption].
        assert (2 ^ 59 < 2 ^ j) by (apply Z.pow_lt_mono_r; lia). lia. }
      assert (len (buckets m) * 2 = 2 ^ (j + 1)) as E2.
      { rewrite El, Z.pow_add_r by lia. lia. }
      pose proof (newShard_pow2_len (K:=K) (V:=V) (j + 1) ltac:(lia)) as Enew.
      pose proof (occupied_bounds (buckets m)) as Hob.
      assert (2 ^ (j + 1) <= 2 ^ 62) by (apply Z.pow_le_mono_r; lia).
      destruct (resize_returns fuel m (len (buckets m) * 2))
        as (m1 & Hres & Hs1 & El1 & Hocc1 & Hcnt1); rewrite ?E2; try lia.
      rewrite E2 in Hres, El1.
      destruct (set_returns fuel m1 h k v)
        as (m' & prev & replaced & Hset & _); try assumption; try lia.
      exists m1, m', prev, replaced. rewrite Hres.
      split; [split; [reflexivity | lia]|].
      split; [exact Hs1|]. split; [exact Hocc1|]. split; [lia|].
      split; [reflexivity | exact Hset].
    + destruct (set_returns fuel m h k v)
        as (m' & prev & replaced & Hset & _); try assumption; try lia.
      exists m, m', prev, replaced. split; [reflexivity|].
      split; [exact Hs|]. split; [exact Hocc|]. split; [lia|].
      split; [reflexivity | exact Hset].
Qed.

End Walk.

(** ** Witnesses *)

Lemma newShard_thresholds_exact_witness :
  33 <= 2 ^ 55 /\ thresholds_ok (newShard Z Z 33).
Proof.
  split; [lia|]. apply (newShard_thresholds_exact (K:=Z) (V:=Z) 33). lia.
Defined.


Lemma u64_range (k : Z) : 0 <= u64 k < 2 ^ 64.
Proof. unfold u64. apply Z.mod_pos_bound. lia. Qed.

Lemma fresh_map_ok : map_ok u64 (New Z Z 1 0).
Proof.
  apply New_ok. left. vm_compute. discriminate.
Qed.

Lemma fresh_map_within (n : Z) : 8 <= n -> shards_within n (New Z Z 1 0).
Proof. apply New_within. vm_compute. discriminate. Qed.

(** The tables and maps with entries are well-formed and hold what the
    calls that made them put there. *)
Lemma demo_fuel_enough : 2 ^ 16 <= Z.of_nat demo_fuel.
Proof. unfold demo_fuel. lia. Qed.

Lemma table_after_ok (ops : list (shard_op Z Z)) :
  len ops <= 2 ^ 12 ->
  Forall (fun op => 0 <= op_hash op < 2 ^ 48) ops ->
  table_wf (table_after ops) /\ shrink_safe (table_after ops) /\
  forall h k v, stored (table_after ops) h k v <-> after_ops ops h k = Some v.
Proof.
  intros Hlen Hops.
  assert (safe_cap 0) as Hc by (left; lia).
  destruct (run_ops_fresh demo_fuel 0 ops Hc Hlen Hops demo_fuel_enough)
    as (m & Hrun & Hrest).
  unfold table_after. rewrite Hrun. exact Hrest.
Qed.

Lemma map_after_ok (ops : list (map_op Z Z)) :
  len ops <= 2 ^ 11 ->
  map_ok u64 (map_after ops) /\ shards_within (2 ^ 13) (map_after ops) /\
  forall k v, has u64 (map_after ops) k v <-> after_map_ops ops k = Some v.
Proof.
  intros Hlen.
  destruct (run_map_ops_fresh u64 u64_range demo_fuel 1 0 ops)
    as (M & Hrun & Hrest);
    [vm_compute; discriminate | exact Hlen | exact demo_fuel_enough |].
  unfold map_after. rewrite Hrun. exact Hrest.
Qed.

Lemma five_sets_table :
  table_wf (table_after five_sets) /\ shrink_safe (table_after five_sets) /\
  forall h k v,
    stored (table_after five_sets) h k v <-> after_ops five_sets h k = Some v.
Proof.
  apply table_after_ok; [vm_compute; discriminate|].
  repeat constructor; vm_compute; discriminate.
Qed.

Lemma grown_then_three_table :
  table_wf (table_after grown_then_three) /\
  shrink_safe (table_after grown_then_three).
Proof.
  destruct (table_after_ok grown_then_three) as (Hwf & Hsafe & _);
    [vm_compute; discriminate | repeat constructor; vm_compute; discriminate|].
  auto.
Qed.

Lemma five_sets_map_ok :
  map_ok u64 (map_after five_sets_map) /\
  shards_within (2 ^ 13) (map_after five_sets_map) /\
  forall k v,
    has u64 (map_after five_sets_map) k v
    <-> after_map_ops five_sets_map k = Some v.
Proof. apply map_after_ok. vm_compute. discriminate. Qed.

(** The walk for hash 24 on the table of six keys passes the buckets 0 to 5,
    displacing three entries, and stops at the empty bucket 6; through
    [SetWithHash] the table is first grown to 16 buckets, its length being
    at the grow threshold. *)
Lemma set_terminates_witness :
  shaped (table_after six_sets) /\
  occupied (buckets (table_after six_sets)) <= count (table_after six_sets) /\
  count (table_after six_sets) < len (buckets (table_after six_sets)) /\
  len (buckets (table_after six_sets)) <= Z.of_nat 8 /\
  growAt (table_after six_sets) < len (buckets (table_after six_sets)) /\
  (exists m' prev,
     set 8 (table_after six_sets) 24 17 117 = Ret (m', (prev, false)) /\
     set 6 (table_after six_sets) 24 17 117 = Spin /\
     set 7 (table_after six_sets) 24 17 117 = Ret (m', (prev, false)) /\
     (forall s, 0 <= s < 6 ->
        dib (slot (buckets (table_after six_sets))
                  (probe (table_after six_sets) 24 s)) <> 0) /\
     dib (slot (buckets (table_after six_sets))
               (probe (table_after six_sets) 24 6)) = 0 /\
     count m' = count (table_after six_sets) + 1) /\
  (exists m1 m' prev replaced,
     resize 16 (table_after six_sets) 16 = Ret m1 /\
     len (buckets m1) = 16 /\ count m1 < len (buckets m1) /\
     SetWithHash 16 (table_after six_sets) 24 17 117 = set 16 m1 24 17 117 /\
     set 16 m1 24 17 117 = Ret (m', (prev, replaced))).
Proof.
  assert (shaped (table_after six_sets)) as Hs.
  { exists 3. vm_compute. repeat split; discriminate. }
  assert (occupied (buckets (table_after six_sets))
          <= count (table_after six_sets)) as Ho by (vm_compute; discriminate).
  assert (count (table_after six_sets) < len (buckets (table_after six_sets)))
    as Hlt by (vm_compute; reflexivity).
  assert (len (buckets (table_after six_sets)) <= Z.of_nat 8) as Hf
    by (vm_compute; discriminate).
  assert (growAt (table_after six_sets) < len (buckets (table_after six_sets)))
    as Hg by (vm_compute; reflexivity).
  split; [exact Hs|]. split; [exact Ho|]. split; [exact Hlt|].
  split; [exact Hf|]. split; [exact Hg|]. split.
  - destruct (proj1 (set_terminates 8 (table_after six_sets) 24 17 117 Hs Ho)
                Hlt Hf)
      as (t & m' & prev & replaced & _ & Hrun & Hex & Hwalk & Hstop & _).
    assert (set 6 (table_after six_sets) 24 17 117 = Spin) as E6
      by (vm_compute; reflexivity).
    assert (set 7 (table_after six_sets) 24 17 117 <> Spin) as E7
      by (vm_compute; discriminate).
    assert (exists c p, set 8 (table_after six_sets) 24 17 117
                        = Ret (c, (p, false))) as (c & p & E8)
      by (do 2 eexists; vm_compute; reflexivity).
    assert (t = 6%nat) as ->.
    { pose proof (Hex 6%nat) as H6. pose proof (Hex 7%nat) as H7.
      destruct (Nat.leb_spec 6 t) as [H6t|H6t];
        [|rewrite E6 in H6; discriminate H6].
      destruct (Nat.leb_spec 7 t) as [H7t|H7t]; [contradiction | lia]. }
    assert (replaced = false) as -> by congruence.
    exists m', prev. split; [exact Hrun|]. split; [exact E6|].
    split; [apply (Hex 7%nat)|]. split; [exact Hwalk|].
    destruct Hstop as (Hd & _ & Hc). auto.
  - destruct (proj2 (set_terminates 16 (table_after six_sets) 24 17 117 Hs Ho))
      as (m1 & m' & prev & replaced & Hgrow & _ & _ & Hroom & Hset & Hrun).
    + vm_compute. split; discriminate.
    + exact Hg.
    + vm_compute. discriminate.
    + assert ((count (table_after six_sets) >=? growAt (table_after six_sets))
              = true) as Eg by (vm_compute; reflexivity).
      rewrite Eg in Hgrow. destruct Hgrow as [Hres El].
      exists m1, m', prev, replaced.
      split; [exact Hres|]. split; [rewrite El; vm_compute; reflexivity|].
      auto.
Defined.

(** A lookup that walks over three entries of other keys to the one it is
    looking for, and one that walks over all five to an empty bucket. *)
Lemma GetWithHash_finds_what_is_stored_witness :
  shaped (table_after five_sets) /\
  8 <= len (buckets (table_after five_sets)) <= 2 ^ 15 /\
  layout_ok (mask (table_after five_sets)) (buckets (table_after five_sets)) /\
  (exists z, 0 <= z < len (buckets (table_after five_sets)) /\
             dib (slot (buckets (table_after five_sets)) z) = 0) /\
  len (buckets (table_after five_sets)) <= Z.of_nat 8 /\
  stored (table_after five_sets) 1 13 113 /\
  GetWithHash 8 (table_after five_sets) 1 13 = Ret (113, true) /\
  absent (table_after five_sets) 24 17 /\
  GetWithHash 8 (table_after five_sets) 24 17 = Ret (0, false).
Proof.
  destruct five_sets_table as (Hwf & _ & Hst).
  assert (shaped (table_after five_sets)) as Hs.
  { exists 3. vm_compute. repeat split; discriminate. }
  assert (8 <= len (buckets (table_after five_sets)) <= 2 ^ 15) as Hsize
    by (vm_compute; split; discriminate).
  assert (layout_ok (mask (table_after five_sets))
            (buckets (table_after five_sets))) as Hlay
    by (apply ok_layout, Hwf).
  assert (exists z, 0 <= z < len (buckets (table_after five_sets)) /\
                    dib (slot (buckets (table_after five_sets)) z) = 0) as He.
  { exists 5. vm_compute. repeat split; discriminate. }
  assert (len (buckets (table_after five_sets)) <= Z.of_nat 8) as Hf
    by (vm_compute; discriminate).
  assert (stored (table_after five_sets) 1 13 113) as H13
    by (apply Hst; vm_compute; reflexivity).
  assert (absent (table_after five_sets) 24 17) as H17.
  { intros v Hv. apply Hst in Hv. vm_compute in Hv. discriminate Hv. }
  split; [exact Hs|]. split; [exact Hsize|]. split; [exact Hlay|].
  split; [exact He|]. split; [exact Hf|]. split; [exact H13|].
  destruct (GetWithHash_finds_what_is_stored 8 (table_after five_sets) 1 13
              Hs Hsize Hlay He Hf) as (_ & Hfound & _).
  destruct (GetWithHash_finds_what_is_stored 8 (table_after five_sets) 24 17
              Hs Hsize Hlay He Hf) as (_ & _ & Hmiss & _).
  split; [apply Hfound; exact H13|]. split; [exact H17|].
  apply Hmiss. exact H17.
Defined.

(** The deletion of the first of two entries that selected the same bucket:
    the second is shifted back, and the table, now at its shrink threshold,
    is rebuilt with 8 buckets. *)
Lemma DeleteWithHash_removes_witness :
  table_wf (table_after grown_then_three) /\
  2 ^ 16 <= Z.of_nat demo_fuel /\
  shrink_safe (table_after grown_then_three) /\
  len (buckets (table_after grown_then_three)) = 16 /\
  exists m',
    DeleteWithHash demo_fuel (table_after grown_then_three) 0 10
    = Ret (m', (110, true)) /\
    table_wf m' /\ len (buckets m') = 8 /\
    count m' = count (table_after grown_then_three) - 1 /\
    slot (buckets m') 0 = Entry (makeHDIB 16 1) 12 112 /\
    GetWithHash demo_fuel m' 0 10 = Ret (0, false) /\
    GetWithHash demo_fuel m' 16 12
    = GetWithHash demo_fuel (table_after grown_then_three) 16 12 /\
    GetWithHash demo_fuel m' 16 12 = Ret (112, true).
Proof.
  destruct grown_then_three_table as (Hwf & Hsafe).
  pose proof demo_fuel_enough as Hf.
  split; [exact Hwf|]. split; [exact Hf|]. split; [exact Hsafe|].
  split; [vm_compute; reflexivity|].
  destruct (DeleteWithHash_removes demo_fuel (table_after grown_then_three)
              0 10 Hwf Hf)
    as ((m' & prev & deleted & Hrun & _ & _ & _ & Hcase & _ & Hafter) & _).
  destruct (Hafter Hsafe) as (Hwf' & _ & Hgone & Hrest).
  assert (exists c,
            DeleteWithHash demo_fuel (table_after grown_then_three) 0 10
            = Ret (c, (110, true)) /\ len (buckets c) = 8 /\
            slot (buckets c) 0 = Entry (makeHDIB 16 1) 12 112)
    as (c & Ec & Elen & Eslot)
    by (eexists; split; [|split]; vm_compute; reflexivity).
  rewrite Hrun in Ec. injection Ec as <- -> ->.
  exists m'. split; [exact Hrun|]. split; [exact Hwf'|].
  split; [exact Elen|]. split; [apply Hcase|]. split; [exact Eslot|].
  split; [exact Hgone|].
  assert (GetWithHash demo_fuel m' 16 12
          = GetWithHash demo_fuel (table_after grown_then_three) 16 12) as E
    by (apply Hrest; intros [E _]; discriminate E).
  split; [exact E|]. rewrite E. vm_compute. reflexivity.
Defined.

(** Five entries, three of which selected the same bucket, moved from 8 to
    16 buckets. *)
Lemma resize_keeps_every_entry_witness :
  table_ok (table_after five_sets) /\ 16 <= 2 ^ 15 /\
  count (table_after five_sets) <= len (buckets (newShard Z Z 16)) /\
  len (buckets (newShard Z Z 16)) <= Z.of_nat 16 /\
  exists m',
    resize 16 (table_after five_sets) 16 = Ret m' /\
    len (buckets m') = 16 /\ count m' = 5 /\
    (forall h k v, stored m' h k v <-> stored (table_after five_sets) h k v) /\
    stored m' 16 12 112 /\
    GetWithHash 16 m' 16 12 = GetWithHash 16 (table_after five_sets) 16 12.
Proof.
  destruct five_sets_table as (Hwf & _ & Hst). pose proof Hwf as [Hok _].
  assert (16 <= 2 ^ 15) as Hc by lia.
  assert (count (table_after five_sets) <= len (buckets (newShard Z Z 16)))
    as Hr by (vm_compute; discriminate).
  assert (len (buckets (newShard Z Z 16)) <= Z.of_nat 16) as Hf
    by (vm_compute; discriminate).
  split; [exact Hok|]. split; [exact Hc|]. split; [exact Hr|].
  split; [exact Hf|].
  destruct (resize_keeps_every_entry 16 (table_after five_sets) 16 Hok Hc Hr Hf)
    as (m' & Hrun & _ & _ & El & Hcnt & Hsame & Hget).
  exists m'. split; [exact Hrun|].
  split; [rewrite El; vm_compute; reflexivity|].
  split; [rewrite Hcnt; vm_compute; reflexivity|]. split; [exact Hsame|].
  split; [apply Hsame, Hst; vm_compute; reflexivity|].
  apply Hget; vm_compute; first [reflexivity | discriminate].
Defined.

(** The five keys and values in bucket order, and a scan that is stopped at
    the third. *)
Lemma Keys_Values_Scan_agree_witness :
  0 <= count (table_after five_sets) <= len (buckets (table_after five_sets)) /\
  Keys (table_after five_sets) = Ret [10; 11; 12; 13; 14] /\
  Values (table_after five_sets) = Ret [110; 111; 112; 113; 114] /\
  Scan (table_after five_sets) (note_until 12) []
  = (visit (zip [10; 11; 12; 13; 14] [110; 111; 112; 113; 114])
           (note_until 12) []).1 /\
  Scan (table_after five_sets) (note_until 12) [] = [10; 11; 12].
Proof.
  assert (0 <= count (table_after five_sets)
          <= len (buckets (table_after five_sets))) as Hc
    by (vm_compute; split; discriminate).
  split; [exact Hc|].
  destruct (Keys_Values_Scan_agree (table_after five_sets) Hc)
    as ((ks & vs & Hk & Hv & _ & _ & _ & Hscan) & _).
  assert (Keys (table_after five_sets) = Ret [10; 11; 12; 13; 14]) as Ek
    by (vm_compute; reflexivity).
  assert (Values (table_after five_sets) = Ret [110; 111; 112; 113; 114]) as Ev
    by (vm_compute; reflexivity).
  rewrite Hk in Ek. rewrite Hv in Ev. injection Ek as ->. injection Ev as ->.
  split; [exact Hk|]. split; [exact Hv|].
  split; [apply Hscan|]. rewrite Hscan. vm_compute. reflexivity.
Defined.

(** A key behind two others of its shard, and a key that is not there. *)
Lemma Get_reports_what_the_map_holds_witness :
  map_wf u64 (map_after five_sets_map) /\ 2 ^ 15 <= Z.of_nat demo_fuel /\
  has u64 (map_after five_sets_map) 32 132 /\
  Get u64 demo_fuel (map_after five_sets_map) 32 = Ret (132, true) /\
  (forall v, ~ has u64 (map_after five_sets_map) 48 v) /\
  Get u64 demo_fuel (map_after five_sets_map) 48 = Ret (0, false).
Proof.
  destruct five_sets_map_ok as (Hok & _ & Hst).
  pose proof (map_ok_wf u64 _ Hok) as Hwf.
  pose proof demo_fuel_enough as Hf0.
  assert (2 ^ 15 <= Z.of_nat demo_fuel) as Hf by lia.
  assert (has u64 (map_after five_sets_map) 32 132) as H32
    by (apply Hst; vm_compute; reflexivity).
  assert (forall v, ~ has u64 (map_after five_sets_map) 48 v) as H48.
  { intros v Hv. apply Hst in Hv. vm_compute in Hv. discriminate Hv. }
  split; [exact Hwf|]. split; [exact Hf|]. split; [exact H32|].
  destruct (Get_reports_what_the_map_holds u64 demo_fuel
              (map_after five_sets_map) 32 Hwf Hf) as (_ & Hfound & _).
  destruct (Get_reports_what_the_map_holds u64 demo_fuel
              (map_after five_sets_map) 48 Hwf Hf) as (_ & _ & Hmiss & _).
  split; [apply Hfound; exact H32|]. split; [exact H48|].
  apply Hmiss. exact H48.
Defined.

(** The deletion of the first of three keys of a shard. *)
Lemma Get_after_Delete_witness :
  map_ok u64 (map_after five_sets_map) /\ 2 ^ 16 <= Z.of_nat demo_fuel /\
  exists M',
    Delete u64 demo_fuel (map_after five_sets_map) 0 = Ret (M', (100, true)) /\
    Get u64 demo_fuel (map_after five_sets_map) 0 = Ret (100, true) /\
    map_ok u64 M' /\
    Get u64 demo_fuel M' 0 = Ret (0, false) /\
    Get u64 demo_fuel M' 32 = Ret (132, true) /\
    MapLen (map_after five_sets_map) = 5 /\ MapLen M' = 4.
Proof.
  destruct five_sets_map_ok as (Hok & _ & _). pose proof demo_fuel_enough as Hf.
  split; [exact Hok|]. split; [exact Hf|].
  destruct (Get_after_Delete u64 demo_fuel (map_after five_sets_map) 0 Hok Hf)
    as (M' & prev & deleted & Hrun & Hget & _ & Hok' & Hgone & Hrest & Hlen).
  assert (Get u64 demo_fuel (map_after five_sets_map) 0 = Ret (100, true))
    as E0 by (vm_compute; reflexivity).
  rewrite Hget in E0. injection E0 as -> ->.
  exists M'. split; [exact Hrun|]. split; [exact Hget|].
  split; [exact Hok'|]. split; [exact Hgone|]. split.
  { rewrite Hrest by discriminate. vm_compute. reflexivity. }
  assert (MapLen (map_after five_sets_map) = 5) as E5
    by (vm_compute; reflexivity).
  split; [exact E5|]. rewrite Hlen, E5. reflexivity.
Defined.

(** A new key that [accept] rejects, a key whose new value [accept] rejects,
    and a new key that [accept] accepts. *)
Lemma SetAccept_commits_what_accept_accepts_witness :
  (forall k, 0 <= u64 k < 2 ^ 64) /\ map_ok u64 (map_after five_sets_map) /\
  shards_within (2 ^ 13) (map_after five_sets_map) /\
  2 ^ 16 <= Z.of_nat demo_fuel /\
  (exists M',
     SetAccept u64 demo_fuel (map_after five_sets_map) 48 148 (Some reject)
     = Ret (M', (0, false)) /\
     Get u64 demo_fuel M' 48 = Ret (0, false) /\
     Get u64 demo_fuel M' 32 = Ret (132, true) /\
     MapLen M' = MapLen (map_after five_sets_map)) /\
  (exists M',
     SetAccept u64 demo_fuel (map_after five_sets_map) 16 999 (Some reject)
     = Ret (M', (0, false)) /\
     Get u64 demo_fuel M' 16 = Ret (116, true) /\
     MapLen M' = MapLen (map_after five_sets_map)) /\
  (exists M',
     SetAccept u64 demo_fuel (map_after five_sets_map) 48 148 (Some accept_all)
     = Ret (M', (0, false)) /\
     Get u64 demo_fuel M' 48 = Ret (148, true) /\
     Get u64 demo_fuel M' 32 = Ret (132, true) /\
     MapLen M' = MapLen (map_after five_sets_map) + 1).
Proof.
  destruct five_sets_map_ok as (Hok & Hw & _). pose proof demo_fuel_enough as Hf.
  split; [exact u64_range|]. split; [exact Hok|]. split; [exact Hw|].
  split; [exact Hf|].
  assert (Get u64 demo_fuel (map_after five_sets_map) 48 = Ret (0, false))
    as E48 by (vm_compute; reflexivity).
  assert (Get u64 demo_fuel (map_after five_sets_map) 32 = Ret (132, true))
    as E32 by (vm_compute; reflexivity).
  assert (Get u64 demo_fuel (map_after five_sets_map) 16 = Ret (116, true))
    as E16 by (vm_compute; reflexivity).
  split; [|split].
  - destruct (proj1 (SetAccept_commits_what_accept_accepts u64 u64_range
                       demo_fuel (map_after five_sets_map) 48 148 reject
                       Hok Hw Hf))
      as (M' & prev & replaced & _ & Hrun & _ & Hcase & Hrest).
    cbv beta delta [reject] in Hrun, Hcase. destruct Hcase as [Hsame Hlen].
    exists M'. split; [exact Hrun|]. split; [rewrite Hsame; exact E48|].
    split; [rewrite Hrest by discriminate; exact E32 | exact Hlen].
  - destruct (proj1 (SetAccept_commits_what_accept_accepts u64 u64_range
                       demo_fuel (map_after five_sets_map) 16 999 reject
                       Hok Hw Hf))
      as (M' & prev & replaced & _ & Hrun & _ & Hcase & _).
    cbv beta delta [reject] in Hrun, Hcase. destruct Hcase as [Hsame Hlen].
    exists M'. split; [exact Hrun|]. split; [rewrite Hsame; exact E16|].
    exact Hlen.
  - destruct (proj1 (SetAccept_commits_what_accept_accepts u64 u64_range
                       demo_fuel (map_after five_sets_map) 48 148 accept_all
                       Hok Hw Hf))
      as (M' & prev & replaced & Hget & Hrun & _ & Hcase & Hrest).
    cbv beta delta [accept_all] in Hrun, Hcase.
    rewrite Hget in E48. injection E48 as -> ->.
    destruct Hcase as [Hnew Hlen].
    exists M'. split; [exact Hrun|]. split; [exact Hnew|].
    split; [rewrite Hrest by discriminate; exact E32 | exact Hlen].
Defined.

(** A deletion that [accept] rejects, so that the key is set again, behind
    the two entries that were shifted back, and one that [accept] accepts. *)
Lemma DeleteAccept_commits_what_accept_accepts_witness :
  (forall k, 0 <= u64 k < 2 ^ 64) /\ map_ok u64 (map_after five_sets_map) /\
  shards_within (2 ^ 14) (map_after five_sets_map) /\
  2 ^ 16 <= Z.of_nat demo_fuel /\
  (exists M',
     DeleteAccept u64 demo_fuel (map_after five_sets_map) 0 (Some reject)
     = Ret (M', (0, false)) /\
     Get u64 demo_fuel M' 0 = Ret (100, true) /\
     Get u64 demo_fuel M' 32 = Ret (132, true) /\
     MapLen M' = MapLen (map_after five_sets_map)) /\
  (exists M',
     DeleteAccept u64 demo_fuel (map_after five_sets_map) 0 (Some accept_all)
     = Ret (M', (100, true)) /\
     Get u64 demo_fuel M' 0 = Ret (0, false) /\
     Get u64 demo_fuel M' 32 = Ret (132, true) /\
     MapLen M' = MapLen (map_after five_sets_map) - 1).
Proof.
  destruct five_sets_map_ok as (Hok & Hw13 & _).
  pose proof demo_fuel_enough as Hf.
  assert (shards_within (2 ^ 14) (map_after five_sets_map)) as Hw.
  { apply Forall_lookup. intros s sh Hsh.
    pose proof (Forall_lookup_1 _ _ _ _ Hw13 Hsh) as Hl. cbv beta in Hl. lia. }
  split; [exact u64_range|]. split; [exact Hok|]. split; [exact Hw|].
  split; [exact Hf|].
  assert (Get u64 demo_fuel (map_after five_sets_map) 0 = Ret (100, true))
    as E0 by (vm_compute; reflexivity).
  assert (Get u64 demo_fuel (map_after five_sets_map) 32 = Ret (132, true))
    as E32 by (vm_compute; reflexivity).
  split.
  - destruct (proj1 (DeleteAccept_commits_what_accept_accepts u64 u64_range
                       demo_fuel (map_after five_sets_map) 0 reject
                       Hok Hw Hf))
      as (M' & prev & deleted & _ & Hrun & _ & Hcase & Hrest).
    cbv beta delta [reject] in Hrun, Hcase. destruct Hcase as [Hsame Hlen].
    exists M'. split; [exact Hrun|]. split; [rewrite Hsame; exact E0|].
    split; [rewrite Hrest by discriminate; exact E32 | exact Hlen].
  - destruct (proj1 (DeleteAccept_commits_what_accept_accepts u64 u64_range
                       demo_fuel (map_after five_sets_map) 0 accept_all
                       Hok Hw Hf))
      as (M' & prev & deleted & Hget & Hrun & _ & Hcase & Hrest).
    cbv beta delta [accept_all] in Hrun, Hcase.
    rewrite Hget in E0. injection E0 as -> ->.
    destruct Hcase as [Hgone Hlen].
    exists M'. split; [exact Hrun|]. split; [exact Hgone|].
    split; [rewrite Hrest by discriminate; exact E32 | exact Hlen].
Defined.

(** Five keys in three shards, and a [Range] that is stopped in the second
    shard. *)
Lemma Len_and_Range_cover_the_keys_witness :
  map_wf u64 (map_after five_sets_map) /\ 2 ^ 15 <= Z.of_nat demo_fuel /\
  map_items (map_after five_sets_map)
  = [(0, 100); (16, 116); (32, 132); (1, 101); (2, 102)] /\
  NoDup (map_items (map_after five_sets_map)).*1 /\
  ((32, 132) ∈ map_items (map_after five_sets_map)
   <-> Get u64 demo_fuel (map_after five_sets_map) 32 = Ret (132, true)) /\
  MapLen (map_after five_sets_map) = 5 /\
  Range (map_after five_sets_map) (note_until 1) [] = Ret [0; 16; 32; 1].
Proof.
  destruct five_sets_map_ok as (Hok & _ & _).
  pose proof (map_ok_wf u64 _ Hok) as Hwf.
  pose proof demo_fuel_enough as Hf0.
  assert (2 ^ 15 <= Z.of_nat demo_fuel) as Hf by lia.
  assert (map_items (map_after five_sets_map)
          = [(0, 100); (16, 116); (32, 132); (1, 101); (2, 102)]) as Ei
    by (vm_compute; reflexivity).
  split; [exact Hwf|]. split; [exact Hf|]. split; [exact Ei|].
  destruct (Len_and_Range_cover_the_keys u64 demo_fuel
              (map_after five_sets_map) Hwf Hf)
    as (Hnd & Hin & Hlen & Hrange).
  split; [exact Hnd|]. split; [apply Hin|].
  split; [rewrite Hlen, Ei; reflexivity|].
  rewrite Hrange, Ei. vm_compute. reflexivity.
Defined.

Lemma packed_fields_independent_witness :
  0 <= hdib (Entry (K:=Z) (V:=Z) 12345 1 2) < 2 ^ 64 /\
  dib (setDIB (Entry (K:=Z) (V:=Z) 12345 1 2) 70000) = 70000 mod 2 ^ 16 /\
  hash (setDIB (Entry (K:=Z) (V:=Z) 12345 1 2) 70000) = hash (Entry 12345 1 2).
Proof.
  assert (0 <= hdib (Entry (K:=Z) (V:=Z) 12345 1 2) < 2 ^ 64) as Hw
    by (cbn [hdib]; lia).
  split; [exact Hw|].
  destruct (packed_fields_independent (Entry (K:=Z) (V:=Z) 12345 1 2)
              (2 ^ 50 + 5) 70000 1 2 Hw) as ((H1 & H2 & _) & _).
  split; assumption.
Defined.

Lemma newShard_smallest_power_of_two_witness :
  33 <= 2 ^ 62 /\
  (exists k, 3 <= k <= 62 /\ len (buckets (newShard Z Z 33)) = 2 ^ k /\
             (k = 3 \/ 2 ^ (k - 1) < 33)) /\
  33 <= len (buckets (newShard Z Z 33)).
Proof.
  assert (33 <= 2 ^ 62) as Hc by lia. split; [exact Hc|].
  destruct (newShard_smallest_power_of_two (K:=Z) (V:=Z) 33 Hc)
    as (H1 & H2 & _).
  split; assumption.
Defined.

Lemma SetWithHash_stores_witness :
  table_wf (newShard Z Z 0) /\ 0 <= 5 < 2 ^ 48 /\
  len (buckets (newShard Z Z 0)) <= 2 ^ 14 /\
  2 ^ 15 <= Z.of_nat (Z.to_nat (2 ^ 15)) /\
  exists m' prev replaced,
    SetWithHash (Z.to_nat (2 ^ 15)) (newShard Z Z 0) 5 7 9
    = Ret (m', (prev, replaced)) /\
    GetWithHash (Z.to_nat (2 ^ 15)) m' 5 7 = Ret (9, true).
Proof.
  assert (table_wf (newShard Z Z 0)) as Hwf by (apply newShard_ok; lia).
  assert (0 <= 5 < 2 ^ 48) as Hh by lia.
  assert (len (buckets (newShard Z Z 0)) <= 2 ^ 14) as Hl
    by (vm_compute; discriminate).
  assert (2 ^ 15 <= Z.of_nat (Z.to_nat (2 ^ 15))) as Hf by lia.
  split; [exact Hwf|]. split; [exact Hh|]. split; [exact Hl|].
  split; [exact Hf|].
  destruct (SetWithHash_stores (Z.to_nat (2 ^ 15)) (newShard Z Z 0) 5 7 9
              Hwf Hh Hl Hf)
    as (m' & prev & replaced & Hrun & _ & _ & _ & _ & Hget & _).
  exists m', prev, replaced. split; assumption.
Defined.

Lemma safe_hint_tables_stay_well_formed_witness :
  safe_cap 0 /\ len nine_then_delete <= 2 ^ 12 /\
  Forall (fun op => 0 <= op_hash op < 2 ^ 48) nine_then_delete /\
  2 ^ 16 <= Z.of_nat (Z.to_nat (2 ^ 16)) /\
  exists m,
    run_ops (Z.to_nat (2 ^ 16)) nine_then_delete (newShard Z Z 0) = Ret m /\
    count m < len (buckets m).
Proof.
  assert (safe_cap 0) as Hc by (left; lia).
  assert (len nine_then_delete <= 2 ^ 12) as Hl by (vm_compute; discriminate).
  assert (Forall (fun op => 0 <= op_hash op < 2 ^ 48) nine_then_delete) as Ho
    by (repeat constructor; vm_compute; discriminate).
  assert (2 ^ 16 <= Z.of_nat (Z.to_nat (2 ^ 16))) as Hf by lia.
  split; [exact Hc|]. split; [exact Hl|]. split; [exact Ho|].
  split; [exact Hf|].
  destruct (safe_hint_tables_stay_well_formed (Z.to_nat (2 ^ 16)) 0
              nine_then_delete Hc Hl Ho Hf) as (m & Hrun & _ & _ & Hroom & _).
  exists m. split; assumption.
Defined.

Lemma New_builds_empty_shards_witness :
  1 <= 1 <= 2 ^ 58 /\ Z.quot 0 (shards (New Z Z 1 0)) <= 2 ^ 62 /\
  MapLen (New Z Z 1 0) = 0 /\
  Get u64 1 (New Z Z 1 0) 5 = Ret (zeroV, false).
Proof.
  assert (1 <= 1 <= 2 ^ 58) as Hn by lia.
  assert (Z.quot 0 (shards (New Z Z 1 0)) <= 2 ^ 62) as Hc
    by (vm_compute; discriminate).
  split; [exact Hn|]. split; [exact Hc|].
  destruct (New_builds_empty_shards u64 1 0 O 5 Hn Hc)
    as (_ & _ & _ & _ & _ & Hlen & Hget & _).
  split; assumption.
Defined.

Lemma Clear_restores_New_witness :
  exists M,
    run_map_ops demoHash 16 [MSet 5 7] (New Z Z 1 0) = Ret M /\
    Clear M = New Z Z 1 0.
Proof.
  eexists. split; [vm_compute; reflexivity|].
  refine (proj1 (Clear_restores_New demoHash 16 1 0 [MSet 5 7] _ _)).
  vm_compute. reflexivity.
Defined.

Lemma Get_after_Set_witness :
  (forall k, 0 <= u64 k < 2 ^ 64) /\ map_ok u64 (New Z Z 1 0) /\
  shards_within (2 ^ 14) (New Z Z 1 0) /\
  2 ^ 15 <= Z.of_nat (Z.to_nat (2 ^ 15)) /\
  exists M' prev replaced,
    Set_ u64 (Z.to_nat (2 ^ 15)) (New Z Z 1 0) 5 7 = Ret (M', (prev, replaced)) /\
    Get u64 (Z.to_nat (2 ^ 15)) M' 5 = Ret (7, true).
Proof.
  assert (2 ^ 15 <= Z.of_nat (Z.to_nat (2 ^ 15))) as Hf by lia.
  assert (shards_within (2 ^ 14) (New Z Z 1 0)) as Hw
    by (apply fresh_map_within; lia).
  split; [exact u64_range|]. split; [exact fresh_map_ok|].
  split; [exact Hw|]. split; [exact Hf|].
  destruct (Get_after_Set u64 u64_range (Z.to_nat (2 ^ 15)) (New Z Z 1 0) 5 7
              fresh_map_ok Hw Hf)
    as (M' & prev & replaced & Hrun & _ & _ & _ & Hget & _).
  exists M', prev, replaced. split; assumption.
Defined.

Lemma map_behaves_like_a_go_map_witness :
  (forall k, 0 <= u64 k < 2 ^ 64) /\
  safe_cap (Z.quot 0 (shards (New Z Z 1 0))) /\
  len nine_then_delete_map <= 2 ^ 12 /\
  2 ^ 16 <= Z.of_nat (Z.to_nat (2 ^ 16)) /\
  exists M,
    run_map_ops u64 (Z.to_nat (2 ^ 16)) nine_then_delete_map (New Z Z 1 0)
    = Ret M /\
    map_ok u64 M.
Proof.
  assert (safe_cap (Z.quot 0 (shards (New Z Z 1 0)))) as Hc
    by (left; vm_compute; discriminate).
  assert (len nine_then_delete_map <= 2 ^ 12) as Hl
    by (vm_compute; discriminate).
  assert (2 ^ 16 <= Z.of_nat (Z.to_nat (2 ^ 16))) as Hf by lia.
  split; [exact u64_range|]. split; [exact Hc|]. split; [exact Hl|].
  split; [exact Hf|].
  destruct (map_behaves_like_a_go_map u64 u64_range (Z.to_nat (2 ^ 16)) 1 0
              nine_then_delete_map Hc Hl Hf) as (M & Hrun & Hok & _).
  exists M. split; assumption.
Defined.
